(** * RMS-norm GPU kernels (jax/docs/gpu_ops/rms_norm_kernels.cu)

    A shallow embedding of the CUDA kernels and of their host launchers.

    - Numbers.  The C++ templates are instantiated by the dispatch macro at a
      triple (scalar_t_in, accscalar_t, scalar_t_out) = (T, U, V).  All three
      are embedded in one carrier [num]; the arithmetic of the accumulation
      type U, the arithmetic of the storage type V and the casts between the
      types are the fields of a record [Numerics].  The exact instance
      [exactQ] takes [num := Qc] (canonical rationals), every cast the
      identity and every operation the rational one.
    - Integers.  [int] quantities (sizes, indices, thread coordinates) are
      natural numbers; the development covers the sizes for which the index
      arithmetic of the source stays inside the range of [int].
    - Threads.  A thread block is a family of register files indexed by
      (threadIdx.x, threadIdx.y).  The code between two barriers is run by
      the threads one after the other, in the order of the linear thread
      index; warp shuffles exchange the registers of the lanes of one warp
      (one value of threadIdx.y: blockDim.x == warpSize is assumption 1 of
      the source).
    - Memory.  Global memory maps a buffer and an offset to a number, shared
      memory an index to a number; a pointer parameter is a buffer, or NULL.
    - Loops.  A [for] loop is the list of the values its index takes,
      computed with a trip bound that the loop provably never reaches. *)

From Stdlib Require Import Arith PeanoNat Lia List Bool Permutation FinFun.
From Stdlib Require Import QArith Qcanon Qround Zify ZifyNat PreOmega.
Import ListNotations.

Set Implicit Arguments.
Local Open Scope nat_scope.

(** ** Arithmetic of one dispatch branch *)

Record Numerics (num : Type) : Type := {
  (* accscalar_t = U *)
  n_zero : num;                       (* U(0) *)
  n_one : num;                        (* U(1) *)
  n_add : num -> num -> num;
  n_sub : num -> num -> num;
  n_mul : num -> num -> num;
  n_div : num -> num -> num;
  n_gt0 : num -> bool;                (* x > U(0) *)
  n_of_int : nat -> num;              (* U(n) for an int n *)
  n_of_double : num -> num;           (* U(epsilon) for a double epsilon *)
  n_rsqrt : num -> num;               (* rsqrt *)
  (* casts *)
  n_T2U : num -> num;                 (* static_cast<U>(T) *)
  n_V2U : num -> num;                 (* static_cast<U>(V) *)
  n_U2V : num -> num;                 (* static_cast<V>(U) *)
  n_U2T : num -> num;                 (* static_cast<T>(U) *)
  (* scalar_t_out = V *)
  n_vmul : num -> num -> num;
  n_vadd : num -> num -> num
}.

(** Exact arithmetic: U = T = V = the rationals.  The reciprocal square root
    is not a rational function; it stays a parameter. *)
Definition Qc_gt0 (x : Qc) : bool :=
  match Qccompare 0%Qc x with Lt => true | _ => false end.

Definition Qc_of_nat (n : nat) : Qc := Q2Qc (inject_Z (Z.of_nat n)).

Definition exactQ (rsqrt_fn : Qc -> Qc) : Numerics Qc := {|
  n_zero := 0%Qc; n_one := 1%Qc;
  n_add := Qcplus; n_sub := Qcminus; n_mul := Qcmult; n_div := Qcdiv;
  n_gt0 := Qc_gt0; n_of_int := Qc_of_nat; n_of_double := fun e => e;
  n_rsqrt := rsqrt_fn;
  n_T2U := fun x => x; n_V2U := fun x => x;
  n_U2V := fun x => x; n_U2T := fun x => x;
  n_vmul := Qcmult; n_vadd := Qcplus
|}.

(** An arithmetic that tells the storage type V from the accumulation type:
    U and T are the rationals, V holds integers only, and the cast from U to
    V rounds down. *)
Definition Qc_floor (x : Qc) : Qc := Q2Qc (inject_Z (Qfloor (this x))).

Definition integerV (rsqrt_fn : Qc -> Qc) : Numerics Qc := {|
  n_zero := 0%Qc; n_one := 1%Qc;
  n_add := Qcplus; n_sub := Qcminus; n_mul := Qcmult; n_div := Qcdiv;
  n_gt0 := Qc_gt0; n_of_int := Qc_of_nat; n_of_double := fun e => e;
  n_rsqrt := rsqrt_fn;
  n_T2U := fun x => x; n_V2U := fun x => x;
  n_U2V := Qc_floor; n_U2T := fun x => x;
  n_vmul := Qcmult; n_vadd := Qcplus
|}.

(** ** The streaming accumulators (lines 148-184) *)

Section Accumulators.
Context {num : Type} (N : Numerics num).

Local Notation "a +! b" := (n_add N a b) (at level 50, left associativity).
Local Notation "a -! b" := (n_sub N a b) (at level 50, left associativity).
Local Notation "a *! b" := (n_mul N a b) (at level 40, left associativity).
Local Notation "a /! b" := (n_div N a b) (at level 40, left associativity).

(** The registers (mu, sigma2, count) of one thread. *)
Record moments : Type := Moments { mu : num; sigma2 : num; count : num }.

Definition cuWelfordOnlineSum (curr : num) (a : moments) : moments :=
  let count := count a +! n_one N in
  let delta := curr -! mu a in
  let lmean := mu a +! delta /! count in
  let mu := lmean in
  let delta2 := curr -! lmean in
  let sigma2 := sigma2 a +! delta *! delta2 in
  Moments mu sigma2 count.

Definition cuChanOnlineSum (muB sigma2B countB : num) (a : moments) : moments :=
  let delta := muB -! mu a in
  let nA := count a in
  let nB := countB in
  let count := count a +! countB in
  let nX := count in
  if n_gt0 N nX then
    let nA := nA /! nX in
    let nB := nB /! nX in
    let mu' := nA *! mu a +! nB *! muB in
    let sigma2 := sigma2 a +! sigma2B +! delta *! delta *! nA *! nB *! nX in
    Moments mu' sigma2 count
  else
    Moments (n_zero N) (n_zero N) count.

Definition cuRMSOnlineSum (curr : num) (sigma2 : num) : num :=
  sigma2 +! curr *! curr.

Definition cuChanRMSOnlineSum (sigma2B : num) (sigma2 : num) : num :=
  sigma2 +! sigma2B.

End Accumulators.

(** ** Execution model: grids, blocks, memories, loops *)

Record dim3 : Type := Dim3 { dim_x : nat; dim_y : nat; dim_z : nat }.

(** The warp width of the device. *)
Definition warpSize : nat := 32.

(** The values taken by the index of [for (l = l0; cond l; l = next l)], in
    order, and the value at which the loop is left.  [fuel] bounds the number
    of trips. *)
Fixpoint loop_while (fuel : nat) (cond : nat -> bool) (next : nat -> nat)
  (l : nat) : list nat * nat :=
  match fuel with
  | O => ([], l)
  | S fuel' =>
      if cond l then
        let r := loop_while fuel' cond next (next l) in (l :: fst r, snd r)
      else ([], l)
  end.

(** The (x, y) coordinates below [d], in the order of the linear index
    x + y * dim_x: the threads of a block, or the blocks of a grid. *)
Definition coords (d : dim3) : list (nat * nat) :=
  flat_map (fun y => map (fun x => (x, y)) (seq 0 (dim_x d))) (seq 0 (dim_y d)).

(** One barrier-delimited phase: every thread of the block runs [f]. *)
Definition foreach_thread {S : Type} (blockDim : dim3)
  (f : nat -> nat -> S -> S) (s : S) : S :=
  fold_left (fun s t => f (fst t) (snd t) s) (coords blockDim) s.

(** [__shfl_sync(0xffffffff, var, srcLane, width)] with width = warpSize, and
    [__shfl_xor_sync(0xffffffff, var, laneMask, warpSize)] seen from [lane]:
    [var] gives the register of every lane of the warp. *)
Definition shfl_sync {A : Type} (var : nat -> A) (srcLane width : nat) : A :=
  var (srcLane mod width).

Definition shfl_xor_sync {A : Type} (var : nat -> A) (lane laneMask : nat) : A :=
  var (Nat.lxor lane laneMask).

Section Memory.
Context {num : Type}.

(** Shared memory of a block (the [extern __shared__] array), and one global
    buffer: offset to value. *)
Definition smem : Type := nat -> num.

Definition upd (m : nat -> num) (i : nat) (v : num) : nat -> num :=
  fun j => if Nat.eqb j i then v else m j.

(** Global memory: buffer, then offset. *)
Definition gmem : Type := nat -> nat -> num.

(** A pointer argument: NULL or the buffer it points to. *)
Definition ptr : Type := option nat.

Definition is_null (p : ptr) : bool :=
  match p with None => true | Some _ => false end.

(** [p[i]] read and [p[i] = v].  No reachable path of the source
    dereferences a NULL pointer; the model gives such an access no effect
    (a read returns [dflt]). *)
Definition load (dflt : num) (g : gmem) (p : ptr) (i : nat) : num :=
  match p with Some b => g b i | None => dflt end.

Definition store (g : gmem) (p : ptr) (i : nat) (v : num) : gmem :=
  match p with
  | Some b => fun b' => if Nat.eqb b' b then upd (g b) i v else g b'
  | None => g
  end.

End Memory.

(** A kernel launch [<<<gridDim, blockDim, nshared>>>]: the blocks run one
    after the other, each on a shared memory of its own whose initial
    contents [junk] are arbitrary. *)
Definition launch_grid {num : Type} (gridDim : dim3)
  (junk : nat -> nat -> @smem num)
  (block : nat -> nat -> @gmem num * @smem num -> @gmem num * @smem num)
  (g : @gmem num) : @gmem num :=
  fold_left (fun g b => fst (block (fst b) (snd b) (g, junk (fst b) (snd b))))
            (coords gridDim) g.

(** ** The streaming moment estimator (lines 186-406) *)

Section Estimator.
Context {num : Type} (N : Numerics num).

Local Notation "a +! b" := (n_add N a b) (at level 50, left associativity).
Local Notation "a -! b" := (n_sub N a b) (at level 50, left associativity).
Local Notation "a *! b" := (n_mul N a b) (at level 40, left associativity).
Local Notation "a /! b" := (n_div N a b) (at level 40, left associativity).
Local Abbreviation ld := (load (n_zero N)).

(** One element consumed by a thread. *)
Definition online_step (rms_only : bool) (curr : num) (a : moments (num:=num))
  : moments :=
  if negb rms_only then cuWelfordOnlineSum N curr a
  else Moments (mu a) (cuRMSOnlineSum N curr (sigma2 a)) (count a).

(** The elements of the row that thread [thrx] consumes, in order.
    Generic template (lines 206-224):
      l = 4*thrx; for (; l+3 < n2; l += 4*numx) for k < 4: lvals[l+k];
      for (; l < n2; ++l) lvals[l]. *)
Definition row_indices (n2 numx thrx : nat) : list nat :=
  let main := loop_while n2 (fun l => l + 3 <? n2) (fun l => l + 4 * numx)
                         (4 * thrx) in
  flat_map (fun l => map (fun k => l + k) (seq 0 4)) (fst main)
  ++ fst (loop_while n2 (fun l => l <? n2) (fun l => l + 1) (snd main)).

(** __half specialisation (lines 309-343):
      l = 8*thrx;
      if (lvals is not 32-bit aligned) { if (thrx == 0) lvals[0]; ++l; }
      for (; l+7 < n2; l += 8*numx) for k in 0,2,4,6: lvals[l+k], lvals[l+k+1];
      for (; l < n2; ++l) lvals[l]. *)
Definition row_indices_half (misaligned : bool) (n2 numx thrx : nat) : list nat :=
  let l0 := 8 * thrx in
  let first := if misaligned then (if thrx =? 0 then [0] else []) else [] in
  let l1 := if misaligned then l0 + 1 else l0 in
  let main := loop_while n2 (fun l => l + 7 <? n2) (fun l => l + 8 * numx) l1 in
  first
  ++ flat_map (fun l => flat_map (fun k => [l + k; l + k + 1]) [0; 2; 4; 6])
              (fst main)
  ++ fst (loop_while n2 (fun l => l <? n2) (fun l => l + 1) (snd main)).

(** The registers of a thread after its private pass over [idxs]. *)
Definition thread_moments (g : gmem) (vals : ptr) (i1 n2 : nat)
  (rms_only : bool) (idxs : list nat) : moments :=
  fold_left (fun a l => online_step rms_only (n_T2U N (ld g vals (i1 * n2 + l))) a)
            idxs (Moments (n_zero N) (n_zero N) (n_zero N)).

(** One step of the intra-warp reduction (lines 226-236), warp [ty]. *)
Definition intra_warp_step (rms_only : bool) (l : nat)
  (r : nat -> nat -> moments (num:=num)) : nat -> nat -> moments :=
  fun tx ty =>
    let srcLaneB := Nat.land (tx + Nat.shiftl 1 l) 31 in
    let sigma2B := shfl_sync (fun lane => sigma2 (r lane ty)) srcLaneB warpSize in
    if negb rms_only then
      let muB := shfl_sync (fun lane => mu (r lane ty)) srcLaneB warpSize in
      let countB := shfl_sync (fun lane => count (r lane ty)) srcLaneB warpSize in
      cuChanOnlineSum N muB sigma2B countB (r tx ty)
    else
      Moments (mu (r tx ty)) (cuChanRMSOnlineSum N sigma2B (sigma2 (r tx ty)))
              (count (r tx ty)).

(** Inter-warp reduction, "upper half of warps write to shared"
    (lines 244-252; the specialisation, lines 363-371, stores sigma2 first).
    ubuf = buf, ibuf = ubuf + blockDim.y. *)
Definition inter_warp_write (half rms_only : bool) (blockDim_y offset : nat)
  (r : nat -> nat -> moments (num:=num)) (tx ty : nat) (buf : smem) : smem :=
  if (tx =? 0) && (offset <=? ty) && (ty <? 2 * offset) then
    let wrt_y := ty - offset in
    if half then
      let buf := upd buf (2 * wrt_y + 1) (sigma2 (r tx ty)) in
      if negb rms_only then
        upd (upd buf (2 * wrt_y) (mu (r tx ty))) (blockDim_y + wrt_y) (count (r tx ty))
      else buf
    else
      let buf := if negb rms_only then
                   upd (upd buf (2 * wrt_y) (mu (r tx ty)))
                       (blockDim_y + wrt_y) (count (r tx ty))
                 else buf in
      upd buf (2 * wrt_y + 1) (sigma2 (r tx ty))
  else buf.

(** "lower half merges" (lines 255-264). *)
Definition inter_warp_merge (rms_only : bool) (blockDim_y offset : nat)
  (buf : smem) (r : nat -> nat -> moments (num:=num)) : nat -> nat -> moments :=
  fun tx ty =>
    if (tx =? 0) && (ty <? offset) then
      let sigma2B := buf (2 * ty + 1) in
      if negb rms_only then
        let muB := buf (2 * ty) in
        let countB := buf (blockDim_y + ty) in
        cuChanOnlineSum N muB sigma2B countB (r tx ty)
      else
        Moments (mu (r tx ty)) (cuChanRMSOnlineSum N sigma2B (sigma2 (r tx ty)))
                (count (r tx ty))
    else r tx ty.

(** cuWelfordMuSigma2: the registers (mu, sigma2) of every thread on return,
    and the shared memory.  [half] selects the __half/float specialisation,
    [misaligned] is its test (((size_t)lvals) & 3) != 0. *)
Definition cuWelfordMuSigma2 (half misaligned : bool) (blockDim : dim3)
  (g : gmem) (vals : ptr) (n1 n2 i1 : nat) (buf : smem) (rms_only : bool)
  : (nat -> nat -> num * num) * smem :=
  let bx := dim_x blockDim in
  let bdy := dim_y blockDim in
  if i1 <? n1 then
    let numx := bx * bdy in
    let r0 := fun tx ty =>
      let thrx := tx + ty * bx in
      thread_moments g vals i1 n2 rms_only
        (if half then row_indices_half misaligned n2 numx thrx
         else row_indices n2 numx thrx) in
    (* intra-warp reductions *)
    let r1 := fold_left (fun r l => intra_warp_step rms_only l r) (seq 0 5) r0 in
    (* inter-warp reductions *)
    if 1 <? bdy then
      let st := fold_left
        (fun (st : (nat -> nat -> moments) * smem) offset =>
           let buf' := foreach_thread blockDim
                         (inter_warp_write half rms_only bdy offset (fst st))
                         (snd st) in
           (* __syncthreads *)
           (inter_warp_merge rms_only bdy offset buf' (fst st), buf'))
           (* __syncthreads *)
        (fst (loop_while bdy (fun o => 0 <? o) (fun o => o / 2) (bdy / 2)))
        (r1, buf) in
      let r2 := fst st in
      let buf3 := foreach_thread blockDim
        (fun tx ty b =>
           if (tx =? 0) && (ty =? 0) then
             let b := if negb rms_only then upd b 0 (mu (r2 tx ty)) else b in
             upd b 1 (sigma2 (r2 tx ty))
           else b) (snd st) in
      (* __syncthreads *)
      (fun tx ty =>
         ((if negb rms_only then buf3 0 else mu (r2 tx ty)),
          buf3 1 /! n_of_int N n2),
       buf3)
    else
      (fun tx ty =>
         ((if negb rms_only
           then shfl_sync (fun lane => mu (r1 lane ty)) 0 warpSize
           else mu (r1 tx ty)),
          shfl_sync (fun lane => sigma2 (r1 lane ty) /! n_of_int N n2) 0 warpSize),
       buf)
  else
    (fun _ _ => (n_zero N, n_zero N), buf).

End Estimator.

(** ** Forward pass (lines 439-498) *)

Section Forward.
Context {num : Type} (N : Numerics num).

Local Notation "a +! b" := (n_add N a b) (at level 50, left associativity).
Local Notation "a -! b" := (n_sub N a b) (at level 50, left associativity).
Local Notation "a *! b" := (n_mul N a b) (at level 40, left associativity).
Local Notation "a /! b" := (n_div N a b) (at level 40, left associativity).
Local Abbreviation ld := (load (n_zero N)).

(** What one thread of the block does for row [i1] once cuWelfordMuSigma2 has
    returned [mu] and [sigma2] to it (lines 456-486). *)
Definition cuApplyLayerNorm_thread (blockDim : dim3)
  (output_vals mean invvar vals : ptr) (n2 : nat) (epsilon : num)
  (gamma beta : ptr) (rms_only : bool) (i1 : nat) (mu sigma2 : num)
  (tx ty : nat) (g : gmem) : gmem :=
  let c_invvar := n_rsqrt N (sigma2 +! epsilon) in
  let numx := dim_x blockDim * dim_y blockDim in
  let thrx := tx + ty * dim_x blockDim in
  let cols := fst (loop_while n2 (fun i => i <? n2) (fun i => i + numx) thrx) in
  let g :=
    if negb (is_null gamma) && (negb (is_null beta) || rms_only) then
      fold_left
        (fun g i =>
           let curr := n_T2U N (ld g vals (i1 * n2 + i)) in
           if negb rms_only then
             store g output_vals (i1 * n2 + i)
               (n_vadd N (n_vmul N (ld g gamma i)
                                   (n_U2V N (c_invvar *! (curr -! mu))))
                         (ld g beta i))
           else
             store g output_vals (i1 * n2 + i)
               (n_vmul N (ld g gamma i) (n_U2V N (c_invvar *! curr))))
        cols g
    else
      fold_left
        (fun g i =>
           let curr := n_T2U N (ld g vals (i1 * n2 + i)) in
           if negb rms_only then
             store g output_vals (i1 * n2 + i)
                   (n_U2V N (c_invvar *! (curr -! mu)))
           else
             store g output_vals (i1 * n2 + i) (n_U2V N (c_invvar *! curr)))
        cols g in
  if (tx =? 0) && (ty =? 0) then
    let g := if negb rms_only then store g mean i1 mu else g in
    store g invvar i1 c_invvar
  else g.

(** The body of the row loop of cuApplyLayerNorm_ (lines 451-487), run by
    the whole block for row [i1]. *)
Definition cuApplyLayerNorm_row (half : bool) (misaligned : nat -> bool)
  (blockDim : dim3) (output_vals mean invvar vals : ptr) (n1 n2 : nat)
  (epsilon : num) (gamma beta : ptr) (rms_only : bool) (i1 : nat)
  (st : gmem * smem) : gmem * smem :=
  let ws := cuWelfordMuSigma2 N half (misaligned i1) blockDim (fst st) vals
                              n1 n2 i1 (snd st) rms_only in
  let g' := foreach_thread blockDim
    (fun tx ty g =>
       cuApplyLayerNorm_thread blockDim output_vals mean invvar vals n2 epsilon
         gamma beta rms_only i1 (fst (fst ws tx ty)) (snd (fst ws tx ty)) tx ty g)
    (fst st) in
  (* __syncthreads *)
  (g', snd ws).

(** cuApplyLayerNorm_ for the block [blockIdx]:
    for (auto i1 = blockIdx.y; i1 < n1; i1 += gridDim.y). *)
Definition cuApplyLayerNorm_ (half : bool) (misaligned : nat -> bool)
  (blockDim gridDim : dim3) (blockIdx_y : nat)
  (output_vals mean invvar vals : ptr) (n1 n2 : nat) (epsilon : num)
  (gamma beta : ptr) (rms_only : bool) (st : gmem * smem) : gmem * smem :=
  fold_left
    (fun st i1 =>
       cuApplyLayerNorm_row half misaligned blockDim output_vals mean invvar
                            vals n1 n2 epsilon gamma beta rms_only i1 st)
    (fst (loop_while n1 (fun i1 => i1 <? n1) (fun i1 => i1 + dim_y gridDim)
                     blockIdx_y))
    st.

Definition cuApplyRMSNorm (half : bool) (misaligned : nat -> bool)
  (blockDim gridDim : dim3) (blockIdx_y : nat)
  (output_vals invvar vals : ptr) (n1 n2 : nat) (epsilon : num) (gamma : ptr)
  (st : gmem * smem) : gmem * smem :=
  cuApplyLayerNorm_ half misaligned blockDim gridDim blockIdx_y
                    output_vals None invvar vals n1 n2 epsilon gamma None true st.

End Forward.

(** ** Parameter gradients (lines 519-730) *)

Section ParamGrad.
Context {num : Type} (N : Numerics num).

Local Notation "a +! b" := (n_add N a b) (at level 50, left associativity).
Local Notation "a -! b" := (n_sub N a b) (at level 50, left associativity).
Local Notation "a *! b" := (n_mul N a b) (at level 40, left associativity).
Local Notation "a /! b" := (n_div N a b) (at level 40, left associativity).
Local Abbreviation ld := (load (n_zero N)).

(** [warp_buf1] and [warp_buf2] are the offsets of the two tiles in the
    shared array. *)
Definition cuLoadWriteStridedInputs (blockDim : dim3)
  (i1_block thr_load_row_off thr_load_col_off i2_off row_stride : nat)
  (warp_buf1 warp_buf2 : nat) (g : gmem) (input dout : ptr) (i1_end n2 : nat)
  (mean invvar : ptr) (rms_only : bool) (buf : smem) : smem :=
  let i1 := i1_block + thr_load_row_off in
  if i1 <? i1_end then
    let curr_mean := if negb rms_only then ld g mean i1 else n_zero N in
    let curr_invvar := ld g invvar i1 in
    fold_left
      (fun buf k =>
         let i2 := i2_off + k in
         let load_idx := i1 * n2 + i2 in
         let write_idx := thr_load_row_off * row_stride + thr_load_col_off + k in
         if i2 <? n2 then
           let curr_input := n_T2U N (ld g input load_idx) in
           let curr_dout := n_V2U N (ld g dout load_idx) in
           if negb rms_only then
             upd (upd buf (warp_buf1 + write_idx) curr_dout)
                 (warp_buf2 + write_idx)
                 (curr_dout *! (curr_input -! curr_mean) *! curr_invvar)
           else
             upd buf (warp_buf2 + write_idx)
                 (curr_dout *! curr_input *! curr_invvar)
         else
           let buf := if negb rms_only then upd buf (warp_buf1 + write_idx) (n_zero N)
                      else buf in
           upd buf (warp_buf2 + write_idx) (n_zero N))
      (seq 0 (dim_y blockDim)) buf
  else
    fold_left
      (fun buf k =>
         let write_idx := thr_load_row_off * row_stride + thr_load_col_off + k in
         let buf := if negb rms_only then upd buf (warp_buf1 + write_idx) (n_zero N)
                    else buf in
         upd buf (warp_buf2 + write_idx) (n_zero N))
      (seq 0 (dim_y blockDim)) buf.

Definition cuLoadAddStridedInputs (blockDim : dim3)
  (i1_block thr_load_row_off thr_load_col_off i2_off row_stride : nat)
  (warp_buf1 warp_buf2 : nat) (g : gmem) (input dout : ptr) (i1_end n2 : nat)
  (mean invvar : ptr) (rms_only : bool) (buf : smem) : smem :=
  let i1 := i1_block + thr_load_row_off in
  if i1 <? i1_end then
    let curr_mean := if negb rms_only then ld g mean i1 else n_zero N in
    let curr_invvar := ld g invvar i1 in
    fold_left
      (fun buf k =>
         let i2 := i2_off + k in
         let load_idx := i1 * n2 + i2 in
         let write_idx := thr_load_row_off * row_stride + thr_load_col_off + k in
         if i2 <? n2 then
           let curr_input := n_T2U N (ld g input load_idx) in
           let curr_dout := n_V2U N (ld g dout load_idx) in
           if negb rms_only then
             let buf := upd buf (warp_buf1 + write_idx)
                            (buf (warp_buf1 + write_idx) +! curr_dout) in
             upd buf (warp_buf2 + write_idx)
                 (buf (warp_buf2 + write_idx)
                  +! curr_dout *! (curr_input -! curr_mean) *! curr_invvar)
           else
             upd buf (warp_buf2 + write_idx)
                 (buf (warp_buf2 + write_idx)
                  +! curr_dout *! curr_input *! curr_invvar)
         else buf)
      (seq 0 (dim_y blockDim)) buf
  else buf.

(** The strided loads of thread (tx, ty) of block column [blockIdx_x] for
    the rows i1_beg <= i1 < i1_end (lines 608-629): its cells of the two
    tiles [warp_buf1] and [warp_buf2] of the shared array. *)
Definition cuComputePartGradGammaBeta_load (blockDim : dim3)
  (blockIdx_x i1_beg i1_end : nat) (g : gmem) (dout input : ptr) (n1 n2 : nat)
  (mean invvar : ptr) (rms_only : bool) (tx ty : nat) (buf : smem) : smem :=
  let bx := dim_x blockDim in
  let bdy := dim_y blockDim in
  let row_stride := bx + 1 in
  let thr_load_col_off := Nat.land (tx * bdy) (bx - 1) in
  let thr_load_row_off := (tx * bdy) / bx + ty * bdy in
  let i2_off := blockIdx_x * bx + thr_load_col_off in
  let warp_buf1 := 0 in
  let warp_buf2 := warp_buf1 + bdy * bdy * row_stride in
  let buf := cuLoadWriteStridedInputs blockDim i1_beg
               thr_load_row_off thr_load_col_off i2_off
               row_stride warp_buf1 warp_buf2 g input dout i1_end n2
               mean invvar rms_only buf in
  fold_left
    (fun buf i1_block =>
       cuLoadAddStridedInputs blockDim i1_block
         thr_load_row_off thr_load_col_off i2_off
         row_stride warp_buf1 warp_buf2 g input dout i1_end n2
         mean invvar rms_only buf)
    (fst (loop_while n1 (fun b => b <? i1_end) (fun b => b + bdy * bdy)
                     (i1_beg + bdy * bdy)))
    buf.

(** "sum within each warp" (lines 631-646), thread (tx, ty). *)
Definition cuComputePartGradGammaBeta_warp (blockDim : dim3) (rms_only : bool)
  (tx ty : nat) (buf : smem) : smem :=
  let bdy := dim_y blockDim in
  let row_stride := dim_x blockDim + 1 in
  let warp_buf1 := 0 in
  let warp_buf2 := warp_buf1 + bdy * bdy * row_stride in
  let acc := fold_left
    (fun (acc : num * num) k =>
       let row1 := ty + k * bdy in
       let idx1 := row1 * row_stride + tx in
       ((if negb rms_only then fst acc +! buf (warp_buf1 + idx1) else fst acc),
        snd acc +! buf (warp_buf2 + idx1)))
    (seq 0 bdy) (n_zero N, n_zero N) in
  let buf := if negb rms_only
             then upd buf (warp_buf1 + (ty * row_stride + tx)) (fst acc)
             else buf in
  upd buf (warp_buf2 + (ty * row_stride + tx)) (snd acc).

(** One trip of "sum all warps" (lines 648-660), thread (tx, ty). *)
Definition cuComputePartGradGammaBeta_fold (blockDim : dim3) (rms_only : bool)
  (offset tx ty : nat) (buf : smem) : smem :=
  let bdy := dim_y blockDim in
  let row_stride := dim_x blockDim + 1 in
  let warp_buf1 := 0 in
  let warp_buf2 := warp_buf1 + bdy * bdy * row_stride in
  if ty <? offset then
    let row1 := ty in
    let row2 := ty + offset in
    let idx1 := row1 * row_stride + tx in
    let idx2 := row2 * row_stride + tx in
    let buf := if negb rms_only
               then upd buf (warp_buf1 + idx1)
                        (buf (warp_buf1 + idx1) +! buf (warp_buf1 + idx2))
               else buf in
    upd buf (warp_buf2 + idx1)
        (buf (warp_buf2 + idx1) +! buf (warp_buf2 + idx2))
  else buf.

(** The shared array when the reductions of block (blockIdx_x, blockIdx_y)
    are over (lines 600-660). *)
Definition cuComputePartGradGammaBeta_tiles (blockDim gridDim : dim3)
  (blockIdx_x blockIdx_y : nat) (dout input : ptr) (n1 n2 : nat)
  (mean invvar : ptr) (rms_only : bool) (g : gmem) (buf : smem) : smem :=
  let bdy := dim_y blockDim in
  let numsegs_n1 := (n1 + bdy * bdy - 1) / (bdy * bdy) in
  let segs_per_block := (numsegs_n1 + dim_y gridDim - 1) / dim_y gridDim in
  let i1_beg := blockIdx_y * segs_per_block * bdy * bdy in
  let i1_beg_plus_one := (blockIdx_y + 1) * segs_per_block * bdy * bdy in
  let i1_end := if i1_beg_plus_one <? n1 then i1_beg_plus_one else n1 in
  (* compute partial sums from strided inputs *)
  let buf1 := foreach_thread blockDim
    (cuComputePartGradGammaBeta_load blockDim blockIdx_x i1_beg i1_end g
       dout input n1 n2 mean invvar rms_only)
    buf in
  (* __syncthreads; sum within each warp *)
  let buf2 := foreach_thread blockDim
    (cuComputePartGradGammaBeta_warp blockDim rms_only) buf1 in
  (* __syncthreads; sum all warps *)
  fold_left
    (fun buf offset =>
       foreach_thread blockDim
         (cuComputePartGradGammaBeta_fold blockDim rms_only offset) buf)
       (* __syncthreads *)
    (fst (loop_while bdy (fun o => 1 <? o) (fun o => o / 2) (bdy / 2)))
    buf2.

(** cuComputePartGradGammaBeta, block (blockIdx_x, blockIdx_y). *)
Definition cuComputePartGradGammaBeta (blockDim gridDim : dim3)
  (blockIdx_x blockIdx_y : nat) (dout input : ptr) (n1 n2 : nat)
  (mean invvar : ptr) (epsilon : num) (part_grad_gamma part_grad_beta : ptr)
  (rms_only : bool) (st : gmem * smem) : gmem * smem :=
  let bx := dim_x blockDim in
  let bdy := dim_y blockDim in
  let g := fst st in
  let row_stride := bx + 1 in
  let warp_buf1 := 0 in
  let warp_buf2 := warp_buf1 + bdy * bdy * row_stride in
  let buf3 := cuComputePartGradGammaBeta_tiles blockDim gridDim blockIdx_x
                blockIdx_y dout input n1 n2 mean invvar rms_only g (snd st) in
  let g' := foreach_thread blockDim
    (fun tx ty g =>
       let i2 := blockIdx_x * bx + tx in
       if (ty =? 0) && (i2 <? n2) then
         let row1 := ty in
         let row2 := ty + 1 in
         let idx1 := row1 * row_stride + tx in
         let idx2 := row2 * row_stride + tx in
         let g := if negb rms_only
                  then store g part_grad_beta (blockIdx_y * n2 + i2)
                             (buf3 (warp_buf1 + idx1) +! buf3 (warp_buf1 + idx2))
                  else g in
         store g part_grad_gamma (blockIdx_y * n2 + i2)
               (buf3 (warp_buf2 + idx1) +! buf3 (warp_buf2 + idx2))
       else g)
    g in
  (g', buf3).

(** cuComputeGradGammaBeta, block (blockIdx_x, 0).  The registers of a thread
    are the pair (sum_gamma, sum_beta). *)
Definition cuComputeGradGammaBeta (blockDim : dim3) (blockIdx_x : nat)
  (part_grad_gamma part_grad_beta : ptr) (part_size n1 n2 : nat)
  (grad_gamma grad_beta : ptr) (rms_only : bool) (st : gmem * smem)
  : gmem * smem :=
  let bx := dim_x blockDim in
  let bdy := dim_y blockDim in
  let g := fst st in
  let i2 := fun tx => blockIdx_x * bx + tx in
  (* each warp does sequential reductions until reduced part_size is num_warps *)
  let num_warp_reductions := part_size / bdy in
  let r0 := fun tx ty =>
    if i2 tx <? n2 then
    fold_left
      (fun (s : num * num) warp_offset =>
         let sum_gamma :=
           fst s +! ld g part_grad_gamma
                       (ty * num_warp_reductions * n2 + i2 tx + warp_offset * n2) in
         let sum_beta :=
           if negb rms_only
           then snd s +! ld g part_grad_beta
                            (ty * num_warp_reductions * n2 + i2 tx + warp_offset * n2)
           else snd s in
         (sum_gamma, sum_beta))
      (fst (loop_while num_warp_reductions (fun w => w <? num_warp_reductions)
                       (fun w => w + 1) 0))
      (n_zero N, n_zero N)
    else (n_zero N, n_zero N) in
  (* inter-warp reductions *)
  let nbsize3 := bx * bdy / 2 in
  let st1 := fold_left
    (fun (st : (nat -> nat -> num * num) * smem) offset =>
       (* top half write to shared memory *)
       let buf' := foreach_thread blockDim
         (fun tx ty buf =>
            if (i2 tx <? n2) && (offset <=? ty) && (ty <? 2 * offset) then
              let write_idx := (ty - offset) * bx + tx in
              let buf := upd buf write_idx (fst (fst st tx ty)) in
              if negb rms_only then upd buf (write_idx + nbsize3) (snd (fst st tx ty))
              else buf
            else buf)
         (snd st) in
       (* __syncthreads; bottom half sums *)
       ((fun tx ty =>
           if (i2 tx <? n2) && (ty <? offset) then
             let read_idx := ty * bx + tx in
             (fst (fst st tx ty) +! buf' read_idx,
              if negb rms_only then snd (fst st tx ty) +! buf' (read_idx + nbsize3)
              else snd (fst st tx ty))
           else fst st tx ty),
        buf'))
       (* __syncthreads *)
    (fst (loop_while bdy (fun o => 1 <=? o) (fun o => o / 2) (bdy / 2)))
    (r0, snd st) in
  (* write out fully summed gradients *)
  let g' := foreach_thread blockDim
    (fun tx ty g =>
       if (i2 tx <? n2) && (ty =? 0) then
         let g := store g grad_gamma (i2 tx) (n_U2V N (fst (fst st1 tx ty))) in
         if negb rms_only then store g grad_beta (i2 tx) (n_U2V N (snd (fst st1 tx ty)))
         else g
       else g)
    g in
  (g', snd st1).

End ParamGrad.

(** ** Input gradient (lines 732-882) *)

Section InputGrad.
Context {num : Type} (N : Numerics num).

Local Notation "a +! b" := (n_add N a b) (at level 50, left associativity).
Local Notation "a -! b" := (n_sub N a b) (at level 50, left associativity).
Local Notation "a *! b" := (n_mul N a b) (at level 40, left associativity).
Local Notation "a /! b" := (n_div N a b) (at level 40, left associativity).
Local Abbreviation ld := (load (n_zero N)).

(** What one thread does for row [i1] once it holds the two sums
    (lines 847-878). *)
Definition cuComputeGradInput_thread (blockDim : dim3) (dout input : ptr)
  (n2 : nat) (gamma grad_input : ptr) (rms_only : bool) (i1 : nat)
  (c_mean c_invvar sum_loss1 sum_loss2 : num) (tx ty : nat) (g : gmem) : gmem :=
  let numx := dim_x blockDim * dim_y blockDim in
  let thrx := tx + ty * dim_x blockDim in
  let fH := n_of_int N n2 in
  let term1 := (n_one N /! fH) *! c_invvar in
  let ls := fst (loop_while n2 (fun l => l <? n2) (fun l => l + numx) thrx) in
  if negb (is_null gamma) then
    fold_left
      (fun g l =>
         let c_h := n_T2U N (ld g input (i1 * n2 + l)) in
         let c_loss := n_V2U N (ld g dout (i1 * n2 + l)) in
         let f_grad_input := fH *! c_loss *! n_V2U N (ld g gamma l) in
         let f_grad_input :=
           if negb rms_only then
             (f_grad_input -! sum_loss1) -! (c_h -! c_mean) *! c_invvar *! sum_loss2
           else
             f_grad_input -! c_h *! c_invvar *! sum_loss2 in
         let f_grad_input := f_grad_input *! term1 in
         store g grad_input (i1 * n2 + l) (n_U2T N f_grad_input))
      ls g
  else
    fold_left
      (fun g l =>
         let c_h := n_T2U N (ld g input (i1 * n2 + l)) in
         let c_loss := n_V2U N (ld g dout (i1 * n2 + l)) in
         let f_grad_input := fH *! c_loss in
         let f_grad_input :=
           if negb rms_only then
             (f_grad_input -! sum_loss1) -! (c_h -! c_mean) *! c_invvar *! sum_loss2
           else
             f_grad_input -! c_h *! c_invvar *! sum_loss2 in
         let f_grad_input := f_grad_input *! term1 in
         store g grad_input (i1 * n2 + l) (n_U2T N f_grad_input))
      ls g.

(** The private pass of thread (tx, ty) over its share of row [i1]
    (lines 750-800): its registers (sum_loss1, sum_loss2).  [c_mean] and
    [c_invvar] are the registers loaded from mean[i1] and invvar[i1]. *)
Definition cuComputeGradInput_partial (blockDim : dim3) (dout input : ptr)
  (n2 : nat) (gamma : ptr) (rms_only : bool) (i1 : nat) (c_mean c_invvar : num)
  (g0 : gmem) (tx ty : nat) : num * num :=
  let numx := dim_x blockDim * dim_y blockDim in
  let thrx := tx + ty * dim_x blockDim in
  if negb (is_null gamma) then
    fold_left
      (fun (s : num * num) l =>
         let c_h := n_T2U N (ld g0 input (i1 * n2 + l)) in
         let c_loss := n_V2U N (ld g0 dout (i1 * n2 + l)) in
         if negb rms_only then
           (fst s +! c_loss *! n_V2U N (ld g0 gamma l),
            snd s +! c_loss *! n_V2U N (ld g0 gamma l) *! (c_h -! c_mean) *! c_invvar)
         else
           (fst s, snd s +! c_loss *! n_V2U N (ld g0 gamma l) *! c_h *! c_invvar))
      (row_indices n2 numx thrx) (n_zero N, n_zero N)
  else
    fold_left
      (fun (s : num * num) l =>
         let c_h := n_T2U N (ld g0 input (i1 * n2 + l)) in
         let c_loss := n_V2U N (ld g0 dout (i1 * n2 + l)) in
         if negb rms_only then
           (fst s +! c_loss, snd s +! c_loss *! (c_h -! c_mean) *! c_invvar)
         else
           (fst s, snd s +! c_loss *! c_h *! c_invvar))
      (row_indices n2 numx thrx) (n_zero N, n_zero N).

(** The intra-warp reductions (lines 802-807):
    for (mask = blockDim.x / 2; mask > 0; mask /= 2). *)
Definition cuComputeGradInput_warp (blockDim : dim3) (rms_only : bool)
  (r0 : nat -> nat -> num * num) : nat -> nat -> num * num :=
  fold_left
    (fun (r : nat -> nat -> num * num) mask =>
       fun tx ty =>
         ((if negb rms_only
           then fst (r tx ty) +! shfl_xor_sync (fun lane => fst (r lane ty)) tx mask
           else fst (r tx ty)),
          snd (r tx ty) +! shfl_xor_sync (fun lane => snd (r lane ty)) tx mask))
    (fst (loop_while (dim_x blockDim) (fun m => 0 <? m) (fun m => m / 2)
                     (dim_x blockDim / 2)))
    r0.

(** The two sums of row [i1] (lines 739-845): the registers
    (sum_loss1, sum_loss2) of every thread once the reductions are over, and
    the shared memory. *)
Definition cuComputeGradInput_sums (blockDim : dim3) (dout input : ptr)
  (n2 : nat) (gamma : ptr) (rms_only : bool) (i1 : nat) (c_mean c_invvar : num)
  (g0 : gmem) (buf : smem) : (nat -> nat -> num * num) * smem :=
  let bx := dim_x blockDim in
  let bdy := dim_y blockDim in
  let r1 := cuComputeGradInput_warp blockDim rms_only
              (cuComputeGradInput_partial blockDim dout input n2 gamma rms_only
                                          i1 c_mean c_invvar g0) in
  (* inter-warp reductions *)
  if 1 <? bdy then
    let st1 := fold_left
      (fun (st : (nat -> nat -> num * num) * smem) offset =>
         (* upper half of warps write to shared *)
         let buf' := foreach_thread blockDim
           (fun tx ty buf =>
              if (offset <=? ty) && (ty <? 2 * offset) then
                let wrt_i := (ty - offset) * bx + tx in
                let buf := if negb rms_only
                           then upd buf (2 * wrt_i) (fst (fst st tx ty))
                           else buf in
                upd buf (2 * wrt_i + 1) (snd (fst st tx ty))
              else buf)
           (snd st) in
         (* __syncthreads; lower half merges *)
         ((fun tx ty =>
             if ty <? offset then
               let read_i := ty * bx + tx in
               ((if negb rms_only then fst (fst st tx ty) +! buf' (2 * read_i)
                 else fst (fst st tx ty)),
                snd (fst st tx ty) +! buf' (2 * read_i + 1))
             else fst st tx ty),
          buf'))
         (* __syncthreads *)
      (fst (loop_while bdy (fun o => 0 <? o) (fun o => o / 2) (bdy / 2)))
      (r1, buf) in
    let buf2 := foreach_thread blockDim
      (fun tx ty buf =>
         if ty =? 0 then
           let buf := if negb rms_only then upd buf (2 * tx) (fst (fst st1 tx ty))
                      else buf in
           upd buf (2 * tx + 1) (snd (fst st1 tx ty))
         else buf)
      (snd st1) in
    (* __syncthreads *)
    ((fun tx ty =>
        if negb (ty =? 0) then
          ((if negb rms_only then buf2 (2 * tx) else fst (fst st1 tx ty)),
           buf2 (2 * tx + 1))
        else fst st1 tx ty),
     buf2)
  else (r1, buf).

(** The body of the row loop of cuComputeGradInput (lines 739-880). *)
Definition cuComputeGradInput_row (blockDim : dim3) (dout input : ptr)
  (n1 n2 : nat) (mean invvar : ptr) (epsilon : num) (gamma grad_input : ptr)
  (rms_only : bool) (i1 : nat) (st : gmem * smem) : gmem * smem :=
  let g0 := fst st in
  let c_mean := if negb rms_only then ld g0 mean i1 else n_zero N in
  let c_invvar := ld g0 invvar i1 in
  let st2 := cuComputeGradInput_sums blockDim dout input n2 gamma rms_only i1
                                     c_mean c_invvar g0 (snd st) in
  (* all threads now have the two sums over l *)
  let g' := foreach_thread blockDim
    (fun tx ty g =>
       cuComputeGradInput_thread blockDim dout input n2 gamma grad_input rms_only
         i1 c_mean c_invvar (fst (fst st2 tx ty)) (snd (fst st2 tx ty)) tx ty g)
    g0 in
  (* prevent race where buf is written again before reads are done:
     __syncthreads *)
  (g', snd st2).

(** cuComputeGradInput for the block [blockIdx]:
    for (auto i1 = blockIdx.y; i1 < n1; i1 += gridDim.y). *)
Definition cuComputeGradInput (blockDim gridDim : dim3) (blockIdx_y : nat)
  (dout input : ptr) (n1 n2 : nat) (mean invvar : ptr) (epsilon : num)
  (gamma grad_input : ptr) (rms_only : bool) (st : gmem * smem) : gmem * smem :=
  fold_left
    (fun st i1 =>
       cuComputeGradInput_row blockDim dout input n1 n2 mean invvar epsilon
                              gamma grad_input rms_only i1 st)
    (fst (loop_while n1 (fun i1 => i1 <? n1) (fun i1 => i1 + dim_y gridDim)
                     blockIdx_y))
    st.

End InputGrad.

(** ** Host side: launches, dispatch, entry points (lines 25-146, 500-517,
       884-968) *)

(** The C++ scalar types the dispatch macro binds. *)
Inductive ctype : Type := c_double | c_float | c_half | c_bfloat16.

Definition sizeof (t : ctype) : nat :=
  match t with c_double => 8 | c_float => 4 | c_half => 2 | c_bfloat16 => 2 end.

Definition ctype_eqb (a b : ctype) : bool :=
  match a, b with
  | c_double, c_double | c_float, c_float | c_half, c_half
  | c_bfloat16, c_bfloat16 => true
  | _, _ => false
  end.

(** Modelled from the spec: the enumeration gpu_ops::ElementType is declared
    in kernels.h, which is not part of the sources.  The supported element
    types are double, single, binary16 and bfloat16; the descriptor field is
    decoded from opaque bytes and may hold any other value. *)
Inductive ElementType : Type :=
  | BF16 | F16 | F32 | F64
  | ElementType_other (raw : nat).

(** Modelled from the spec: the decoded descriptor (struct RMSNormDescriptor of
    kernels.h), with the fields the entry points read. *)
Record RMSNormDescriptor (num : Type) : Type := {
  d_n1 : nat;
  d_n2 : nat;
  d_eps : num;
  d_x_type : ElementType;
  d_w_type : ElementType;
  d_part_grad_size : nat
}.

(** The nested switch of DISPATCH_DOUBLE_FLOAT_HALF_AND_BFLOAT_INOUT_TYPES:
    [body scalar_t_in accscalar_t scalar_t_out] is the statement __VA_ARGS__,
    which here enqueues kernels; both [default] labels enqueue nothing. *)
Definition DISPATCH_DOUBLE_FLOAT_HALF_AND_BFLOAT_INOUT_TYPES {A : Type}
  (TYPEIN TYPEOUT : ElementType) (body : ctype -> ctype -> ctype -> list A)
  : list A :=
  match TYPEIN with
  | F64 =>
      match TYPEOUT with
      | F64 => body c_double c_double c_double
      | F32 => body c_double c_double c_float
      | F16 => body c_double c_double c_half
      | BF16 => body c_double c_double c_bfloat16
      | ElementType_other _ => []
      end
  | F32 =>
      match TYPEOUT with
      | F64 => body c_float c_float c_double
      | F32 => body c_float c_float c_float
      | F16 => body c_float c_float c_half
      | BF16 => body c_float c_float c_bfloat16
      | ElementType_other _ => []
      end
  | F16 =>
      match TYPEOUT with
      | F64 => body c_half c_float c_double
      | F32 => body c_half c_float c_float
      | F16 => body c_half c_float c_half
      | BF16 => body c_half c_float c_bfloat16
      | ElementType_other _ => []
      end
  | BF16 =>
      match TYPEOUT with
      | F64 => body c_bfloat16 c_float c_double
      | F32 => body c_bfloat16 c_float c_float
      | F16 => body c_bfloat16 c_float c_half
      | BF16 => body c_bfloat16 c_float c_bfloat16
      | ElementType_other _ => []
      end
  | ElementType_other _ => []
  end.

(** A __global__ function with its arguments. *)
Inductive kernel_call (num : Type) : Type :=
  | call_cuApplyRMSNorm
      (output_vals invvar vals : ptr) (n1 n2 : nat) (epsilon : num) (gamma : ptr)
  | call_cuComputePartGradGammaBeta
      (dout input : ptr) (n1 n2 : nat) (mean invvar : ptr) (epsilon : num)
      (part_grad_gamma part_grad_beta : ptr) (rms_only : bool)
  | call_cuComputeGradGammaBeta
      (part_grad_gamma part_grad_beta : ptr) (part_size n1 n2 : nat)
      (grad_gamma grad_beta : ptr) (rms_only : bool)
  | call_cuComputeGradInput
      (dout input : ptr) (n1 n2 : nat) (mean invvar : ptr) (epsilon : num)
      (gamma grad_input : ptr) (rms_only : bool).

Arguments call_cuApplyRMSNorm {num}.
Arguments call_cuComputePartGradGammaBeta {num}.
Arguments call_cuComputeGradGammaBeta {num}.
Arguments call_cuComputeGradInput {num}.

(** kernel<T, U, V><<<grid, block, nshared, stream>>>(args). *)
Record launch (num : Type) : Type := Launch {
  l_T : ctype;
  l_U : ctype;
  l_V : ctype;
  l_grid : dim3;
  l_block : dim3;
  l_nshared : nat;
  l_call : kernel_call num
}.

Section Device.
Context {num : Type}.
(** The arithmetic of the device at each binding (T, U, V). *)
Variable arith : ctype -> ctype -> ctype -> Numerics num.
(** cudaDevAttrMaxGridDimY. *)
Variable maxGridY : nat.
(** The byte address of each buffer. *)
Variable address : nat -> nat.
(** The contents of the shared memory of each block when a kernel starts. *)
Variable junk : launch num -> nat -> nat -> @smem num.

Definition HostApplyRMSNorm (T U V : ctype) (output invvar input : ptr)
  (n1 n2 : nat) (epsilon : num) (gamma : ptr) : list (launch num) :=
  let threads := Dim3 32 4 1 in
  let blocks := Dim3 1 (Nat.min n1 maxGridY) 1 in
  let nshared :=
    if 1 <? dim_y threads
    then dim_y threads * sizeof U + (dim_y threads / 2) * sizeof U
    else 0 in
  [ Launch T U V blocks threads nshared
      (call_cuApplyRMSNorm output invvar input n1 n2
                           (n_of_double (arith T U V) epsilon) gamma) ].

Definition HostRMSNormGradient (T U V : ctype) (dout invvar input : ptr)
  (n1 n2 : nat) (gamma : ptr) (epsilon : num) (grad_input grad_gamma : ptr)
  (part_size : nat) (part_grad_gamma : ptr) : list (launch num) :=
  (if negb (is_null gamma) then
     let threads2 := Dim3 32 4 1 in
     let blocks2 := Dim3 ((n2 + dim_x threads2 - 1) / dim_x threads2) part_size 1 in
     let nshared2_a :=
       2 * sizeof U * dim_y threads2 * dim_y threads2 * (dim_x threads2 + 1) in
     let nshared2_b := dim_x threads2 * dim_y threads2 * sizeof U in
     let nshared2 := if nshared2_b <? nshared2_a then nshared2_a else nshared2_b in
     let threads3 := Dim3 32 8 1 in
     let blocks3 := Dim3 ((n2 + dim_x threads2 - 1) / dim_x threads2) 1 1 in
     let nshared3 := dim_x threads3 * dim_y threads3 * sizeof U in
     [ Launch T U V blocks2 threads2 nshared2
         (call_cuComputePartGradGammaBeta dout input n1 n2
            invvar (* unused *) invvar (n_of_double (arith T U V) epsilon)
            part_grad_gamma part_grad_gamma (* unused *) true);
       Launch T U V blocks3 threads3 nshared3
         (call_cuComputeGradGammaBeta part_grad_gamma part_grad_gamma (* unused *)
            part_size n1 n2 grad_gamma grad_gamma (* unused *) true) ]
   else [])
  ++
  (* compute grad_input *)
  (let blocks1 := Dim3 1 (Nat.min n1 maxGridY) 1 in
   let threads1 := Dim3 32 4 1 in
   let nshared :=
     if 1 <? dim_y threads1 then dim_y threads1 * dim_x threads1 * sizeof U else 0 in
   [ Launch T U V blocks1 threads1 nshared
       (call_cuComputeGradInput dout input n1 n2 invvar (* unused *) invvar
          (n_of_double (arith T U V) epsilon) gamma grad_input true) ]).

(** The two entry points of namespace gpu_ops: the kernels they enqueue on
    the stream, in order.  [buffers] is the array of buffer pointers. *)
Definition rms_forward_affine_mixed_dtypes (buffers : nat -> ptr)
  (d : RMSNormDescriptor num) : list (launch num) :=
  DISPATCH_DOUBLE_FLOAT_HALF_AND_BFLOAT_INOUT_TYPES (d_x_type d) (d_w_type d)
    (fun scalar_t_in accscalar_t scalar_t_out =>
       HostApplyRMSNorm scalar_t_in accscalar_t scalar_t_out
         (buffers 2) (buffers 3) (buffers 0) (d_n1 d) (d_n2 d) (d_eps d)
         (buffers 1)).

Definition rms_backward_affine (buffers : nat -> ptr)
  (d : RMSNormDescriptor num) : list (launch num) :=
  DISPATCH_DOUBLE_FLOAT_HALF_AND_BFLOAT_INOUT_TYPES (d_x_type d) (d_w_type d)
    (fun scalar_t_in accscalar_t scalar_t_out =>
       HostRMSNormGradient scalar_t_in accscalar_t scalar_t_out
         (buffers 0) (buffers 1) (buffers 2) (d_n1 d) (d_n2 d) (buffers 3)
         (d_eps d) (buffers 4) (buffers 5) (d_part_grad_size d) (buffers 6)).

(** The device runs a launch: every block of the grid runs the kernel. *)
Definition ptr_address (p : ptr) : nat :=
  match p with Some b => address b | None => 0 end.

Definition run_launch (l : launch num) (g : gmem) : gmem :=
  let N := arith (l_T l) (l_U l) (l_V l) in
  match l_call l with
  | call_cuApplyRMSNorm output_vals invvar vals n1 n2 epsilon gamma =>
      (* cuWelfordMuSigma2<__half, float> is the specialisation *)
      let half := ctype_eqb (l_T l) c_half && ctype_eqb (l_U l) c_float in
      let misaligned := fun i1 =>
        negb (Nat.land (ptr_address vals + sizeof (l_T l) * (i1 * n2)) 3 =? 0) in
      launch_grid (l_grid l) (junk l)
        (fun _ blockIdx_y =>
           cuApplyRMSNorm N half misaligned (l_block l) (l_grid l) blockIdx_y
                          output_vals invvar vals n1 n2 epsilon gamma) g
  | call_cuComputePartGradGammaBeta dout input n1 n2 mean invvar epsilon
                                    part_grad_gamma part_grad_beta rms_only =>
      launch_grid (l_grid l) (junk l)
        (fun blockIdx_x blockIdx_y =>
           cuComputePartGradGammaBeta N (l_block l) (l_grid l)
             blockIdx_x blockIdx_y dout input n1 n2 mean invvar epsilon
             part_grad_gamma part_grad_beta rms_only) g
  | call_cuComputeGradGammaBeta part_grad_gamma part_grad_beta part_size n1 n2
                                grad_gamma grad_beta rms_only =>
      launch_grid (l_grid l) (junk l)
        (fun blockIdx_x _ =>
           cuComputeGradGammaBeta N (l_block l) blockIdx_x
             part_grad_gamma part_grad_beta part_size n1 n2
             grad_gamma grad_beta rms_only) g
  | call_cuComputeGradInput dout input n1 n2 mean invvar epsilon
                            gamma grad_input rms_only =>
      launch_grid (l_grid l) (junk l)
        (fun _ blockIdx_y =>
           cuComputeGradInput N (l_block l) (l_grid l) blockIdx_y
             dout input n1 n2 mean invvar epsilon gamma grad_input rms_only) g
  end.

(** Kernels enqueued on one stream run in order. *)
Definition run_stream (ls : list (launch num)) (g : gmem) : gmem :=
  fold_left (fun g l => run_launch l g) ls g.

End Device.

(** ** Reference quantities *)

(** Merging accumulator [B] into accumulator [A]. *)
Definition merge_moments {num : Type} (N : Numerics num) (A B : moments)
  : moments (num:=num) :=
  cuChanOnlineSum N (mu B) (sigma2 B) (count B) A.

(** The sum of f 0, ..., f (n-1). *)
Fixpoint sum_upto (f : nat -> Qc) (n : nat) : Qc :=
  match n with
  | O => 0%Qc
  | S n' => (sum_upto f n' + f n')%Qc
  end.

(** The sum of the values of [f] over a list of indices. *)
Definition sum_over (f : nat -> Qc) (l : list nat) : Qc :=
  fold_right (fun i s => (f i + s)%Qc) 0%Qc l.

(** A reciprocal square root for closed examples: exact on the squares of
    rationals, where 1/sqrt is rational, and 0 elsewhere. *)
Definition rsqrt_on_squares (x : Qc) : Qc :=
  let n := Qnum (this x) in
  let d := Z.pos (Qden (this x)) in
  if ((0 <? n)%Z && (Z.sqrt n * Z.sqrt n =? n)%Z && (Z.sqrt d * Z.sqrt d =? d)%Z)%bool
  then Q2Qc (Qmake (Z.sqrt d) (Z.to_pos (Z.sqrt n)))
  else 0%Qc.

(** ** The reductions on registers alone *)

Section EstimatorSpec.
Context {num : Type} (N : Numerics num).

(** One level of the inter-warp tree of cuWelfordMuSigma2: lane 0 of warp
    [ty] < offset merges the registers of lane 0 of warp [ty + offset]. *)
Definition inter_warp_step (rms_only : bool) (offset : nat)
  (r : nat -> nat -> moments (num:=num)) : nat -> nat -> moments :=
  fun tx ty =>
    if (tx =? 0) && (ty <? offset) then
      if negb rms_only then
        cuChanOnlineSum N (mu (r tx (ty + offset))) (sigma2 (r tx (ty + offset)))
                        (count (r tx (ty + offset))) (r tx ty)
      else
        Moments (mu (r tx ty))
                (cuChanRMSOnlineSum N (sigma2 (r tx (ty + offset))) (sigma2 (r tx ty)))
                (count (r tx ty))
    else r tx ty.

(** The registers of thread (0, 0) when the reductions of cuWelfordMuSigma2
    are over, for the row [i1] of the buffer [x]. *)
Definition block_moments (half misaligned : bool) (blockDim : dim3)
  (x : nat -> num) (n2 i1 : nat) (rms_only : bool) : moments :=
  let bx := dim_x blockDim in
  let bdy := dim_y blockDim in
  let r0 := fun tx ty =>
    thread_moments N (fun _ => x) (Some 0) i1 n2 rms_only
      (if half then row_indices_half misaligned n2 (bx * bdy) (tx + ty * bx)
       else row_indices n2 (bx * bdy) (tx + ty * bx)) in
  let r1 := fold_left (fun r l => intra_warp_step N rms_only l r) (seq 0 5) r0 in
  let r2 :=
    if 1 <? bdy then
      fold_left (fun r offset => inter_warp_step rms_only offset r)
                (fst (loop_while bdy (fun o => 0 <? o) (fun o => o / 2) (bdy / 2)))
                r1
    else r1 in
  r2 0 0.

End EstimatorSpec.

(** ** Exact moments of a list of elements *)

(** [a] summarises the elements [x i], [i] in [l]: in RMS-only mode sigma2
    is their sum of squares; in full mode count is their number, mu their
    mean and sigma2 their sum of squared deviations from the mean (stated
    without division, so that the empty list is covered). *)
Definition summarises (x : nat -> Qc) (rms_only : bool)
  (a : moments (num:=Qc)) (l : list nat) : Prop :=
  if rms_only then
    sigma2 a = sum_over (fun i => x i * x i)%Qc l
  else
    let n := Qc_of_nat (length l) in
    let S1 := sum_over x l in
    let S2 := sum_over (fun i => x i * x i)%Qc l in
    (count a = n /\
     n * mu a = S1 /\
     n * sigma2 a = n * S2 - S1 * S1 /\
     (l = [] -> sigma2 a = 0))%Qc.

(** ** What the forward pass stores, RMS-only mode *)

Section ForwardSpec.
Context {num : Type} (N : Numerics num).

(** The value saved in invvar[i1] for the row [i1] of the buffer [x]. *)
Definition rms_invvar (half : bool) (misaligned : nat -> bool) (blockDim : dim3)
  (x : nat -> num) (n2 : nat) (epsilon : num) (i1 : nat) : num :=
  n_rsqrt N
    (n_add N
       (n_div N (sigma2 (block_moments N half (misaligned i1) blockDim x n2 i1 true))
                (n_of_int N n2))
       epsilon).

(** The value stored in output[i1 * n2 + i]; [gamma] is the scale buffer, or
    None for a NULL pointer. *)
Definition rms_output (half : bool) (misaligned : nat -> bool) (blockDim : dim3)
  (x : nat -> num) (gamma : option (nat -> num)) (n2 : nat) (epsilon : num)
  (i1 i : nat) : num :=
  let c_invvar := rms_invvar half misaligned blockDim x n2 epsilon i1 in
  let curr := n_T2U N (x (i1 * n2 + i)) in
  match gamma with
  | Some gm => n_vmul N (gm i) (n_U2V N (n_mul N c_invvar curr))
  | None => n_U2V N (n_mul N c_invvar curr)
  end.

End ForwardSpec.

(** The buffer a pointer designates in a memory. *)
Definition buffer_at {num : Type} (g : @gmem num) (p : ptr) : option (nat -> num) :=
  match p with Some b => Some (g b) | None => None end.

(** Two pointers do not designate the same buffer. *)
Definition ptr_apart (p : ptr) (b : nat) : Prop :=
  match p with Some b' => b' <> b | None => True end.

(** The element types the dispatch macro has a case for. *)
Definition supported (t : ElementType) : bool :=
  match t with
  | BF16 | F16 | F32 | F64 => true
  | ElementType_other _ => false
  end.

(** The rms_only argument with which the body of a kernel runs:
    cuApplyRMSNorm (lines 491-498) calls cuApplyLayerNorm_ with true, the
    other kernels receive it from the host. *)
Definition rms_only_flag {num : Type} (c : kernel_call num) : bool :=
  match c with
  | call_cuApplyRMSNorm _ _ _ _ _ _ _ => true
  | call_cuComputePartGradGammaBeta _ _ _ _ _ _ _ _ _ r => r
  | call_cuComputeGradGammaBeta _ _ _ _ _ _ _ r => r
  | call_cuComputeGradInput _ _ _ _ _ _ _ _ _ r => r
  end.

(** The same call with other pointers in the arguments that only the full
    layer norm uses: mean, part_grad_beta and grad_beta. *)
Definition replace_full_mode_slots {num : Type}
  (mean' part_grad_beta' grad_beta' : ptr) (c : kernel_call num)
  : kernel_call num :=
  match c with
  | call_cuApplyRMSNorm output_vals invvar vals n1 n2 epsilon gamma =>
      call_cuApplyRMSNorm output_vals invvar vals n1 n2 epsilon gamma
  | call_cuComputePartGradGammaBeta dout input n1 n2 _ invvar epsilon
                                    part_grad_gamma _ r =>
      call_cuComputePartGradGammaBeta dout input n1 n2 mean' invvar epsilon
                                      part_grad_gamma part_grad_beta' r
  | call_cuComputeGradGammaBeta part_grad_gamma _ part_size n1 n2 grad_gamma _ r =>
      call_cuComputeGradGammaBeta part_grad_gamma part_grad_beta' part_size n1 n2
                                  grad_gamma grad_beta' r
  | call_cuComputeGradInput dout input n1 n2 _ invvar epsilon gamma grad_input r =>
      call_cuComputeGradInput dout input n1 n2 mean' invvar epsilon gamma
                              grad_input r
  end.

Definition with_call {num : Type} (l : launch num) (c : kernel_call num)
  : launch num :=
  Launch (l_T l) (l_U l) (l_V l) (l_grid l) (l_block l) (l_nshared l) c.

(** ** The final reduction of the parameter gradient on registers alone *)

Section ParamGradSpec.
Context {num : Type} (N : Numerics num).

(** One level of the inter-warp tree of cuComputeGradGammaBeta in RMS-only
    mode, on the registers (sum_gamma, sum_beta). *)
Definition grad_gamma_step (n2 blockIdx_x bx offset : nat)
  (r : nat -> nat -> num * num) : nat -> nat -> num * num :=
  fun tx ty =>
    if (blockIdx_x * bx + tx <? n2) && (ty <? offset) then
      (n_add N (fst (r tx ty)) (fst (r tx (ty + offset))), snd (r tx ty))
    else r tx ty.

(** The sequential reductions of thread (tx, ty) over its share of the
    partial rows. *)
Definition grad_gamma_registers (blockDim : dim3) (blockIdx_x : nat)
  (part_grad_gamma : ptr) (part_size n2 : nat) (g : gmem)
  : nat -> nat -> num * num :=
  fun tx ty =>
    let num_warp_reductions := part_size / dim_y blockDim in
    let i2 := blockIdx_x * dim_x blockDim + tx in
    if i2 <? n2 then
      fold_left
        (fun (s : num * num) warp_offset =>
           (n_add N (fst s)
              (load (n_zero N) g part_grad_gamma
                    (ty * num_warp_reductions * n2 + i2 + warp_offset * n2)),
            snd s))
        (fst (loop_while num_warp_reductions (fun w => w <? num_warp_reductions)
                         (fun w => w + 1) 0))
        (n_zero N, n_zero N)
    else (n_zero N, n_zero N).

(** The value of sum_gamma that thread (tx, 0) casts and stores. *)
Definition grad_gamma_sum (blockDim : dim3) (blockIdx_x : nat)
  (part_grad_gamma : ptr) (part_size n2 : nat) (g : gmem) (tx : nat) : num :=
  fst (fold_left
         (fun r offset => grad_gamma_step n2 blockIdx_x (dim_x blockDim) offset r)
         (fst (loop_while (dim_y blockDim) (fun o => 1 <=? o) (fun o => o / 2)
                          (dim_y blockDim / 2)))
         (grad_gamma_registers blockDim blockIdx_x part_grad_gamma part_size n2 g)
         tx 0).

End ParamGradSpec.

(** The rows that the blocks (_, p) of cuComputePartGradGammaBeta sum:
    i1_beg <= i1 < i1_end (lines 601-607). *)
Definition part_rows (bdy gridDim_y n1 p : nat) : list nat :=
  let numsegs_n1 := (n1 + bdy * bdy - 1) / (bdy * bdy) in
  let segs_per_block := (numsegs_n1 + gridDim_y - 1) / gridDim_y in
  let i1_beg := p * segs_per_block * bdy * bdy in
  let i1_beg_plus_one := (p + 1) * segs_per_block * bdy * bdy in
  let i1_end := if i1_beg_plus_one <? n1 then i1_beg_plus_one else n1 in
  seq i1_beg (i1_end - i1_beg).

(** The term of row [i1] in the gradient of gamma[i2], exact arithmetic:
    dout[i1, i2] * x[i1, i2] * inv_std[i1]. *)
Definition grad_gamma_term (g : @gmem Qc) (db xb ib n2 i2 i1 : nat) : Qc :=
  (g db (i1 * n2 + i2)%nat * g xb (i1 * n2 + i2)%nat * g ib i1)%Qc.

(** What a strided load brings for the cell (i1, i2) of a tile: the term, or
    zero outside the rows of the block or the columns of the matrix. *)
Definition tile_term (g : @gmem Qc) (db xb ib i1_end n2 i1 i2 : nat) : Qc :=
  if (i1 <? i1_end) && (i2 <? n2) then grad_gamma_term g db xb ib n2 i2 i1
  else 0%Qc.

(** One exchange of a butterfly reduction: lane tx adds the register of lane
    tx xor mask to its own. *)
Definition butterfly (f : nat -> Qc) (mask : nat) : nat -> Qc :=
  fun tx => (f tx + f (Nat.lxor tx mask))%Qc.

(** ** What the input-gradient kernel stores *)

Section InputGradSpec.
Context {num : Type} (N : Numerics num).

(** One level of the inter-warp tree of cuComputeGradInput, on registers. *)
Definition grad_inter_warp_step (rms_only : bool) (offset : nat)
  (r : nat -> nat -> num * num) : nat -> nat -> num * num :=
  fun tx ty =>
    if ty <? offset then
      ((if negb rms_only then n_add N (fst (r tx ty)) (fst (r tx (ty + offset)))
        else fst (r tx ty)),
       n_add N (snd (r tx ty)) (snd (r tx (ty + offset))))
    else r tx ty.

(** The sums (sum_loss1, sum_loss2) that the threads of lane [tx] hold when
    the reductions of cuComputeGradInput are over. *)
Definition grad_sums (blockDim : dim3) (dout input : ptr) (n2 : nat)
  (gamma : ptr) (rms_only : bool) (i1 : nat) (c_mean c_invvar : num)
  (g0 : gmem) (tx : nat) : num * num :=
  let r1 := cuComputeGradInput_warp N blockDim rms_only
              (cuComputeGradInput_partial N blockDim dout input n2 gamma rms_only
                                          i1 c_mean c_invvar g0) in
  let r2 :=
    if 1 <? dim_y blockDim then
      fold_left (fun r offset => grad_inter_warp_step rms_only offset r)
        (fst (loop_while (dim_y blockDim) (fun o => 0 <? o) (fun o => o / 2)
                         (dim_y blockDim / 2)))
        r1
    else r1 in
  r2 tx 0.

(** The value stored in grad_input[i1 * n2 + l], from the two sums the
    storing thread holds. *)
Definition grad_input_value (dout input : ptr) (n2 : nat) (gamma : ptr)
  (rms_only : bool) (i1 : nat) (c_mean c_invvar sum_loss1 sum_loss2 : num)
  (g : gmem) (l : nat) : num :=
  let ld := load (n_zero N) in
  let fH := n_of_int N n2 in
  let term1 := n_mul N (n_div N (n_one N) fH) c_invvar in
  let c_h := n_T2U N (ld g input (i1 * n2 + l)) in
  let c_loss := n_V2U N (ld g dout (i1 * n2 + l)) in
  let f_grad_input :=
    if negb (is_null gamma)
    then n_mul N (n_mul N fH c_loss) (n_V2U N (ld g gamma l))
    else n_mul N fH c_loss in
  let f_grad_input :=
    if negb rms_only then
      n_sub N (n_sub N f_grad_input sum_loss1)
              (n_mul N (n_mul N (n_sub N c_h c_mean) c_invvar) sum_loss2)
    else
      n_sub N f_grad_input (n_mul N (n_mul N c_h c_invvar) sum_loss2) in
  n_U2T N (n_mul N f_grad_input term1).

(** What cuComputeGradInput leaves in grad_input[i1 * n2 + l]: the thread
    that stores it is the one whose strided loop reaches [l]. *)
Definition grad_input_cell (blockDim : dim3) (dout input mean invvar gamma : ptr)
  (rms_only : bool) (n2 : nat) (g : gmem) (i1 l : nat) : num :=
  let c_mean := if negb rms_only then load (n_zero N) g mean i1 else n_zero N in
  let c_invvar := load (n_zero N) g invvar i1 in
  let tx := (l mod (dim_x blockDim * dim_y blockDim)) mod dim_x blockDim in
  let s := grad_sums blockDim dout input n2 gamma rms_only i1 c_mean c_invvar g tx in
  grad_input_value dout input n2 gamma rms_only i1 c_mean c_invvar (fst s) (snd s) g l.

End InputGradSpec.

(** ** The final reduction with rms_only = false (lines 675-730) *)

Section ParamGradFullSpec.
Context {num : Type} (N : Numerics num).

(** One level of the inter-warp tree of cuComputeGradGammaBeta with
    rms_only = false, on the registers (sum_gamma, sum_beta). *)
Definition grad_gamma_beta_step (n2 blockIdx_x bx offset : nat)
  (r : nat -> nat -> num * num) : nat -> nat -> num * num :=
  fun tx ty =>
    if (blockIdx_x * bx + tx <? n2) && (ty <? offset) then
      (n_add N (fst (r tx ty)) (fst (r tx (ty + offset))),
       n_add N (snd (r tx ty)) (snd (r tx (ty + offset))))
    else r tx ty.

(** The sequential reductions of thread (tx, ty) over its share of the
    partial rows of both buffers. *)
Definition grad_gamma_beta_registers (blockDim : dim3) (blockIdx_x : nat)
  (part_grad_gamma part_grad_beta : ptr) (part_size n2 : nat) (g : gmem)
  : nat -> nat -> num * num :=
  fun tx ty =>
    let num_warp_reductions := part_size / dim_y blockDim in
    let i2 := blockIdx_x * dim_x blockDim + tx in
    if i2 <? n2 then
      fold_left
        (fun (s : num * num) warp_offset =>
           (n_add N (fst s)
              (load (n_zero N) g part_grad_gamma
                    (ty * num_warp_reductions * n2 + i2 + warp_offset * n2)),
            n_add N (snd s)
              (load (n_zero N) g part_grad_beta
                    (ty * num_warp_reductions * n2 + i2 + warp_offset * n2))))
        (fst (loop_while num_warp_reductions (fun w => w <? num_warp_reductions)
                         (fun w => w + 1) 0))
        (n_zero N, n_zero N)
    else (n_zero N, n_zero N).

(** The pair (sum_gamma, sum_beta) that thread (tx, 0) casts and stores. *)
Definition grad_gamma_beta_sum (blockDim : dim3) (blockIdx_x : nat)
  (part_grad_gamma part_grad_beta : ptr) (part_size n2 : nat) (g : gmem)
  (tx : nat) : num * num :=
  fold_left
    (fun r offset => grad_gamma_beta_step n2 blockIdx_x (dim_x blockDim) offset r)
    (fst (loop_while (dim_y blockDim) (fun o => 1 <=? o) (fun o => o / 2)
                     (dim_y blockDim / 2)))
    (grad_gamma_beta_registers blockDim blockIdx_x part_grad_gamma part_grad_beta
                               part_size n2 g)
    tx 0.

End ParamGradFullSpec.

(** ** The partial sums with rms_only = false (lines 519-673) *)

(** The terms of row [i1] in the gradients of beta[i2] and of gamma[i2],
    exact arithmetic: dout[i1, i2], and
    dout[i1, i2] * (x[i1, i2] - mean[i1]) * inv_std[i1]. *)
Definition grad_beta_term (g : @gmem Qc) (db n2 i2 i1 : nat) : Qc :=
  g db (i1 * n2 + i2)%nat.

Definition grad_gamma_term_full (g : @gmem Qc) (db xb mb ib n2 i2 i1 : nat) : Qc :=
  (g db (i1 * n2 + i2)%nat * (g xb (i1 * n2 + i2)%nat - g mb i1) * g ib i1)%Qc.

(** What a strided load brings for the cell (i1, i2) of a tile: the term
    [term i2 i1], or zero outside the rows of the block or the columns of
    the matrix. *)
Definition tile_cell (term : nat -> nat -> Qc) (i1_end n2 i1 i2 : nat) : Qc :=
  if (i1 <? i1_end) && (i2 <? n2) then term i2 i1 else 0%Qc.

(** * Verification *)

Unset Implicit Arguments.

(** * Properties of the accumulators *)

Lemma Qc_gt0_true (x : Qc) : Qc_gt0 x = true <-> (0 < x)%Qc.
Proof.
  unfold Qc_gt0. rewrite Qclt_alt.
  destruct (0 ?= x)%Qc; split; congruence.
Qed.

Lemma Qc_gt0_false (x : Qc) : Qc_gt0 x = false <-> (x <= 0)%Qc.
Proof.
  split; intros H.
  - apply Qcnot_lt_le. intros L. apply Qc_gt0_true in L. congruence.
  - destruct (Qc_gt0 x) eqn:E; [|reflexivity].
    apply Qc_gt0_true in E. exfalso. exact (Qcle_not_lt _ _ H E).
Qed.

Lemma Qc_pos_neq0 (x : Qc) : (0 < x)%Qc -> x <> 0%Qc.
Proof. intros H E. subst x. exact (Qclt_not_eq _ _ H eq_refl). Qed.

Section Exact.
Variable rsqrt_fn : Qc -> Qc.
Local Abbreviation E := (exactQ rsqrt_fn).
Local Open Scope Qc_scope.

(** C5.  cuChanOnlineSum merges (muA, sigma2A, countA) with
    (muB, sigma2B, countB) into: count = countA + countB; when that count is
    positive, the count-weighted average of the means and
    sigma2A + sigma2B + (muB - muA)^2 * wA * wB * count with
    wA = countA/count and wB = countB/count; when that count is zero, mean
    and sigma2 both zero. *)
Theorem cuChanOnlineSum_merge_rule (muA sigma2A countA muB sigma2B countB : Qc) :
  let r := cuChanOnlineSum E muB sigma2B countB (Moments muA sigma2A countA) in
  let newCount := countA + countB in
  count r = newCount /\
  (0 < newCount ->
     mu r = (countA / newCount) * muA + (countB / newCount) * muB /\
     sigma2 r = sigma2A + sigma2B
                + (muB - muA) ^ 2 * (countA / newCount) * (countB / newCount)
                  * newCount) /\
  (newCount = 0 -> mu r = 0 /\ sigma2 r = 0).
Proof.
  cbv zeta. unfold cuChanOnlineSum. simpl.
  destruct (Qc_gt0 (countA + countB)) eqn:G; simpl.
  - apply Qc_gt0_true in G. split; [reflexivity|]. split.
    + intros _. split; [reflexivity|]. simpl. ring.
    + intros Z. rewrite Z in G. exfalso. exact (Qclt_not_eq _ _ G eq_refl).
  - apply Qc_gt0_false in G. split; [reflexivity|]. split.
    + intros P. exfalso. exact (Qcle_not_lt _ _ G P).
    + intros _. split; reflexivity.
Qed.

End Exact.

Lemma cuChanOnlineSum_merge_rule_witness :
  let r := cuChanOnlineSum (exactQ rsqrt_on_squares) (Qc_of_nat 3) 0%Qc (Qc_of_nat 2)
                             (Moments 1%Qc 0%Qc (Qc_of_nat 2)) in
  mu r = Qc_of_nat 2 /\ sigma2 r = Qc_of_nat 4 /\ count r = Qc_of_nat 4.
Proof.
  destruct (cuChanOnlineSum_merge_rule rsqrt_on_squares 1%Qc 0%Qc (Qc_of_nat 2) (Qc_of_nat 3) 0%Qc
                                       (Qc_of_nat 2)) as (Hc & Hp & _).
  destruct Hp as (Hm & Hs); [reflexivity|].
  cbv zeta. rewrite Hm, Hs, Hc.
  repeat split; apply Qc_is_canon; reflexivity.
Defined.

Section ExactMerge.
Variable rsqrt_fn : Qc -> Qc.
Local Abbreviation E := (exactQ rsqrt_fn).
Local Open Scope Qc_scope.

Lemma merge_pos (mA sA cA mB sB cB : Qc) :
  0 < cA + cB ->
  merge_moments E (Moments mA sA cA) (Moments mB sB cB) =
  Moments (cA / (cA + cB) * mA + cB / (cA + cB) * mB)
          (sA + sB + (mB - mA) * (mB - mA) * (cA / (cA + cB)) * (cB / (cA + cB))
                     * (cA + cB))
          (cA + cB).
Proof.
  intros P. unfold merge_moments, cuChanOnlineSum. simpl.
  apply Qc_gt0_true in P. rewrite P. reflexivity.
Qed.

Lemma merge_nonpos (mA sA cA mB sB cB : Qc) :
  cA + cB <= 0 ->
  merge_moments E (Moments mA sA cA) (Moments mB sB cB) = Moments 0 0 (cA + cB).
Proof.
  intros P. unfold merge_moments, cuChanOnlineSum. simpl.
  apply Qc_gt0_false in P. rewrite P. reflexivity.
Qed.

Lemma merge_moments_comm (A B : moments) :
  merge_moments E A B = merge_moments E B A.
Proof.
  destruct A as [mA sA cA], B as [mB sB cB].
  destruct (Qclt_le_dec 0 (cA + cB)) as [P|P].
  - assert (P' : 0 < cB + cA) by (rewrite Qcplus_comm; exact P).
    rewrite (merge_pos _ _ _ _ _ _ P), (merge_pos _ _ _ _ _ _ P').
    assert (cA + cB <> 0) by (apply Qc_pos_neq0; exact P).
    f_equal; field; rewrite Qcplus_comm; assumption.
  - assert (P' : cB + cA <= 0) by (rewrite Qcplus_comm; exact P).
    rewrite (merge_nonpos _ _ _ _ _ _ P), (merge_nonpos _ _ _ _ _ _ P').
    f_equal. ring.
Qed.

Lemma Qc_nonneg_cases (x : Qc) : 0 <= x -> x = 0 \/ 0 < x.
Proof.
  intros H. destruct (Qc_eq_dec x 0) as [e|n]; [left; exact e|right].
  destruct (Qclt_le_dec 0 x) as [l|l]; [exact l|].
  exfalso. apply n. apply Qcle_antisym; assumption.
Qed.

Lemma Qc_add_pos_l (x y : Qc) : 0 < x -> 0 <= y -> 0 < x + y.
Proof.
  intros Hx Hy. apply Qclt_le_trans with (y := x + 0).
  - now rewrite Qcplus_0_r.
  - apply Qcplus_le_compat; [apply Qcle_refl|exact Hy].
Qed.

Lemma Qc_add_pos_r (x y : Qc) : 0 <= x -> 0 < y -> 0 < x + y.
Proof. intros Hx Hy. rewrite Qcplus_comm. now apply Qc_add_pos_l. Qed.

Ltac count_side :=
  rewrite ?Qcplus_0_l, ?Qcplus_0_r;
  first [ assumption | apply Qcle_refl
        | apply Qc_pos_neq0; assumption
        | rewrite Qcplus_assoc; assumption
        | rewrite Qcplus_assoc; apply Qc_pos_neq0; assumption ].

Ltac merge_norm :=
  repeat first [ rewrite merge_pos by count_side
               | rewrite merge_nonpos by count_side ].

Lemma merge_moments_assoc (A B C : moments) :
  0 <= count A -> 0 <= count B -> 0 <= count C ->
  (count A = 0 -> sigma2 A = 0) ->
  (count B = 0 -> sigma2 B = 0) ->
  (count C = 0 -> sigma2 C = 0) ->
  merge_moments E (merge_moments E A B) C =
  merge_moments E A (merge_moments E B C).
Proof.
  destruct A as [mA sA a], B as [mB sB b], C as [mC sC c]. simpl.
  intros Ha Hb Hc Za Zb Zc.
  destruct (Qc_nonneg_cases _ Ha) as [ea|pa];
  destruct (Qc_nonneg_cases _ Hb) as [eb|pb];
  destruct (Qc_nonneg_cases _ Hc) as [ec|pc];
  try (rewrite (Za ea) in * ); try (rewrite (Zb eb) in * );
  try (rewrite (Zc ec) in * ); try subst a; try subst b; try subst c;
  try (assert (pab : 0 < a + b) by (apply Qc_add_pos_l; assumption));
  try (assert (pbc : 0 < b + c) by (apply Qc_add_pos_l; assumption));
  try (assert (pac : 0 < a + c) by (apply Qc_add_pos_l; assumption));
  try (assert (pabc : 0 < a + b + c) by (apply Qc_add_pos_l; assumption));
  merge_norm; f_equal; try field; repeat split; count_side.
Qed.


End ExactMerge.



(** * Loops, folds and thread blocks *)

Section Folds.
Context {S X : Type} (f : S -> X -> S).

Lemma fold_left_inv (P : S -> Prop) (l : list X) (s : S) :
  (forall s x, In x l -> P s -> P (f s x)) ->
  P s -> P (fold_left f l s).
Proof.
  revert s. induction l as [|x l IH]; intros s Hstep Hs; simpl; [exact Hs|].
  apply IH.
  - intros s' x' Hin. apply Hstep. now right.
  - apply Hstep; [now left|exact Hs].
Qed.

(** A property established by one step of the fold and kept by every step. *)
Lemma fold_left_establish (P Q : S -> Prop) (l : list X) (x0 : X) (s : S) :
  In x0 l ->
  (forall s x, In x l -> P s -> P (f s x)) ->
  (forall s x, In x l -> P s -> Q s -> Q (f s x)) ->
  (forall s, P s -> Q (f s x0)) ->
  P s -> Q (fold_left f l s).
Proof.
  revert s. induction l as [|x l IH]; intros s Hin HP HQ H0 Hs; [destruct Hin|].
  simpl. destruct Hin as [->|Hin].
  - apply (fold_left_inv (fun s => P s /\ Q s)).
    + intros s' x' Hin' [Ps Qs]. split.
      * apply HP; [now right|exact Ps].
      * apply HQ; [now right|exact Ps|exact Qs].
    + split; [apply HP; [now left|exact Hs]|apply H0; exact Hs].
  - apply IH; try assumption.
    + intros s' x' Hin'. apply HP. now right.
    + intros s' x' Hin'. apply HQ. now right.
    + apply HP; [now left|exact Hs].
Qed.

End Folds.

(** The step of a fold that owns a set [O] of cells: no other step touches
    them, and what the owner leaves there depends on those cells only. *)
Lemma fold_left_owner {S X K V : Type} (get : S -> K -> V) (f : S -> X -> S)
  (O : K -> Prop) (l : list X) (x0 : X) (s : S) :
  NoDup l -> In x0 l ->
  (forall s x c, In x l -> x <> x0 -> O c -> get (f s x) c = get s c) ->
  (forall s s', (forall c, O c -> get s c = get s' c) ->
                forall c, O c -> get (f s x0) c = get (f s' x0) c) ->
  forall c, O c -> get (fold_left f l s) c = get (f s x0) c.
Proof.
  intros ND Hin Hother Hown c Oc.
  destruct (in_split _ _ Hin) as (l1 & l2 & ->).
  apply NoDup_remove_2 in ND.
  rewrite fold_left_app. simpl.
  assert (A1 : forall c, O c -> get (fold_left f l1 s) c = get s c).
  { apply (fold_left_inv f (fun s' => forall c, O c -> get s' c = get s c)).
    - intros s' x Hx IH c' Oc'. rewrite Hother; auto.
      + apply in_or_app. now left.
      + intros ->. apply ND. apply in_or_app. now left.
    - reflexivity. }
  transitivity (get (f (fold_left f l1 s) x0) c).
  - apply (fold_left_inv f (fun s' => get s' c = get (f (fold_left f l1 s) x0) c)).
    + intros s' x Hx IH. rewrite Hother; auto.
      * apply in_or_app. right. now right.
      * intros ->. apply ND. apply in_or_app. now right.
    + reflexivity.
  - apply Hown; assumption.
Qed.

(** ** Thread and block coordinates *)

Lemma in_coords (d : dim3) (x y : nat) :
  In (x, y) (coords d) <-> x < dim_x d /\ y < dim_y d.
Proof.
  unfold coords. rewrite in_flat_map. split.
  - intros (y' & Hy & Hx). apply in_map_iff in Hx.
    destruct Hx as (x' & E & Hx). inversion E; subst.
    apply in_seq in Hy. apply in_seq in Hx. lia.
  - intros [Hx Hy]. exists y. split; [apply in_seq; lia|].
    apply in_map_iff. exists x. split; [reflexivity|apply in_seq; lia].
Qed.

Lemma NoDup_coords (d : dim3) : NoDup (coords d).
Proof.
  unfold coords.
  assert (G : forall ys, NoDup ys ->
            NoDup (flat_map (fun y : nat => map (fun x : nat => (x, y)) (seq 0 (dim_x d))) ys)).
  { induction ys as [|y ys IH]; intros ND; simpl; [constructor|].
    inversion ND as [|? ? Hy ND']; subst.
    apply NoDup_app.
    - apply Injective_map_NoDup; [|apply seq_NoDup].
      intros a b E. now inversion E.
    - now apply IH.
    - intros [x y'] H1 H2. apply in_map_iff in H1.
      destruct H1 as (x' & E & _). inversion E; subst.
      apply in_flat_map in H2. destruct H2 as (y2 & Hy2 & H2).
      apply in_map_iff in H2. destruct H2 as (x2 & E2 & _).
      inversion E2; subst. contradiction. }
  apply G. apply seq_NoDup.
Qed.

(** ** Counting loops *)

(** for (l = l0; l + c < n; l += s) with a positive stride: the loop takes
    the values l0, l0 + s, ..., is left when the test fails, and takes at
    most n trips. *)
Lemma loop_up (cond : nat -> bool) (next : nat -> nat) (c n s : nat) :
  (forall l, cond l = (l + c <? n)) ->
  (forall l, next l = l + s) ->
  0 < s ->
  forall fuel l0, n <= fuel + l0 + c ->
  exists t,
    loop_while fuel cond next l0 =
      (map (fun j => l0 + j * s) (seq 0 t), l0 + t * s) /\
    (forall j, j < t -> l0 + j * s + c < n) /\
    n <= l0 + t * s + c.
Proof.
  intros Hc Hn Hs. induction fuel as [|fuel IH]; intros l0 Hf.
  - exists 0. simpl. split; [f_equal; lia|]. split; lia.
  - cbn [loop_while]. rewrite Hc, Hn.
    destruct (Nat.ltb_spec (l0 + c) n) as [Hlt|Hge].
    + assert (Hf' : n <= fuel + (l0 + s) + c) by lia.
      destruct (IH (l0 + s) Hf') as (t & E & Hall & Hex).
      exists (Datatypes.S t). rewrite E. cbn [fst snd]. repeat split.
      * f_equal; [|lia]. cbn [seq map]. f_equal; [lia|].
        rewrite <- seq_shift, map_map.
        apply map_ext. intros j. lia.
      * intros j Hj. destruct j as [|j]; [lia|].
        specialize (Hall j). lia.
      * lia.
    + exists 0. simpl. split; [f_equal; lia|]. split; lia.
Qed.

(** for (o = o0; k < o; o /= 2): every value taken lies in (k, o0]. *)
Lemma loop_halving_range (k fuel o0 o : nat) :
  In o (fst (loop_while fuel (fun o => k <? o) (fun o => o / 2) o0)) ->
  k < o /\ o <= o0.
Proof.
  revert o0. induction fuel as [|fuel IH]; intros o0; cbn [loop_while fst In];
    [tauto|].
  destruct (Nat.ltb_spec k o0) as [Hlt|Hge]; cbn [fst In]; [|tauto].
  intros [<-|Hin]; [lia|].
  apply IH in Hin.
  assert (o0 / 2 <= o0) by (apply Nat.Div0.div_le_upper_bound; lia). lia.
Qed.

(** * Shared-memory phases *)

Ltac bool_step :=
  match goal with
  | |- context [Nat.eqb ?a ?b] => destruct (Nat.eqb_spec a b)
  | |- context [Nat.leb ?a ?b] => destruct (Nat.leb_spec a b)
  | |- context [Nat.ltb ?a ?b] => destruct (Nat.ltb_spec a b)
  end.

Ltac bool_cases :=
  cbv beta; cbn [andb orb negb];
  repeat (bool_step; cbv beta; cbn [andb orb negb]).

Ltac cell_solve :=
  unfold upd; bool_cases;
  solve [ reflexivity | assumption | lia | congruence
        | repeat f_equal; lia ].

Section Phases.
Context {S : Type}.

Lemma foreach_thread_inv (bd : dim3) (f : nat -> nat -> S -> S) (P : S -> Prop)
  (s : S) :
  (forall tx ty s, tx < dim_x bd -> ty < dim_y bd -> P s -> P (f tx ty s)) ->
  P s -> P (foreach_thread bd f s).
Proof.
  intros H Hs. unfold foreach_thread. apply fold_left_inv; [|exact Hs].
  intros s' [tx ty] Hin Ps. apply in_coords in Hin. apply H; tauto.
Qed.

Lemma foreach_thread_establish (bd : dim3) (f : nat -> nat -> S -> S)
  (P Q : S -> Prop) (tx0 ty0 : nat) (s : S) :
  tx0 < dim_x bd -> ty0 < dim_y bd ->
  (forall tx ty s, tx < dim_x bd -> ty < dim_y bd -> P s -> P (f tx ty s)) ->
  (forall tx ty s, tx < dim_x bd -> ty < dim_y bd -> P s -> Q s -> Q (f tx ty s)) ->
  (forall s, P s -> Q (f tx0 ty0 s)) ->
  P s -> Q (foreach_thread bd f s).
Proof.
  intros Hx Hy HP HQ H0 Hs. unfold foreach_thread.
  apply (fold_left_establish _ P Q (coords bd) (tx0, ty0)); try assumption.
  - apply in_coords. tauto.
  - intros s' [tx ty] Hin. apply in_coords in Hin. apply HP; tauto.
  - intros s' [tx ty] Hin. apply in_coords in Hin. apply HQ; tauto.
Qed.

End Phases.

(** A cell written with [v] by one thread and left alone, or written with
    [v] again, by the others. *)
Lemma foreach_thread_cell {num : Type} (bd : dim3)
  (f : nat -> nat -> @smem num -> @smem num) (a : nat) (v : num)
  (tx0 ty0 : nat) (buf : smem) :
  tx0 < dim_x bd -> ty0 < dim_y bd ->
  (forall tx ty buf, tx < dim_x bd -> ty < dim_y bd ->
                     buf a = v -> f tx ty buf a = v) ->
  (forall buf, f tx0 ty0 buf a = v) ->
  foreach_thread bd f buf a = v.
Proof.
  intros Hx Hy Hkeep Hset.
  apply (foreach_thread_establish bd f (fun _ => True) (fun b => b a = v) tx0 ty0);
    auto.
Qed.

Section EstimatorGeneric.
Context {num : Type} (N : Numerics num).

Lemma thread_moments_buffer (g : gmem) (xb i1 n2 : nat) (rms_only : bool)
  (idxs : list nat) :
  thread_moments N g (Some xb) i1 n2 rms_only idxs =
  thread_moments N (fun _ => g xb) (Some 0) i1 n2 rms_only idxs.
Proof. reflexivity. Qed.

(** The write and merge halves of one level of the inter-warp reduction
    amount to the step on registers, whatever the shared memory held. *)
Lemma inter_warp_phase (half rms_only : bool) (bd : dim3) (o : nat)
  (r : nat -> nat -> moments (num:=num)) (buf : smem) (tx ty : nat) :
  0 < dim_x bd -> 0 < o -> 2 * o <= dim_y bd ->
  inter_warp_merge N rms_only (dim_y bd) o
    (foreach_thread bd (inter_warp_write half rms_only (dim_y bd) o r) buf) r tx ty
  = inter_warp_step N rms_only o r tx ty.
Proof.
  intros Hbx Ho Hby. unfold inter_warp_merge, inter_warp_step.
  destruct ((tx =? 0) && (ty <? o)) eqn:C; [|reflexivity].
  apply andb_true_iff in C. destruct C as [Cx Cy].
  apply Nat.eqb_eq in Cx. apply Nat.ltb_lt in Cy. subst tx.
  assert (R1 : foreach_thread bd (inter_warp_write half rms_only (dim_y bd) o r) buf
                 (2 * ty + 1) = sigma2 (r 0 (ty + o))).
  { apply (foreach_thread_cell bd _ _ _ 0 (ty + o)); try lia.
    - intros tx' ty' b Hx' Hy' Hb. unfold inter_warp_write.
      destruct half, rms_only; cell_solve.
    - intros b. unfold inter_warp_write.
      destruct half, rms_only; cell_solve. }
  destruct rms_only; cbn [negb].
  - rewrite R1. reflexivity.
  - assert (R2 : foreach_thread bd (inter_warp_write half false (dim_y bd) o r) buf
                   (2 * ty) = mu (r 0 (ty + o))).
    { apply (foreach_thread_cell bd _ _ _ 0 (ty + o)); try lia.
      - intros tx' ty' b Hx' Hy' Hb. unfold inter_warp_write.
        destruct half; cell_solve.
      - intros b. unfold inter_warp_write. destruct half; cell_solve. }
    assert (R3 : foreach_thread bd (inter_warp_write half false (dim_y bd) o r) buf
                   (dim_y bd + ty) = count (r 0 (ty + o))).
    { apply (foreach_thread_cell bd _ _ _ 0 (ty + o)); try lia.
      - intros tx' ty' b Hx' Hy' Hb. unfold inter_warp_write.
        destruct half; cell_solve.
      - intros b. unfold inter_warp_write. destruct half; cell_solve. }
    rewrite R1, R2, R3. reflexivity.
Qed.

End EstimatorGeneric.

Section EstimatorRegisters.
Context {num : Type} (N : Numerics num).

Local Notation "a /! b" := (n_div N a b) (at level 40, left associativity).

Lemma inter_warp_step_ext (rms_only : bool) (o : nat)
  (r r' : nat -> nat -> moments (num:=num)) :
  (forall tx ty, r tx ty = r' tx ty) ->
  forall tx ty, inter_warp_step N rms_only o r tx ty
                = inter_warp_step N rms_only o r' tx ty.
Proof.
  intros H tx ty. unfold inter_warp_step. rewrite !H. reflexivity.
Qed.

(** The inter-warp loop through shared memory is the loop on registers. *)
Lemma inter_warp_loop (half rms_only : bool) (bd : dim3) (L : list nat) :
  0 < dim_x bd ->
  (forall o, In o L -> 0 < o /\ 2 * o <= dim_y bd) ->
  forall (r r' : nat -> nat -> moments (num:=num)) (buf : smem),
  (forall tx ty, r tx ty = r' tx ty) ->
  forall tx ty,
    fst (fold_left
           (fun (st : (nat -> nat -> moments) * smem) offset =>
              let buf' := foreach_thread bd
                 (inter_warp_write half rms_only (dim_y bd) offset (fst st))
                 (snd st) in
              (inter_warp_merge N rms_only (dim_y bd) offset buf' (fst st), buf'))
           L (r, buf)) tx ty
    = fold_left (fun r offset => inter_warp_step N rms_only offset r) L r' tx ty.
Proof.
  intros Hbx. induction L as [|o L IH]; intros HL r r' buf Hr tx ty.
  - simpl. apply Hr.
  - cbn [fold_left]. cbv zeta. cbn [fst snd]. apply IH.
    + intros o' Ho'. apply HL. now right.
    + intros tx' ty'. destruct (HL o (or_introl eq_refl)) as [H1 H2].
      rewrite inter_warp_phase by assumption.
      apply inter_warp_step_ext. exact Hr.
Qed.

Lemma online_step_rms_mu (curr : num) (a : moments) :
  mu (online_step N true curr a) = mu a.
Proof. reflexivity. Qed.

Lemma thread_moments_rms_mu (g : gmem) (vals : ptr) (i1 n2 : nat) (idxs : list nat) :
  mu (thread_moments N g vals i1 n2 true idxs) = n_zero N.
Proof.
  unfold thread_moments.
  apply (fold_left_inv _ (fun a => mu a = n_zero N)); [|reflexivity].
  intros a l _ Ha. rewrite online_step_rms_mu. exact Ha.
Qed.

Lemma intra_warp_rms_mu (L : list nat) (r : nat -> nat -> moments (num:=num)) :
  (forall tx ty, mu (r tx ty) = n_zero N) ->
  forall tx ty,
    mu (fold_left (fun r l => intra_warp_step N true l r) L r tx ty) = n_zero N.
Proof.
  intros H.
  apply (fold_left_inv _ (fun r => forall tx ty, mu (r tx ty) = n_zero N));
    [|exact H].
  intros r' l _ Hr tx ty. unfold intra_warp_step. cbn [negb mu]. apply Hr.
Qed.

Lemma inter_warp_rms_mu (half : bool) (bd : dim3) (L : list nat)
  (r : nat -> nat -> moments (num:=num)) (buf : smem) :
  (forall tx ty, mu (r tx ty) = n_zero N) ->
  forall tx ty,
    mu (fst (fold_left
           (fun (st : (nat -> nat -> moments) * smem) offset =>
              let buf' := foreach_thread bd
                 (inter_warp_write half true (dim_y bd) offset (fst st))
                 (snd st) in
              (inter_warp_merge N true (dim_y bd) offset buf' (fst st), buf'))
           L (r, buf)) tx ty) = n_zero N.
Proof.
  intros H.
  apply (fold_left_inv _
           (fun st : (nat -> nat -> moments) * smem =>
              forall tx ty, mu (fst st tx ty) = n_zero N)); [|exact H].
  intros st o _ Hst tx ty. cbv zeta. cbn [fst]. unfold inter_warp_merge.
  destruct ((tx =? 0) && (ty <? o)); cbn [negb mu]; apply Hst.
Qed.

(** What cuWelfordMuSigma2 leaves in the registers (mu, sigma2) of every
    thread, whatever the shared memory held on entry. *)
Lemma cuWelfordMuSigma2_registers (half misaligned : bool) (bd : dim3)
  (g : gmem) (xb n1 n2 i1 : nat) (buf : smem) (rms_only : bool) (tx ty : nat) :
  0 < dim_x bd -> i1 < n1 -> tx < dim_x bd -> ty < dim_y bd ->
  fst (cuWelfordMuSigma2 N half misaligned bd g (Some xb) n1 n2 i1 buf rms_only)
      tx ty =
  ((if negb rms_only
    then mu (block_moments N half misaligned bd (g xb) n2 i1 rms_only)
    else n_zero N),
   sigma2 (block_moments N half misaligned bd (g xb) n2 i1 rms_only)
     /! n_of_int N n2).
Proof.
  intros Hbx Hi1 Htx Hty. unfold cuWelfordMuSigma2, block_moments. cbv zeta.
  apply Nat.ltb_lt in Hi1. rewrite Hi1.
  destruct (Nat.ltb_spec 1 (dim_y bd)) as [Hby|Hby].
  - cbn [fst].
    set (L := fst (loop_while (dim_y bd) (fun o => 0 <? o) (fun o => o / 2)
                              (dim_y bd / 2))).
    assert (HL : forall o, In o L -> 0 < o /\ 2 * o <= dim_y bd).
    { intros o Ho. apply loop_halving_range in Ho. destruct Ho as [H1 H2].
      split; [exact H1|].
      pose proof (Nat.Div0.mul_div_le (dim_y bd) 2). lia. }
    match goal with
    | |- context [fold_left ?F L (?r1, buf)] =>
        set (st := fold_left F L (r1, buf)); set (R1 := r1) in *
    end.
    assert (E : forall tx ty, fst st tx ty =
              fold_left (fun r offset => inter_warp_step N rms_only offset r) L R1 tx ty).
    { intros tx' ty'. apply inter_warp_loop; auto. }
    match goal with
    | |- context [foreach_thread bd ?F (snd st)] =>
        set (buf3 := foreach_thread bd F (snd st))
    end.
    assert (B1 : buf3 1 = sigma2 (fst st 0 0)).
    { apply (foreach_thread_cell bd _ _ _ 0 0); try lia.
      - intros tx' ty' b _ _ Hb. destruct rms_only; cell_solve.
      - intros b. destruct rms_only; cell_solve. }
    rewrite B1. f_equal; [|rewrite E; reflexivity].
    destruct rms_only; cbn [negb].
    + subst st. apply inter_warp_rms_mu. intros tx' ty'. subst R1.
      apply intra_warp_rms_mu.
      intros tx'' ty''. apply thread_moments_rms_mu.
    + assert (B0 : buf3 0 = mu (fst st 0 0)).
      { apply (foreach_thread_cell bd _ _ _ 0 0); try lia.
        - intros tx' ty' b _ _ Hb. cell_solve.
        - intros b. cell_solve. }
      rewrite B0, E. reflexivity.
  - assert (ty = 0) by lia. subst ty. cbn [fst]. unfold shfl_sync.
    change (0 mod warpSize) with 0. f_equal.
    destruct rms_only; cbn [negb]; [|reflexivity].
    apply intra_warp_rms_mu. intros tx' ty'. apply thread_moments_rms_mu.
Qed.

End EstimatorRegisters.

(** * Exact sums *)

Lemma sum_over_cons (f : nat -> Qc) (a : nat) (l : list nat) :
  sum_over f (a :: l) = (f a + sum_over f l)%Qc.
Proof. reflexivity. Qed.

Lemma sum_over_app (f : nat -> Qc) (l1 l2 : list nat) :
  sum_over f (l1 ++ l2) = (sum_over f l1 + sum_over f l2)%Qc.
Proof.
  induction l1 as [|a l1 IH]; simpl.
  - ring.
  - rewrite IH. ring.
Qed.

Lemma sum_over_perm (f : nat -> Qc) (l1 l2 : list nat) :
  Permutation l1 l2 -> sum_over f l1 = sum_over f l2.
Proof.
  induction 1; simpl; try congruence.
  ring.
Qed.

Lemma sum_over_ext (f g : nat -> Qc) (l : list nat) :
  (forall i, In i l -> f i = g i) -> sum_over f l = sum_over g l.
Proof.
  induction l as [|a l IH]; intros H; simpl; [reflexivity|].
  rewrite H by now left. rewrite IH; [reflexivity|].
  intros i Hi. apply H. now right.
Qed.

Lemma sum_over_seq (f : nat -> Qc) (n : nat) :
  sum_over f (seq 0 n) = sum_upto f n.
Proof.
  induction n as [|n IH]; [reflexivity|].
  rewrite seq_S, sum_over_app, IH. simpl. ring.
Qed.

Lemma sum_over_shift (f : nat -> Qc) (a n : nat) :
  sum_over f (seq a n) = sum_over (fun i => f (a + i)) (seq 0 n).
Proof.
  revert f a. induction n as [|n IH]; intros f a; [reflexivity|].
  cbn [seq]. rewrite !sum_over_cons.
  rewrite (IH f (Datatypes.S a)), (IH (fun i => f (a + i)) 1).
  rewrite Nat.add_0_r. f_equal.
  apply sum_over_ext. intros i _. f_equal. lia.
Qed.

Lemma sum_upto_ext (f g : nat -> Qc) (n : nat) :
  (forall i, i < n -> f i = g i) -> sum_upto f n = sum_upto g n.
Proof.
  induction n as [|n IH]; intros H; simpl; [reflexivity|].
  rewrite IH by (intros; apply H; lia). rewrite H by lia. reflexivity.
Qed.

Lemma sum_upto_plus (f g : nat -> Qc) (n : nat) :
  sum_upto (fun i => f i + g i)%Qc n = (sum_upto f n + sum_upto g n)%Qc.
Proof. induction n as [|n IH]; simpl; [ring|rewrite IH; ring]. Qed.

Lemma sum_upto_scal (c : Qc) (f : nat -> Qc) (n : nat) :
  sum_upto (fun i => c * f i)%Qc n = (c * sum_upto f n)%Qc.
Proof. induction n as [|n IH]; simpl; [ring|rewrite IH; ring]. Qed.

Lemma Qc_of_nat_S (n : nat) : Qc_of_nat (Datatypes.S n) = (Qc_of_nat n + 1)%Qc.
Proof.
  unfold Qc_of_nat.
  replace (Z.of_nat (Datatypes.S n)) with (Z.of_nat n + 1)%Z by lia.
  unfold Qcplus. apply Q2Qc_eq_iff. cbn [this Q2Qc].
  rewrite Qred_correct, inject_Z_plus. reflexivity.
Qed.

Lemma Qc_of_nat_0 : Qc_of_nat 0 = 0%Qc.
Proof. apply Qc_is_canon. reflexivity. Qed.

Lemma Qc_of_nat_add (n m : nat) : Qc_of_nat (n + m) = (Qc_of_nat n + Qc_of_nat m)%Qc.
Proof.
  induction n as [|n IH]; simpl.
  - rewrite Qc_of_nat_0. ring.
  - rewrite !Qc_of_nat_S, IH. ring.
Qed.

Lemma Qc_of_nat_nonneg (n : nat) : (0 <= Qc_of_nat n)%Qc.
Proof.
  induction n as [|n IH].
  - rewrite Qc_of_nat_0. apply Qcle_refl.
  - rewrite Qc_of_nat_S. apply Qcle_trans with (y := Qc_of_nat n); [exact IH|].
    rewrite <- (Qcplus_0_r (Qc_of_nat n)) at 1.
    apply Qcplus_le_compat; [apply Qcle_refl|discriminate].
Qed.

Lemma Qc_of_nat_pos (n : nat) : 0 < n -> (0 < Qc_of_nat n)%Qc.
Proof.
  destruct n as [|n]; [lia|]. intros _. rewrite Qc_of_nat_S.
  apply Qc_add_pos_r; [apply Qc_of_nat_nonneg|reflexivity].
Qed.

Lemma Qc_of_nat_neq0 (n : nat) : 0 < n -> Qc_of_nat n <> 0%Qc.
Proof. intros H. apply Qc_pos_neq0. now apply Qc_of_nat_pos. Qed.

Lemma sum_upto_const (c : Qc) (n : nat) :
  sum_upto (fun _ => c) n = (Qc_of_nat n * c)%Qc.
Proof.
  induction n as [|n IH]; simpl.
  - rewrite Qc_of_nat_0. ring.
  - rewrite IH, Qc_of_nat_S. ring.
Qed.

(** * The accumulators summarise the elements they consumed *)

Section Summaries.
Variable rsqrt_fn : Qc -> Qc.
Local Abbreviation E := (exactQ rsqrt_fn).
Variable x : nat -> Qc.

Lemma summarises_init (rms_only : bool) :
  summarises x rms_only (Moments 0%Qc 0%Qc 0%Qc) [].
Proof.
  destruct rms_only; simpl; [reflexivity|].
  rewrite Qc_of_nat_0. repeat split; ring.
Qed.

Lemma summarises_perm (rms_only : bool) (a : moments) (l l' : list nat) :
  Permutation l l' -> summarises x rms_only a l -> summarises x rms_only a l'.
Proof.
  intros P. unfold summarises. destruct rms_only.
  - now rewrite (sum_over_perm _ _ _ P).
  - cbv zeta. rewrite (Permutation_length P), !(sum_over_perm _ _ _ P).
    intros (H1 & H2 & H3 & H4). repeat split; try assumption.
    intros ->. apply H4. apply Permutation_sym in P.
    now apply Permutation_nil in P.
Qed.

Lemma length_zero_nil {A : Type} (l : list A) : length l = 0 -> l = [].
Proof. destruct l; [reflexivity|discriminate]. Qed.

Lemma summarises_full_empty (a : moments) (l : list nat) :
  summarises x false a l -> length l = 0 ->
  sigma2 a = 0%Qc /\ sum_over x l = 0%Qc
  /\ sum_over (fun i => x i * x i)%Qc l = 0%Qc.
Proof.
  intros (H1 & H2 & H3 & H4) Z. apply length_zero_nil in Z. subst l.
  split; [now apply H4|]. split; reflexivity.
Qed.

Lemma summarises_full_nonempty (a : moments) (l : list nat) :
  summarises x false a l -> 0 < length l ->
  mu a = (sum_over x l / Qc_of_nat (length l))%Qc /\
  sigma2 a = (sum_over (fun i => x i * x i) l
              - sum_over x l * sum_over x l / Qc_of_nat (length l))%Qc.
Proof.
  intros (H1 & H2 & H3 & H4) P.
  pose proof (Qc_of_nat_neq0 _ P) as NZ. cbv zeta in *.
  split.
  - rewrite <- H2. field. exact NZ.
  - replace (sigma2 a)
      with (Qc_of_nat (length l) * sigma2 a / Qc_of_nat (length l))%Qc
      by (field; exact NZ).
    rewrite H3. field. exact NZ.
Qed.

Lemma summarises_full_intro (a : moments) (l : list nat) :
  0 < length l ->
  count a = Qc_of_nat (length l) ->
  mu a = (sum_over x l / Qc_of_nat (length l))%Qc ->
  sigma2 a = (sum_over (fun i => x i * x i) l
              - sum_over x l * sum_over x l / Qc_of_nat (length l))%Qc ->
  summarises x false a l.
Proof.
  intros P H1 H2 H3. pose proof (Qc_of_nat_neq0 _ P) as NZ.
  unfold summarises. cbv zeta. rewrite H2, H3.
  split; [exact H1|]. split; [field; exact NZ|]. split; [field; exact NZ|].
  intros ->. simpl in P. lia.
Qed.

Lemma summarises_step (rms_only : bool) (a : moments) (l : list nat) (i : nat) :
  summarises x rms_only a l ->
  summarises x rms_only (online_step E rms_only (x i) a) (l ++ [i]).
Proof.
  destruct rms_only.
  - unfold summarises, online_step, cuRMSOnlineSum. cbn [negb sigma2 n_add n_mul E exactQ].
    intros ->. rewrite sum_over_app. simpl. ring.
  - intros H. unfold online_step. cbn [negb].
    assert (L : length (l ++ [i]) = Datatypes.S (length l))
      by (rewrite length_app; simpl; lia).
    pose proof (Qc_of_nat_neq0 (Datatypes.S (length l)) ltac:(lia)) as NZ.
    rewrite Qc_of_nat_S in NZ.
    apply summarises_full_intro; rewrite ?L, ?sum_over_app, ?Qc_of_nat_S;
      try lia; unfold cuWelfordOnlineSum;
      cbn [mu sigma2 count n_add n_sub n_mul n_div n_one E exactQ sum_over fold_right].
    + destruct H as (H1 & _). rewrite H1. reflexivity.
    + destruct (Nat.eq_dec (length l) 0) as [Z|NZ0].
      * destruct (summarises_full_empty _ _ H Z) as (S0 & S1 & S2).
        destruct H as (H1 & _). rewrite H1, S1, Z, Qc_of_nat_0. field.
        discriminate.
      * destruct (summarises_full_nonempty a l H ltac:(lia)) as (M & S).
        destruct H as (H1 & _). rewrite H1, M.
        pose proof (Qc_of_nat_neq0 (length l) ltac:(lia)).
        field. split; assumption.
    + destruct (Nat.eq_dec (length l) 0) as [Z|NZ0].
      * destruct (summarises_full_empty _ _ H Z) as (S0 & S1 & S2).
        destruct H as (H1 & _). rewrite H1, S0, S1, S2, Z, Qc_of_nat_0. field.
        discriminate.
      * destruct (summarises_full_nonempty a l H ltac:(lia)) as (M & S).
        destruct H as (H1 & _). rewrite H1, M, S.
        pose proof (Qc_of_nat_neq0 (length l) ltac:(lia)).
        field. split; assumption.
Qed.

Lemma merge_moments_unfold (a b : moments) :
  cuChanOnlineSum E (mu b) (sigma2 b) (count b) a = merge_moments E a b.
Proof. reflexivity. Qed.

Lemma summarises_chan (a b : moments) (la lb : list nat) :
  summarises x false a la -> summarises x false b lb ->
  summarises x false (cuChanOnlineSum E (mu b) (sigma2 b) (count b) a) (la ++ lb).
Proof.
  intros Ha Hb. rewrite merge_moments_unfold.
  assert (Ca : count a = Qc_of_nat (length la)) by (destruct Ha; assumption).
  assert (Cb : count b = Qc_of_nat (length lb)) by (destruct Hb; assumption).
  destruct a as [mA sA cA], b as [mB sB cB]. cbn [count] in Ca, Cb. subst cA cB.
  destruct (Nat.eq_dec (length la) 0) as [Za|Na];
  destruct (Nat.eq_dec (length lb) 0) as [Zb|Nb].
  - rewrite merge_nonpos
      by (rewrite Za, Zb, Qc_of_nat_0, Qcplus_0_l; apply Qcle_refl).
    apply length_zero_nil in Za, Zb. subst la lb. simpl.
    rewrite Qc_of_nat_0. repeat split; ring.
  - destruct (summarises_full_empty _ _ Ha Za) as (S0 & S1 & S2).
    destruct (summarises_full_nonempty _ _ Hb ltac:(lia)) as (M & S).
    cbn [mu sigma2] in *. subst sA.
    pose proof (Qc_of_nat_pos (length lb) ltac:(lia)) as P.
    pose proof (Qc_pos_neq0 _ P) as NZ.
    rewrite merge_pos by (rewrite Za, Qc_of_nat_0, Qcplus_0_l; exact P).
    apply summarises_full_intro; rewrite ?length_app, ?sum_over_app, ?Za, ?S1, ?S2;
      cbn [mu sigma2 count Nat.add]; rewrite ?Qc_of_nat_0, ?M, ?S;
      try lia; try (field; rewrite ?Qcplus_0_l; auto).
    all: try ring.
  - destruct (summarises_full_empty _ _ Hb Zb) as (S0 & S1 & S2).
    destruct (summarises_full_nonempty _ _ Ha ltac:(lia)) as (M & S).
    cbn [mu sigma2] in *. subst sB.
    pose proof (Qc_of_nat_pos (length la) ltac:(lia)) as P.
    pose proof (Qc_pos_neq0 _ P) as NZ.
    rewrite merge_pos by (rewrite Zb, Qc_of_nat_0, Qcplus_0_r; exact P).
    apply summarises_full_intro;
      rewrite ?length_app, ?sum_over_app, ?Zb, ?S1, ?S2, ?Nat.add_0_r;
      cbn [mu sigma2 count]; rewrite ?Qc_of_nat_0, ?M, ?S;
      try lia; try (field; rewrite ?Qcplus_0_r; auto).
    all: try ring.
  - destruct (summarises_full_nonempty _ _ Ha ltac:(lia)) as (Ma & Sa).
    destruct (summarises_full_nonempty _ _ Hb ltac:(lia)) as (Mb & Sb).
    cbn [mu sigma2] in *.
    pose proof (Qc_of_nat_pos (length la) ltac:(lia)) as Pa.
    pose proof (Qc_of_nat_pos (length lb) ltac:(lia)) as Pb.
    pose proof (Qc_pos_neq0 _ Pa) as NZa.
    pose proof (Qc_pos_neq0 _ Pb) as NZb.
    assert (Pab : (0 < Qc_of_nat (length la) + Qc_of_nat (length lb))%Qc).
    { apply Qc_add_pos_l; [exact Pa|apply Qc_of_nat_nonneg]. }
    pose proof (Qc_pos_neq0 _ Pab) as NZab.
    rewrite merge_pos by exact Pab.
    apply summarises_full_intro;
      rewrite ?length_app, ?sum_over_app, ?Qc_of_nat_add;
      cbn [mu sigma2 count]; rewrite ?Ma, ?Mb, ?Sa, ?Sb;
      try lia; try (field; auto).
    all: try reflexivity.
Qed.

(** The two merge sites of the estimator keep summaries. *)
Lemma summarises_merge (rms_only : bool) (a b : moments) (la lb : list nat) :
  summarises x rms_only a la -> summarises x rms_only b lb ->
  summarises x rms_only
    (if negb rms_only then cuChanOnlineSum E (mu b) (sigma2 b) (count b) a
     else Moments (mu a) (cuChanRMSOnlineSum E (sigma2 b) (sigma2 a)) (count a))
    (la ++ lb).
Proof.
  destruct rms_only; cbn [negb].
  - unfold summarises, cuChanRMSOnlineSum. cbn [sigma2 n_add E exactQ].
    intros -> ->. now rewrite sum_over_app.
  - apply summarises_chan.
Qed.

Lemma summarises_thread (g : gmem) (xb i1 n2 : nat) (rms_only : bool)
  (idxs : list nat) :
  (forall l, x l = g xb (i1 * n2 + l)) ->
  summarises x rms_only (thread_moments E g (Some xb) i1 n2 rms_only idxs) idxs.
Proof.
  intros Hx. unfold thread_moments.
  assert (G : forall l0 a, summarises x rms_only a l0 ->
            summarises x rms_only
              (fold_left (fun a l => online_step E rms_only
                            (n_T2U E (load (n_zero E) g (Some xb) (i1 * n2 + l))) a)
                         idxs a) (l0 ++ idxs)).
  { induction idxs as [|i idxs IH]; intros l0 a Ha; simpl.
    - now rewrite app_nil_r.
    - replace (l0 ++ i :: idxs) with ((l0 ++ [i]) ++ idxs)
        by (rewrite <- app_assoc; reflexivity).
      apply IH. rewrite <- Hx. now apply summarises_step. }
  apply (G [] _ (summarises_init rms_only)).
Qed.

End Summaries.

(** * The reduction trees *)

Lemma flat_map_seq_shift {A : Type} (f : nat -> list A) (a n : nat) :
  flat_map f (seq a n) = flat_map (fun j => f (a + j)) (seq 0 n).
Proof.
  revert a. induction n as [|n IH]; intros a; [reflexivity|].
  rewrite !seq_S, !flat_map_app, IH. cbn [flat_map]. rewrite Nat.add_0_l.
  reflexivity.
Qed.

Lemma flat_map_seq_double {A : Type} (f : nat -> list A) (n : nat) :
  flat_map f (seq 0 (2 * n)) =
  flat_map f (seq 0 n) ++ flat_map (fun j => f (n + j)) (seq 0 n).
Proof.
  replace (2 * n) with (n + n) by lia.
  rewrite seq_app, flat_map_app, Nat.add_0_l. f_equal.
  apply flat_map_seq_shift.
Qed.

Lemma flat_map_app_perm {A B : Type} (f g : A -> list B) (l : list A) :
  Permutation (flat_map (fun y => f y ++ g y) l) (flat_map f l ++ flat_map g l).
Proof.
  induction l as [|a l IH]; simpl; [constructor|].
  rewrite IH, <- !app_assoc. apply Permutation_app_head.
  rewrite !app_assoc. apply Permutation_app_tail.
  apply Permutation_app_comm.
Qed.

Lemma land_31 (v : nat) : Nat.land v 31 = v mod 32.
Proof. change 31 with (Nat.ones 5). rewrite Nat.land_ones. reflexivity. Qed.

(** for (offset = 2^k / 2; offset > 0; offset /= 2): 2^(k-1), ..., 2, 1. *)
Lemma halving_from_pow2 (j fuel : nat) :
  j < fuel ->
  fst (loop_while fuel (fun o => 0 <? o) (fun o => o / 2) (2 ^ j)) =
  map (Nat.pow 2) (rev (seq 0 (Datatypes.S j))).
Proof.
  revert fuel. induction j as [|j IH]; intros fuel Hf.
  - destruct fuel as [|[|fuel]]; try lia; reflexivity.
  - destruct fuel as [|fuel]; [lia|]. cbn [loop_while].
    assert (P : 0 < 2 ^ Datatypes.S j) by (apply Nat.neq_0_lt_0, Nat.pow_nonzero; lia).
    apply Nat.ltb_lt in P. rewrite P. cbn [fst].
    rewrite (seq_S (Datatypes.S j) 0), rev_app_distr. cbn [rev app map Nat.add].
    f_equal.
    replace (2 ^ Datatypes.S j / 2) with (2 ^ j)
      by (rewrite Nat.pow_succ_r', Nat.mul_comm, Nat.div_mul; lia).
    apply IH. lia.
Qed.

Lemma halving_offsets (k : nat) :
  fst (loop_while (2 ^ k) (fun o => 0 <? o) (fun o => o / 2) (2 ^ k / 2)) =
  map (Nat.pow 2) (rev (seq 0 k)).
Proof.
  destruct k as [|k].
  - reflexivity.
  - replace (2 ^ Datatypes.S k / 2) with (2 ^ k)
      by (rewrite Nat.pow_succ_r', Nat.mul_comm, Nat.div_mul; lia).
    apply halving_from_pow2.
    pose proof (Nat.pow_gt_lin_r 2 (Datatypes.S k)). lia.
Qed.

Section Trees.
Variable rsqrt_fn : Qc -> Qc.
Local Abbreviation E := (exactQ rsqrt_fn).
Variable x : nat -> Qc.
Variable rms_only : bool.

(** After n steps of the intra-warp exchange, lane tx holds the merge of the
    2^n lanes tx, tx+1, ... (modulo 32). *)
Lemma intra_warp_summarises (ty n : nat) (r : nat -> nat -> moments)
  (W : nat -> list nat) :
  (forall tx, tx < 32 -> summarises x rms_only (r tx ty) (W tx)) ->
  forall tx, tx < 32 ->
    summarises x rms_only
      (fold_left (fun r l => intra_warp_step E rms_only l r) (seq 0 n) r tx ty)
      (flat_map (fun j => W ((tx + j) mod 32)) (seq 0 (2 ^ n))).
Proof.
  intros Hr. induction n as [|n IH]; intros tx Htx.
  - cbn [seq fold_left Nat.pow flat_map]. rewrite Nat.add_0_r, app_nil_r.
    rewrite Nat.mod_small by exact Htx. now apply Hr.
  - rewrite seq_S, fold_left_app. cbn [fold_left Nat.add].
    unfold intra_warp_step at 1. cbv zeta. unfold shfl_sync.
    rewrite land_31, Nat.shiftl_1_l. change warpSize with 32.
    rewrite Nat.Div0.mod_mod.
    rewrite Nat.pow_succ_r', flat_map_seq_double.
    set (src := (tx + 2 ^ n) mod 32).
    assert (Hsrc : src < 32) by (apply Nat.mod_upper_bound; lia).
    pose proof (IH tx Htx) as Ha. pose proof (IH src Hsrc) as Hb.
    replace (flat_map (fun j => W ((tx + (2 ^ n + j)) mod 32)) (seq 0 (2 ^ n)))
      with (flat_map (fun j => W ((src + j) mod 32)) (seq 0 (2 ^ n))).
    + apply (summarises_merge rsqrt_fn x rms_only _ _ _ _ Ha Hb).
    + apply flat_map_ext. intros j. f_equal. unfold src.
      rewrite Nat.Div0.add_mod_idemp_l. f_equal. lia.
Qed.

(** The inter-warp tree over 2^k warps leaves in thread (0, 0) the merge of
    lane 0 of every warp. *)
Lemma inter_warp_summarises (k : nat) :
  forall (r : nat -> nat -> moments) (W : nat -> list nat),
  (forall ty, ty < 2 ^ k -> summarises x rms_only (r 0 ty) (W ty)) ->
  summarises x rms_only
    (fold_left (fun r o => inter_warp_step E rms_only o r)
               (map (Nat.pow 2) (rev (seq 0 k))) r 0 0)
    (flat_map W (seq 0 (2 ^ k))).
Proof.
  induction k as [|k IH]; intros r W Hr.
  - cbn [seq rev map fold_left Nat.pow flat_map]. rewrite app_nil_r.
    apply Hr. simpl. lia.
  - rewrite seq_S, rev_app_distr. cbn [rev app map fold_left Nat.add].
    set (o := 2 ^ k).
    assert (Ho : 2 ^ Datatypes.S k = 2 * o) by (unfold o; apply Nat.pow_succ_r').
    eapply summarises_perm;
      [|apply (IH (inter_warp_step E rms_only o r)
                  (fun ty => W ty ++ W (ty + o)))].
    + rewrite Ho, flat_map_seq_double. rewrite flat_map_app_perm.
      apply Permutation_app_head.
      erewrite flat_map_ext; [reflexivity|]. intros a. cbv beta. f_equal. lia.
    + intros ty Hty. unfold inter_warp_step. cbn [Nat.eqb andb].
      fold o in Hty. apply Nat.ltb_lt in Hty. rewrite Hty.
      apply Nat.ltb_lt in Hty.
      apply summarises_merge; apply Hr; lia.
Qed.

End Trees.

(** * The threads of a block partition the row *)

Lemma NoDup_flat_map_disjoint {A B : Type} (f : A -> list B) (l : list A) :
  NoDup l ->
  (forall a, In a l -> NoDup (f a)) ->
  (forall a a' y, In a l -> In a' l -> In y (f a) -> In y (f a') -> a = a') ->
  NoDup (flat_map f l).
Proof.
  induction l as [|a l IH]; intros ND Hf Hd; simpl; [constructor|].
  inversion ND as [|? ? Ha ND']; subst.
  apply NoDup_app.
  - apply Hf. now left.
  - apply IH; auto.
    + intros a' Ha'. apply Hf. now right.
    + intros a1 a2 y H1 H2. apply Hd; now right.
  - intros y Hy Hy'. apply in_flat_map in Hy'. destruct Hy' as (a' & Ha' & Hy').
    assert (a = a') by (apply (Hd a a' y); auto; [now left|now right]).
    subst a'. contradiction.
Qed.

Lemma flat_map_grid {A : Type} (f : nat -> list A) (bx bdy : nat) :
  flat_map (fun ty => flat_map (fun tx => f (tx + ty * bx)) (seq 0 bx)) (seq 0 bdy)
  = flat_map f (seq 0 (bx * bdy)).
Proof.
  induction bdy as [|bdy IH].
  - rewrite Nat.mul_0_r. reflexivity.
  - rewrite seq_S, flat_map_app, IH. cbn [flat_map Nat.add]. rewrite app_nil_r.
    replace (bx * Datatypes.S bdy) with (bx * bdy + bx) by lia.
    rewrite seq_app, flat_map_app, Nat.add_0_l. f_equal.
    rewrite (flat_map_seq_shift f (bx * bdy) bx).
    apply flat_map_ext. intros a. f_equal. lia.
Qed.

Lemma seq_affine (l0 m : nat) :
  map (fun j => l0 + j * 1) (seq 0 m) = seq l0 m.
Proof.
  revert l0. induction m as [|m IH]; intros l0; [reflexivity|].
  cbn [seq map]. f_equal; [lia|].
  rewrite <- seq_shift, map_map, <- (IH (Datatypes.S l0)).
  apply map_ext. intros j. lia.
Qed.

(** for (; l < n2; ++l) from [l0]: l0, ..., n2 - 1. *)
Lemma tail_loop (n2 l0 : nat) :
  fst (loop_while n2 (fun l => l <? n2) (fun l => l + 1) l0) = seq l0 (n2 - l0).
Proof.
  assert (H : exists t,
    loop_while n2 (fun l => l <? n2) (fun l => l + 1) l0 =
      (map (fun j => l0 + j * 1) (seq 0 t), l0 + t * 1) /\
    (forall j, j < t -> l0 + j * 1 + 0 < n2) /\
    n2 <= l0 + t * 1 + 0).
  { apply loop_up; try lia; intros l; rewrite ?Nat.add_0_r; reflexivity. }
  destruct H as (t & E & Hall & Hex). rewrite E. cbn [fst].
  assert (t = n2 - l0).
  { destruct t as [|t]; [lia|]. specialize (Hall t). lia. }
  subst t. apply seq_affine.
Qed.

(** The strided traversal of a thread, for blocks of [c+1] elements
    starting at [s0]: thread [t] of [T] takes the blocks t, t + T, ... that
    fit in the row, and the incomplete last block if it falls to it. *)
Section Strided.
Variables (c T n2 s0 t : nat).
Variable blk : nat -> list nat.
Variable cond : nat -> bool.
Variable next : nat -> nat.
Variable l0 : nat.
Hypothesis blk_in : forall l y, In y (blk l) <-> l <= y < l + (c + 1).
Hypothesis blk_nodup : forall l, NoDup (blk l).
Hypothesis cond_eq : forall l, cond l = (l + c <? n2).
Hypothesis next_eq : forall l, next l = l + (c + 1) * T.
Hypothesis l0_eq : l0 = (c + 1) * t + s0.
Hypothesis T_pos : 0 < T.
Hypothesis t_lt : t < T.

Let main := loop_while n2 cond next l0.
Let idx := flat_map blk (fst main)
           ++ fst (loop_while n2 (fun l => l <? n2) (fun l => l + 1) (snd main)).

Lemma strided_main :
  exists tr,
    main = (map (fun j => l0 + j * ((c + 1) * T)) (seq 0 tr),
            l0 + tr * ((c + 1) * T)) /\
    (forall j, j < tr -> l0 + j * ((c + 1) * T) + c < n2) /\
    n2 <= l0 + tr * ((c + 1) * T) + c.
Proof.
  apply loop_up; try assumption; try lia; try nia.
Qed.

Lemma strided_div (j k : nat) :
  k < c + 1 ->
  ((l0 + j * ((c + 1) * T) + k - s0) / (c + 1)) mod T = t.
Proof.
  intros Hk.
  replace (l0 + j * ((c + 1) * T) + k - s0) with ((t + j * T) * (c + 1) + k)
    by (rewrite l0_eq; nia).
  rewrite Nat.div_add_l by lia. rewrite (Nat.div_small k) by lia.
  rewrite Nat.add_0_r, Nat.Div0.mod_add. apply Nat.mod_small. exact t_lt.
Qed.

Lemma strided_in (y : nat) :
  In y idx <-> s0 <= y < n2 /\ ((y - s0) / (c + 1)) mod T = t.
Proof.
  destruct strided_main as (tr & E & Hall & Hex).
  unfold idx. rewrite in_app_iff, tail_loop, in_seq, in_flat_map, E.
  cbn [fst snd]. split.
  - intros [(l & Hl & Hy)|Hy].
    + apply in_map_iff in Hl. destruct Hl as (j & <- & Hj).
      apply in_seq in Hj. apply blk_in in Hy.
      specialize (Hall j ltac:(lia)).
      replace y with (l0 + j * ((c + 1) * T) + (y - (l0 + j * ((c + 1) * T))))
        by lia.
      rewrite strided_div by lia. lia.
    + replace y with (l0 + tr * ((c + 1) * T) + (y - (l0 + tr * ((c + 1) * T))))
        by lia.
      rewrite strided_div by lia. lia.
  - intros [Hy Hq].
    set (q := (y - s0) / (c + 1)) in *.
    pose proof (Nat.div_mod_eq (y - s0) (c + 1)) as D1. fold q in D1.
    pose proof (Nat.mod_upper_bound (y - s0) (c + 1) ltac:(lia)) as D2.
    pose proof (Nat.div_mod_eq q T) as D3. rewrite Hq in D3.
    set (j := q / T) in *. set (r := (y - s0) mod (c + 1)) in *.
    clearbody j r. clear Hq. clearbody q.
    assert (Ey : y = l0 + j * ((c + 1) * T) + r) by (rewrite l0_eq; nia).
    destruct (Nat.lt_ge_cases j tr) as [Hj|Hj].
    + left. exists (l0 + j * ((c + 1) * T)). split.
      * apply in_map_iff. exists j. split; [reflexivity|apply in_seq; lia].
      * apply blk_in. lia.
    + right. assert (tr * ((c + 1) * T) <= j * ((c + 1) * T))
        by (apply Nat.mul_le_mono_r; exact Hj).
      lia.
Qed.

Lemma strided_nodup : NoDup idx.
Proof.
  destruct strided_main as (tr & E & Hall & Hex).
  assert (Hs : c + 1 <= (c + 1) * T) by nia.
  unfold idx. rewrite tail_loop, E. cbn [fst snd].
  apply NoDup_app.
  - apply NoDup_flat_map_disjoint.
    + apply Injective_map_NoDup; [|apply seq_NoDup].
      intros a b Hab. nia.
    + intros a _. apply blk_nodup.
    + intros a a' y Ha Ha' Hy Hy'.
      apply in_map_iff in Ha, Ha'.
      destruct Ha as (j & <- & _), Ha' as (j' & <- & _).
      apply blk_in in Hy, Hy'.
      destruct (Nat.lt_trichotomy j j') as [L|[->|L]]; [|reflexivity|].
      * assert (Datatypes.S j * ((c + 1) * T) <= j' * ((c + 1) * T))
          by (apply Nat.mul_le_mono_r; lia).
        lia.
      * assert (Datatypes.S j' * ((c + 1) * T) <= j * ((c + 1) * T))
          by (apply Nat.mul_le_mono_r; lia).
        lia.
  - apply seq_NoDup.
  - intros y Hy Hy'. apply in_seq in Hy'. apply in_flat_map in Hy.
    destruct Hy as (l & Hl & Hy). apply in_map_iff in Hl.
    destruct Hl as (j & <- & Hj). apply in_seq in Hj. apply blk_in in Hy.
    assert (Datatypes.S j * ((c + 1) * T) <= tr * ((c + 1) * T))
      by (apply Nat.mul_le_mono_r; lia).
    lia.
Qed.

End Strided.

Lemma partition_perm (idx : nat -> list nat) (T n2 s0 w : nat) :
  0 < T ->
  (forall t y, t < T ->
     (In y (idx t) <-> s0 <= y < n2 /\ ((y - s0) / w) mod T = t)) ->
  (forall t, t < T -> NoDup (idx t)) ->
  Permutation (flat_map idx (seq 0 T)) (seq s0 (n2 - s0)).
Proof.
  intros HT Hin Hnd. apply NoDup_Permutation.
  - apply NoDup_flat_map_disjoint.
    + apply seq_NoDup.
    + intros t Ht. apply in_seq in Ht. apply Hnd. lia.
    + intros t t' y Ht Ht' Hy Hy'. apply in_seq in Ht, Ht'.
      apply Hin in Hy, Hy'; lia.
  - apply seq_NoDup.
  - intros y. rewrite in_flat_map, in_seq. split.
    + intros (t & Ht & Hy). apply in_seq in Ht. apply Hin in Hy; lia.
    + intros Hy. exists (((y - s0) / w) mod T). split.
      * apply in_seq. pose proof (Nat.mod_upper_bound ((y - s0) / w) T). lia.
      * apply Hin; [apply Nat.mod_upper_bound; lia|]. split; [lia|reflexivity].
Qed.

Lemma block4_in (l y : nat) :
  In y (map (fun k => l + k) (seq 0 4)) <-> l <= y < l + (3 + 1).
Proof. simpl. lia. Qed.

Lemma block4_nodup (l : nat) : NoDup (map (fun k => l + k) (seq 0 4)).
Proof.
  apply Injective_map_NoDup; [|apply seq_NoDup]. intros a b H. lia.
Qed.

Lemma block8_in (l y : nat) :
  In y (flat_map (fun k => [l + k; l + k + 1]) [0; 2; 4; 6])
  <-> l <= y < l + (7 + 1).
Proof. simpl. lia. Qed.

Lemma block8_nodup (l : nat) :
  NoDup (flat_map (fun k => [l + k; l + k + 1]) [0; 2; 4; 6]).
Proof. simpl. repeat constructor; simpl; lia. Qed.

(** The generic traversal: the threads partition 0 .. n2-1. *)
Lemma row_indices_partition (n2 T : nat) :
  0 < T -> Permutation (flat_map (row_indices n2 T) (seq 0 T)) (seq 0 n2).
Proof.
  intros HT.
  replace (seq 0 n2) with (seq 0 (n2 - 0)) by (now rewrite Nat.sub_0_r).
  apply (partition_perm (row_indices n2 T) T n2 0 (3 + 1) HT).
  - intros t y Ht.
    apply (strided_in 3 T n2 0 t (fun l => map (fun k => l + k) (seq 0 4))
             (fun l => l + 3 <? n2) (fun l => l + 4 * T) (4 * t));
      auto using block4_in; intros; lia.
  - intros t Ht.
    apply (strided_nodup 3 T n2 0 t (fun l => map (fun k => l + k) (seq 0 4))
             (fun l => l + 3 <? n2) (fun l => l + 4 * T) (4 * t));
      auto using block4_in, block4_nodup; intros; lia.
Qed.

Lemma first_element_once (a T : nat) :
  flat_map (fun t => if t =? 0 then [0] else []) (seq (Datatypes.S a) T) = [].
Proof.
  revert a. induction T as [|T IH]; intros a; [reflexivity|].
  cbn [seq flat_map Nat.eqb app]. apply IH.
Qed.

(** The __half traversal: the same, whether or not the row is aligned. *)
Lemma row_indices_half_partition (misaligned : bool) (n2 T : nat) :
  0 < T -> 0 < n2 ->
  Permutation (flat_map (row_indices_half misaligned n2 T) (seq 0 T)) (seq 0 n2).
Proof.
  intros HT Hn2. destruct misaligned.
  - unfold row_indices_half. cbv zeta.
    rewrite flat_map_app_perm.
    replace (seq 0 n2) with ([0] ++ seq 1 (n2 - 1))
      by (destruct n2; [lia|]; simpl; now rewrite Nat.sub_0_r).
    apply Permutation_app.
    + destruct T as [|T]; [lia|]. cbn [seq flat_map Nat.eqb app].
      apply Permutation_cons; [reflexivity|].
      rewrite first_element_once. constructor.
    + apply (partition_perm _ T n2 1 (7 + 1) HT).
      * intros t y Ht.
        apply (strided_in 7 T n2 1 t
                 (fun l => flat_map (fun k => [l + k; l + k + 1]) [0; 2; 4; 6])
                 (fun l => l + 7 <? n2) (fun l => l + 8 * T) (8 * t + 1));
          auto using block8_in; intros; lia.
      * intros t Ht.
        apply (strided_nodup 7 T n2 1 t
                 (fun l => flat_map (fun k => [l + k; l + k + 1]) [0; 2; 4; 6])
                 (fun l => l + 7 <? n2) (fun l => l + 8 * T) (8 * t + 1));
          auto using block8_in, block8_nodup; intros; lia.
  - unfold row_indices_half. cbv zeta. cbn [app].
    replace (seq 0 n2) with (seq 0 (n2 - 0)) by (now rewrite Nat.sub_0_r).
    apply (partition_perm _ T n2 0 (7 + 1) HT).
    + intros t y Ht.
      apply (strided_in 7 T n2 0 t
               (fun l => flat_map (fun k => [l + k; l + k + 1]) [0; 2; 4; 6])
               (fun l => l + 7 <? n2) (fun l => l + 8 * T) (8 * t));
        auto using block8_in; intros; lia.
    + intros t Ht.
      apply (strided_nodup 7 T n2 0 t
               (fun l => flat_map (fun k => [l + k; l + k + 1]) [0; 2; 4; 6])
               (fun l => l + 7 <? n2) (fun l => l + 8 * T) (8 * t));
        auto using block8_in, block8_nodup; intros; lia.
Qed.

(** * The streaming moment estimator *)

Lemma flat_map_ext_in {A B : Type} (f g : A -> list B) (l : list A) :
  (forall a, In a l -> f a = g a) -> flat_map f l = flat_map g l.
Proof.
  induction l as [|a l IH]; intros H; simpl; [reflexivity|].
  rewrite (H a) by now left. rewrite IH; [reflexivity|].
  intros b Hb. apply H. now right.
Qed.

Lemma sum_sq_dev (x : nat -> Qc) (m : Qc) (n : nat) :
  sum_upto (fun l => (x l - m) * (x l - m))%Qc n =
  (sum_upto (fun l => x l * x l) n - (m + m) * sum_upto x n
   + Qc_of_nat n * m * m)%Qc.
Proof.
  induction n as [|n IH]; simpl.
  - rewrite Qc_of_nat_0. ring.
  - rewrite IH, Qc_of_nat_S. ring.
Qed.

Section EstimatorExact.
Variable rsqrt_fn : Qc -> Qc.
Local Abbreviation E := (exactQ rsqrt_fn).

Lemma block_moments_summarises (half misaligned : bool) (k bz : nat)
  (x : nat -> Qc) (n2 i1 : nat) (rms_only : bool) :
  0 < n2 ->
  summarises (fun l => x (i1 * n2 + l)) rms_only
    (block_moments E half misaligned (Dim3 32 (2 ^ k) bz) x n2 i1 rms_only)
    (seq 0 n2).
Proof.
  intros Hn2. unfold block_moments. cbv zeta. cbn [dim_x dim_y].
  set (idx := fun t => if half then row_indices_half misaligned n2 (32 * 2 ^ k) t
                       else row_indices n2 (32 * 2 ^ k) t).
  set (r0 := fun tx ty => thread_moments E (fun _ => x) (Some 0) i1 n2 rms_only
                            (if half
                             then row_indices_half misaligned n2 (32 * 2 ^ k) (tx + ty * 32)
                             else row_indices n2 (32 * 2 ^ k) (tx + ty * 32))).
  set (r1 := fold_left (fun r l => intra_warp_step E rms_only l r) (seq 0 5) r0).
  set (xr := fun l => x (i1 * n2 + l)).
  assert (P : 0 < 2 ^ k) by (apply Nat.neq_0_lt_0, Nat.pow_nonzero; lia).
  assert (H0 : forall tx ty, summarises xr rms_only (r0 tx ty) (idx (tx + ty * 32))).
  { intros tx ty. unfold r0, idx.
    apply (summarises_thread rsqrt_fn xr (fun _ => x) 0 i1 n2 rms_only).
    reflexivity. }
  assert (H1 : forall ty, summarises xr rms_only (r1 0 ty)
                 (flat_map (fun tx => idx (tx + ty * 32)) (seq 0 32))).
  { intros ty.
    pose proof (intra_warp_summarises rsqrt_fn xr rms_only ty 5 r0
                  (fun tx => idx (tx + ty * 32)) (fun tx _ => H0 tx ty) 0
                  ltac:(lia)) as H.
    fold r1 in H. change (2 ^ 5) with 32 in H.
    erewrite flat_map_ext_in; [exact H|].
    intros a Ha. apply in_seq in Ha. cbv beta. rewrite Nat.add_0_l.
    rewrite Nat.mod_small by lia. reflexivity. }
  assert (Hperm : Permutation (flat_map idx (seq 0 (32 * 2 ^ k))) (seq 0 n2)).
  { unfold idx. destruct half.
    - apply row_indices_half_partition; lia.
    - apply row_indices_partition; lia. }
  apply (summarises_perm xr rms_only _ _ _ Hperm).
  rewrite <- (flat_map_grid idx 32 (2 ^ k)).
  destruct (Nat.ltb_spec 1 (2 ^ k)) as [Hk|Hk].
  - rewrite halving_offsets.
    apply (inter_warp_summarises rsqrt_fn xr rms_only k r1
             (fun ty => flat_map (fun tx => idx (tx + ty * 32)) (seq 0 32))).
    intros ty _. apply H1.
  - assert (Ek : 2 ^ k = 1) by lia. rewrite Ek.
    cbn [seq flat_map]. rewrite app_nil_r. apply H1.
Qed.


End EstimatorExact.


(** * Global-memory phases *)

Section Stores.
Context {num : Type}.
Implicit Types (g s : @gmem num).

Lemma store_same g (b i : nat) (v : num) : store g (Some b) i v b i = v.
Proof. unfold store, upd. now rewrite !Nat.eqb_refl. Qed.

Lemma store_other_cell g (b i j : nat) (v : num) :
  j <> i -> store g (Some b) i v b j = g b j.
Proof.
  intros H. unfold store, upd. rewrite Nat.eqb_refl.
  apply Nat.eqb_neq in H. now rewrite H.
Qed.

Lemma store_other_buffer g (b b' i : nat) (v : num) :
  b' <> b -> store g (Some b) i v b' = g b'.
Proof. intros H. unfold store. apply Nat.eqb_neq in H. now rewrite H. Qed.

Lemma store_cell g (b i j : nat) (v : num) :
  store g (Some b) i v b j = if j =? i then v else g b j.
Proof. unfold store, upd. now rewrite Nat.eqb_refl. Qed.

(** A loop of stores into one buffer, at base + i for the indices i of the
    loop, of values that do not depend on that buffer. *)
Lemma fold_store_spec (ob base : nat) (val : gmem -> nat -> num)
  (v : nat -> num) (cols : list nat) :
  forall s,
  (forall g' i, (forall b, b <> ob -> g' b = s b) -> val g' i = v i) ->
  let r := fold_left (fun g i => store g (Some ob) (base + i) (val g i)) cols s in
  (forall b, b <> ob -> r b = s b) /\
  (forall j, r ob j = if existsb (fun i => base + i =? j) cols
                      then v (j - base) else s ob j).
Proof.
  induction cols as [|i0 cols IH]; intros s Hval; cbn [fold_left existsb].
  - split; reflexivity.
  - assert (Hs' : forall b, b <> ob ->
             store s (Some ob) (base + i0) (val s i0) b = s b).
    { intros b Hb. now apply store_other_buffer. }
    destruct (IH (store s (Some ob) (base + i0) (val s i0))) as [F V].
    { intros g' i Hg. apply Hval. intros b Hb. rewrite Hg, Hs'; auto. }
    split.
    + intros b Hb. cbv zeta in F. rewrite F, Hs'; auto.
    + intros j. cbv zeta in V. rewrite V, store_cell, Hval by auto.
      rewrite (Nat.eqb_sym j).
      destruct (Nat.eqb_spec (base + i0) j) as [<-|Hj]; cbn [orb].
      * replace (base + i0 - base) with i0 by lia.
        destruct (existsb _ cols); reflexivity.
      * reflexivity.
Qed.

End Stores.

(** for (i = thrx; i < n2; i += numx). *)
Lemma stride_loop_in (n2 numx thrx i : nat) :
  0 < numx ->
  In i (fst (loop_while n2 (fun i => i <? n2) (fun i => i + numx) thrx)) <->
  i < n2 /\ thrx <= i /\ (i - thrx) mod numx = 0.
Proof.
  intros Hn.
  assert (H : exists t,
    loop_while n2 (fun i => i <? n2) (fun i => i + numx) thrx =
      (map (fun j => thrx + j * numx) (seq 0 t), thrx + t * numx) /\
    (forall j, j < t -> thrx + j * numx + 0 < n2) /\
    n2 <= thrx + t * numx + 0).
  { apply loop_up; try lia; intros l; rewrite ?Nat.add_0_r; reflexivity. }
  destruct H as (t & E & Hall & Hex). rewrite E. cbn [fst].
  rewrite in_map_iff. split.
  - intros (j & <- & Hj). apply in_seq in Hj. specialize (Hall j ltac:(lia)).
    replace (thrx + j * numx - thrx) with (j * numx) by lia.
    rewrite Nat.Div0.mod_mul. lia.
  - intros (H1 & H2 & H3).
    pose proof (Nat.div_mod_eq (i - thrx) numx) as D. rewrite H3 in D.
    set (j := (i - thrx) / numx) in *. clearbody j.
    exists j. split; [nia|]. apply in_seq.
    destruct (Nat.lt_ge_cases j t) as [L|G]; [lia|].
    assert (t * numx <= j * numx) by (apply Nat.mul_le_mono_r; exact G). lia.
Qed.

Lemma stride_loop_existsb (n2 numx thrx base j : nat) :
  0 < numx ->
  existsb (fun i => base + i =? j)
          (fst (loop_while n2 (fun i => i <? n2) (fun i => i + numx) thrx)) = true
  <-> base <= j /\ j - base < n2 /\ thrx <= j - base
      /\ (j - base - thrx) mod numx = 0.
Proof.
  intros Hn. rewrite existsb_exists. split.
  - intros (i & Hi & Hj). apply Nat.eqb_eq in Hj. subst j.
    apply stride_loop_in in Hi; [|exact Hn].
    replace (base + i - base) with i by lia. lia.
  - intros (H1 & H2). exists (j - base). split.
    + apply stride_loop_in; assumption.
    + apply Nat.eqb_eq. lia.
Qed.

Lemma sub_mod_mul (i numx : nat) : (i - i mod numx) mod numx = 0.
Proof.
  pose proof (Nat.div_mod_eq i numx) as D.
  replace (i - i mod numx) with ((i / numx) * numx) by lia.
  apply Nat.Div0.mod_mul.
Qed.

(** The thread whose loop for (i = thrx; ...; i += numx) reaches [i]. *)
Lemma owner_thread (bd : dim3) (i : nat) :
  0 < dim_x bd -> 0 < dim_y bd ->
  let numx := dim_x bd * dim_y bd in
  let tx0 := (i mod numx) mod dim_x bd in
  let ty0 := (i mod numx) / dim_x bd in
  tx0 < dim_x bd /\ ty0 < dim_y bd /\ tx0 + ty0 * dim_x bd = i mod numx.
Proof.
  intros Hx Hy. cbv zeta.
  assert (Hm : i mod (dim_x bd * dim_y bd) < dim_x bd * dim_y bd)
    by (apply Nat.mod_upper_bound; nia).
  split; [apply Nat.mod_upper_bound; lia|]. split.
  - apply Nat.Div0.div_lt_upper_bound. exact Hm.
  - pose proof (Nat.div_mod_eq (i mod (dim_x bd * dim_y bd)) (dim_x bd)). lia.
Qed.

(** * The forward pass, RMS-only mode, any arithmetic *)

Section ForwardGeneric.
Context {num : Type} (N : Numerics num).
Variables (half : bool) (misaligned : nat -> bool) (bd : dim3).
Variables (ob ib xb : nat) (mean beta gamma : ptr).
Variables (n1 n2 : nat) (eps : num).
Hypothesis bd_x : 0 < dim_x bd.
Hypothesis bd_y : 0 < dim_y bd.
Hypothesis ob_ib : ob <> ib.
Hypothesis xb_ob : xb <> ob.
Hypothesis xb_ib : xb <> ib.
Hypothesis gamma_ob : ptr_apart gamma ob.
Hypothesis gamma_ib : ptr_apart gamma ib.

Local Notation "a +! b" := (n_add N a b) (at level 50, left associativity).
Local Notation "a *! b" := (n_mul N a b) (at level 40, left associativity).

(** The value a thread stores at column [i] of row [i1]. *)
Local Abbreviation out_val cinv x gm i1 i :=
  (match gm with
   | Some gmb => n_vmul N (gmb i%nat) (n_U2V N (cinv *! n_T2U N (x (i1 * n2 + i))))
   | None => n_U2V N (cinv *! n_T2U N (x (i1 * n2 + i)))
   end).

Lemma fwd_thread_spec (i1 : nat) (mu sigma2 : num) (tx ty : nat) (s : gmem) :
  let s' := cuApplyLayerNorm_thread N bd (Some ob) mean (Some ib) (Some xb) n2 eps
              gamma beta true i1 mu sigma2 tx ty s in
  let cinv := n_rsqrt N (sigma2 +! eps) in
  let cols := fst (loop_while n2 (fun i => i <? n2)
                     (fun i => i + dim_x bd * dim_y bd) (tx + ty * dim_x bd)) in
  (forall b, b <> ob -> b <> ib -> s' b = s b) /\
  (forall j, s' ob j =
     if existsb (fun i => i1 * n2 + i =? j) cols
     then out_val cinv (s xb) (buffer_at s gamma) i1 (j - i1 * n2)
     else s ob j) /\
  (forall j, s' ib j = if (tx =? 0) && (ty =? 0) && (j =? i1) then cinv else s ib j).
Proof.
  cbv zeta. unfold cuApplyLayerNorm_thread. cbv zeta. cbn [negb].
  set (cinv := n_rsqrt N (sigma2 +! eps)).
  set (cols := fst (loop_while n2 (fun i => i <? n2)
                      (fun i => i + dim_x bd * dim_y bd) (tx + ty * dim_x bd))).
  rewrite orb_true_r, andb_true_r.
  assert (R : exists r : gmem,
     (if negb (is_null gamma)
      then fold_left (fun g i => store g (Some ob) (i1 * n2 + i)
             (n_vmul N (load (n_zero N) g gamma i)
                (n_U2V N (cinv *! n_T2U N (load (n_zero N) g (Some xb) (i1 * n2 + i))))))
             cols s
      else fold_left (fun g i => store g (Some ob) (i1 * n2 + i)
             (n_U2V N (cinv *! n_T2U N (load (n_zero N) g (Some xb) (i1 * n2 + i)))))
             cols s) = r /\
     (forall b, b <> ob -> r b = s b) /\
     (forall j, r ob j =
        if existsb (fun i => i1 * n2 + i =? j) cols
        then out_val cinv (s xb) (buffer_at s gamma) i1 (j - i1 * n2)
        else s ob j)).
  { destruct gamma as [gb|]; cbn [is_null negb buffer_at].
    - eexists. split; [reflexivity|].
      apply (fold_store_spec ob (i1 * n2)
               (fun g i => n_vmul N (load (n_zero N) g (Some gb) i)
                  (n_U2V N (cinv *! n_T2U N (load (n_zero N) g (Some xb) (i1 * n2 + i)))))
               (fun i => n_vmul N (s gb i)
                  (n_U2V N (cinv *! n_T2U N (s xb (i1 * n2 + i)))))).
      intros g' i Hg. cbn [load]. rewrite (Hg xb), (Hg gb); auto.
    - eexists. split; [reflexivity|].
      apply (fold_store_spec ob (i1 * n2)
               (fun g i =>
                  n_U2V N (cinv *! n_T2U N (load (n_zero N) g (Some xb) (i1 * n2 + i))))
               (fun i => n_U2V N (cinv *! n_T2U N (s xb (i1 * n2 + i))))).
      intros g' i Hg. cbn [load]. rewrite (Hg xb); auto. }
  destruct R as (r & -> & F & V).
  destruct ((tx =? 0) && (ty =? 0)); cbn [andb].
  - split; [|split].
    + intros b Hb Hb'. rewrite store_other_buffer by exact Hb'. now apply F.
    + intros j. rewrite store_other_buffer by exact ob_ib. apply V.
    + intros j. rewrite store_cell. rewrite F by auto. reflexivity.
  - split; [|split].
    + intros b Hb _. now apply F.
    + apply V.
    + intros j. rewrite (F ib) by auto. reflexivity.
Qed.


Lemma buffer_at_agree (s g : @gmem num) :
  (forall b, b <> ob -> b <> ib -> s b = g b) ->
  buffer_at s gamma = buffer_at g gamma.
Proof.
  intros H. destruct gamma as [gb|]; cbn [buffer_at]; [|reflexivity].
  cbn [ptr_apart] in gamma_ob, gamma_ib. rewrite H; auto.
Qed.

(** One trip of the row loop of cuApplyLayerNorm_: the row [i1] of the output
    and invvar[i1] are stored, nothing else changes, whatever the shared
    memory held. *)
Lemma fwd_row_spec (i1 : nat) (g : gmem) (buf : smem) :
  i1 < n1 ->
  let g' := fst (cuApplyLayerNorm_row N half misaligned bd (Some ob) mean (Some ib)
                   (Some xb) n1 n2 eps gamma beta true i1 (g, buf)) in
  (forall b, b <> ob -> b <> ib -> g' b = g b) /\
  (forall j, g' ob j =
     if (i1 * n2 <=? j) && (j <? i1 * n2 + n2)
     then rms_output N half misaligned bd (g xb) (buffer_at g gamma) n2 eps i1
                     (j - i1 * n2)
     else g ob j) /\
  (forall j, g' ib j =
     if j =? i1 then rms_invvar N half misaligned bd (g xb) n2 eps i1
     else g ib j).
Proof.
  intros Hi1. cbv zeta. unfold cuApplyLayerNorm_row. cbv zeta. cbn [fst snd].
  set (ws := cuWelfordMuSigma2 N half (misaligned i1) bd g (Some xb) n1 n2 i1 buf true).
  set (cinv := rms_invvar N half misaligned bd (g xb) n2 eps i1).
  assert (Hreg : forall tx ty, tx < dim_x bd -> ty < dim_y bd ->
            n_rsqrt N (snd (fst ws tx ty) +! eps) = cinv).
  { intros tx ty Htx Hty. unfold ws.
    rewrite cuWelfordMuSigma2_registers by assumption. reflexivity. }
  set (P := fun s : gmem => forall b, b <> ob -> b <> ib -> s b = g b).
  assert (HP : forall tx ty s, tx < dim_x bd -> ty < dim_y bd -> P s ->
     P (cuApplyLayerNorm_thread N bd (Some ob) mean (Some ib) (Some xb) n2 eps gamma
          beta true i1 (fst (fst ws tx ty)) (snd (fst ws tx ty)) tx ty s)).
  { intros tx ty s _ _ Ps b Hb Hb'.
    destruct (fwd_thread_spec i1 (fst (fst ws tx ty)) (snd (fst ws tx ty)) tx ty s)
      as (F & _ & _).
    rewrite F by assumption. now apply Ps. }
  assert (P0 : P g) by (intros b _ _; reflexivity).
  split; [|split].
  - apply (foreach_thread_inv bd _ P); assumption.
  - intros j.
    destruct ((i1 * n2 <=? j) && (j <? i1 * n2 + n2)) eqn:Hj.
    + apply andb_true_iff in Hj. destruct Hj as [Hj1 Hj2].
      apply Nat.leb_le in Hj1. apply Nat.ltb_lt in Hj2.
      destruct (owner_thread bd (j - i1 * n2) bd_x bd_y) as (Hx0 & Hy0 & Ho).
      apply (foreach_thread_establish bd _ P
               (fun s : gmem => s ob j =
                  rms_output N half misaligned bd (g xb) (buffer_at g gamma) n2 eps
                             i1 (j - i1 * n2)) _ _ g Hx0 Hy0 HP); [| |exact P0].
      * intros tx ty s Htx Hty Ps Qs.
        destruct (fwd_thread_spec i1 (fst (fst ws tx ty)) (snd (fst ws tx ty)) tx ty s)
          as (_ & V & _).
        rewrite V. cbv zeta.
        destruct (existsb _ _); [|exact Qs].
        rewrite (Hreg tx ty Htx Hty), (buffer_at_agree s g Ps), (Ps xb) by auto.
        reflexivity.
      * intros s Ps.
        match goal with
        | |- cuApplyLayerNorm_thread N bd _ _ _ _ _ _ _ _ _ _ ?m ?sg ?tx0 ?ty0 s ob j = _ =>
            destruct (fwd_thread_spec i1 m sg tx0 ty0 s) as (_ & V & _);
            pose proof (Hreg tx0 ty0 Hx0 Hy0) as Hc
        end.
        rewrite V. cbv zeta.
        match goal with
        | |- (if ?c then _ else _) = _ => assert (Hc' : c = true)
        end.
        { apply stride_loop_existsb; [nia|]. rewrite Ho.
          split; [lia|]. split; [lia|]. split.
          - apply Nat.Div0.mod_le.
          - apply sub_mod_mul. }
        rewrite Hc', Hc, (buffer_at_agree s g Ps), (Ps xb) by auto.
        reflexivity.
    + apply (foreach_thread_inv bd _ (fun s : gmem => s ob j = g ob j));
        [|reflexivity].
      intros tx ty s Htx Hty Qs.
      destruct (fwd_thread_spec i1 (fst (fst ws tx ty)) (snd (fst ws tx ty)) tx ty s)
        as (_ & V & _).
      rewrite V. cbv zeta.
      match goal with
      | |- (if ?c then _ else _) = _ => destruct c eqn:Hc
      end; [|exact Qs].
      apply stride_loop_existsb in Hc; [|nia]. exfalso.
      apply andb_false_iff in Hj. destruct Hj as [Hj|Hj].
      * apply Nat.leb_gt in Hj. lia.
      * apply Nat.ltb_ge in Hj. lia.
  - intros j. destruct (Nat.eqb_spec j i1) as [->|Hj].
    + apply (foreach_thread_establish bd _ (fun _ => True)
               (fun s : gmem => s ib i1 = cinv) 0 0 g bd_x bd_y); auto.
      * intros tx ty s Htx Hty _ Qs.
        destruct (fwd_thread_spec i1 (fst (fst ws tx ty)) (snd (fst ws tx ty)) tx ty s)
          as (_ & _ & V).
        rewrite V. cbv zeta. rewrite (Hreg tx ty Htx Hty), Qs.
        destruct ((tx =? 0) && (ty =? 0) && (i1 =? i1)); reflexivity.
      * intros s _.
        destruct (fwd_thread_spec i1 (fst (fst ws 0 0)) (snd (fst ws 0 0)) 0 0 s)
          as (_ & _ & V).
        rewrite V. cbv zeta. rewrite (Hreg 0 0 bd_x bd_y), !Nat.eqb_refl.
        reflexivity.
    + apply (foreach_thread_inv bd _ (fun s : gmem => s ib j = g ib j));
        [|reflexivity].
      intros tx ty s Htx Hty Qs.
      destruct (fwd_thread_spec i1 (fst (fst ws tx ty)) (snd (fst ws tx ty)) tx ty s)
        as (_ & _ & V).
      rewrite V. apply Nat.eqb_neq in Hj. rewrite Hj, andb_false_r. exact Qs.
Qed.

End ForwardGeneric.

(** * Kernels that give each row to one trip of one block *)

Section RowKernel.
Context {num : Type}.
Variable row : nat -> @gmem num * @smem num -> @gmem num * @smem num.
Variable n1 : nat.
(** The buffers the kernel writes, the cells a row writes, the values. *)
Variable TB : nat -> Prop.
Variable tgt : nat -> nat -> nat -> bool.
Variable val : @gmem num -> nat -> nat -> num.
Hypothesis row_frame : forall i1 g buf b,
  i1 < n1 -> ~ TB b -> fst (row i1 (g, buf)) b = g b.
Hypothesis row_cells : forall i1 g buf b j,
  i1 < n1 -> TB b ->
  fst (row i1 (g, buf)) b j = if tgt i1 b j then val g b j else g b j.
Hypothesis val_stable : forall g g' : @gmem num,
  (forall b, ~ TB b -> g' b = g b) -> forall b j, val g' b j = val g b j.

Variables (G gz : nat) (junk : nat -> nat -> @smem num).
Hypothesis G_pos : 0 < G.

Let rows (y : nat) : list nat :=
  fst (loop_while n1 (fun i1 => i1 <? n1) (fun i1 => i1 + G) y).

Let block (y : nat) (st : @gmem num * @smem num) : @gmem num * @smem num :=
  fold_left (fun st i1 => row i1 st) (rows y) st.

Let kernel (g : @gmem num) : @gmem num :=
  launch_grid (Dim3 1 G gz) junk (fun _ y st => block y st) g.

Lemma rows_lt (y i1 : nat) : In i1 (rows y) -> i1 < n1.
Proof. intros H. apply stride_loop_in in H; [lia|exact G_pos]. Qed.

Lemma rows_owner (i1 : nat) : i1 < n1 -> In i1 (rows (i1 mod G)).
Proof.
  intros H. apply stride_loop_in; [exact G_pos|].
  split; [exact H|]. split; [apply Nat.Div0.mod_le|apply sub_mod_mul].
Qed.

Lemma block_frame (y : nat) (g g0 : @gmem num) (buf : smem) :
  (forall b, ~ TB b -> g b = g0 b) ->
  forall b, ~ TB b -> fst (block y (g, buf)) b = g0 b.
Proof.
  intros H. unfold block.
  apply (fold_left_inv _ (fun st => forall b, ~ TB b -> fst st b = g0 b));
    [|exact H].
  intros [g' buf'] i1 Hi Hg b Hb. rewrite row_frame; auto.
  now apply (rows_lt y).
Qed.

Lemma row_keeps (g0 : @gmem num) (b j i1 : nat) (st : @gmem num * smem) :
  i1 < n1 -> TB b ->
  (forall b, ~ TB b -> fst st b = g0 b) ->
  fst st b j = val g0 b j -> fst (row i1 st) b j = val g0 b j.
Proof.
  intros Hi Hb HP HQ. destruct st as [g buf]. rewrite row_cells by assumption.
  destruct (tgt i1 b j); [|exact HQ]. apply val_stable. exact HP.
Qed.

Lemma block_keeps (g0 : @gmem num) (b j y : nat) (g : @gmem num) (buf : smem) :
  TB b -> (forall b, ~ TB b -> g b = g0 b) ->
  g b j = val g0 b j -> fst (block y (g, buf)) b j = val g0 b j.
Proof.
  intros Hb HP HQ. unfold block.
  apply (fold_left_inv _
           (fun st => (forall b, ~ TB b -> fst st b = g0 b)
                      /\ fst st b j = val g0 b j)); [|split; assumption].
  intros st i1 Hi [Ps Qs]. apply (rows_lt y) in Hi. split.
  - intros b' Hb'. destruct st as [g' buf']. rewrite row_frame; auto.
  - now apply row_keeps.
Qed.

Lemma block_skips (b j y : nat) (g : @gmem num) (buf : smem) :
  TB b -> (forall i1, i1 < n1 -> tgt i1 b j = false) ->
  fst (block y (g, buf)) b j = g b j.
Proof.
  intros Hb Hn. unfold block.
  apply (fold_left_inv _ (fun st => fst st b j = g b j)); [|reflexivity].
  intros [g' buf'] i1 Hi Q. apply (rows_lt y) in Hi.
  rewrite row_cells, (Hn i1 Hi) by assumption. exact Q.
Qed.

Lemma kernel_frame (g : @gmem num) (b : nat) : ~ TB b -> kernel g b = g b.
Proof.
  intros Hb. unfold kernel, launch_grid.
  apply (fold_left_inv _ (fun g' : @gmem num => forall b, ~ TB b -> g' b = g b));
    [|reflexivity|exact Hb].
  intros g' [x y] _ Hg b' Hb'. cbn [fst snd]. now apply block_frame.
Qed.

Lemma kernel_cells (g : @gmem num) (b j : nat) :
  TB b ->
  kernel g b j = if existsb (fun i1 => tgt i1 b j) (seq 0 n1)
                 then val g b j else g b j.
Proof.
  intros Hb. destruct (existsb _ _) eqn:Ex.
  - apply existsb_exists in Ex. destruct Ex as (i1 & Hi & Ht).
    apply in_seq in Hi. assert (Hi1 : i1 < n1) by lia.
    unfold kernel, launch_grid.
    apply (fold_left_establish _
             (fun g' : @gmem num => forall b, ~ TB b -> g' b = g b)
             (fun g' : @gmem num => g' b j = val g b j)
             (coords (Dim3 1 G gz)) (0, i1 mod G)).
    + apply in_coords. cbn [dim_x dim_y]. split; [lia|].
      apply Nat.mod_upper_bound. lia.
    + intros g' [x y] _ Hg b' Hb'. cbn [fst snd]. now apply block_frame.
    + intros g' [x y] _ Hg HQ. cbn [fst snd]. now apply block_keeps.
    + intros g' Hg. cbn [fst snd]. unfold block.
      apply (fold_left_establish _
               (fun st => forall b, ~ TB b -> fst st b = g b)
               (fun st => fst st b j = val g b j) _ i1).
      * now apply rows_owner.
      * intros [g'' buf''] i Hi' Ps b' Hb'. rewrite row_frame; auto.
        now apply (rows_lt (i1 mod G)).
      * intros st i Hi' Ps Qs. apply row_keeps; auto.
        now apply (rows_lt (i1 mod G)).
      * intros [g'' buf''] Ps. rewrite row_cells, Ht by assumption.
        apply val_stable. exact Ps.
      * exact Hg.
    + reflexivity.
  - assert (Hn : forall i1, i1 < n1 -> tgt i1 b j = false).
    { intros i1 Hi. destruct (tgt i1 b j) eqn:Ht; [|reflexivity].
      assert (existsb (fun i1 => tgt i1 b j) (seq 0 n1) = true).
      { apply existsb_exists. exists i1. split; [apply in_seq; lia|exact Ht]. }
      congruence. }
    unfold kernel, launch_grid.
    apply (fold_left_inv _ (fun g' : @gmem num => g' b j = g b j));
      [|reflexivity].
    intros g' [x y] _ Q. cbn [fst snd]. rewrite block_skips; assumption.
Qed.

End RowKernel.

(** * The forward kernel *)

Lemma row_cell_index (i1 n2 j : nat) :
  i1 * n2 <= j -> j < i1 * n2 + n2 -> j / n2 = i1 /\ j mod n2 = j - i1 * n2.
Proof.
  intros H1 H2.
  assert (E : j = n2 * i1 + (j - i1 * n2)) by lia.
  split.
  - symmetry. apply (Nat.div_unique j n2 i1 (j - i1 * n2)); lia.
  - symmetry. apply (Nat.mod_unique j n2 i1 (j - i1 * n2)); lia.
Qed.

Section ForwardKernel.
Context {num : Type} (N : Numerics num).
Variables (half : bool) (misaligned : nat -> bool) (bd : dim3).
Variables (ob ib xb : nat) (mean beta gamma : ptr).
Variables (n1 n2 : nat) (eps : num).
Variables (G gz : nat) (junk : nat -> nat -> @smem num).
Hypothesis bd_x : 0 < dim_x bd.
Hypothesis bd_y : 0 < dim_y bd.
Hypothesis ob_ib : ob <> ib.
Hypothesis xb_ob : xb <> ob.
Hypothesis xb_ib : xb <> ib.
Hypothesis gamma_ob : ptr_apart gamma ob.
Hypothesis gamma_ib : ptr_apart gamma ib.
Hypothesis G_pos : 0 < G.

(** cuApplyLayerNorm_ in RMS-only mode, launched on a grid of G blocks:
    every row of the output and of invvar is stored, with the values of
    [rms_output] and [rms_invvar]; nothing else changes. *)
Lemma forward_kernel (g : @gmem num) :
  let g' := launch_grid (Dim3 1 G gz) junk
              (fun _ y => cuApplyLayerNorm_ N half misaligned bd (Dim3 1 G gz) y
                            (Some ob) mean (Some ib) (Some xb) n1 n2 eps
                            gamma beta true) g in
  (forall b, b <> ob -> b <> ib -> g' b = g b) /\
  (forall i1 i, i1 < n1 -> i < n2 ->
     g' ob (i1 * n2 + i) =
     rms_output N half misaligned bd (g xb) (buffer_at g gamma) n2 eps i1 i) /\
  (forall j, n1 * n2 <= j -> g' ob j = g ob j) /\
  (forall i1, i1 < n1 ->
     g' ib i1 = rms_invvar N half misaligned bd (g xb) n2 eps i1) /\
  (forall j, n1 <= j -> g' ib j = g ib j).
Proof.
  cbv zeta.
  set (row := fun i1 st =>
         cuApplyLayerNorm_row N half misaligned bd (Some ob) mean (Some ib)
           (Some xb) n1 n2 eps gamma beta true i1 st).
  set (TB := fun b => b = ob \/ b = ib).
  set (tgt := fun i1 b j =>
         if b =? ob then (i1 * n2 <=? j) && (j <? i1 * n2 + n2) else j =? i1).
  set (val := fun (g : @gmem num) b j =>
         if b =? ob
         then rms_output N half misaligned bd (g xb) (buffer_at g gamma) n2 eps
                         (j / n2) (j mod n2)
         else rms_invvar N half misaligned bd (g xb) n2 eps j).
  assert (RF : forall i1 g buf b, i1 < n1 -> ~ TB b -> fst (row i1 (g, buf)) b = g b).
  { intros i1 g0 buf b Hi Hb. unfold row.
    destruct (fwd_row_spec N half misaligned bd ob ib xb mean beta gamma n1 n2 eps
                bd_x bd_y ob_ib xb_ob xb_ib gamma_ob gamma_ib i1 g0 buf Hi) as (F & _ & _).
    apply F; intros ->; apply Hb; [now left|now right]. }
  assert (RC : forall i1 g buf b j, i1 < n1 -> TB b ->
            fst (row i1 (g, buf)) b j = if tgt i1 b j then val g b j else g b j).
  { intros i1 g0 buf b j Hi Hb. unfold row, tgt, val.
    destruct (fwd_row_spec N half misaligned bd ob ib xb mean beta gamma n1 n2 eps
                bd_x bd_y ob_ib xb_ob xb_ib gamma_ob gamma_ib i1 g0 buf Hi) as (_ & V1 & V2).
    destruct Hb as [->| ->].
    - rewrite Nat.eqb_refl, V1.
      destruct ((i1 * n2 <=? j) && (j <? i1 * n2 + n2)) eqn:C; [|reflexivity].
      apply andb_true_iff in C. destruct C as [C1 C2].
      apply Nat.leb_le in C1. apply Nat.ltb_lt in C2.
      destruct (row_cell_index i1 n2 j C1 C2) as [-> ->]. reflexivity.
    - assert (Hne : (ib =? ob) = false) by (apply Nat.eqb_neq; auto).
      rewrite Hne, V2. destruct (Nat.eqb_spec j i1) as [->|]; reflexivity. }
  assert (VS : forall g g' : @gmem num, (forall b, ~ TB b -> g' b = g b) ->
            forall b j, val g' b j = val g b j).
  { intros g0 g' H b j. unfold val.
    assert (Hx : g' xb = g0 xb) by (apply H; intros [E|E]; auto).
    assert (Hg : buffer_at g' gamma = buffer_at g0 gamma).
    { apply (buffer_at_agree ob ib gamma gamma_ob gamma_ib).
      intros b' H1 H2. apply H. intros [E|E]; auto. }
    rewrite Hx, Hg. reflexivity. }
  pose proof (kernel_frame row n1 TB RF G gz junk G_pos g) as KF.
  pose proof (kernel_cells row n1 TB tgt val RF RC VS G gz junk G_pos g) as KC.
  cbv zeta in KF, KC.
  change (launch_grid (Dim3 1 G gz) junk
            (fun _ y => cuApplyLayerNorm_ N half misaligned bd (Dim3 1 G gz) y
                          (Some ob) mean (Some ib) (Some xb) n1 n2 eps
                          gamma beta true) g)
    with (launch_grid (Dim3 1 G gz) junk
            (fun (_ y : nat) st =>
               fold_left (fun st i1 => row i1 st)
                 (fst (loop_while n1 (fun i1 => i1 <? n1) (fun i1 => i1 + G) y)) st) g).
  split; [|split; [|split; [|split]]].
  - intros b H1 H2. apply KF. intros [E|E]; auto.
  - intros i1 i Hi1 Hi. rewrite KC by (now left).
    assert (Ex : existsb (fun i1' => tgt i1' ob (i1 * n2 + i)) (seq 0 n1) = true).
    { apply existsb_exists. exists i1. split; [apply in_seq; lia|].
      unfold tgt. rewrite Nat.eqb_refl. apply andb_true_iff. split.
      - apply Nat.leb_le. lia.
      - apply Nat.ltb_lt. lia. }
    rewrite Ex. unfold val. rewrite Nat.eqb_refl.
    destruct (row_cell_index i1 n2 (i1 * n2 + i)) as [-> ->]; try lia.
    replace (i1 * n2 + i - i1 * n2) with i by lia. reflexivity.
  - intros j Hj. rewrite KC by (now left).
    assert (Ex : existsb (fun i1' => tgt i1' ob j) (seq 0 n1) = false).
    { apply not_true_is_false. intros Ex. apply existsb_exists in Ex.
      destruct Ex as (i1 & Hi & Ht). apply in_seq in Hi. unfold tgt in Ht.
      rewrite Nat.eqb_refl in Ht. apply andb_true_iff in Ht.
      destruct Ht as [_ Ht]. apply Nat.ltb_lt in Ht.
      assert (i1 * n2 + n2 <= n1 * n2) by nia. lia. }
    rewrite Ex. reflexivity.
  - intros i1 Hi1. rewrite KC by (now right).
    assert (Hne : (ib =? ob) = false) by (apply Nat.eqb_neq; auto).
    assert (Ex : existsb (fun i1' => tgt i1' ib i1) (seq 0 n1) = true).
    { apply existsb_exists. exists i1. split; [apply in_seq; lia|].
      unfold tgt. rewrite Hne. apply Nat.eqb_refl. }
    rewrite Ex. unfold val. rewrite Hne. reflexivity.
  - intros j Hj. rewrite KC by (now right).
    assert (Hne : (ib =? ob) = false) by (apply Nat.eqb_neq; auto).
    assert (Ex : existsb (fun i1' => tgt i1' ib j) (seq 0 n1) = false).
    { apply not_true_is_false. intros Ex. apply existsb_exists in Ex.
      destruct Ex as (i1 & Hi & Ht). apply in_seq in Hi. unfold tgt in Ht.
      rewrite Hne in Ht. apply Nat.eqb_eq in Ht. lia. }
    rewrite Ex. reflexivity.
Qed.

End ForwardKernel.

(** * The forward entry point *)

Section ForwardEntry.
Context {num : Type}.
Variable arith : ctype -> ctype -> ctype -> Numerics num.
Variable maxGridY : nat.

Lemma rms_forward_dispatch (bufs : nat -> ptr) (d : RMSNormDescriptor num) :
  supported (d_x_type d) = true -> supported (d_w_type d) = true ->
  exists T U V,
    rms_forward_affine_mixed_dtypes arith maxGridY bufs d =
    HostApplyRMSNorm arith maxGridY T U V (bufs 2) (bufs 3) (bufs 0)
                     (d_n1 d) (d_n2 d) (d_eps d) (bufs 1).
Proof.
  unfold rms_forward_affine_mixed_dtypes,
         DISPATCH_DOUBLE_FLOAT_HALF_AND_BFLOAT_INOUT_TYPES.
  destruct (d_x_type d), (d_w_type d); cbn [supported]; intros Hx Hw;
    try discriminate; do 3 eexists; reflexivity.
Qed.

End ForwardEntry.

Section ForwardExact.
Variable rsqrt_fn : Qc -> Qc.
Local Abbreviation E := (exactQ rsqrt_fn).
Local Abbreviation arithE := (fun _ _ _ : ctype => exactQ rsqrt_fn).

Lemma rms_invvar_exact (half : bool) (misaligned : nat -> bool)
  (x : nat -> Qc) (n2 : nat) (eps : Qc) (i1 : nat) :
  0 < n2 ->
  rms_invvar E half misaligned (Dim3 32 4 1) x n2 eps i1 =
  rsqrt_fn (sum_upto (fun l => x (i1 * n2 + l)%nat * x (i1 * n2 + l)%nat) n2
            / Qc_of_nat n2 + eps)%Qc.
Proof.
  intros Hn2. unfold rms_invvar.
  pose proof (block_moments_summarises rsqrt_fn half (misaligned i1) 2 1 x n2 i1
                true Hn2) as H.
  change (Dim3 32 (2 ^ 2) 1) with (Dim3 32 4 1) in H.
  unfold summarises in H. rewrite H, sum_over_seq. reflexivity.
Qed.


End ForwardExact.


(** * The input-gradient kernel, any arithmetic *)

Lemma load_agree {num : Type} (z : num) (g g' : @gmem num) (p : ptr) (wb : nat) :
  ptr_apart p wb -> (forall b, b <> wb -> g' b = g b) ->
  load z g' p = load z g p.
Proof.
  intros Hp H. destruct p as [b|]; unfold load; cbn [ptr_apart] in *; [|reflexivity].
  now rewrite (H b Hp).
Qed.

Section GradSums.
Context {num : Type} (N : Numerics num).
Variables (bdy bz : nat) (dout input gamma : ptr) (n2 : nat) (rms_only : bool).
Variables (i1 : nat) (c_mean c_invvar : num) (g0 : @gmem num).

Local Abbreviation bd := (Dim3 32 bdy bz).
Local Abbreviation partial :=
  (cuComputeGradInput_partial N bd dout input n2 gamma rms_only i1 c_mean c_invvar g0).

Lemma grad_partial_rms_fst (tx ty : nat) :
  rms_only = true -> fst (partial tx ty) = n_zero N.
Proof.
  intros ->. unfold cuComputeGradInput_partial. cbv zeta.
  destruct (negb (is_null gamma));
    (apply (fold_left_inv _ (fun s : num * num => fst s = n_zero N));
     [intros s l _ Hs; exact Hs|reflexivity]).
Qed.

Lemma grad_warp_rms_fst (r0 : nat -> nat -> num * num) (tx ty : nat) :
  rms_only = true -> (forall tx ty, fst (r0 tx ty) = n_zero N) ->
  fst (cuComputeGradInput_warp N bd rms_only r0 tx ty) = n_zero N.
Proof.
  intros -> H. unfold cuComputeGradInput_warp. revert tx ty.
  apply (fold_left_inv _ (fun r : nat -> nat -> num * num =>
                            forall tx ty, fst (r tx ty) = n_zero N)); [|exact H].
  intros r m _ Hr tx ty. cbn [negb fst]. apply Hr.
Qed.

Lemma grad_inter_warp_step_ext (o : nat) (r r' : nat -> nat -> num * num) :
  (forall tx ty, r tx ty = r' tx ty) ->
  forall tx ty, grad_inter_warp_step N rms_only o r tx ty
                = grad_inter_warp_step N rms_only o r' tx ty.
Proof. intros H tx ty. unfold grad_inter_warp_step. now rewrite !H. Qed.

(** One level of the inter-warp reduction through shared memory. *)
Lemma grad_inter_warp_phase (o : nat) (r : nat -> nat -> num * num)
  (buf : smem) (tx ty : nat) :
  0 < o -> 2 * o <= bdy -> tx < 32 ->
  (let buf' := foreach_thread bd
       (fun tx ty buf =>
          if (o <=? ty) && (ty <? 2 * o) then
            let wrt_i := (ty - o) * 32 + tx in
            let buf := if negb rms_only then upd buf (2 * wrt_i) (fst (r tx ty))
                       else buf in
            upd buf (2 * wrt_i + 1) (snd (r tx ty))
          else buf) buf in
   if ty <? o then
     let read_i := ty * 32 + tx in
     ((if negb rms_only then n_add N (fst (r tx ty)) (buf' (2 * read_i))
       else fst (r tx ty)),
      n_add N (snd (r tx ty)) (buf' (2 * read_i + 1)))
   else r tx ty)
  = grad_inter_warp_step N rms_only o r tx ty.
Proof.
  intros Ho Hby Htx. cbv zeta. unfold grad_inter_warp_step.
  destruct (Nat.ltb_spec ty o) as [Hty|Hty]; [|reflexivity].
  match goal with
  | |- context [foreach_thread bd ?F buf] => set (W := F)
  end.
  assert (R2 : foreach_thread bd W buf (2 * (ty * 32 + tx) + 1)
               = snd (r tx (ty + o))).
  { apply (foreach_thread_cell bd _ _ _ tx (ty + o)); cbn [dim_x dim_y]; try lia.
    - intros tx' ty' b Hx' Hy' Hb. unfold W. destruct rms_only; cell_solve.
    - intros b. unfold W. destruct rms_only; cell_solve. }
  rewrite R2. destruct rms_only; cbn [negb]; [reflexivity|].
  assert (R1 : foreach_thread bd W buf (2 * (ty * 32 + tx))
               = fst (r tx (ty + o))).
  { apply (foreach_thread_cell bd _ _ _ tx (ty + o)); cbn [dim_x dim_y]; try lia.
    - intros tx' ty' b Hx' Hy' Hb. unfold W. cell_solve.
    - intros b. unfold W. cell_solve. }
  rewrite R1. reflexivity.
Qed.

Lemma grad_inter_warp_loop (L : list nat) :
  (forall o, In o L -> 0 < o /\ 2 * o <= bdy) ->
  forall (r r' : nat -> nat -> num * num) (buf : smem),
  (forall tx ty, tx < 32 -> r tx ty = r' tx ty) ->
  forall tx ty, tx < 32 ->
    fst (fold_left
      (fun (st : (nat -> nat -> num * num) * smem) offset =>
         let buf' := foreach_thread bd
           (fun tx ty buf =>
              if (offset <=? ty) && (ty <? 2 * offset) then
                let wrt_i := (ty - offset) * dim_x bd + tx in
                let buf := if negb rms_only
                           then upd buf (2 * wrt_i) (fst (fst st tx ty))
                           else buf in
                upd buf (2 * wrt_i + 1) (snd (fst st tx ty))
              else buf)
           (snd st) in
         ((fun tx ty =>
             if ty <? offset then
               let read_i := ty * dim_x bd + tx in
               ((if negb rms_only
                 then n_add N (fst (fst st tx ty)) (buf' (2 * read_i))
                 else fst (fst st tx ty)),
                n_add N (snd (fst st tx ty)) (buf' (2 * read_i + 1)))
             else fst st tx ty),
          buf'))
      L (r, buf)) tx ty
    = fold_left (fun r offset => grad_inter_warp_step N rms_only offset r) L r' tx ty.
Proof.
  induction L as [|o L IH]; intros HL r r' buf Hr tx ty Htx.
  - simpl. now apply Hr.
  - cbn [fold_left]. cbv zeta. cbn [fst snd dim_x]. apply IH; [| |exact Htx].
    + intros o' Ho'. apply HL. now right.
    + intros tx' ty' Htx'. destruct (HL o (or_introl eq_refl)) as [H1 H2].
      pose proof (grad_inter_warp_phase o r buf tx' ty' H1 H2 Htx') as P.
      cbv zeta in P. rewrite P.
      unfold grad_inter_warp_step. rewrite !Hr by exact Htx'. reflexivity.
Qed.

End GradSums.

Section GradRegisters.
Context {num : Type} (N : Numerics num).
Variables (bdy bz : nat) (dout input gamma : ptr) (n2 : nat) (rms_only : bool).
Variables (i1 : nat) (c_mean c_invvar : num) (g0 : @gmem num).

Local Abbreviation bd := (Dim3 32 bdy bz).

Lemma grad_inter_warp_rms_fst (L : list nat) (r : nat -> nat -> num * num)
  (tx ty : nat) :
  rms_only = true -> (forall tx ty, fst (r tx ty) = n_zero N) ->
  fst (fold_left (fun r offset => grad_inter_warp_step N rms_only offset r) L r tx ty)
  = n_zero N.
Proof.
  intros -> H. revert tx ty.
  apply (fold_left_inv _ (fun r : nat -> nat -> num * num =>
                            forall tx ty, fst (r tx ty) = n_zero N)); [|exact H].
  intros r' o _ Hr tx ty. unfold grad_inter_warp_step. cbn [negb].
  destruct (ty <? o); cbn [fst]; apply Hr.
Qed.

Lemma grad_sums_rms_fst (tx : nat) :
  rms_only = true ->
  fst (grad_sums N bd dout input n2 gamma rms_only i1 c_mean c_invvar g0 tx)
  = n_zero N.
Proof.
  intros H. unfold grad_sums. cbv zeta.
  destruct (1 <? dim_y bd).
  - apply grad_inter_warp_rms_fst; [exact H|].
    intros tx' ty'. apply grad_warp_rms_fst; [exact H|].
    intros tx'' ty''. apply grad_partial_rms_fst. exact H.
  - apply grad_warp_rms_fst; [exact H|].
    intros tx'' ty''. apply grad_partial_rms_fst. exact H.
Qed.

(** What the reductions of cuComputeGradInput leave in the registers
    (sum_loss1, sum_loss2) of every thread, whatever the shared memory held
    on entry. *)
Lemma cuComputeGradInput_sums_registers (buf : smem) (tx ty : nat) :
  tx < 32 -> ty < bdy ->
  fst (cuComputeGradInput_sums N bd dout input n2 gamma rms_only i1
                               c_mean c_invvar g0 buf) tx ty
  = grad_sums N bd dout input n2 gamma rms_only i1 c_mean c_invvar g0 tx.
Proof.
  intros Htx Hty. unfold cuComputeGradInput_sums, grad_sums. cbv zeta.
  cbn [dim_y].
  destruct (Nat.ltb_spec 1 bdy) as [Hby|Hby].
  - cbn [fst].
    set (L := fst (loop_while bdy (fun o => 0 <? o) (fun o => o / 2) (bdy / 2))).
    assert (HL : forall o, In o L -> 0 < o /\ 2 * o <= bdy).
    { intros o Ho. apply loop_halving_range in Ho. destruct Ho as [H1 H2].
      split; [exact H1|].
      pose proof (Nat.Div0.mul_div_le bdy 2). lia. }
    match goal with
    | |- context [fold_left ?F L (?r1, buf)] =>
        set (st := fold_left F L (r1, buf)); set (R1 := r1) in *
    end.
    assert (E : forall tx ty, tx < 32 -> fst st tx ty =
              fold_left (fun r offset => grad_inter_warp_step N rms_only offset r)
                        L R1 tx ty).
    { intros tx' ty' Htx'. subst st.
      apply (grad_inter_warp_loop N bdy bz rms_only L HL R1 R1 buf); auto. }
    match goal with
    | |- context [foreach_thread bd ?F (snd st)] =>
        set (buf3 := foreach_thread bd F (snd st))
    end.
    assert (B1 : buf3 (2 * tx + 1) = snd (fst st tx 0)).
    { apply (foreach_thread_cell bd _ _ _ tx 0); cbn [dim_x dim_y]; try lia.
      - intros tx' ty' b _ _ Hb. destruct rms_only; cell_solve.
      - intros b. destruct rms_only; cell_solve. }
    destruct (Nat.eqb_spec ty 0) as [->|Hne]; cbn [negb].
    + apply E. exact Htx.
    + rewrite B1.
      rewrite (surjective_pairing (fold_left _ L R1 tx 0)).
      rewrite <- (E tx 0 Htx). f_equal.
      assert (Z : rms_only = true -> forall ty, fst (fst st tx ty) = n_zero N).
      { intros Hr ty'. rewrite E by exact Htx.
        apply grad_inter_warp_rms_fst; [exact Hr|].
        intros tx' ty''. subst R1. apply grad_warp_rms_fst; [exact Hr|].
        intros tx'' ty'''. apply grad_partial_rms_fst. exact Hr. }
      destruct rms_only eqn:Hr; cbn [negb].
      * rewrite !Z by reflexivity. reflexivity.
      * apply (foreach_thread_cell bd _ _ _ tx 0); cbn [dim_x dim_y]; try lia.
        -- intros tx' ty' b _ _ Hb. cell_solve.
        -- intros b. cell_solve.
  - assert (ty = 0) by lia. subst ty. cbn [fst]. reflexivity.
Qed.

End GradRegisters.

Section GradInputGeneric.
Context {num : Type} (N : Numerics num).
Variables (bdy bz gib : nat) (dout input mean invvar gamma : ptr).
Variables (n1 n2 : nat) (eps : num) (rms_only : bool).
Hypothesis bd_y : 0 < bdy.
Hypothesis dout_gib : ptr_apart dout gib.
Hypothesis input_gib : ptr_apart input gib.
Hypothesis mean_gib : ptr_apart mean gib.
Hypothesis invvar_gib : ptr_apart invvar gib.
Hypothesis gamma_gib : ptr_apart gamma gib.

Local Abbreviation bd := (Dim3 32 bdy bz).

Lemma grad_input_value_agree (i1 : nat) (cm ci s1 s2 : num) (g g' : @gmem num)
  (l : nat) :
  (forall b, b <> gib -> g' b = g b) ->
  grad_input_value N dout input n2 gamma rms_only i1 cm ci s1 s2 g' l
  = grad_input_value N dout input n2 gamma rms_only i1 cm ci s1 s2 g l.
Proof.
  intros H. unfold grad_input_value. cbv zeta.
  rewrite (load_agree _ g g' input gib input_gib H).
  rewrite (load_agree _ g g' dout gib dout_gib H).
  rewrite (load_agree _ g g' gamma gib gamma_gib H).
  reflexivity.
Qed.

Lemma grad_sums_agree (i1 : nat) (cm ci : num) (g g' : @gmem num) (tx : nat) :
  (forall b, b <> gib -> g' b = g b) ->
  grad_sums N bd dout input n2 gamma rms_only i1 cm ci g' tx
  = grad_sums N bd dout input n2 gamma rms_only i1 cm ci g tx.
Proof.
  intros H. unfold grad_sums, cuComputeGradInput_partial. cbv zeta.
  rewrite (load_agree _ g g' input gib input_gib H).
  rewrite (load_agree _ g g' dout gib dout_gib H).
  rewrite (load_agree _ g g' gamma gib gamma_gib H).
  reflexivity.
Qed.

Lemma grad_input_cell_agree (g g' : @gmem num) (i1 l : nat) :
  (forall b, b <> gib -> g' b = g b) ->
  grad_input_cell N bd dout input mean invvar gamma rms_only n2 g' i1 l
  = grad_input_cell N bd dout input mean invvar gamma rms_only n2 g i1 l.
Proof.
  intros H. unfold grad_input_cell. cbv zeta.
  rewrite (load_agree _ g g' mean gib mean_gib H).
  rewrite (load_agree _ g g' invvar gib invvar_gib H).
  rewrite !(grad_sums_agree _ _ _ g g' _ H).
  apply grad_input_value_agree. exact H.
Qed.

Lemma grad_thread_unfold (i1 : nat) (cm ci s1 s2 : num) (tx ty : nat) (s : gmem) :
  cuComputeGradInput_thread N bd dout input n2 gamma (Some gib) rms_only
    i1 cm ci s1 s2 tx ty s
  = fold_left
      (fun g l => store g (Some gib) (i1 * n2 + l)
                    (grad_input_value N dout input n2 gamma rms_only i1
                                      cm ci s1 s2 g l))
      (fst (loop_while n2 (fun l => l <? n2)
              (fun l => l + dim_x bd * dim_y bd) (tx + ty * dim_x bd))) s.
Proof.
  unfold cuComputeGradInput_thread, grad_input_value. cbv zeta.
  destruct gamma; reflexivity.
Qed.

(** The stores of one thread into row [i1] of grad_input. *)
Lemma grad_thread_spec (i1 : nat) (cm ci s1 s2 : num) (tx ty : nat) (s : gmem) :
  let s' := cuComputeGradInput_thread N bd dout input n2 gamma (Some gib) rms_only
              i1 cm ci s1 s2 tx ty s in
  let cols := fst (loop_while n2 (fun l => l <? n2)
                     (fun l => l + dim_x bd * dim_y bd) (tx + ty * dim_x bd)) in
  (forall b, b <> gib -> s' b = s b) /\
  (forall j, s' gib j =
     if existsb (fun l => i1 * n2 + l =? j) cols
     then grad_input_value N dout input n2 gamma rms_only i1 cm ci s1 s2 s
                           (j - i1 * n2)
     else s gib j).
Proof.
  cbv zeta. rewrite grad_thread_unfold.
  apply (fold_store_spec gib (i1 * n2)
           (fun g l => grad_input_value N dout input n2 gamma rms_only i1
                         cm ci s1 s2 g l)
           (fun l => grad_input_value N dout input n2 gamma rms_only i1
                         cm ci s1 s2 s l)).
  intros g' l Hg. apply grad_input_value_agree. exact Hg.
Qed.

(** One trip of the row loop of cuComputeGradInput: row [i1] of grad_input
    is stored, nothing else changes, whatever the shared memory held. *)
Lemma grad_row_spec (i1 : nat) (g : gmem) (buf : smem) :
  let g' := fst (cuComputeGradInput_row N bd dout input n1 n2 mean invvar eps
                   gamma (Some gib) rms_only i1 (g, buf)) in
  (forall b, b <> gib -> g' b = g b) /\
  (forall j, g' gib j =
     if (i1 * n2 <=? j) && (j <? i1 * n2 + n2)
     then grad_input_cell N bd dout input mean invvar gamma rms_only n2 g i1
                          (j - i1 * n2)
     else g gib j).
Proof.
  cbv zeta. unfold cuComputeGradInput_row. cbv zeta. cbn [fst snd].
  set (cm := if negb rms_only then load (n_zero N) g mean i1 else n_zero N).
  set (ci := load (n_zero N) g invvar i1).
  set (ws := cuComputeGradInput_sums N bd dout input n2 gamma rms_only i1 cm ci g buf).
  assert (Hreg : forall tx ty, tx < 32 -> ty < bdy ->
            fst ws tx ty = grad_sums N bd dout input n2 gamma rms_only i1 cm ci g tx).
  { intros tx ty Htx Hty. unfold ws.
    apply cuComputeGradInput_sums_registers; assumption. }
  set (P := fun s : gmem => forall b, b <> gib -> s b = g b).
  assert (HP : forall tx ty s, tx < dim_x bd -> ty < dim_y bd -> P s ->
     P (cuComputeGradInput_thread N bd dout input n2 gamma (Some gib) rms_only i1
          cm ci (fst (fst ws tx ty)) (snd (fst ws tx ty)) tx ty s)).
  { intros tx ty s _ _ Ps b Hb.
    destruct (grad_thread_spec i1 cm ci (fst (fst ws tx ty)) (snd (fst ws tx ty))
                tx ty s) as (F & _).
    rewrite F by assumption. now apply Ps. }
  assert (P0 : P g) by (intros b _; reflexivity).
  split.
  - apply (foreach_thread_inv bd _ P); assumption.
  - intros j.
    destruct ((i1 * n2 <=? j) && (j <? i1 * n2 + n2)) eqn:Hj.
    + apply andb_true_iff in Hj. destruct Hj as [Hj1 Hj2].
      apply Nat.leb_le in Hj1. apply Nat.ltb_lt in Hj2.
      destruct (owner_thread bd (j - i1 * n2)) as (Hx0 & Hy0 & Ho);
        [cbn [dim_x]; lia|exact bd_y|].
      apply (foreach_thread_establish bd _ P
               (fun s : gmem => s gib j =
                  grad_input_cell N bd dout input mean invvar gamma rms_only n2 g
                                  i1 (j - i1 * n2)) _ _ g Hx0 Hy0 HP); [| |exact P0].
      * intros tx ty s Htx Hty Ps Qs.
        destruct (grad_thread_spec i1 cm ci (fst (fst ws tx ty))
                    (snd (fst ws tx ty)) tx ty s) as (_ & V).
        rewrite V. cbv zeta.
        destruct (existsb _ _) eqn:Hc; [|exact Qs].
        apply stride_loop_existsb in Hc; [|cbn [dim_x dim_y]; lia].
        destruct Hc as (_ & _ & Hc1 & Hc2).
        rewrite (grad_input_value_agree _ _ _ _ _ g s _ Ps).
        rewrite (Hreg tx ty Htx Hty).
        unfold grad_input_cell. cbv zeta. fold cm ci.
        replace (((j - i1 * n2) mod (dim_x bd * dim_y bd)) mod dim_x bd) with tx;
          [reflexivity|].
        cbn [dim_x dim_y] in *.
        set (l := j - i1 * n2) in *. clearbody l.
        apply Nat.Lcm0.mod_divide in Hc2. destruct Hc2 as [q Hq].
        assert (El : l = tx + (ty + q * bdy) * 32) by lia.
        rewrite Nat.Div0.mod_mul_r, Nat.mul_comm, Nat.Div0.mod_add.
        rewrite Nat.Div0.mod_mod.
        rewrite El, Nat.Div0.mod_add. symmetry. apply Nat.mod_small. exact Htx.
      * intros s Ps.
        match goal with
        | |- cuComputeGradInput_thread N bd _ _ _ _ _ _ _ _ _ ?s1 ?s2 ?tx0 ?ty0 s gib j = _ =>
            destruct (grad_thread_spec i1 cm ci s1 s2 tx0 ty0 s) as (_ & V);
            pose proof (Hreg tx0 ty0 Hx0 Hy0) as Hc
        end.
        rewrite V. cbv zeta.
        match goal with
        | |- (if ?c then _ else _) = _ => assert (Hc' : c = true)
        end.
        { apply stride_loop_existsb; [cbn [dim_x dim_y]; lia|]. rewrite Ho.
          split; [lia|]. split; [lia|]. split.
          - apply Nat.Div0.mod_le.
          - apply sub_mod_mul. }
        rewrite Hc', Hc. rewrite (grad_input_value_agree _ _ _ _ _ g s _ Ps).
        reflexivity.
    + apply (foreach_thread_inv bd _ (fun s : gmem => s gib j = g gib j));
        [|reflexivity].
      intros tx ty s Htx Hty Qs.
      destruct (grad_thread_spec i1 cm ci (fst (fst ws tx ty))
                  (snd (fst ws tx ty)) tx ty s) as (_ & V).
      rewrite V. cbv zeta.
      match goal with
      | |- (if ?c then _ else _) = _ => destruct c eqn:Hc
      end; [|exact Qs].
      apply stride_loop_existsb in Hc; [|cbn [dim_x dim_y]; lia]. exfalso.
      apply andb_false_iff in Hj. destruct Hj as [Hj|Hj].
      * apply Nat.leb_gt in Hj. lia.
      * apply Nat.ltb_ge in Hj. lia.
Qed.

End GradInputGeneric.

(** * The two sums of the input gradient, exact arithmetic *)

Lemma sum_over_flat_map (f : nat -> Qc) (W : nat -> list nat) (L : list nat) :
  sum_over f (flat_map W L) = sum_over (fun a => sum_over f (W a)) L.
Proof.
  induction L as [|a L IH]; [reflexivity|].
  cbn [flat_map]. rewrite sum_over_app, sum_over_cons, IH. reflexivity.
Qed.

Lemma sum_upto_double (f : nat -> Qc) (n : nat) :
  sum_upto f (2 * n) = sum_upto (fun i => f i + f (i + n)%nat)%Qc n.
Proof.
  rewrite <- !sum_over_seq.
  replace (2 * n) with (n + n) by lia.
  rewrite seq_app, sum_over_app. cbn [Nat.add].
  rewrite (sum_over_shift f n n), !sum_over_seq, <- sum_upto_plus.
  apply sum_upto_ext. intros i _. f_equal. f_equal. lia.
Qed.

Lemma fold_pair_sums (F : Qc * Qc -> nat -> Qc * Qc) (c : bool)
  (a b : nat -> Qc) (L : list nat) :
  (forall s l, F s l = ((if c then fst s + a l else fst s), snd s + b l)%Qc) ->
  forall s, fold_left F L s
            = ((if c then fst s + sum_over a L else fst s),
               snd s + sum_over b L)%Qc.
Proof.
  intros HF. induction L as [|l L IH]; intros s; cbn [fold_left sum_over fold_right].
  - destruct s as [s1 s2]. cbn [fst snd]. f_equal; [destruct c|]; ring.
  - rewrite IH, HF. cbn [fst snd]. fold (sum_over a L) (sum_over b L).
    f_equal; [destruct c|]; ring.
Qed.


Ltac eval_lxor :=
  repeat match goal with
    | |- context [Nat.lxor ?a ?b] =>
        let v := eval vm_compute in (Nat.lxor a b) in
        change (Nat.lxor a b) with v
    end.

(** After the exchanges at distances 16, 8, 4, 2, 1 every lane of the warp
    holds the sum of the 32 registers. *)
Lemma butterfly_sum (f : nat -> Qc) (tx : nat) :
  tx < 32 ->
  butterfly (butterfly (butterfly (butterfly (butterfly f 16) 8) 4) 2) 1 tx
  = sum_upto f 32.
Proof.
  intros Htx.
  do 32 (destruct tx as [|tx];
         [unfold butterfly; eval_lxor; cbn [sum_upto]; ring|]).
  lia.
Qed.

Section GradSumsExact.
Variable rsqrt_fn : Qc -> Qc.
Local Abbreviation E := (exactQ rsqrt_fn).

Lemma grad_warp_exact (bdy bz : nat) (rms_only : bool)
  (r0 : nat -> nat -> Qc * Qc) (tx ty : nat) :
  tx < 32 ->
  cuComputeGradInput_warp E (Dim3 32 bdy bz) rms_only r0 tx ty
  = ((if negb rms_only then sum_upto (fun lane => fst (r0 lane ty)) 32
      else fst (r0 tx ty)),
     sum_upto (fun lane => snd (r0 lane ty)) 32).
Proof.
  intros Htx. unfold cuComputeGradInput_warp. cbn [dim_x].
  change (fst (loop_while 32 (fun m => 0 <? m) (fun m => m / 2) (32 / 2)))
    with [16; 8; 4; 2; 1].
  cbn [fold_left]. unfold shfl_xor_sync. cbn [fst snd].
  f_equal.
  - destruct rms_only; cbn [negb]; [reflexivity|].
    exact (butterfly_sum (fun lane => fst (r0 lane ty)) tx Htx).
  - exact (butterfly_sum (fun lane => snd (r0 lane ty)) tx Htx).
Qed.

Lemma grad_tree_exact (rms_only : bool) (tx k : nat) :
  forall r : nat -> nat -> Qc * Qc,
  fold_left (fun r o => grad_inter_warp_step E rms_only o r)
            (map (Nat.pow 2) (rev (seq 0 k))) r tx 0
  = ((if negb rms_only then sum_upto (fun ty => fst (r tx ty)) (2 ^ k)
      else fst (r tx 0)),
     sum_upto (fun ty => snd (r tx ty)) (2 ^ k)).
Proof.
  induction k as [|k IH]; intros r.
  - cbn [seq rev map fold_left Nat.pow sum_upto].
    rewrite (surjective_pairing (r tx 0)) at 1.
    f_equal; [destruct rms_only; cbn [negb]|]; ring.
  - rewrite seq_S, rev_app_distr. cbn [rev app map fold_left Nat.add].
    rewrite IH. rewrite Nat.pow_succ_r', !sum_upto_double.
    assert (P : 0 < 2 ^ k) by (apply Nat.neq_0_lt_0, Nat.pow_nonzero; lia).
    f_equal.
    + destruct rms_only; cbn [negb].
      * unfold grad_inter_warp_step. cbn [negb].
        destruct (0 <? 2 ^ k); reflexivity.
      * apply sum_upto_ext. intros ty Hty. unfold grad_inter_warp_step.
        apply Nat.ltb_lt in Hty. rewrite Hty. reflexivity.
    + apply sum_upto_ext. intros ty Hty. unfold grad_inter_warp_step.
      apply Nat.ltb_lt in Hty. rewrite Hty. reflexivity.
Qed.

Lemma grad_partial_exact (bd : dim3) (dout input gamma : ptr) (n2 : nat)
  (rms_only : bool) (i1 : nat) (cm ci : Qc) (g : gmem) (tx ty : nat) :
  let d := fun l => load 0%Qc g dout (i1 * n2 + l) in
  let x := fun l => load 0%Qc g input (i1 * n2 + l) in
  let gam := fun l => if is_null gamma then 1%Qc else load 0%Qc g gamma l in
  let idx := row_indices n2 (dim_x bd * dim_y bd) (tx + ty * dim_x bd) in
  cuComputeGradInput_partial E bd dout input n2 gamma rms_only i1 cm ci g tx ty
  = ((if negb rms_only then sum_over (fun l => d l * gam l)%Qc idx else 0%Qc),
     sum_over (fun l => d l * gam l * (if rms_only then x l else x l - cm) * ci)%Qc
              idx).
Proof.
  cbv zeta. unfold cuComputeGradInput_partial. cbv zeta.
  set (idx := row_indices n2 (dim_x bd * dim_y bd) (tx + ty * dim_x bd)).
  destruct gamma as [gb|]; cbn [is_null negb].
  - rewrite (fold_pair_sums _ (negb rms_only)
               (fun l => load 0%Qc g dout (i1 * n2 + l) * load 0%Qc g (Some gb) l)%Qc
               (fun l => load 0%Qc g dout (i1 * n2 + l) * load 0%Qc g (Some gb) l
                         * (if rms_only then load 0%Qc g input (i1 * n2 + l)
                            else load 0%Qc g input (i1 * n2 + l) - cm) * ci)%Qc idx).
    + cbn [fst snd n_zero exactQ]. f_equal; [destruct rms_only; cbn [negb]|]; ring.
    + intros s l. destruct rms_only; reflexivity.
  - rewrite (fold_pair_sums _ (negb rms_only)
               (fun l => load 0%Qc g dout (i1 * n2 + l) * 1)%Qc
               (fun l => load 0%Qc g dout (i1 * n2 + l) * 1
                         * (if rms_only then load 0%Qc g input (i1 * n2 + l)
                            else load 0%Qc g input (i1 * n2 + l) - cm) * ci)%Qc idx).
    + cbn [fst snd n_zero exactQ]. f_equal; [destruct rms_only; cbn [negb]|]; ring.
    + intros s l. destruct rms_only; cbn [negb fst snd E exactQ n_zero n_add n_mul
        n_sub n_T2U n_V2U]; f_equal; ring.
Qed.

Lemma grid_sum (f : nat -> Qc) (idx : nat -> list nat) (n : nat) :
  sum_upto (fun ty => sum_upto (fun lane => sum_over f (idx (lane + ty * 32))) 32) n
  = sum_over f (flat_map idx (seq 0 (32 * n))).
Proof.
  rewrite <- (flat_map_grid idx 32 n), sum_over_flat_map, sum_over_seq.
  apply sum_upto_ext. intros ty _.
  rewrite sum_over_flat_map, sum_over_seq. reflexivity.
Qed.

(** Over exact arithmetic every thread of a block of 32 x 2^k threads ends
    the reductions with the two sums over the whole row. *)
Lemma grad_sums_exact (k bz : nat) (dout input gamma : ptr) (n2 : nat)
  (rms_only : bool) (i1 : nat) (cm ci : Qc) (g : gmem) (tx : nat) :
  tx < 32 ->
  let d := fun l => load 0%Qc g dout (i1 * n2 + l) in
  let x := fun l => load 0%Qc g input (i1 * n2 + l) in
  let gam := fun l => if is_null gamma then 1%Qc else load 0%Qc g gamma l in
  grad_sums E (Dim3 32 (2 ^ k) bz) dout input n2 gamma rms_only i1 cm ci g tx
  = ((if negb rms_only then sum_upto (fun l => d l * gam l)%Qc n2 else 0%Qc),
     sum_upto (fun l => d l * gam l * (if rms_only then x l else x l - cm) * ci)%Qc
              n2).
Proof.
  intros Htx. cbv zeta. unfold grad_sums. cbv zeta. cbn [dim_x dim_y].
  set (P := cuComputeGradInput_partial E (Dim3 32 (2 ^ k) bz) dout input n2 gamma
              rms_only i1 cm ci g).
  set (R1 := cuComputeGradInput_warp E (Dim3 32 (2 ^ k) bz) rms_only P).
  assert (Pk : 0 < 2 ^ k) by (apply Nat.neq_0_lt_0, Nat.pow_nonzero; lia).
  assert (T : (if 1 <? 2 ^ k
               then fold_left (fun r o => grad_inter_warp_step E rms_only o r)
                      (fst (loop_while (2 ^ k) (fun o => 0 <? o) (fun o => o / 2)
                                       (2 ^ k / 2))) R1
               else R1) tx 0
              = fold_left (fun r o => grad_inter_warp_step E rms_only o r)
                          (map (Nat.pow 2) (rev (seq 0 k))) R1 tx 0).
  { destruct (Nat.ltb_spec 1 (2 ^ k)) as [Hk|Hk].
    - rewrite halving_offsets. reflexivity.
    - destruct k as [|k']; [reflexivity|].
      rewrite Nat.pow_succ_r' in Hk.
      assert (0 < 2 ^ k') by (apply Nat.neq_0_lt_0, Nat.pow_nonzero; lia). lia. }
  rewrite T, grad_tree_exact.
  set (idx := row_indices n2 (32 * 2 ^ k)).
  assert (HP : forall lane ty, P lane ty =
     ((if negb rms_only
       then sum_over (fun l => load 0%Qc g dout (i1 * n2 + l)
                        * (if is_null gamma then 1 else load 0%Qc g gamma l))%Qc
                     (idx (lane + ty * 32))
       else 0%Qc),
      sum_over (fun l => load 0%Qc g dout (i1 * n2 + l)
                  * (if is_null gamma then 1 else load 0%Qc g gamma l)
                  * (if rms_only then load 0%Qc g input (i1 * n2 + l)
                     else load 0%Qc g input (i1 * n2 + l) - cm) * ci)%Qc
               (idx (lane + ty * 32)))).
  { intros lane ty. unfold P. apply grad_partial_exact. }
  assert (Hperm : Permutation (flat_map idx (seq 0 (32 * 2 ^ k))) (seq 0 n2)).
  { unfold idx. apply row_indices_partition. lia. }
  f_equal.
  - destruct rms_only; cbn [negb].
    + unfold R1. rewrite grad_warp_exact by exact Htx. cbn [negb fst].
      rewrite HP. reflexivity.
    + erewrite sum_upto_ext.
      2:{ intros ty _. unfold R1. rewrite grad_warp_exact by exact Htx.
          cbn [negb fst]. apply sum_upto_ext. intros lane _. rewrite HP.
          cbn [negb fst]. reflexivity. }
      rewrite grid_sum, (sum_over_perm _ _ _ Hperm), sum_over_seq. reflexivity.
  - erewrite sum_upto_ext.
    2:{ intros ty _. unfold R1. rewrite grad_warp_exact by exact Htx.
        cbn [snd]. apply sum_upto_ext. intros lane _. rewrite HP.
        cbn [snd]. reflexivity. }
    rewrite grid_sum, (sum_over_perm _ _ _ Hperm), sum_over_seq. reflexivity.
Qed.

End GradSumsExact.

(** * The input-gradient kernel *)

Section GradInputKernel.
Context {num : Type} (N : Numerics num).
Variables (bdy bz gib : nat) (dout input mean invvar gamma : ptr).
Variables (n1 n2 : nat) (eps : num) (rms_only : bool).
Variables (G gz : nat) (junk : nat -> nat -> @smem num).
Hypothesis bd_y : 0 < bdy.
Hypothesis dout_gib : ptr_apart dout gib.
Hypothesis input_gib : ptr_apart input gib.
Hypothesis mean_gib : ptr_apart mean gib.
Hypothesis invvar_gib : ptr_apart invvar gib.
Hypothesis gamma_gib : ptr_apart gamma gib.
Hypothesis G_pos : 0 < G.

Local Abbreviation bd := (Dim3 32 bdy bz).

(** cuComputeGradInput launched on a grid of G blocks of 32 x bdy threads:
    every row of grad_input is stored, with the values of [grad_input_cell];
    nothing else changes. *)
Lemma grad_input_kernel (g : @gmem num) :
  let g' := launch_grid (Dim3 1 G gz) junk
              (fun _ y => cuComputeGradInput N bd (Dim3 1 G gz) y dout input n1 n2
                            mean invvar eps gamma (Some gib) rms_only) g in
  (forall b, b <> gib -> g' b = g b) /\
  (forall i1 l, i1 < n1 -> l < n2 ->
     g' gib (i1 * n2 + l) =
     grad_input_cell N bd dout input mean invvar gamma rms_only n2 g i1 l) /\
  (forall j, n1 * n2 <= j -> g' gib j = g gib j).
Proof.
  cbv zeta.
  set (row := fun i1 st =>
         cuComputeGradInput_row N bd dout input n1 n2 mean invvar eps gamma
           (Some gib) rms_only i1 st).
  set (TB := fun b => b = gib).
  set (tgt := fun (i1 b j : nat) => (i1 * n2 <=? j) && (j <? i1 * n2 + n2)).
  set (val := fun (g : @gmem num) (b j : nat) =>
         grad_input_cell N bd dout input mean invvar gamma rms_only n2 g
                         (j / n2) (j mod n2)).
  assert (RF : forall i1 g buf b, i1 < n1 -> ~ TB b -> fst (row i1 (g, buf)) b = g b).
  { intros i1 g0 buf b Hi Hb. unfold row.
    destruct (grad_row_spec N bdy bz gib dout input mean invvar gamma n1 n2 eps
                rms_only bd_y dout_gib input_gib gamma_gib i1 g0 buf) as (F & _).
    apply F. exact Hb. }
  assert (RC : forall i1 g buf b j, i1 < n1 -> TB b ->
            fst (row i1 (g, buf)) b j = if tgt i1 b j then val g b j else g b j).
  { intros i1 g0 buf b j Hi Hb. unfold row, tgt, val. unfold TB in Hb. subst b.
    destruct (grad_row_spec N bdy bz gib dout input mean invvar gamma n1 n2 eps
                rms_only bd_y dout_gib input_gib gamma_gib i1 g0 buf) as (_ & V).
    rewrite V.
    destruct ((i1 * n2 <=? j) && (j <? i1 * n2 + n2)) eqn:C; [|reflexivity].
    apply andb_true_iff in C. destruct C as [C1 C2].
    apply Nat.leb_le in C1. apply Nat.ltb_lt in C2.
    destruct (row_cell_index i1 n2 j C1 C2) as [-> ->]. reflexivity. }
  assert (VS : forall g g' : @gmem num, (forall b, ~ TB b -> g' b = g b) ->
            forall b j, val g' b j = val g b j).
  { intros g0 g' H b j. unfold val.
    apply (grad_input_cell_agree N bdy bz gib dout input mean invvar gamma n2
             rms_only dout_gib input_gib mean_gib invvar_gib gamma_gib).
    exact H. }
  pose proof (kernel_frame row n1 TB RF G gz junk G_pos g) as KF.
  pose proof (kernel_cells row n1 TB tgt val RF RC VS G gz junk G_pos g) as KC.
  cbv zeta in KF, KC.
  change (launch_grid (Dim3 1 G gz) junk
            (fun _ y => cuComputeGradInput N bd (Dim3 1 G gz) y dout input n1 n2
                          mean invvar eps gamma (Some gib) rms_only) g)
    with (launch_grid (Dim3 1 G gz) junk
            (fun (_ y : nat) st =>
               fold_left (fun st i1 => row i1 st)
                 (fst (loop_while n1 (fun i1 => i1 <? n1) (fun i1 => i1 + G) y)) st) g).
  split; [|split].
  - intros b H1. apply KF. exact H1.
  - intros i1 i Hi1 Hi. rewrite KC by reflexivity.
    assert (Ex : existsb (fun i1' => tgt i1' gib (i1 * n2 + i)) (seq 0 n1) = true).
    { apply existsb_exists. exists i1. split; [apply in_seq; lia|].
      unfold tgt. apply andb_true_iff. split.
      - apply Nat.leb_le. lia.
      - apply Nat.ltb_lt. lia. }
    rewrite Ex. unfold val.
    destruct (row_cell_index i1 n2 (i1 * n2 + i)) as [-> ->]; try lia.
    replace (i1 * n2 + i - i1 * n2) with i by lia. reflexivity.
  - intros j Hj. rewrite KC by reflexivity.
    assert (Ex : existsb (fun i1' => tgt i1' gib j) (seq 0 n1) = false).
    { apply not_true_is_false. intros Ex. apply existsb_exists in Ex.
      destruct Ex as (i1 & Hi & Ht). apply in_seq in Hi. unfold tgt in Ht.
      apply andb_true_iff in Ht.
      destruct Ht as [_ Ht]. apply Nat.ltb_lt in Ht.
      assert (i1 * n2 + n2 <= n1 * n2) by nia. lia. }
    rewrite Ex. reflexivity.
Qed.

End GradInputKernel.

Section GradInputExact.
Variable rsqrt_fn : Qc -> Qc.
Local Abbreviation E := (exactQ rsqrt_fn).


End GradInputExact.


(** * Where the casts to the storage types occur *)




(** * Mode isolation of the forward pass *)

(** C7.  cuApplyLayerNorm_ in RMS-only mode, for any arithmetic, block and
    grid: two runs on memories that differ only in the contents of the mean
    buffer (and start from any shared-memory contents) store the same output
    and the same invvar, and each leaves its mean buffer as it was. *)
Theorem rms_forward_mean_isolation {num : Type} (N : Numerics num) (half : bool)
  (misaligned : nat -> bool) (bd : dim3) (ob ib xb mb : nat) (beta gamma : ptr)
  (n1 n2 : nat) (eps : num) (G gz : nat) (junk1 junk2 : nat -> nat -> smem)
  (g1 g2 : gmem) :
  0 < dim_x bd -> 0 < dim_y bd -> 0 < G ->
  ob <> ib -> xb <> ob -> xb <> ib -> ptr_apart gamma ob -> ptr_apart gamma ib ->
  mb <> ob -> mb <> ib -> mb <> xb -> ptr_apart gamma mb ->
  (forall b, b <> mb -> g1 b = g2 b) ->
  let run := fun junk g =>
    launch_grid (Dim3 1 G gz) junk
      (fun _ y => cuApplyLayerNorm_ N half misaligned bd (Dim3 1 G gz) y
                    (Some ob) (Some mb) (Some ib) (Some xb) n1 n2 eps
                    gamma beta true) g in
  (forall j, run junk1 g1 ob j = run junk2 g2 ob j) /\
  (forall j, run junk1 g1 ib j = run junk2 g2 ib j) /\
  run junk1 g1 mb = g1 mb /\
  run junk2 g2 mb = g2 mb.
Proof.
  intros Hx Hy HG D1 D2 D3 D4 D5 M1 M2 M3 M4 Hg. cbv zeta.
  destruct (forward_kernel N half misaligned bd ob ib xb (Some mb) beta gamma
              n1 n2 eps G gz junk1 Hx Hy D1 D2 D3 D4 D5 HG g1)
    as (F1 & O1 & OK1 & I1 & IK1).
  destruct (forward_kernel N half misaligned bd ob ib xb (Some mb) beta gamma
              n1 n2 eps G gz junk2 Hx Hy D1 D2 D3 D4 D5 HG g2)
    as (F2 & O2 & OK2 & I2 & IK2).
  assert (Ex : g1 xb = g2 xb) by (apply Hg; auto).
  assert (Eg : buffer_at g1 gamma = buffer_at g2 gamma).
  { destruct gamma as [gb|]; cbn [buffer_at ptr_apart] in *; [|reflexivity].
    rewrite (Hg gb) by auto. reflexivity. }
  split; [|split; [|split]].
  - intros j. destruct (Nat.lt_ge_cases j (n1 * n2)) as [Hj|Hj].
    + assert (Hn2 : 0 < n2) by nia.
      pose proof (Nat.div_mod_eq j n2) as Dj.
      assert (Hi : j mod n2 < n2) by (apply Nat.mod_upper_bound; lia).
      assert (Hi1 : j / n2 < n1) by (apply Nat.Div0.div_lt_upper_bound; nia).
      replace j with (j / n2 * n2 + j mod n2) by lia.
      rewrite (O1 _ _ Hi1 Hi), (O2 _ _ Hi1 Hi), Ex, Eg. reflexivity.
    + rewrite (OK1 j Hj), (OK2 j Hj), (Hg ob) by auto. reflexivity.
  - intros j. destruct (Nat.lt_ge_cases j n1) as [Hj|Hj].
    + rewrite (I1 j Hj), (I2 j Hj), Ex. reflexivity.
    + rewrite (IK1 j Hj), (IK2 j Hj), (Hg ib) by auto. reflexivity.
  - apply F1; assumption.
  - apply F2; assumption.
Qed.

Lemma rms_forward_mean_isolation_witness :
  let g1 : gmem := fun b _ => match b with
                              | 0 => 1%Qc
                              | 1 => Qc_of_nat 2
                              | 4 => Qc_of_nat 7
                              | _ => 0%Qc
                              end in
  let g2 : gmem := fun b _ => match b with
                              | 0 => 1%Qc
                              | 1 => Qc_of_nat 2
                              | 4 => Qc_of_nat 9
                              | _ => 0%Qc
                              end in
  let run := fun g =>
    launch_grid (Dim3 1 1 1) (fun _ _ _ => 0%Qc)
      (fun _ y => cuApplyLayerNorm_ (exactQ rsqrt_on_squares) false
                    (fun _ => false) (Dim3 32 4 1) (Dim3 1 1 1) y
                    (Some 2) (Some 4) (Some 3) (Some 0) 1 4 (Qc_of_nat 3)
                    (Some 1) None true) g in
  (forall j, run g1 2 j = run g2 2 j) /\
  (forall j, run g1 3 j = run g2 3 j) /\
  run g1 4 = g1 4 /\ run g2 4 = g2 4.
Proof.
  cbv zeta.
  apply (rms_forward_mean_isolation (exactQ rsqrt_on_squares) false
           (fun _ => false) (Dim3 32 4 1) 2 3 0 4 None (Some 1) 1 4 (Qc_of_nat 3)
           1 1 (fun _ _ _ => 0%Qc) (fun _ _ _ => 0%Qc));
    cbn [dim_x dim_y ptr_apart]; try lia.
  intros b Hb. do 5 (destruct b as [|b]; try reflexivity). lia.
Defined.

(** * The dispatch on element types *)

(** C9.  When the input or the weight element type of the descriptor is not
    one of F64, F32, F16, BF16, both entry points take a default label of
    the dispatch: they enqueue no kernel, so the memory of the device is
    left as it was (no output or gradient buffer is written), and they
    return normally (the entry points are total and have no error result). *)
Theorem unsupported_dtype_noop {num : Type}
  (arith : ctype -> ctype -> ctype -> Numerics num) (maxGridY : nat)
  (address : nat -> nat) (junk : launch num -> nat -> nat -> smem)
  (bufs : nat -> ptr) (d : RMSNormDescriptor num) (g : gmem) :
  supported (d_x_type d) = false \/ supported (d_w_type d) = false ->
  rms_forward_affine_mixed_dtypes arith maxGridY bufs d = [] /\
  rms_backward_affine arith maxGridY bufs d = [] /\
  run_stream arith address junk
    (rms_forward_affine_mixed_dtypes arith maxGridY bufs d) g = g /\
  run_stream arith address junk (rms_backward_affine arith maxGridY bufs d) g = g.
Proof.
  intros H.
  assert (E : rms_forward_affine_mixed_dtypes arith maxGridY bufs d = [] /\
              rms_backward_affine arith maxGridY bufs d = []).
  { unfold rms_forward_affine_mixed_dtypes, rms_backward_affine,
           DISPATCH_DOUBLE_FLOAT_HALF_AND_BFLOAT_INOUT_TYPES.
    destruct (d_x_type d), (d_w_type d); cbn [supported] in H;
      destruct H as [H|H]; try discriminate H; split; reflexivity. }
  destruct E as [E1 E2]. rewrite E1, E2. repeat split; reflexivity.
Qed.

Lemma unsupported_dtype_noop_witness :
  let arithE := fun _ _ _ : ctype => exactQ rsqrt_on_squares in
  let d := {| d_n1 := 1; d_n2 := 4; d_eps := Qc_of_nat 3;
              d_x_type := ElementType_other 7; d_w_type := F16;
              d_part_grad_size := 16 |} in
  let g : gmem := fun _ _ => 1%Qc in
  rms_forward_affine_mixed_dtypes arithE 8 (fun i => Some i) d = [] /\
  rms_backward_affine arithE 8 (fun i => Some i) d = [] /\
  run_stream arithE (fun _ => 0) (fun _ _ _ _ => 0%Qc)
    (rms_forward_affine_mixed_dtypes arithE 8 (fun i => Some i) d) g = g /\
  run_stream arithE (fun _ => 0) (fun _ _ _ _ => 0%Qc)
    (rms_backward_affine arithE 8 (fun i => Some i) d) g = g.
Proof.
  cbv zeta.
  apply (unsupported_dtype_noop (fun _ _ _ : ctype => exactQ rsqrt_on_squares) 8
           (fun _ => 0) (fun _ _ _ _ => 0%Qc) (fun i => Some i)
           {| d_n1 := 1; d_n2 := 4; d_eps := Qc_of_nat 3;
              d_x_type := ElementType_other 7; d_w_type := F16;
              d_part_grad_size := 16 |} (fun _ _ => 1%Qc)).
  left. reflexivity.
Defined.

(** * The entry points run every kernel in RMS-only mode *)

Section FullModeSlots.
Context {num : Type} (N : Numerics num).

Lemma cuComputePartGradGammaBeta_slots (bd gd : dim3) (bx by_ : nat)
  (dout input : ptr) (n1 n2 : nat) (mean mean' invvar : ptr) (eps : num)
  (pgg pgb pgb' : ptr) (st : gmem * smem) :
  cuComputePartGradGammaBeta N bd gd bx by_ dout input n1 n2 mean invvar eps
                             pgg pgb true st
  = cuComputePartGradGammaBeta N bd gd bx by_ dout input n1 n2 mean' invvar eps
                               pgg pgb' true st.
Proof. reflexivity. Qed.

Lemma cuComputeGradGammaBeta_slots (bd : dim3) (bx : nat)
  (pgg pgb pgb' : ptr) (part_size n1 n2 : nat) (gg gb gb' : ptr)
  (st : gmem * smem) :
  cuComputeGradGammaBeta N bd bx pgg pgb part_size n1 n2 gg gb true st
  = cuComputeGradGammaBeta N bd bx pgg pgb' part_size n1 n2 gg gb' true st.
Proof. reflexivity. Qed.

Lemma cuComputeGradInput_slots (bd gd : dim3) (by_ : nat)
  (dout input : ptr) (n1 n2 : nat) (mean mean' invvar : ptr) (eps : num)
  (gamma gi : ptr) (st : gmem * smem) :
  cuComputeGradInput N bd gd by_ dout input n1 n2 mean invvar eps gamma gi true st
  = cuComputeGradInput N bd gd by_ dout input n1 n2 mean' invvar eps gamma gi true
                       st.
Proof. reflexivity. Qed.

End FullModeSlots.

(** A launch in RMS-only mode does the same with any pointers in the
    arguments of the full layer norm. *)
Lemma run_launch_slots {num : Type}
  (arith : ctype -> ctype -> ctype -> Numerics num) (address : nat -> nat)
  (jk : nat -> nat -> smem) (l : launch num) (p q r : ptr) (g : gmem) :
  rms_only_flag (l_call l) = true ->
  run_launch arith address (fun _ => jk)
             (with_call l (replace_full_mode_slots p q r (l_call l))) g
  = run_launch arith address (fun _ => jk) l g.
Proof.
  destruct l as [T U V gd bd ns c].
  destruct c; cbn [l_call rms_only_flag]; intros H; try subst rms_only;
    reflexivity.
Qed.

(** C10.  Every kernel that either entry point enqueues runs with
    rms_only = true (cuApplyRMSNorm is cuApplyLayerNorm_ with NULL mean and
    beta and rms_only = true); and what such a launch does to the memory
    does not depend on the pointers passed for mean, part_grad_beta and
    grad_beta: with any other pointers in those arguments, from the same
    shared memory, the launch leaves the same memory.  The arguments that
    the host aliases there (invvar, part_grad_gamma, grad_gamma) are not
    accessed through them. *)
Theorem entry_points_rms_only {num : Type}
  (arith : ctype -> ctype -> ctype -> Numerics num) (maxGridY : nat)
  (address : nat -> nat) (jk : nat -> nat -> smem)
  (bufs : nat -> ptr) (d : RMSNormDescriptor num) (l : launch num) :
  In l (rms_forward_affine_mixed_dtypes arith maxGridY bufs d
        ++ rms_backward_affine arith maxGridY bufs d) ->
  rms_only_flag (l_call l) = true /\
  (forall N half misaligned bd gd y output_vals invvar vals n1 n2 eps gamma st,
     cuApplyRMSNorm N half misaligned bd gd y output_vals invvar vals n1 n2 eps
                    gamma st
     = cuApplyLayerNorm_ (num:=num) N half misaligned bd gd y output_vals None
                         invvar vals n1 n2 eps gamma None true st) /\
  (forall (p q r : ptr) (g : gmem),
     run_launch arith address (fun _ => jk)
                (with_call l (replace_full_mode_slots p q r (l_call l))) g
     = run_launch arith address (fun _ => jk) l g).
Proof.
  intros Hl. apply in_app_or in Hl.
  assert (A : forall T U V,
    Forall (fun l => rms_only_flag (l_call l) = true)
      (HostApplyRMSNorm arith maxGridY T U V (bufs 2) (bufs 3) (bufs 0)
                        (d_n1 d) (d_n2 d) (d_eps d) (bufs 1))).
  { intros T U V. unfold HostApplyRMSNorm. cbv zeta.
    repeat constructor. }
  assert (B : forall T U V,
    Forall (fun l => rms_only_flag (l_call l) = true)
      (HostRMSNormGradient arith maxGridY T U V (bufs 0) (bufs 1) (bufs 2)
         (d_n1 d) (d_n2 d) (bufs 3) (d_eps d) (bufs 4) (bufs 5)
         (d_part_grad_size d) (bufs 6))).
  { intros T U V. unfold HostRMSNormGradient. cbv zeta.
    destruct (negb (is_null (bufs 3))); cbn [app]; repeat constructor. }
  assert (F : rms_only_flag (l_call l) = true).
  { destruct Hl as [Hl|Hl];
      unfold rms_forward_affine_mixed_dtypes, rms_backward_affine,
             DISPATCH_DOUBLE_FLOAT_HALF_AND_BFLOAT_INOUT_TYPES in Hl;
      destruct (d_x_type d), (d_w_type d);
      try (destruct Hl; fail);
      first [ exact (proj1 (Forall_forall _ _) (A _ _ _) l Hl)
            | exact (proj1 (Forall_forall _ _) (B _ _ _) l Hl) ]. }
  split; [exact F|split; [reflexivity|]].
  intros p q r g. apply run_launch_slots. exact F.
Qed.

Lemma entry_points_rms_only_witness :
  let arithE := fun _ _ _ : ctype => exactQ rsqrt_on_squares in
  let d := {| d_n1 := 1; d_n2 := 4; d_eps := Qc_of_nat 3;
              d_x_type := F32; d_w_type := F16; d_part_grad_size := 16 |} in
  let l := Launch c_float c_float c_half (Dim3 1 1 1) (Dim3 32 4 1) 512
             (call_cuComputeGradInput (Some 0) (Some 2) 1 4 (Some 1) (Some 1)
                (Qc_of_nat 3) (Some 3) (Some 4) true) in
  rms_only_flag (l_call l) = true /\
  forall (p q r : ptr) (g : gmem),
    run_launch arithE (fun _ => 0) (fun _ => fun _ _ _ => 0%Qc)
               (with_call l (replace_full_mode_slots p q r (l_call l))) g
    = run_launch arithE (fun _ => 0) (fun _ => fun _ _ _ => 0%Qc) l g.
Proof.
  cbv zeta.
  refine (let H := entry_points_rms_only
                     (fun _ _ _ : ctype => exactQ rsqrt_on_squares) 8 (fun _ => 0)
                     (fun _ _ _ => 0%Qc) (fun i => Some i)
                     {| d_n1 := 1; d_n2 := 4; d_eps := Qc_of_nat 3;
                        d_x_type := F32; d_w_type := F16;
                        d_part_grad_size := 16 |}
                     (Launch c_float c_float c_half (Dim3 1 1 1) (Dim3 32 4 1) 512
                        (call_cuComputeGradInput (Some 0) (Some 2) 1 4 (Some 1)
                           (Some 1) (Qc_of_nat 3) (Some 3) (Some 4) true)) _ in
          conj (proj1 H) (proj2 (proj2 H))).
  cbn. right. right. right. left. reflexivity.
Defined.

(** * Kernels in which every block stores cells of its own *)

Section GridKernel.
Context {num : Type}.
Variable block : nat -> nat -> @gmem num * @smem num -> @gmem num * @smem num.
Variable gd : dim3.
Variable TB : nat -> Prop.
Variable tgt : nat -> nat -> nat -> nat -> bool.
Variable val : @gmem num -> nat -> nat -> num.
Variable junk : nat -> nat -> @smem num.

Hypothesis blk_frame : forall x y g buf b,
  x < dim_x gd -> y < dim_y gd -> ~ TB b -> fst (block x y (g, buf)) b = g b.
Hypothesis blk_cells : forall x y g buf b j,
  x < dim_x gd -> y < dim_y gd -> TB b ->
  fst (block x y (g, buf)) b j = if tgt x y b j then val g b j else g b j.
Hypothesis val_stable : forall g g' : @gmem num,
  (forall b, ~ TB b -> g' b = g b) -> forall b j, val g' b j = val g b j.

Lemma grid_frame (g : @gmem num) (b : nat) :
  ~ TB b -> launch_grid gd junk block g b = g b.
Proof.
  intros Hb. unfold launch_grid.
  apply (fold_left_inv _ (fun g' : @gmem num => forall b, ~ TB b -> g' b = g b));
    [|reflexivity|exact Hb].
  intros g' [x y] Hin Hg b' Hb'. apply in_coords in Hin. cbn [fst snd].
  rewrite blk_frame by tauto. now apply Hg.
Qed.

Lemma grid_cell_hit (g : @gmem num) (x y b j : nat) :
  TB b -> x < dim_x gd -> y < dim_y gd -> tgt x y b j = true ->
  launch_grid gd junk block g b j = val g b j.
Proof.
  intros Hb Hx Hy Ht. unfold launch_grid.
  apply (fold_left_establish _
           (fun g' : @gmem num => forall b, ~ TB b -> g' b = g b)
           (fun g' : @gmem num => g' b j = val g b j)
           (coords gd) (x, y)).
  - apply in_coords. tauto.
  - intros g' [x' y'] Hin Hg b' Hb'. apply in_coords in Hin. cbn [fst snd].
    rewrite blk_frame by tauto. now apply Hg.
  - intros g' [x' y'] Hin Hg HQ. apply in_coords in Hin. cbn [fst snd].
    rewrite blk_cells by tauto.
    destruct (tgt x' y' b j); [|exact HQ]. apply val_stable. exact Hg.
  - intros g' Hg. cbn [fst snd]. rewrite blk_cells, Ht by assumption.
    apply val_stable. exact Hg.
  - reflexivity.
Qed.

Lemma grid_cell_miss (g : @gmem num) (b j : nat) :
  TB b ->
  (forall x y, x < dim_x gd -> y < dim_y gd -> tgt x y b j = false) ->
  launch_grid gd junk block g b j = g b j.
Proof.
  intros Hb Hn. unfold launch_grid.
  apply (fold_left_inv _ (fun g' : @gmem num => g' b j = g b j)); [|reflexivity].
  intros g' [x y] Hin Q. apply in_coords in Hin. cbn [fst snd].
  rewrite blk_cells, Hn by tauto. exact Q.
Qed.

End GridKernel.

(** * Sums over tiles and segments *)

Ltac dlia := zify; Z.to_euclidean_division_equations; lia.

Lemma sum_upto_app (f : nat -> Qc) (n m : nat) :
  sum_upto f (n + m) = (sum_upto f n + sum_upto (fun i => f (n + i)%nat) m)%Qc.
Proof.
  induction m as [|m IH].
  - rewrite Nat.add_0_r. simpl. ring.
  - rewrite Nat.add_succ_r. cbn [sum_upto]. rewrite IH. ring.
Qed.

Lemma sum_upto_zero (f : nat -> Qc) (n : nat) :
  (forall i, i < n -> f i = 0%Qc) -> sum_upto f n = 0%Qc.
Proof.
  induction n as [|n IH]; intros H; [reflexivity|].
  cbn [sum_upto]. rewrite IH, H by (intros; auto). ring.
Qed.

Lemma sum_upto_zero_tail (f : nat -> Qc) (n m : nat) :
  n <= m -> (forall i, n <= i -> f i = 0%Qc) -> sum_upto f m = sum_upto f n.
Proof.
  intros Hnm H. replace m with (n + (m - n)) by lia.
  rewrite sum_upto_app, (sum_upto_zero (fun i => f (n + i)) (m - n)); [ring|].
  intros i _. apply H. lia.
Qed.

(** Rows of [m] consecutive cells, [k] of them. *)
Lemma sum_upto_rows (f : nat -> Qc) (m k : nat) :
  sum_upto (fun r => sum_upto (fun c => f (r * m + c)%nat) m) k
  = sum_upto f (k * m).
Proof.
  induction k as [|k IH]; [reflexivity|].
  cbn [sum_upto]. rewrite IH.
  replace (Datatypes.S k * m) with (k * m + m) by lia.
  rewrite sum_upto_app. reflexivity.
Qed.

(** Columns: the cells r, r + m, r + 2m, ... for every r < m. *)
Lemma sum_upto_cols (f : nat -> Qc) (m k : nat) :
  sum_upto (fun r => sum_upto (fun j => f (j * m + r)%nat) k) m
  = sum_upto f (k * m).
Proof.
  induction k as [|k IH].
  - cbn [sum_upto Nat.mul]. apply sum_upto_zero. reflexivity.
  - cbn [sum_upto]. rewrite sum_upto_plus, IH.
    replace (Datatypes.S k * m) with (k * m + m) by lia.
    rewrite sum_upto_app. reflexivity.
Qed.

Lemma sum_over_interval (f : nat -> Qc) (a b : nat) :
  sum_over f (seq a (b - a)) = sum_upto (fun i => f (a + i)%nat) (b - a).
Proof. rewrite sum_over_shift, sum_over_seq. reflexivity. Qed.

Lemma sum_over_interval_diff (f : nat -> Qc) (a b : nat) :
  a <= b -> sum_over f (seq a (b - a)) = (sum_upto f b - sum_upto f a)%Qc.
Proof.
  intros H. rewrite sum_over_interval.
  replace b with (a + (b - a)) at 2 by lia.
  rewrite sum_upto_app. ring.
Qed.

(** * The final reduction of the parameter gradient *)

Lemma loop_while_ext (c1 c2 : nat -> bool) (next : nat -> nat) (fuel l : nat) :
  (forall l, c1 l = c2 l) ->
  loop_while fuel c1 next l = loop_while fuel c2 next l.
Proof.
  intros H. revert l. induction fuel as [|fuel IH]; intros l; [reflexivity|].
  cbn [loop_while]. rewrite H, IH. reflexivity.
Qed.

Section GradGammaGeneric.
Context {num : Type} (N : Numerics num).
Variables (bdy bz bxi n2 : nat).

Local Abbreviation bd := (Dim3 32 bdy bz).

Lemma grad_gamma_phase (o : nat) (r : nat -> nat -> num * num) (buf : smem)
  (tx ty : nat) :
  0 < o -> 2 * o <= bdy -> tx < 32 ->
  (if (bxi * 32 + tx <? n2) && (ty <? o)
   then
     (n_add N (fst (r tx ty))
        (foreach_thread bd
           (fun (tx1 ty1 : nat) (buf0 : nat -> num) =>
              if (bxi * 32 + tx1 <? n2) && (o <=? ty1) && (ty1 <? 2 * o)
              then upd buf0 ((ty1 - o) * 32 + tx1) (fst (r tx1 ty1))
              else buf0)
           buf (ty * 32 + tx)),
      snd (r tx ty))
   else r tx ty)
  = grad_gamma_step N n2 bxi 32 o r tx ty.
Proof.
  intros Ho Hby Htx. unfold grad_gamma_step.
  destruct (Nat.ltb_spec (bxi * 32 + tx) n2) as [Hi|Hi]; [|reflexivity].
  destruct (Nat.ltb_spec ty o) as [Hty|Hty]; [|reflexivity].
  cbn [andb]. f_equal. f_equal.
  apply (foreach_thread_cell bd _ _ _ tx (ty + o)); cbn [dim_x dim_y]; try lia.
  - intros tx' ty' b Hx' Hy' Hb. cell_solve.
  - intros b. cell_solve.
Qed.

Lemma grad_gamma_loop (L : list nat) :
  (forall o, In o L -> 0 < o /\ 2 * o <= bdy) ->
  forall (r r' : nat -> nat -> num * num) (buf : smem),
  (forall tx ty, tx < 32 -> r tx ty = r' tx ty) ->
  forall tx ty, tx < 32 ->
    fst (fold_left
      (fun (st : (nat -> nat -> num * num) * smem) (offset : nat) =>
         (fun tx0 ty0 : nat =>
            if (bxi * 32 + tx0 <? n2) && (ty0 <? offset)
            then
              (n_add N (fst (fst st tx0 ty0))
                 (foreach_thread bd
                    (fun (tx1 ty1 : nat) (buf0 : nat -> num) =>
                       if (bxi * 32 + tx1 <? n2) && (offset <=? ty1)
                          && (ty1 <? 2 * offset)
                       then upd buf0 ((ty1 - offset) * 32 + tx1)
                                (fst (fst st tx1 ty1))
                       else buf0)
                    (snd st) (ty0 * 32 + tx0)),
               snd (fst st tx0 ty0))
            else fst st tx0 ty0,
          foreach_thread bd
            (fun (tx0 ty0 : nat) (buf0 : nat -> num) =>
               if (bxi * 32 + tx0 <? n2) && (offset <=? ty0)
                  && (ty0 <? 2 * offset)
               then upd buf0 ((ty0 - offset) * 32 + tx0) (fst (fst st tx0 ty0))
               else buf0)
            (snd st)))
      L (r, buf)) tx ty
    = fold_left (fun r offset => grad_gamma_step N n2 bxi 32 offset r) L r' tx ty.
Proof.
  induction L as [|o L IH]; intros HL r r' buf Hr tx ty Htx.
  - simpl. now apply Hr.
  - cbn [fold_left]. cbn [fst snd]. apply IH; [| |exact Htx].
    + intros o' Ho'. apply HL. now right.
    + intros tx' ty' Htx'. destruct (HL o (or_introl eq_refl)) as [H1 H2].
      rewrite (grad_gamma_phase o r buf tx' ty' H1 H2 Htx').
      unfold grad_gamma_step. rewrite !Hr by exact Htx'. reflexivity.
Qed.

(** What block [bxi] of cuComputeGradGammaBeta (32 x bdy threads, RMS-only
    mode) stores, whatever the shared memory held on entry. *)
Lemma grad_gamma_block (pb gg : nat) (pgb gb : ptr) (ps n1 : nat)
  (g : gmem) (buf : smem) :
  0 < bdy ->
  let g' := fst (cuComputeGradGammaBeta N bd bxi (Some pb) pgb ps n1 n2
                   (Some gg) gb true (g, buf)) in
  (forall b, b <> gg -> g' b = g b) /\
  (forall j, g' gg j =
     if (bxi * 32 <=? j) && (j <? bxi * 32 + 32) && (j <? n2)
     then n_U2V N (grad_gamma_sum N bd bxi (Some pb) ps n2 g (j - bxi * 32))
     else g gg j).
Proof.
  intros Hbdy. cbv zeta. unfold cuComputeGradGammaBeta. cbv zeta.
  cbn [negb dim_x dim_y fst snd].
  set (L := fst (loop_while bdy (fun o => 1 <=? o) (fun o => o / 2) (bdy / 2))).
  assert (HL : forall o, In o L -> 0 < o /\ 2 * o <= bdy).
  { intros o Ho. unfold L in Ho.
    rewrite (loop_while_ext _ (fun o => 0 <? o)) in Ho
      by (intros l; destruct l; reflexivity).
    apply loop_halving_range in Ho. destruct Ho as [H1 H2].
    split; [exact H1|].
    pose proof (Nat.Div0.mul_div_le bdy 2). lia. }
  match goal with
  | |- context [fold_left ?F L (?r0, buf)] =>
      set (st := fold_left F L (r0, buf)); set (R0 := r0) in *
  end.
  assert (E : forall tx, tx < 32 ->
            fst (fst st tx 0) = grad_gamma_sum N bd bxi (Some pb) ps n2 g tx).
  { intros tx Htx. unfold grad_gamma_sum. cbn [dim_x dim_y]. fold L.
    f_equal. subst st.
    apply (grad_gamma_loop L HL R0); [|exact Htx].
    intros tx' ty' _. reflexivity. }
  clearbody st. clear R0.
  split.
  - intros b Hb.
    apply (foreach_thread_inv bd _ (fun s : gmem => s b = g b)); [|reflexivity].
    intros tx ty s _ _ Hs.
    destruct ((bxi * 32 + tx <? n2) && (ty =? 0)); [|exact Hs].
    rewrite store_other_buffer by exact Hb. exact Hs.
  - intros j.
    destruct ((bxi * 32 <=? j) && (j <? bxi * 32 + 32) && (j <? n2)) eqn:Hj.
    + apply andb_true_iff in Hj. destruct Hj as [Hj Hj3].
      apply andb_true_iff in Hj. destruct Hj as [Hj1 Hj2].
      apply Nat.leb_le in Hj1. apply Nat.ltb_lt in Hj2. apply Nat.ltb_lt in Hj3.
      rewrite <- E by lia.
      apply (foreach_thread_establish bd _ (fun _ => True)
               (fun s : gmem => s gg j = n_U2V N (fst (fst st (j - bxi * 32) 0)))
               (j - bxi * 32) 0); cbn [dim_x dim_y]; try lia; auto.
      * intros tx ty s Htx Hty _ Hs.
        destruct (Nat.ltb_spec (bxi * 32 + tx) n2) as [H1|H1]; [|exact Hs].
        destruct (Nat.eqb_spec ty 0) as [->|H2]; [|exact Hs].
        cbn [andb]. rewrite store_cell.
        destruct (Nat.eqb_spec j (bxi * 32 + tx)) as [->|Hne]; [|exact Hs].
        replace (bxi * 32 + tx - bxi * 32) with tx by lia. reflexivity.
      * intros s _.
        replace (bxi * 32 + (j - bxi * 32)) with j by lia.
        apply Nat.ltb_lt in Hj3. rewrite Hj3. cbn [Nat.eqb andb].
        rewrite store_same. reflexivity.
    + apply (foreach_thread_inv bd _ (fun s : gmem => s gg j = g gg j));
        [|reflexivity].
      intros tx ty s Htx Hty Hs. cbn [dim_x] in Htx.
      destruct (Nat.ltb_spec (bxi * 32 + tx) n2) as [H1|H1]; [|exact Hs].
      destruct (Nat.eqb_spec ty 0) as [->|H2]; [|exact Hs].
      cbn [andb]. rewrite store_cell.
      destruct (Nat.eqb_spec j (bxi * 32 + tx)) as [->|Hne]; [|exact Hs].
      exfalso. apply andb_false_iff in Hj. destruct Hj as [Hj|Hj].
      * apply andb_false_iff in Hj. destruct Hj as [Hj|Hj].
        -- apply Nat.leb_gt in Hj. lia.
        -- apply Nat.ltb_ge in Hj. lia.
      * apply Nat.ltb_ge in Hj. lia.
Qed.

End GradGammaGeneric.

Lemma block_cell_index (x j : nat) :
  x * 32 <= j -> j < x * 32 + 32 -> j / 32 = x /\ j mod 32 = j - x * 32.
Proof. intros H1 H2. split; dlia. Qed.

Section GradGammaKernel.
Context {num : Type} (N : Numerics num).
Variables (bdy bz pb gg : nat) (pgb gb : ptr) (ps n1 n2 : nat).
Variables (gd : dim3) (junk : nat -> nat -> @smem num).
Hypothesis bd_y : 0 < bdy.
Hypothesis pb_gg : pb <> gg.

Local Abbreviation bd := (Dim3 32 bdy bz).

Lemma grad_gamma_sum_agree (g g' : @gmem num) (x tx : nat) :
  (forall b, b <> gg -> g' b = g b) ->
  grad_gamma_sum N bd x (Some pb) ps n2 g' tx
  = grad_gamma_sum N bd x (Some pb) ps n2 g tx.
Proof.
  intros H. unfold grad_gamma_sum, grad_gamma_registers. cbv zeta.
  rewrite (load_agree _ g g' (Some pb) gg pb_gg H). reflexivity.
Qed.

(** cuComputeGradGammaBeta in RMS-only mode on a grid of blocks of
    32 x bdy threads: grad_gamma[i2] is stored for the columns the grid
    covers; nothing else changes. *)
Lemma grad_gamma_kernel (g : @gmem num) :
  let g' := launch_grid gd junk
              (fun x _ => cuComputeGradGammaBeta N bd x (Some pb) pgb ps n1 n2
                            (Some gg) gb true) g in
  (forall b, b <> gg -> g' b = g b) /\
  (forall i2, i2 < n2 -> i2 < dim_x gd * 32 -> 0 < dim_y gd ->
     g' gg i2 =
     n_U2V N (grad_gamma_sum N bd (i2 / 32) (Some pb) ps n2 g (i2 mod 32))) /\
  (forall j, n2 <= j -> g' gg j = g gg j).
Proof.
  cbv zeta.
  set (blk := fun (x _ : nat) => cuComputeGradGammaBeta N bd x (Some pb) pgb ps
                                   n1 n2 (Some gg) gb true).
  set (TB := fun b => b = gg).
  set (tgt := fun (x y b j : nat) =>
         (x * 32 <=? j) && (j <? x * 32 + 32) && (j <? n2)).
  set (val := fun (g : @gmem num) (b j : nat) =>
         n_U2V N (grad_gamma_sum N bd (j / 32) (Some pb) ps n2 g (j mod 32))).
  assert (BF : forall x y g buf b, x < dim_x gd -> y < dim_y gd -> ~ TB b ->
            fst (blk x y (g, buf)) b = g b).
  { intros x y g0 buf b _ _ Hb. unfold blk.
    destruct (grad_gamma_block N bdy bz x n2 pb gg pgb gb ps n1 g0 buf bd_y)
      as (F & _).
    apply F. exact Hb. }
  assert (BC : forall x y g buf b j, x < dim_x gd -> y < dim_y gd -> TB b ->
            fst (blk x y (g, buf)) b j = if tgt x y b j then val g b j else g b j).
  { intros x y g0 buf b j _ _ Hb. unfold blk, tgt, val. unfold TB in Hb. subst b.
    destruct (grad_gamma_block N bdy bz x n2 pb gg pgb gb ps n1 g0 buf bd_y)
      as (_ & V).
    rewrite V.
    destruct ((x * 32 <=? j) && (j <? x * 32 + 32) && (j <? n2)) eqn:C;
      [|reflexivity].
    apply andb_true_iff in C. destruct C as [C C3].
    apply andb_true_iff in C. destruct C as [C1 C2].
    apply Nat.leb_le in C1. apply Nat.ltb_lt in C2.
    destruct (block_cell_index x j C1 C2) as [-> ->]. reflexivity. }
  assert (VS : forall g g' : @gmem num, (forall b, ~ TB b -> g' b = g b) ->
            forall b j, val g' b j = val g b j).
  { intros g0 g' H b j. unfold val. f_equal.
    apply grad_gamma_sum_agree. exact H. }
  split; [|split].
  - intros b Hb. apply (grid_frame blk gd TB junk BF). exact Hb.
  - intros i2 H1 H2 H3.
    apply (grid_cell_hit blk gd TB tgt val junk BF BC VS g (i2 / 32) 0 gg i2);
      try reflexivity; try assumption.
    + dlia.
    + unfold tgt. apply andb_true_iff. split; [apply andb_true_iff; split|].
      * apply Nat.leb_le. dlia.
      * apply Nat.ltb_lt. dlia.
      * apply Nat.ltb_lt. exact H1.
  - intros j Hj.
    apply (grid_cell_miss blk gd TB tgt val junk BC g gg j); [reflexivity|].
    intros x y _ _. unfold tgt. apply andb_false_iff. right.
    apply Nat.ltb_ge. exact Hj.
Qed.

End GradGammaKernel.

(** for (w = 0; w < n; ++w). *)
Lemma count_loop (n : nat) :
  fst (loop_while n (fun w => w <? n) (fun w => w + 1) 0) = seq 0 n.
Proof.
  assert (H : exists t,
    loop_while n (fun w => w <? n) (fun w => w + 1) 0 =
      (map (fun j => 0 + j * 1) (seq 0 t), 0 + t * 1) /\
    (forall j, j < t -> 0 + j * 1 + 0 < n) /\
    n <= 0 + t * 1 + 0).
  { apply loop_up; try lia; intros l; rewrite ?Nat.add_0_r; reflexivity. }
  destruct H as (t & E & Hall & Hex). rewrite E. cbn [fst].
  assert (t = n).
  { destruct (Nat.lt_trichotomy t n) as [H|[H|H]]; [lia|exact H|].
    specialize (Hall (t - 1)). lia. }
  subst t. rewrite <- (map_id (seq 0 n)) at 2.
  apply map_ext. intros j. lia.
Qed.

Section GradGammaExact.
Variable rsqrt_fn : Qc -> Qc.
Local Abbreviation E := (exactQ rsqrt_fn).

Lemma grad_gamma_registers_exact (bdy bz x pb ps n2 : nat) (g : gmem)
  (tx ty : nat) :
  x * 32 + tx < n2 ->
  fst (grad_gamma_registers E (Dim3 32 bdy bz) x (Some pb) ps n2 g tx ty)
  = sum_upto (fun w => g pb ((ty * (ps / bdy) + w) * n2 + (x * 32 + tx))%nat)
             (ps / bdy).
Proof.
  intros Hi. unfold grad_gamma_registers. cbv zeta. cbn [dim_x dim_y].
  apply Nat.ltb_lt in Hi. rewrite Hi. rewrite count_loop.
  rewrite (fold_pair_sums _ true
             (fun w => g pb (ty * (ps / bdy) * n2 + (x * 32 + tx) + w * n2)%nat)
             (fun _ => 0%Qc)).
  - cbn [fst snd n_zero exactQ]. rewrite sum_over_seq.
    rewrite Qcplus_0_l. apply sum_upto_ext. intros w _. f_equal. lia.
  - intros s w. cbn [fst snd n_add n_zero load exactQ]. f_equal. ring.
Qed.

(** With 8 warps the tree adds the eight registers of a lane: the partial
    rows 0 .. 8 * (part_size / 8) - 1 of the column. *)
Lemma grad_gamma_sum_exact (bz x pb ps n2 : nat) (g : gmem) (tx : nat) :
  x * 32 + tx < n2 ->
  grad_gamma_sum E (Dim3 32 8 bz) x (Some pb) ps n2 g tx
  = sum_upto (fun p => g pb (p * n2 + (x * 32 + tx))%nat) (8 * (ps / 8)).
Proof.
  intros Hi. unfold grad_gamma_sum. cbn [dim_x dim_y].
  change (fst (loop_while 8 (fun o => 1 <=? o) (fun o => o / 2) (8 / 2)))
    with [4; 2; 1].
  cbn [fold_left]. unfold grad_gamma_step.
  pose proof Hi as Hi'. apply Nat.ltb_lt in Hi'. rewrite Hi'.
  cbn [andb Nat.ltb Nat.leb Nat.add fst snd n_add exactQ].
  rewrite !grad_gamma_registers_exact by exact Hi.
  rewrite <- (sum_upto_rows (fun p => g pb (p * n2 + (x * 32 + tx))%nat) (ps / 8) 8).
  cbn [sum_upto]. ring.
Qed.

End GradGammaExact.

(** * The partial sums of the parameter gradient, exact arithmetic *)

Lemma fold_left_ext_in {S X : Type} (f f' : S -> X -> S) (l : list X) (s : S) :
  (forall s x, In x l -> f s x = f' s x) ->
  fold_left f l s = fold_left f' l s.
Proof.
  revert s. induction l as [|x l IH]; intros s H; [reflexivity|].
  cbn [fold_left]. rewrite H by now left. apply IH.
  intros s' x' Hx. apply H. now right.
Qed.

(** for (k = 0; k < n; ++k) buf[A + k] = val k. *)
Lemma fold_upd_cells (A n : nat) (val : nat -> Qc) (buf : nat -> Qc) (a : nat) :
  fold_left (fun b k => upd b (A + k) (val k)) (seq 0 n) buf a
  = if (A <=? a) && (a <? A + n) then val (a - A) else buf a.
Proof.
  induction n as [|n IH].
  - cbn [seq fold_left]. bool_cases; try reflexivity. lia.
  - rewrite seq_S, fold_left_app. cbn [fold_left Nat.add]. unfold upd at 1.
    rewrite IH.
    destruct (Nat.eqb_spec a (A + n)) as [->|Hne].
    + replace (A + n - A) with n by lia. bool_cases; try reflexivity; lia.
    + bool_cases; try reflexivity; lia.
Qed.

(** for (k = 0; k < n; ++k) if (c k) buf[A + k] += val k. *)
Lemma fold_add_cells (A n : nat) (c : nat -> bool) (val : nat -> Qc)
  (buf : nat -> Qc) (a : nat) :
  fold_left (fun b k => if c k then upd b (A + k) (b (A + k)%nat + val k)%Qc else b)
            (seq 0 n) buf a
  = if (A <=? a) && (a <? A + n)
    then (buf a + if c (a - A)%nat then val (a - A)%nat else 0)%Qc
    else buf a.
Proof.
  revert a. induction n as [|n IH]; intros a.
  - cbn [seq fold_left]. bool_cases; try reflexivity. lia.
  - rewrite seq_S, fold_left_app. cbn [fold_left Nat.add].
    set (b := fold_left _ (seq 0 n) buf) in *.
    assert (Hb : b (A + n) = buf (A + n)).
    { rewrite (IH (A + n)). bool_cases; try reflexivity. lia. }
    destruct (Nat.eqb_spec a (A + n)) as [->|Hne].
    + replace (A + n - A) with n by lia.
      assert (R : (A <=? A + n) && (A + n <? A + Datatypes.S n) = true).
      { apply andb_true_iff. split; [apply Nat.leb_le|apply Nat.ltb_lt]; lia. }
      rewrite R. destruct (c n).
      * unfold upd. rewrite Nat.eqb_refl, Hb. reflexivity.
      * rewrite Hb. ring.
    + assert (R : (if c n then upd b (A + n) (b (A + n)%nat + val n)%Qc else b) a = b a).
      { destruct (c n); [|reflexivity]. unfold upd.
        apply Nat.eqb_neq in Hne. rewrite Hne. reflexivity. }
      rewrite R, (IH a). bool_cases; try reflexivity; lia.
Qed.

Section StridedLoads.
Variable rsqrt_fn : Qc -> Qc.
Local Abbreviation E := (exactQ rsqrt_fn).
Variable bd : dim3.
Hypothesis bd_y : dim_y bd = 4.
Variables (g : @gmem Qc) (db xb ib : nat) (mean : ptr) (i1_end n2 : nat).
Variables (ro co i2o W : nat).

Local Abbreviation A := (W + (ro * 33 + co)).

Lemma cuLoadWriteStridedInputs_cell (i1b : nat) (buf : smem) (a : nat) :
  cuLoadWriteStridedInputs E bd i1b ro co i2o 33 0 W g (Some xb) (Some db)
                           i1_end n2 mean (Some ib) true buf a
  = if (A <=? a) && (a <? A + 4)
    then tile_term g db xb ib i1_end n2 (i1b + ro) (i2o + (a - A))
    else buf a.
Proof.
  unfold cuLoadWriteStridedInputs. cbv zeta. rewrite bd_y. cbn [negb].
  destruct (i1b + ro <? i1_end) eqn:Hi.
  - rewrite (fold_left_ext_in _
               (fun b k => upd b (A + k)
                             (tile_term g db xb ib i1_end n2 (i1b + ro) (i2o + k)))).
    + rewrite fold_upd_cells. reflexivity.
    + intros s k _. unfold tile_term, grad_gamma_term. rewrite Hi. cbn [andb].
      replace (W + (ro * 33 + co + k)) with (A + k) by lia.
      destruct (i2o + k <? n2); reflexivity.
  - rewrite (fold_left_ext_in _
               (fun b k => upd b (A + k)
                             (tile_term g db xb ib i1_end n2 (i1b + ro) (i2o + k)))).
    + rewrite fold_upd_cells. reflexivity.
    + intros s k _. unfold tile_term. rewrite Hi. cbn [andb].
      replace (W + (ro * 33 + co + k)) with (A + k) by lia. reflexivity.
Qed.

Lemma cuLoadAddStridedInputs_cell (i1b : nat) (buf : smem) (a : nat) :
  cuLoadAddStridedInputs E bd i1b ro co i2o 33 0 W g (Some xb) (Some db)
                         i1_end n2 mean (Some ib) true buf a
  = if (A <=? a) && (a <? A + 4)
    then (buf a + tile_term g db xb ib i1_end n2 (i1b + ro) (i2o + (a - A)))%Qc
    else buf a.
Proof.
  unfold cuLoadAddStridedInputs. cbv zeta. rewrite bd_y. cbn [negb].
  destruct (i1b + ro <? i1_end) eqn:Hi.
  - rewrite (fold_left_ext_in _
               (fun b k => if i2o + k <? n2
                           then upd b (A + k)
                                  (b (A + k)%nat
                                   + grad_gamma_term g db xb ib n2 (i2o + k)
                                                     (i1b + ro))%Qc
                           else b)).
    + rewrite (fold_add_cells A 4 (fun k => i2o + k <? n2)
                 (fun k => grad_gamma_term g db xb ib n2 (i2o + k) (i1b + ro))).
      unfold tile_term. rewrite Hi. cbn [andb]. reflexivity.
    + intros s k _. unfold grad_gamma_term.
      replace (W + (ro * 33 + co + k)) with (A + k) by lia. reflexivity.
  - unfold tile_term. rewrite Hi. cbn [andb].
    destruct ((A <=? a) && (a <? A + 4)); [ring|reflexivity].
Qed.

Lemma load_add_fold (L : list nat) :
  forall (buf : smem) (a : nat),
  fold_left
    (fun buf i1_block =>
       cuLoadAddStridedInputs E bd i1_block ro co i2o 33 0 W g (Some xb) (Some db)
                              i1_end n2 mean (Some ib) true buf)
    L buf a
  = if (A <=? a) && (a <? A + 4)
    then (buf a
          + sum_over (fun blk => tile_term g db xb ib i1_end n2 (blk + ro)
                                           (i2o + (a - A))) L)%Qc
    else buf a.
Proof.
  induction L as [|blk L IH]; intros buf a; cbn [fold_left].
  - cbn [sum_over fold_right].
    destruct ((A <=? a) && (a <? A + 4)); [ring|reflexivity].
  - rewrite IH, cuLoadAddStridedInputs_cell.
    destruct ((A <=? a) && (a <? A + 4)); [|reflexivity].
    rewrite sum_over_cons. ring.
Qed.

End StridedLoads.

Section Tiles.
Variable rsqrt_fn : Qc -> Qc.
Local Abbreviation E := (exactQ rsqrt_fn).
Variable bd : dim3.
Hypothesis bd_x : dim_x bd = 32.
Hypothesis bd_y : dim_y bd = 4.
Variables (g : @gmem Qc) (db xb ib : nat) (mean : ptr).
Variables (bxi i1_beg i1_end n1 n2 : nat).

(** The tile blocks after the first: i1_beg + 16, i1_beg + 32, ... *)
Local Abbreviation blocks :=
  (fst (loop_while n1 (fun b => b <? i1_end) (fun b => b + 4 * 4) (i1_beg + 4 * 4))).

(** What the loads accumulate in the cell (r, c) of the tile. *)
Local Abbreviation tile_sum r i2 :=
  (tile_term g db xb ib i1_end n2 (i1_beg + r) i2
   + sum_over (fun blk => tile_term g db xb ib i1_end n2 (blk + r) i2) blocks)%Qc.

Lemma load_thread_cell (tx ty : nat) (buf : smem) (a : nat) :
  cuComputePartGradGammaBeta_load E bd bxi i1_beg i1_end g (Some db) (Some xb)
    n1 n2 mean (Some ib) true tx ty buf a
  = if (528 + ((tx * 4 / 32 + ty * 4) * 33 + (tx * 4) mod 32) <=? a)
       && (a <? 528 + ((tx * 4 / 32 + ty * 4) * 33 + (tx * 4) mod 32) + 4)
    then tile_sum (tx * 4 / 32 + ty * 4)
           (bxi * 32 + (tx * 4) mod 32
            + (a - (528 + ((tx * 4 / 32 + ty * 4) * 33 + (tx * 4) mod 32))))
    else buf a.
Proof.
  unfold cuComputePartGradGammaBeta_load. cbv zeta. rewrite !bd_x, !bd_y.
  change (32 + 1) with 33. change (32 - 1) with 31.
  change (0 + 4 * 4 * 33) with 528. rewrite land_31.
  rewrite (load_add_fold rsqrt_fn bd bd_y g db xb ib mean i1_end n2).
  rewrite (cuLoadWriteStridedInputs_cell rsqrt_fn bd bd_y g db xb ib mean i1_end n2).
  destruct (_ && _); reflexivity.
Qed.

(** After the loads of all threads, every cell of the tile [warp_buf2]
    holds its sum, whatever the shared memory held on entry. *)
Lemma load_phase_cell (buf : smem) (r c : nat) :
  r < 16 -> c < 32 ->
  foreach_thread bd
    (cuComputePartGradGammaBeta_load E bd bxi i1_beg i1_end g (Some db) (Some xb)
       n1 n2 mean (Some ib) true)
    buf (528 + (r * 33 + c))
  = tile_sum r (bxi * 32 + c).
Proof.
  intros Hr Hc.
  apply (foreach_thread_cell bd _ _ _ (8 * (r mod 4) + c / 4) (r / 4));
    rewrite ?bd_x, ?bd_y; try dlia.
  - intros tx ty b Hx Hy Hb. rewrite load_thread_cell.
    destruct (_ && _) eqn:C; [|exact Hb].
    apply andb_true_iff in C. destruct C as [C1 C2].
    apply Nat.leb_le in C1. apply Nat.ltb_lt in C2.
    assert (R : tx * 4 / 32 + ty * 4 = r) by dlia.
    assert (Cc : (tx * 4) mod 32
                 + (528 + (r * 33 + c)
                    - (528 + ((tx * 4 / 32 + ty * 4) * 33 + (tx * 4) mod 32))) = c)
      by dlia.
    rewrite R in *. rewrite <- Nat.add_assoc, Cc. reflexivity.
  - intros b. rewrite load_thread_cell.
    assert (R : (8 * (r mod 4) + c / 4) * 4 / 32 + r / 4 * 4 = r) by dlia.
    assert (Cc : ((8 * (r mod 4) + c / 4) * 4) mod 32
                 + (528 + (r * 33 + c)
                    - (528 + (r * 33 + ((8 * (r mod 4) + c / 4) * 4) mod 32))) = c)
      by dlia.
    rewrite R.
    assert (C : (528 + (r * 33 + ((8 * (r mod 4) + c / 4) * 4) mod 32)
                 <=? 528 + (r * 33 + c))
                && (528 + (r * 33 + c)
                    <? 528 + (r * 33 + ((8 * (r mod 4) + c / 4) * 4) mod 32) + 4)
                = true).
    { apply andb_true_iff. split; [apply Nat.leb_le|apply Nat.ltb_lt]; dlia. }
    rewrite C, <- Nat.add_assoc, Cc. reflexivity.
Qed.

End Tiles.

(** A phase in which one thread owns a set of cells: no other thread writes
    them, and what the owner leaves there depends on those cells only. *)
Lemma foreach_thread_owner {num : Type} (bd : dim3)
  (f : nat -> nat -> @smem num -> @smem num) (O : nat -> Prop)
  (tx0 ty0 : nat) (s : smem) :
  tx0 < dim_x bd -> ty0 < dim_y bd ->
  (forall tx ty s c, tx < dim_x bd -> ty < dim_y bd -> (tx, ty) <> (tx0, ty0) ->
                     O c -> f tx ty s c = s c) ->
  (forall s s', (forall c, O c -> s c = s' c) ->
                forall c, O c -> f tx0 ty0 s c = f tx0 ty0 s' c) ->
  forall c, O c -> foreach_thread bd f s c = f tx0 ty0 s c.
Proof.
  intros Hx Hy Hother Hown c Oc. unfold foreach_thread.
  apply (fold_left_owner (fun (s : @smem num) c => s c)
           (fun s t => f (fst t) (snd t) s) O (coords bd) (tx0, ty0) s).
  - apply NoDup_coords.
  - apply in_coords. tauto.
  - intros s' [tx ty] c' Hin Hne Oc'. apply in_coords in Hin. cbn [fst snd].
    apply Hother; tauto.
  - intros s1 s2 H c' Oc'. cbn [fst snd]. now apply Hown.
  - exact Oc.
Qed.

Section Reductions.
Variable rsqrt_fn : Qc -> Qc.
Local Abbreviation E := (exactQ rsqrt_fn).
Variable bd : dim3.
Hypothesis bd_x : dim_x bd = 32.
Hypothesis bd_y : dim_y bd = 4.

Lemma warp_thread (tx ty : nat) (s : smem) :
  cuComputePartGradGammaBeta_warp E bd true tx ty s
  = upd s (528 + (ty * 33 + tx))
      (s (528 + (ty * 33 + tx))%nat + s (528 + ((ty + 4) * 33 + tx))%nat
       + s (528 + ((ty + 8) * 33 + tx))%nat
       + s (528 + ((ty + 12) * 33 + tx))%nat)%Qc.
Proof.
  unfold cuComputePartGradGammaBeta_warp. cbv zeta. rewrite !bd_x, !bd_y.
  change (32 + 1) with 33. change (0 + 4 * 4 * 33) with 528.
  cbn [negb seq fold_left fst snd n_zero n_add exactQ].
  change (0 * 4) with 0. change (1 * 4) with 4. change (2 * 4) with 8.
  change (3 * 4) with 12. rewrite Nat.add_0_r.
  f_equal. ring.
Qed.

Lemma fold_thread (o tx ty : nat) (s : smem) :
  cuComputePartGradGammaBeta_fold E bd true o tx ty s
  = if ty <? o
    then upd s (528 + (ty * 33 + tx))
           (s (528 + (ty * 33 + tx))%nat + s (528 + ((ty + o) * 33 + tx))%nat)%Qc
    else s.
Proof.
  unfold cuComputePartGradGammaBeta_fold. cbv zeta. rewrite !bd_x, !bd_y.
  change (32 + 1) with 33. change (0 + 4 * 4 * 33) with 528.
  reflexivity.
Qed.

(** "sum within each warp": row ty of the tile receives the sum of the rows
    ty, ty + 4, ty + 8, ty + 12. *)
Lemma warp_phase_cell (s : smem) (tx ty : nat) :
  tx < 32 -> ty < 4 ->
  foreach_thread bd (cuComputePartGradGammaBeta_warp E bd true) s
    (528 + (ty * 33 + tx))
  = (s (528 + (ty * 33 + tx))%nat + s (528 + ((ty + 4) * 33 + tx))%nat
     + s (528 + ((ty + 8) * 33 + tx))%nat
     + s (528 + ((ty + 12) * 33 + tx))%nat)%Qc.
Proof.
  intros Hx Hy.
  rewrite (foreach_thread_owner bd _
             (fun c => c = 528 + (ty * 33 + tx) \/ c = 528 + ((ty + 4) * 33 + tx)
                       \/ c = 528 + ((ty + 8) * 33 + tx)
                       \/ c = 528 + ((ty + 12) * 33 + tx)) tx ty);
    rewrite ?bd_x, ?bd_y; try assumption.
  - rewrite warp_thread. unfold upd. rewrite Nat.eqb_refl. reflexivity.
  - intros tx' ty' s' c Hx' Hy' Hne Oc. rewrite warp_thread. unfold upd.
    destruct (Nat.eqb_spec c (528 + (ty' * 33 + tx'))) as [->|]; [|reflexivity].
    exfalso. apply Hne. assert (tx' = tx /\ ty' = ty) as [-> ->] by lia.
    reflexivity.
  - intros s1 s2 H c Oc. rewrite !warp_thread. unfold upd.
    destruct (Nat.eqb_spec c (528 + (ty * 33 + tx))) as [->|]; [|now apply H].
    rewrite !H by tauto. reflexivity.
  - left. reflexivity.
Qed.

(** One trip of "sum all warps": row ty < offset receives row ty + offset. *)
Lemma fold_phase_cell (o : nat) (s : smem) (tx ty : nat) :
  tx < 32 -> ty < o -> 2 * o <= 4 ->
  foreach_thread bd (cuComputePartGradGammaBeta_fold E bd true o) s
    (528 + (ty * 33 + tx))
  = (s (528 + (ty * 33 + tx))%nat + s (528 + ((ty + o) * 33 + tx))%nat)%Qc.
Proof.
  intros Hx Hy Ho.
  rewrite (foreach_thread_owner bd _
             (fun c => c = 528 + (ty * 33 + tx) \/ c = 528 + ((ty + o) * 33 + tx))
             tx ty);
    rewrite ?bd_x, ?bd_y; try assumption; try lia.
  - rewrite fold_thread. apply Nat.ltb_lt in Hy. rewrite Hy.
    unfold upd. rewrite Nat.eqb_refl. reflexivity.
  - intros tx' ty' s' c Hx' Hy' Hne Oc. rewrite fold_thread.
    destruct (Nat.ltb_spec ty' o) as [Hlt|]; [|reflexivity]. unfold upd.
    destruct (Nat.eqb_spec c (528 + (ty' * 33 + tx'))) as [->|]; [|reflexivity].
    exfalso. apply Hne. assert (tx' = tx /\ ty' = ty) as [-> ->] by lia.
    reflexivity.
  - intros s1 s2 H c Oc. rewrite !fold_thread.
    apply Nat.ltb_lt in Hy. rewrite Hy. unfold upd.
    destruct (Nat.eqb_spec c (528 + (ty * 33 + tx))) as [->|]; [|now apply H].
    rewrite !H by tauto. reflexivity.
Qed.

End Reductions.

Lemma sum_over_map (f : nat -> Qc) (h : nat -> nat) (l : list nat) :
  sum_over f (map h l) = sum_over (fun j => f (h j)) l.
Proof.
  induction l as [|a l IH]; [reflexivity|].
  cbn [map]. rewrite !sum_over_cons, IH. reflexivity.
Qed.

Lemma sum_upto_first (f : nat -> Qc) (n : nat) :
  sum_upto f (Datatypes.S n)
  = (f 0%nat + sum_upto (fun j => f (Datatypes.S j)) n)%Qc.
Proof.
  induction n as [|n IH]; [simpl; ring|].
  cbn [sum_upto] in *. rewrite IH. ring.
Qed.

(** The 16 rows of the tile, each with its loads from every tile block,
    hold the terms of the rows i1_beg <= i1 < i1_end. *)
Lemma tile_rows_sum (g : @gmem Qc) (db xb ib i1_beg i1_end n1 n2 i2 : nat) :
  i2 < n2 -> i1_end <= n1 ->
  sum_upto
    (fun r =>
       Qcplus (tile_term g db xb ib i1_end n2 (i1_beg + r) i2)
         (sum_over (fun blk => tile_term g db xb ib i1_end n2 (blk + r) i2)
            (fst (loop_while n1 (fun b => b <? i1_end) (fun b => b + 4 * 4)
                             (i1_beg + 4 * 4))))) 16
  = sum_over (grad_gamma_term g db xb ib n2 i2) (seq i1_beg (i1_end - i1_beg)).
Proof.
  intros Hi2 Hend.
  assert (H : exists t,
    loop_while n1 (fun b => b <? i1_end) (fun b => b + 4 * 4) (i1_beg + 4 * 4) =
      (map (fun j => i1_beg + 4 * 4 + j * 16) (seq 0 t), i1_beg + 4 * 4 + t * 16) /\
    (forall j, j < t -> i1_beg + 4 * 4 + j * 16 + 0 < i1_end) /\
    i1_end <= i1_beg + 4 * 4 + t * 16 + 0).
  { apply loop_up; try lia; intros l; rewrite ?Nat.add_0_r; reflexivity. }
  destruct H as (t & EL & _ & Hex). rewrite EL. cbn [fst].
  set (W := fun i => tile_term g db xb ib i1_end n2 (i1_beg + i) i2).
  transitivity (sum_upto (fun r => sum_upto (fun j => W (j * 16 + r)%nat)
                                            (Datatypes.S t)) 16).
  { apply sum_upto_ext. intros r _.
    rewrite sum_upto_first, sum_over_map, sum_over_seq. unfold W. f_equal.
    apply sum_upto_ext. intros j _. f_equal. lia. }
  rewrite sum_upto_cols.
  rewrite (sum_upto_zero_tail W (i1_end - i1_beg)).
  - rewrite sum_over_interval. apply sum_upto_ext. intros i Hi.
    unfold W, tile_term.
    assert (C : (i1_beg + i <? i1_end) && (i2 <? n2) = true).
    { apply andb_true_iff. split; apply Nat.ltb_lt; lia. }
    rewrite C. reflexivity.
  - lia.
  - intros i Hi. unfold W, tile_term.
    assert (C : (i1_beg + i <? i1_end) = false) by (apply Nat.ltb_ge; lia).
    rewrite C. reflexivity.
Qed.

Section TileSums.
Variable rsqrt_fn : Qc -> Qc.
Local Abbreviation E := (exactQ rsqrt_fn).
Variable bd : dim3.
Hypothesis bd_x : dim_x bd = 32.
Hypothesis bd_y : dim_y bd = 4.

(** The partial sum that thread (tx, 0) of block (bxi, byi) stores: the two
    cells that the reductions leave in rows 0 and 1 of the tile add up to
    the terms of the rows of the block, whatever the shared memory held. *)
Lemma tiles_column_sum (gd : dim3) (bxi byi db xb ib : nat) (mean : ptr)
  (n1 n2 : nat) (g : gmem) (buf : smem) (tx : nat) :
  tx < 32 -> bxi * 32 + tx < n2 ->
  let buf3 := cuComputePartGradGammaBeta_tiles E bd gd bxi byi (Some db)
                (Some xb) n1 n2 mean (Some ib) true g buf in
  (buf3 (528 + (0 * 33 + tx))%nat + buf3 (528 + ((0 + 1) * 33 + tx))%nat)%Qc
  = sum_over (grad_gamma_term g db xb ib n2 (bxi * 32 + tx))
             (part_rows 4 (dim_y gd) n1 byi).
Proof.
  intros Htx Hi2. cbv zeta. unfold cuComputePartGradGammaBeta_tiles, part_rows.
  cbv zeta. rewrite !bd_y.
  change (fst (loop_while 4 (fun o => 1 <? o) (fun o => o / 2) (4 / 2)))
    with [2].
  cbn [fold_left].
  set (i1_beg := byi * (((n1 + 4 * 4 - 1) / (4 * 4) + dim_y gd - 1) / dim_y gd)
                 * 4 * 4).
  set (i1_bpo := (byi + 1) * (((n1 + 4 * 4 - 1) / (4 * 4) + dim_y gd - 1) / dim_y gd)
                 * 4 * 4).
  set (i1_end := if i1_bpo <? n1 then i1_bpo else n1).
  assert (Hend : i1_end <= n1).
  { unfold i1_end. destruct (Nat.ltb_spec i1_bpo n1); lia. }
  rewrite <- (tile_rows_sum g db xb ib i1_beg i1_end n1 n2 (bxi * 32 + tx) Hi2 Hend).
  rewrite !(fold_phase_cell rsqrt_fn bd bd_x bd_y) by lia.
  rewrite !(warp_phase_cell rsqrt_fn bd bd_x bd_y) by lia.
  rewrite !(load_phase_cell rsqrt_fn bd bd_x bd_y) by lia.
  cbn [sum_upto Nat.add]. rewrite !Nat.add_0_r. ring.
Qed.

End TileSums.

Section PartGradKernel.
Variable rsqrt_fn : Qc -> Qc.
Local Abbreviation E := (exactQ rsqrt_fn).
Variable bd : dim3.
Hypothesis bd_x : dim_x bd = 32.
Hypothesis bd_y : dim_y bd = 4.
Variables (gd : dim3) (db xb ib pb : nat) (mean pgb : ptr) (eps : Qc).
Variables (n1 n2 : nat).

(** What block (bxi, byi) of cuComputePartGradGammaBeta stores in RMS-only
    mode, whatever the shared memory held on entry. *)
Lemma part_grad_block (bxi byi : nat) (g : gmem) (buf : smem) :
  let g' := fst (cuComputePartGradGammaBeta E bd gd bxi byi (Some db) (Some xb)
                   n1 n2 mean (Some ib) eps (Some pb) pgb true (g, buf)) in
  (forall b, b <> pb -> g' b = g b) /\
  (forall j, g' pb j =
     if (byi * n2 + bxi * 32 <=? j) && (j <? byi * n2 + bxi * 32 + 32)
        && (j - byi * n2 <? n2)
     then sum_over (grad_gamma_term g db xb ib n2 (j - byi * n2))
                   (part_rows 4 (dim_y gd) n1 byi)
     else g pb j).
Proof.
  cbv zeta. unfold cuComputePartGradGammaBeta. cbv zeta.
  rewrite !bd_x, !bd_y. cbn [negb fst snd].
  change (32 + 1) with 33. change (0 + 4 * 4 * 33) with 528.
  set (buf3 := cuComputePartGradGammaBeta_tiles E bd gd bxi byi (Some db)
                 (Some xb) n1 n2 mean (Some ib) true g buf).
  assert (V : forall tx, tx < 32 -> bxi * 32 + tx < n2 ->
            (buf3 (528 + (0 * 33 + tx))%nat
             + buf3 (528 + ((0 + 1) * 33 + tx))%nat)%Qc
            = sum_over (grad_gamma_term g db xb ib n2 (bxi * 32 + tx))
                       (part_rows 4 (dim_y gd) n1 byi)).
  { intros tx H1 H2.
    apply (tiles_column_sum rsqrt_fn bd bd_x bd_y gd bxi byi db xb ib mean n1 n2
             g buf tx H1 H2). }
  clearbody buf3.
  split.
  - intros b Hb.
    apply (foreach_thread_inv bd _ (fun s : gmem => s b = g b)); [|reflexivity].
    intros tx ty s _ _ Hs.
    destruct ((ty =? 0) && (bxi * 32 + tx <? n2)); [|exact Hs].
    rewrite store_other_buffer by exact Hb. exact Hs.
  - intros j.
    destruct ((byi * n2 + bxi * 32 <=? j) && (j <? byi * n2 + bxi * 32 + 32)
              && (j - byi * n2 <? n2)) eqn:Hj.
    + apply andb_true_iff in Hj. destruct Hj as [Hj Hj3].
      apply andb_true_iff in Hj. destruct Hj as [Hj1 Hj2].
      apply Nat.leb_le in Hj1. apply Nat.ltb_lt in Hj2. apply Nat.ltb_lt in Hj3.
      assert (Ej : j - byi * n2 = bxi * 32 + (j - byi * n2 - bxi * 32)) by lia.
      rewrite Ej at 1.
      rewrite <- V by lia.
      apply (foreach_thread_establish bd _ (fun _ => True)
               (fun s : gmem => s pb j =
                  (buf3 (528 + (0 * 33 + (j - byi * n2 - bxi * 32)))%nat
                   + buf3 (528 + ((0 + 1) * 33 + (j - byi * n2 - bxi * 32)))%nat)%Qc)
               (j - byi * n2 - bxi * 32) 0);
        rewrite ?bd_x, ?bd_y; try lia; auto.
      * intros tx ty s Htx Hty _ Hs.
        destruct (Nat.eqb_spec ty 0) as [->|H2]; [|exact Hs].
        destruct (Nat.ltb_spec (bxi * 32 + tx) n2) as [H1|H1]; [|exact Hs].
        cbn [andb]. rewrite store_cell.
        destruct (Nat.eqb_spec j (byi * n2 + (bxi * 32 + tx))) as [->|Hne];
          [|exact Hs].
        replace (byi * n2 + (bxi * 32 + tx) - byi * n2 - bxi * 32) with tx by lia.
        reflexivity.
      * intros s _. cbn [Nat.eqb andb].
        assert (C : (bxi * 32 + (j - byi * n2 - bxi * 32) <? n2) = true)
          by (apply Nat.ltb_lt; lia).
        rewrite C.
        replace (byi * n2 + (bxi * 32 + (j - byi * n2 - bxi * 32))) with j by lia.
        rewrite store_same. reflexivity.
    + apply (foreach_thread_inv bd _ (fun s : gmem => s pb j = g pb j));
        [|reflexivity].
      intros tx ty s Htx Hty Hs. rewrite bd_x in Htx.
      destruct (Nat.eqb_spec ty 0) as [->|H2]; [|exact Hs].
      destruct (Nat.ltb_spec (bxi * 32 + tx) n2) as [H1|H1]; [|exact Hs].
      cbn [andb]. rewrite store_cell.
      destruct (Nat.eqb_spec j (byi * n2 + (bxi * 32 + tx))) as [->|Hne];
        [|exact Hs].
      exfalso. apply andb_false_iff in Hj. destruct Hj as [Hj|Hj].
      * apply andb_false_iff in Hj. destruct Hj as [Hj|Hj].
        -- apply Nat.leb_gt in Hj. lia.
        -- apply Nat.ltb_ge in Hj. lia.
      * apply Nat.ltb_ge in Hj. lia.
Qed.

Hypothesis db_pb : db <> pb.
Hypothesis xb_pb : xb <> pb.
Hypothesis ib_pb : ib <> pb.

(** cuComputePartGradGammaBeta in RMS-only mode on the grid [gd] of blocks
    of 32 x 4 threads: part_grad_gamma[p, i2] receives the terms of the rows
    of block row p; nothing else changes. *)
Lemma part_grad_kernel (junk : nat -> nat -> smem) (g : gmem) :
  let g' := launch_grid gd junk
              (fun x y => cuComputePartGradGammaBeta E bd gd x y (Some db)
                            (Some xb) n1 n2 mean (Some ib) eps (Some pb) pgb true)
              g in
  (forall b, b <> pb -> g' b = g b) /\
  (forall p i2, p < dim_y gd -> i2 < n2 -> i2 < dim_x gd * 32 ->
     g' pb (p * n2 + i2) =
     sum_over (grad_gamma_term g db xb ib n2 i2) (part_rows 4 (dim_y gd) n1 p)).
Proof.
  cbv zeta.
  set (blk := fun (x y : nat) => cuComputePartGradGammaBeta E bd gd x y (Some db)
                                   (Some xb) n1 n2 mean (Some ib) eps (Some pb)
                                   pgb true).
  set (TB := fun b => b = pb).
  set (tgt := fun (x y b j : nat) =>
         (y * n2 + x * 32 <=? j) && (j <? y * n2 + x * 32 + 32)
         && (j - y * n2 <? n2)).
  set (val := fun (g : @gmem Qc) (b j : nat) =>
         sum_over (grad_gamma_term g db xb ib n2 (j mod n2))
                  (part_rows 4 (dim_y gd) n1 (j / n2))).
  assert (BF : forall x y g buf b, x < dim_x gd -> y < dim_y gd -> ~ TB b ->
            fst (blk x y (g, buf)) b = g b).
  { intros x y g0 buf b _ _ Hb. unfold blk.
    destruct (part_grad_block x y g0 buf) as (F & _). apply F. exact Hb. }
  assert (BC : forall x y g buf b j, x < dim_x gd -> y < dim_y gd -> TB b ->
            fst (blk x y (g, buf)) b j = if tgt x y b j then val g b j else g b j).
  { intros x y g0 buf b j _ _ Hb. unfold blk, tgt, val. unfold TB in Hb. subst b.
    destruct (part_grad_block x y g0 buf) as (_ & V). rewrite V.
    destruct ((y * n2 + x * 32 <=? j) && (j <? y * n2 + x * 32 + 32)
              && (j - y * n2 <? n2)) eqn:C; [|reflexivity].
    apply andb_true_iff in C. destruct C as [C C3].
    apply andb_true_iff in C. destruct C as [C1 C2].
    apply Nat.leb_le in C1. apply Nat.ltb_lt in C2. apply Nat.ltb_lt in C3.
    destruct (row_cell_index y n2 j) as [-> ->]; try lia. reflexivity. }
  assert (VS : forall g g' : @gmem Qc, (forall b, ~ TB b -> g' b = g b) ->
            forall b j, val g' b j = val g b j).
  { intros g0 g' H b j. unfold val. apply sum_over_ext. intros i1 _.
    unfold grad_gamma_term. rewrite (H db), (H xb), (H ib); auto. }
  split.
  - intros b Hb. apply (grid_frame blk gd TB junk BF). exact Hb.
  - intros p i2 Hp Hi2 Hx.
    rewrite (grid_cell_hit blk gd TB tgt val junk BF BC VS g (i2 / 32) p pb
               (p * n2 + i2)); try reflexivity; try assumption.
    + unfold val. destruct (row_cell_index p n2 (p * n2 + i2)) as [-> ->];
        try lia.
      replace (p * n2 + i2 - p * n2) with i2 by lia. reflexivity.
    + dlia.
    + unfold tgt. apply andb_true_iff. split; [apply andb_true_iff; split|].
      * apply Nat.leb_le. dlia.
      * apply Nat.ltb_lt. dlia.
      * apply Nat.ltb_lt. lia.
Qed.

End PartGradKernel.

(** * The rows of the block rows partition the rows of the matrix *)

Lemma sum_upto_telescope (G : nat -> Qc) (n : nat) :
  sum_upto (fun p => G (Datatypes.S p) - G p)%Qc n = (G n - G 0%nat)%Qc.
Proof.
  induction n as [|n IH]; cbn [sum_upto]; [ring|]. rewrite IH. ring.
Qed.

Lemma ceil_div_cover (q ps : nat) : 0 < ps -> q <= ps * ((q + ps - 1) / ps).
Proof.
  intros H. pose proof (Nat.div_mod_eq (q + ps - 1) ps) as D.
  pose proof (Nat.mod_upper_bound (q + ps - 1) ps ltac:(lia)). lia.
Qed.

Lemma part_rows_sum (f : nat -> Qc) (ps n1 : nat) :
  0 < ps ->
  sum_upto (fun p => sum_over f (part_rows 4 ps n1 p)) ps = sum_upto f n1.
Proof.
  intros Hps.
  set (S := ((n1 + 4 * 4 - 1) / (4 * 4) + ps - 1) / ps).
  set (G := fun p => sum_upto f (Nat.min (p * S * 4 * 4) n1)).
  transitivity (sum_upto (fun p => G (Datatypes.S p) - G p)%Qc ps).
  - apply sum_upto_ext. intros p _. unfold part_rows. cbv zeta. fold S.
    unfold G. replace (Datatypes.S p) with (p + 1) by lia.
    set (a := p * S * 4 * 4). set (b := (p + 1) * S * 4 * 4).
    assert (Hab : a <= b) by (unfold a, b; nia).
    destruct (Nat.ltb_spec b n1) as [Hb|Hb].
    + rewrite !Nat.min_l by lia. apply sum_over_interval_diff. exact Hab.
    + rewrite (Nat.min_r b n1) by lia.
      destruct (Nat.le_gt_cases a n1) as [Ha|Ha].
      * rewrite Nat.min_l by lia. apply sum_over_interval_diff. exact Ha.
      * rewrite Nat.min_r by lia.
        replace (n1 - a) with 0 by lia. cbn [seq sum_over fold_right]. ring.
  - rewrite sum_upto_telescope. unfold G. cbn [Nat.mul Nat.min sum_upto].
    rewrite Nat.min_r; [ring|].
    pose proof (ceil_div_cover ((n1 + 4 * 4 - 1) / (4 * 4)) ps Hps) as C.
    fold S in C.
    pose proof (Nat.div_mod_eq (n1 + 4 * 4 - 1) (4 * 4)) as D.
    pose proof (Nat.mod_upper_bound (n1 + 4 * 4 - 1) (4 * 4) ltac:(lia)).
    set (q := (n1 + 4 * 4 - 1) / (4 * 4)) in *.
    set (m := (n1 + 4 * 4 - 1) mod (4 * 4)) in *. clearbody q m.
    assert (16 * q <= 16 * (ps * S)) by lia. lia.
Qed.

(** * The backward entry point: the gradient of gamma *)

Section BackwardEntry.
Context {num : Type}.
Variable arith : ctype -> ctype -> ctype -> Numerics num.
Variable maxGridY : nat.

Lemma rms_backward_dispatch (bufs : nat -> ptr) (d : RMSNormDescriptor num) :
  supported (d_x_type d) = true -> supported (d_w_type d) = true ->
  exists T U V,
    rms_backward_affine arith maxGridY bufs d =
    HostRMSNormGradient arith maxGridY T U V (bufs 0) (bufs 1) (bufs 2)
      (d_n1 d) (d_n2 d) (bufs 3) (d_eps d) (bufs 4) (bufs 5)
      (d_part_grad_size d) (bufs 6).
Proof.
  unfold rms_backward_affine,
         DISPATCH_DOUBLE_FLOAT_HALF_AND_BFLOAT_INOUT_TYPES.
  destruct (d_x_type d), (d_w_type d); cbn [supported]; intros Hx Hw;
    try discriminate; do 3 eexists; reflexivity.
Qed.

End BackwardEntry.

Section BackwardExact.
Variable rsqrt_fn : Qc -> Qc.
Local Abbreviation E := (exactQ rsqrt_fn).
Local Abbreviation arithE := (fun _ _ _ : ctype => exactQ rsqrt_fn).

(** The three kernels of HostRMSNormGradient, for any part_size: the final
    reduction adds the partial rows 0 .. 8 * (part_size / 8) - 1. *)
Lemma backward_grad_gamma (G : nat) (jk1 jk2 jk3 : nat -> nat -> smem)
  (db ib xb gb gib ggb pgb n1 n2 : nat) (eps : Qc) (ps : nat) (g : gmem)
  (i2 : nat) :
  0 < G -> i2 < n2 ->
  db <> pgb -> xb <> pgb -> ib <> pgb -> pgb <> ggb -> ggb <> gib ->
  db <> gib -> xb <> gib -> ib <> gib -> gb <> gib ->
  launch_grid (Dim3 1 G 1) jk3
    (fun _ blockIdx_y =>
       cuComputeGradInput E (Dim3 32 4 1) (Dim3 1 G 1) blockIdx_y
         (Some db) (Some xb) n1 n2 (Some ib) (Some ib) eps
         (Some gb) (Some gib) true)
    (launch_grid (Dim3 ((n2 + 32 - 1) / 32) 1 1) jk2
       (fun blockIdx_x _ =>
          cuComputeGradGammaBeta E (Dim3 32 8 1) blockIdx_x (Some pgb) (Some pgb)
            ps n1 n2 (Some ggb) (Some ggb) true)
       (launch_grid (Dim3 ((n2 + 32 - 1) / 32) ps 1) jk1
          (fun blockIdx_x blockIdx_y =>
             cuComputePartGradGammaBeta E (Dim3 32 4 1)
               (Dim3 ((n2 + 32 - 1) / 32) ps 1) blockIdx_x blockIdx_y
               (Some db) (Some xb) n1 n2 (Some ib) (Some ib) eps
               (Some pgb) (Some pgb) true)
          g))
    ggb i2
  = sum_upto (fun p => sum_over (grad_gamma_term g db xb ib n2 i2)
                                (part_rows 4 ps n1 p))
             (8 * (ps / 8)).
Proof.
  intros HG Hi2 D1 D2 D3 D4 D5 D6 D7 D8 D9.
  destruct (part_grad_kernel rsqrt_fn (Dim3 32 4 1) eq_refl eq_refl
              (Dim3 ((n2 + 32 - 1) / 32) ps 1) db xb ib pgb (Some ib) (Some pgb)
              eps n1 n2 D1 D2 D3 jk1 g) as (_ & C1).
  set (g1 := launch_grid (Dim3 ((n2 + 32 - 1) / 32) ps 1) jk1 _ g) in *.
  destruct (grad_gamma_kernel E 8 1 pgb ggb (Some pgb) (Some ggb) ps n1 n2
              (Dim3 ((n2 + 32 - 1) / 32) 1 1) jk2 ltac:(lia) D4 g1)
    as (_ & C2 & _).
  set (g2 := launch_grid (Dim3 ((n2 + 32 - 1) / 32) 1 1) jk2 _ g1) in *.
  destruct (grad_input_kernel E 4 1 gib (Some db) (Some xb) (Some ib) (Some ib)
              (Some gb) n1 n2 eps true G 1 jk3 ltac:(lia) D6 D7 D8 D8 D9 HG g2)
    as (F3 & _).
  rewrite (F3 ggb D5).
  cbn [dim_x dim_y] in C1, C2.
  rewrite (C2 i2 Hi2) by dlia.
  cbn [n_U2V exactQ].
  rewrite grad_gamma_sum_exact by dlia.
  apply sum_upto_ext. intros p Hp.
  replace (i2 / 32 * 32 + i2 mod 32) with i2 by dlia.
  apply C1; dlia.
Qed.

End BackwardExact.

Section TwoStage.
Variable rsqrt_fn : Qc -> Qc.
Local Abbreviation E := (exactQ rsqrt_fn).
Local Abbreviation arithE := (fun _ _ _ : ctype => exactQ rsqrt_fn).


End TwoStage.



(** * Further properties of the accumulators *)

Lemma fold_left_nth {S X : Type} (f : S -> X -> S) (d : X) (xs : list X) (s : S) :
  fold_left f xs s
  = fold_left (fun s i => f s (nth i xs d)) (seq 0 (length xs)) s.
Proof.
  induction xs as [|x l IH] using rev_ind; [reflexivity|].
  rewrite length_app, Nat.add_1_r, seq_S, !fold_left_app. cbn [fold_left Nat.add].
  rewrite nth_middle. f_equal. rewrite IH.
  apply fold_left_ext_in. intros s' i Hi. apply in_seq in Hi.
  rewrite app_nth1 by lia. reflexivity.
Qed.

Section Streams.
Variable rsqrt_fn : Qc -> Qc.
Local Abbreviation E := (exactQ rsqrt_fn).

Lemma welford_stream_summarises (x : nat -> Qc) (n : nat) :
  summarises x false
    (fold_left (fun a i => cuWelfordOnlineSum E (x i) a) (seq 0 n)
               (Moments 0%Qc 0%Qc 0%Qc))
    (seq 0 n).
Proof.
  induction n as [|n IH].
  - apply summarises_init.
  - rewrite seq_S, fold_left_app. cbn [fold_left Nat.add].
    apply (summarises_step rsqrt_fn x false _ (seq 0 n) n IH).
Qed.

(** X1.  Feeding the elements of a non-empty sequence one by one to
    cuWelfordOnlineSum, from the zero accumulator, leaves (exact arithmetic)
    count = their number, mu = their mean and sigma2 = the sum of their
    squared deviations from the mean. *)
Theorem cuWelfordOnlineSum_stream (xs : list Qc) :
  xs <> [] ->
  let a := fold_left (fun a curr => cuWelfordOnlineSum E curr a) xs
                     (Moments 0%Qc 0%Qc 0%Qc) in
  let n := Qc_of_nat (length xs) in
  let x := fun i => nth i xs 0%Qc in
  let mean := (sum_upto x (length xs) / n)%Qc in
  count a = n /\
  mu a = mean /\
  sigma2 a = sum_upto (fun i => (x i - mean) * (x i - mean))%Qc (length xs).
Proof.
  intros Hne. cbv zeta.
  assert (Hlen : 0 < length xs) by (destruct xs; [congruence|simpl; lia]).
  rewrite (fold_left_nth _ 0%Qc).
  pose proof (welford_stream_summarises (fun i => nth i xs 0%Qc) (length xs)) as H.
  pose proof (Qc_of_nat_neq0 (length xs) Hlen) as NZ.
  destruct (summarises_full_nonempty _ _ _ H) as (M & S).
  { rewrite length_seq. exact Hlen. }
  destruct H as (C & _).
  rewrite length_seq, !sum_over_seq in *.
  split; [exact C|]. split; [exact M|].
  rewrite S, sum_sq_dev. field. exact NZ.
Qed.

(** X2.  An accumulator without elements is neutral for cuChanOnlineSum:
    merging one (count 0, sigma2 0, any mu) into an accumulator A of positive
    count gives A, and merging an accumulator B of positive count into the
    zero accumulator gives B (exact arithmetic). *)
Theorem cuChanOnlineSum_empty (muA sigma2A countA muB : Qc) :
  (0 < countA)%Qc ->
  cuChanOnlineSum E muB 0%Qc 0%Qc (Moments muA sigma2A countA)
  = Moments muA sigma2A countA /\
  cuChanOnlineSum E muA sigma2A countA (Moments 0%Qc 0%Qc 0%Qc)
  = Moments muA sigma2A countA.
Proof.
  intros P. pose proof (Qc_pos_neq0 _ P) as NZ. split.
  - change (cuChanOnlineSum E muB 0%Qc 0%Qc (Moments muA sigma2A countA))
      with (merge_moments E (Moments muA sigma2A countA) (Moments muB 0%Qc 0%Qc)).
    rewrite merge_pos by (rewrite Qcplus_0_r; exact P).
    rewrite !Qcplus_0_r. f_equal; field; exact NZ.
  - change (cuChanOnlineSum E muA sigma2A countA (Moments 0%Qc 0%Qc 0%Qc))
      with (merge_moments E (Moments 0%Qc 0%Qc 0%Qc) (Moments muA sigma2A countA)).
    rewrite merge_pos by (rewrite Qcplus_0_l; exact P).
    rewrite !Qcplus_0_l. f_equal; field; exact NZ.
Qed.

End Streams.

Lemma cuWelfordOnlineSum_stream_witness :
  let a := fold_left (fun a curr => cuWelfordOnlineSum (exactQ rsqrt_on_squares) curr a)
                     [1%Qc; Qc_of_nat 3] (Moments 0%Qc 0%Qc 0%Qc) in
  count a = Qc_of_nat 2 /\ mu a = Qc_of_nat 2 /\ sigma2 a = Qc_of_nat 2.
Proof.
  cbv zeta.
  destruct (cuWelfordOnlineSum_stream rsqrt_on_squares [1%Qc; Qc_of_nat 3])
    as (C & M & S); [discriminate|].
  rewrite C, M, S. repeat split; apply Qc_is_canon; reflexivity.
Defined.

Lemma cuChanOnlineSum_empty_witness :
  cuChanOnlineSum (exactQ rsqrt_on_squares) (Qc_of_nat 5) 0%Qc 0%Qc
                  (Moments 1%Qc (Qc_of_nat 2) (Qc_of_nat 3))
  = Moments 1%Qc (Qc_of_nat 2) (Qc_of_nat 3).
Proof.
  exact (proj1 (cuChanOnlineSum_empty rsqrt_on_squares 1%Qc (Qc_of_nat 2)
                  (Qc_of_nat 3) (Qc_of_nat 5) eq_refl)).
Defined.

(** * Further properties of the moment estimator *)



(** X4.  In RMS-only mode cuWelfordMuSigma2 never assigns mu: every thread
    gets back the initial U(0), for any arithmetic, input and shared
    memory. *)
Theorem cuWelfordMuSigma2_rms_mu {num : Type} (N : Numerics num)
  (half misaligned : bool) (bd : dim3) (g : gmem) (xb n1 n2 i1 : nat)
  (buf : smem) (tx ty : nat) :
  0 < dim_x bd -> i1 < n1 -> tx < dim_x bd -> ty < dim_y bd ->
  fst (fst (cuWelfordMuSigma2 N half misaligned bd g (Some xb) n1 n2 i1 buf true)
           tx ty)
  = n_zero N.
Proof.
  intros Hx Hi H1 H2.
  rewrite (cuWelfordMuSigma2_registers N) by assumption. reflexivity.
Qed.

Lemma cuWelfordMuSigma2_rms_mu_witness :
  fst (fst (cuWelfordMuSigma2 (integerV rsqrt_on_squares) true true (Dim3 32 4 1)
              (fun _ i => Qc_of_nat (i + 1)) (Some 0) 1 4 0
              (fun j => Qc_of_nat j) true) 5 2)
  = 0%Qc.
Proof.
  apply (cuWelfordMuSigma2_rms_mu (integerV rsqrt_on_squares) true true
           (Dim3 32 4 1) (fun _ i => Qc_of_nat (i + 1)) 0 1 4 0
           (fun j => Qc_of_nat j) 5 2); cbn [dim_x dim_y]; lia.
Defined.

Lemma Qc_square_nonneg (x : Qc) : (0 <= x * x)%Qc.
Proof.
  destruct (Qclt_le_dec x 0) as [H|H].
  - assert (H' : (0 <= - x)%Qc).
    { apply Qclt_le_weak in H. apply Qcle_minus_iff in H.
      now rewrite Qcplus_0_l in H. }
    replace (x * x)%Qc with ((- x) * (- x))%Qc by ring.
    rewrite <- (Qcmult_0_l (- x)). apply Qcmult_le_compat_r; assumption.
  - rewrite <- (Qcmult_0_l x). apply Qcmult_le_compat_r; assumption.
Qed.

Lemma sum_upto_nonneg (f : nat -> Qc) (n : nat) :
  (forall i, i < n -> (0 <= f i)%Qc) -> (0 <= sum_upto f n)%Qc.
Proof.
  induction n as [|n IH]; intros H; cbn [sum_upto]; [apply Qcle_refl|].
  rewrite <- (Qcplus_0_l 0). apply Qcplus_le_compat; [apply IH|apply H]; auto.
Qed.

Lemma Qc_div_nonneg (s n : Qc) : (0 <= s)%Qc -> (0 < n)%Qc -> (0 <= s / n)%Qc.
Proof.
  intros Hs Hn. apply (Qcmult_lt_0_le_reg_r _ _ n Hn).
  rewrite Qcmult_0_l. unfold Qcdiv. rewrite <- Qcmult_assoc.
  rewrite Qcmult_inv_l by (apply Qc_pos_neq0; exact Hn).
  now rewrite Qcmult_1_r.
Qed.

Section EstimatorMore.
Variable rsqrt_fn : Qc -> Qc.
Local Abbreviation E := (exactQ rsqrt_fn).

Lemma welford_registers_exact (half misaligned : bool) (k bz : nat)
  (g : gmem) (xb n1 n2 i1 : nat) (buf : smem) (rms_only : bool) (tx ty : nat) :
  1 <= n2 -> i1 < n1 -> tx < 32 -> ty < 2 ^ k ->
  let x := fun l => g xb (i1 * n2 + l) in
  let n := Qc_of_nat n2 in
  let mean := (sum_upto x n2 / n)%Qc in
  fst (cuWelfordMuSigma2 E half misaligned (Dim3 32 (2 ^ k) bz) g
         (Some xb) n1 n2 i1 buf rms_only) tx ty
  = if rms_only
    then (0%Qc, (sum_upto (fun l => x l * x l) n2 / n)%Qc)
    else (mean, (sum_upto (fun l => (x l - mean) * (x l - mean)) n2 / n)%Qc).
Proof.
  intros Hn2 Hi1 Htx Hty. cbv zeta.
  rewrite cuWelfordMuSigma2_registers by (cbn [dim_x dim_y]; lia).
  pose proof (block_moments_summarises rsqrt_fn half misaligned k bz (g xb) n2 i1
                rms_only ltac:(lia)) as H.
  pose proof (Qc_of_nat_neq0 n2 ltac:(lia)) as NZ.
  destruct rms_only; cbn [negb fst snd].
  - unfold summarises in H. rewrite H, sum_over_seq. reflexivity.
  - destruct (summarises_full_nonempty _ _ _ H) as (M & S).
    { rewrite length_seq. lia. }
    rewrite length_seq, !sum_over_seq in M, S.
    f_equal; [exact M|]. rewrite S, sum_sq_dev.
    cbn [n_div n_of_int E exactQ]. rewrite !sum_over_seq. field. exact NZ.
Qed.

(** X5.  Over exact arithmetic the __half specialisation of
    cuWelfordMuSigma2 (two elements per load, with its own first step on a
    misaligned row) returns what the generic template returns. *)
Theorem cuWelfordMuSigma2_half_agrees (misaligned : bool) (k bz : nat)
  (g : gmem) (xb n1 n2 i1 : nat) (buf buf' : smem) (rms_only : bool)
  (tx ty : nat) :
  1 <= n2 -> i1 < n1 -> tx < 32 -> ty < 2 ^ k ->
  fst (cuWelfordMuSigma2 E true misaligned (Dim3 32 (2 ^ k) bz) g (Some xb)
         n1 n2 i1 buf rms_only) tx ty
  = fst (cuWelfordMuSigma2 E false false (Dim3 32 (2 ^ k) bz) g (Some xb)
           n1 n2 i1 buf' rms_only) tx ty.
Proof.
  intros Hn2 Hi1 Htx Hty.
  rewrite !welford_registers_exact by assumption. reflexivity.
Qed.

(** X6.  Over exact arithmetic the second moment that cuWelfordMuSigma2
    returns is never negative, in either mode; so the argument sigma2 +
    epsilon of rsqrt in the forward pass is positive whenever epsilon is. *)
Theorem cuWelfordMuSigma2_sigma2_nonneg (half misaligned : bool) (k bz : nat)
  (g : gmem) (xb n1 n2 i1 : nat) (buf : smem) (rms_only : bool) (tx ty : nat)
  (eps : Qc) :
  1 <= n2 -> i1 < n1 -> tx < 32 -> ty < 2 ^ k ->
  let sigma2 := snd (fst (cuWelfordMuSigma2 E half misaligned (Dim3 32 (2 ^ k) bz)
                            g (Some xb) n1 n2 i1 buf rms_only) tx ty) in
  (0 <= sigma2)%Qc /\ ((0 < eps)%Qc -> (0 < sigma2 + eps)%Qc).
Proof.
  intros Hn2 Hi1 Htx Hty. cbv zeta.
  rewrite welford_registers_exact by assumption. cbv zeta.
  pose proof (Qc_of_nat_pos n2 ltac:(lia)) as NP.
  assert (H : (0 <= snd (if rms_only
                 then (0%Qc,
                       (sum_upto (fun l => g xb (i1 * n2 + l)%nat
                                           * g xb (i1 * n2 + l)%nat) n2
                        / Qc_of_nat n2)%Qc)
                 else ((sum_upto (fun l => g xb (i1 * n2 + l)%nat) n2
                        / Qc_of_nat n2)%Qc,
                       (sum_upto
                          (fun l =>
                             (g xb (i1 * n2 + l)%nat
                              - sum_upto (fun l => g xb (i1 * n2 + l)%nat) n2
                                / Qc_of_nat n2)
                             * (g xb (i1 * n2 + l)%nat
                                - sum_upto (fun l => g xb (i1 * n2 + l)%nat) n2
                                  / Qc_of_nat n2)) n2
                        / Qc_of_nat n2)%Qc)))%Qc).
  { destruct rms_only; cbn [snd]; (apply Qc_div_nonneg; [|exact NP]);
      apply sum_upto_nonneg; intros i _; apply Qc_square_nonneg. }
  split; [exact H|].
  intros He. apply Qc_add_pos_r; assumption.
Qed.

End EstimatorMore.

Lemma cuWelfordMuSigma2_half_agrees_witness :
  let g : gmem := fun _ i => Qc_of_nat (i + 1) in
  fst (cuWelfordMuSigma2 (exactQ rsqrt_on_squares) true true (Dim3 32 (2 ^ 2) 1) g
         (Some 0) 1 5 0 (fun _ => 0%Qc) false) 0 0
  = fst (cuWelfordMuSigma2 (exactQ rsqrt_on_squares) false false
           (Dim3 32 (2 ^ 2) 1) g (Some 0) 1 5 0 (fun _ => 0%Qc) false) 0 0.
Proof.
  cbv zeta.
  apply (cuWelfordMuSigma2_half_agrees rsqrt_on_squares true 2 1
           (fun _ i => Qc_of_nat (i + 1)) 0 1 5 0); try lia; simpl; lia.
Defined.

Lemma cuWelfordMuSigma2_sigma2_nonneg_witness :
  let g : gmem := fun _ i => Qc_of_nat (i + 1) in
  Qcle 0%Qc
    (snd (fst (cuWelfordMuSigma2 (exactQ rsqrt_on_squares) false false
                 (Dim3 32 (2 ^ 2) 1) g (Some 0) 1 5 0 (fun _ => 0%Qc) true)
              0 0)).
Proof.
  cbv zeta.
  refine (proj1 (cuWelfordMuSigma2_sigma2_nonneg rsqrt_on_squares false false 2 1
                   (fun _ i => Qc_of_nat (i + 1)) 0 1 5 0 (fun _ => 0%Qc) true 0 0
                   1%Qc _ _ _ _)); try lia; simpl; lia.
Defined.

(** * Further properties of the forward kernel *)

(** X7.  cuApplyLayerNorm_ in RMS-only mode writes nothing but the first
    n1 * n2 cells of the output and the first n1 cells of invvar: every
    other buffer (the input, gamma, and the mean and beta arguments too) and
    every other cell of those two buffers is left as it was, for any
    arithmetic, block and grid. *)
Theorem rms_forward_footprint {num : Type} (N : Numerics num) (half : bool)
  (misaligned : nat -> bool) (bd : dim3) (ob ib xb : nat) (mean beta gamma : ptr)
  (n1 n2 : nat) (eps : num) (G gz : nat) (junk : nat -> nat -> smem) (g : gmem) :
  0 < dim_x bd -> 0 < dim_y bd -> 0 < G ->
  ob <> ib -> xb <> ob -> xb <> ib -> ptr_apart gamma ob -> ptr_apart gamma ib ->
  let g' := launch_grid (Dim3 1 G gz) junk
              (fun _ y => cuApplyLayerNorm_ N half misaligned bd (Dim3 1 G gz) y
                            (Some ob) mean (Some ib) (Some xb) n1 n2 eps
                            gamma beta true) g in
  (forall b, b <> ob -> b <> ib -> g' b = g b) /\
  (forall j, n1 * n2 <= j -> g' ob j = g ob j) /\
  (forall j, n1 <= j -> g' ib j = g ib j).
Proof.
  intros Hx Hy HG D1 D2 D3 D4 D5. cbv zeta.
  destruct (forward_kernel N half misaligned bd ob ib xb mean beta gamma
              n1 n2 eps G gz junk Hx Hy D1 D2 D3 D4 D5 HG g)
    as (F & _ & OK & _ & IK).
  repeat split; assumption.
Qed.

Lemma rms_forward_footprint_witness :
  let g : gmem := fun b _ => Qc_of_nat (b + 1) in
  let g' := launch_grid (Dim3 1 2 1) (fun _ _ _ => 0%Qc)
              (fun _ y => cuApplyLayerNorm_ (exactQ rsqrt_on_squares) false
                            (fun _ => false) (Dim3 32 4 1) (Dim3 1 2 1) y
                            (Some 2) None (Some 3) (Some 0) 3 4 (Qc_of_nat 3)
                            (Some 1) None true) g in
  (forall b, b <> 2 -> b <> 3 -> g' b = g b) /\
  (forall j, 3 * 4 <= j -> g' 2 j = g 2 j) /\
  (forall j, 3 <= j -> g' 3 j = g 3 j).
Proof.
  cbv zeta.
  apply (rms_forward_footprint (exactQ rsqrt_on_squares) false (fun _ => false)
           (Dim3 32 4 1) 2 3 0 None None (Some 1) 3 4 (Qc_of_nat 3) 2 1
           (fun _ _ _ => 0%Qc) (fun b _ => Qc_of_nat (b + 1)));
    cbn [dim_x dim_y ptr_apart]; lia.
Defined.





(** * Further properties of the gradient kernels *)



Section GradGammaMore.
Variable rsqrt_fn : Qc -> Qc.
Local Abbreviation E := (exactQ rsqrt_fn).



End GradGammaMore.



(** * The rows of the block rows, as lists *)

Lemma part_rows_prefix (bdy gy n1 k : nat) :
  flat_map (part_rows bdy gy n1) (seq 0 k)
  = seq 0 (Nat.min
             (k * (((n1 + bdy * bdy - 1) / (bdy * bdy) + gy - 1) / gy * bdy * bdy))
             n1).
Proof.
  set (c := ((n1 + bdy * bdy - 1) / (bdy * bdy) + gy - 1) / gy * bdy * bdy).
  induction k as [|k IH]; [reflexivity|].
  rewrite seq_S, flat_map_app, IH. cbn [flat_map Nat.add]. rewrite app_nil_r.
  unfold part_rows. cbv zeta.
  replace (k * (((n1 + bdy * bdy - 1) / (bdy * bdy) + gy - 1) / gy) * bdy * bdy)
    with (k * c) by (unfold c; ring).
  replace ((k + 1) * (((n1 + bdy * bdy - 1) / (bdy * bdy) + gy - 1) / gy)
           * bdy * bdy)
    with (k * c + c) by (unfold c; ring).
  replace (Datatypes.S k * c) with (k * c + c) by ring.
  clearbody c.
  destruct (Nat.ltb_spec (k * c + c) n1) as [H|H].
  - rewrite !Nat.min_l by lia.
    replace (k * c + c - k * c) with c by lia.
    rewrite <- seq_app. reflexivity.
  - rewrite (Nat.min_r (k * c + c)) by lia.
    destruct (Nat.le_gt_cases (k * c) n1) as [H'|H'].
    + rewrite Nat.min_l by lia. rewrite <- seq_app. f_equal. lia.
    + rewrite Nat.min_r by lia. replace (n1 - k * c) with 0 by lia.
      cbn [seq]. apply app_nil_r.
Qed.



(** * The backward entry point: the gradient of the input *)

Section PartGradFrame.
Context {num : Type} (N : Numerics num).

(** In RMS-only mode a block of cuComputePartGradGammaBeta writes no buffer
    but part_grad_gamma, for any arithmetic and block. *)
Lemma part_grad_block_frame (bd gd : dim3) (x y : nat) (dout input : ptr)
  (n1 n2 : nat) (mean invvar : ptr) (eps : num) (pb : nat) (pgb : ptr)
  (g : gmem) (buf : smem) (b : nat) :
  b <> pb ->
  fst (cuComputePartGradGammaBeta N bd gd x y dout input n1 n2 mean invvar eps
         (Some pb) pgb true (g, buf)) b = g b.
Proof.
  intros Hb. unfold cuComputePartGradGammaBeta. cbv zeta. cbn [negb fst snd].
  apply (foreach_thread_inv bd _ (fun s : gmem => s b = g b)); [|reflexivity].
  intros tx ty s _ _ Hs.
  destruct ((ty =? 0) && (x * dim_x bd + tx <? n2)); [|exact Hs].
  rewrite store_other_buffer by exact Hb. exact Hs.
Qed.

Lemma part_grad_kernel_frame (bd gd : dim3) (dout input : ptr)
  (n1 n2 : nat) (mean invvar : ptr) (eps : num) (pb : nat) (pgb : ptr)
  (junk : nat -> nat -> smem) (g : gmem) (b : nat) :
  b <> pb ->
  launch_grid gd junk
    (fun x y => cuComputePartGradGammaBeta N bd gd x y dout input n1 n2 mean invvar
                  eps (Some pb) pgb true) g b = g b.
Proof.
  intros Hb. unfold launch_grid.
  apply (fold_left_inv _ (fun g' : @gmem num => g' b = g b)); [|reflexivity].
  intros g' [x y] _ Hg. cbn [fst snd].
  rewrite part_grad_block_frame by exact Hb. exact Hg.
Qed.

(** It writes part_grad_gamma only below gridDim.y * n2. *)
Lemma part_grad_kernel_beyond (bd gd : dim3) (dout input : ptr)
  (n1 n2 : nat) (mean invvar : ptr) (eps : num) (pb : nat) (pgb : ptr)
  (junk : nat -> nat -> smem) (g : gmem) (j : nat) :
  dim_y gd * n2 <= j ->
  launch_grid gd junk
    (fun x y => cuComputePartGradGammaBeta N bd gd x y dout input n1 n2 mean invvar
                  eps (Some pb) pgb true) g pb j = g pb j.
Proof.
  intros Hj. unfold launch_grid.
  apply (fold_left_inv _ (fun g' : @gmem num => g' pb j = g pb j)); [|reflexivity].
  intros g' [x y] Hin Hg. cbn [fst snd]. apply in_coords in Hin.
  unfold cuComputePartGradGammaBeta. cbv zeta. cbn [negb fst snd].
  apply (foreach_thread_inv bd _ (fun s : gmem => s pb j = g pb j)); [|exact Hg].
  intros tx ty s _ _ Hs.
  destruct (Nat.ltb_spec (x * dim_x bd + tx) n2) as [C|C];
    [|rewrite andb_false_r; exact Hs].
  destruct (ty =? 0); [|exact Hs]. cbn [andb].
  rewrite store_other_cell by nia. exact Hs.
Qed.

End PartGradFrame.

Section BackwardInput.
Variable rsqrt_fn : Qc -> Qc.
Local Abbreviation E := (exactQ rsqrt_fn).
Local Abbreviation arithE := (fun _ _ _ : ctype => exactQ rsqrt_fn).

Lemma grad_input_cell_exact (k bz db xb ib : nat) (mean gamma : ptr)
  (n2 : nat) (rms_only : bool) (g : gmem) (i1 l : nat) :
  1 <= n2 ->
  grad_input_cell E (Dim3 32 (2 ^ k) bz) (Some db) (Some xb) mean (Some ib) gamma
                  rms_only n2 g i1 l
  = let n := Qc_of_nat n2 in
    let dout := fun l => g db (i1 * n2 + l) in
    let x := fun l => g xb (i1 * n2 + l) in
    let inv_std := g ib i1 in
    let gam := fun l => match gamma with Some gb => g gb l | None => 1%Qc end in
    let xhat := fun l =>
      if rms_only then (x l * inv_std)%Qc
      else ((x l - load 0%Qc g mean i1) * inv_std)%Qc in
    let sum_loss1 := sum_upto (fun l => dout l * gam l)%Qc n2 in
    let sum_loss2 := sum_upto (fun l => dout l * gam l * xhat l)%Qc n2 in
    if rms_only
    then ((n * dout l * gam l - xhat l * sum_loss2) * (inv_std / n))%Qc
    else ((n * dout l * gam l - sum_loss1 - xhat l * sum_loss2)
          * (inv_std / n))%Qc.
Proof.
  intros Hn2. cbv zeta.
  assert (Pk : 0 < 2 ^ k) by (apply Nat.neq_0_lt_0, Nat.pow_nonzero; lia).
  unfold grad_input_cell. cbv zeta.
  cbn [dim_x dim_y load n_zero E exactQ].
  set (cm := if negb rms_only then load 0%Qc g mean i1 else 0%Qc).
  rewrite grad_sums_exact
    by (apply Nat.mod_upper_bound; lia).
  cbv beta zeta. cbn [load fst snd].
  assert (E2 :
    sum_upto (fun l0 => g db (i1 * n2 + l0)%nat
                * (if is_null gamma then 1 else load 0 g gamma l0)
                * (if rms_only then g xb (i1 * n2 + l0)%nat
                   else g xb (i1 * n2 + l0)%nat - cm) * g ib i1)%Qc n2
    = sum_upto (fun l0 => g db (i1 * n2 + l0)%nat
                  * match gamma with Some gb => g gb l0 | None => 1 end
                  * (if rms_only then g xb (i1 * n2 + l0)%nat * g ib i1
                     else (g xb (i1 * n2 + l0)%nat - load 0 g mean i1) * g ib i1))%Qc
               n2).
  { apply sum_upto_ext. intros l0 _. unfold cm.
    destruct gamma, rms_only; cbn [is_null negb load]; ring. }
  assert (E1 :
    sum_upto (fun l0 => g db (i1 * n2 + l0)%nat
                * (if is_null gamma then 1 else load 0 g gamma l0))%Qc n2
    = sum_upto (fun l0 => g db (i1 * n2 + l0)%nat
                  * match gamma with Some gb => g gb l0 | None => 1 end)%Qc n2).
  { apply sum_upto_ext. intros l0 _.
    destruct gamma; cbn [is_null negb load]; ring. }
  rewrite E1, E2. clear E1 E2.
  set (S2 := sum_upto _ n2).
  set (S1 := sum_upto _ n2).
  pose proof (Qc_of_nat_neq0 n2 ltac:(lia)) as NZ.
  unfold grad_input_value, cm. cbv zeta.
  cbn [load n_zero n_one n_mul n_div n_sub n_of_int n_T2U n_V2U n_U2T E exactQ].
  destruct gamma, rms_only; cbn [is_null negb load]; field; exact NZ.
Qed.


End BackwardInput.


(** * The backward entry point: what it writes *)

Section BackwardFootprint.
Context {num : Type}.
Variable arith : ctype -> ctype -> ctype -> Numerics num.
Variable maxGridY : nat.

Lemma rms_backward_dispatch_cases (bufs : nat -> ptr) (d : RMSNormDescriptor num) :
  rms_backward_affine arith maxGridY bufs d = [] \/
  exists T U V,
    rms_backward_affine arith maxGridY bufs d =
    HostRMSNormGradient arith maxGridY T U V (bufs 0) (bufs 1) (bufs 2)
      (d_n1 d) (d_n2 d) (bufs 3) (d_eps d) (bufs 4) (bufs 5)
      (d_part_grad_size d) (bufs 6).
Proof.
  unfold rms_backward_affine,
         DISPATCH_DOUBLE_FLOAT_HALF_AND_BFLOAT_INOUT_TYPES.
  destruct (d_x_type d), (d_w_type d);
    first [ left; reflexivity | right; do 3 eexists; reflexivity ].
Qed.

(** X15.  What the backward entry point writes, for any arithmetic and any
    element types: no buffer other than grad_input, grad_gamma and
    part_grad_gamma; when gamma is NULL, no buffer other than grad_input;
    of grad_input only its first n1 * n2 cells, of grad_gamma only its
    first n2 cells, and of part_grad_gamma only its first
    part_grad_size * n2 cells. *)
Theorem rms_backward_footprint (address : nat -> nat)
  (junk : launch num -> nat -> nat -> smem) (bufs : nat -> ptr)
  (d : RMSNormDescriptor num) (g : gmem) (db ib xb gib ggb pgb : nat) :
  1 <= d_n1 d -> 1 <= maxGridY ->
  bufs 0 = Some db -> bufs 1 = Some ib -> bufs 2 = Some xb ->
  bufs 4 = Some gib -> bufs 5 = Some ggb -> bufs 6 = Some pgb ->
  db <> gib -> xb <> gib -> ib <> gib -> ptr_apart (bufs 3) gib ->
  pgb <> ggb -> pgb <> gib -> ggb <> gib ->
  let g' := run_stream arith address junk
              (rms_backward_affine arith maxGridY bufs d) g in
  (forall b, b <> gib -> b <> ggb -> b <> pgb -> g' b = g b) /\
  (bufs 3 = None -> forall b, b <> gib -> g' b = g b) /\
  (forall j, d_n1 d * d_n2 d <= j -> g' gib j = g gib j) /\
  (forall j, d_n2 d <= j -> g' ggb j = g ggb j) /\
  (forall j, d_part_grad_size d * d_n2 d <= j -> g' pgb j = g pgb j).
Proof.
  intros Hn1 HG B0 B1 B2 B4 B5 B6 G1 G2 G3 G4 PQ PG QG. cbv zeta.
  destruct (rms_backward_dispatch_cases bufs d) as [-> | (T & U & V & ->)].
  { unfold run_stream. cbn [fold_left]. repeat split; reflexivity. }
  assert (GP : gib <> pgb) by (intros E; apply PG; symmetry; exact E).
  rewrite B0, B1, B2, B4, B5, B6.
  unfold HostRMSNormGradient, run_stream. cbv zeta.
  destruct (bufs 3) as [gb|] eqn:B3; cbn [is_null negb app fold_left].
  - unfold run_launch. cbv zeta.
    cbn [l_call l_grid l_block l_T l_U l_V dim_x dim_y].
    cbn [ptr_apart] in G4.
    match goal with
    | |- context [launch_grid (Dim3 ((d_n2 d + 32 - 1) / 32) (d_part_grad_size d) 1)
                    ?jk ?blk g] =>
        set (g1 := launch_grid (Dim3 ((d_n2 d + 32 - 1) / 32)
                                     (d_part_grad_size d) 1) jk blk g)
    end.
    assert (F1 : forall b, b <> pgb -> g1 b = g b).
    { intros b Hb. unfold g1. apply part_grad_kernel_frame. exact Hb. }
    assert (K1 : forall j, d_part_grad_size d * d_n2 d <= j -> g1 pgb j = g pgb j).
    { intros j Hj. unfold g1. apply part_grad_kernel_beyond. exact Hj. }
    match goal with
    | |- context [launch_grid (Dim3 ((d_n2 d + 32 - 1) / 32) 1 1) ?jk ?blk g1] =>
        set (g2 := launch_grid (Dim3 ((d_n2 d + 32 - 1) / 32) 1 1) jk blk g1);
        assert (F2 : (forall b, b <> ggb -> g2 b = g1 b) /\
                     (forall j, d_n2 d <= j -> g2 ggb j = g1 ggb j))
          by (destruct (grad_gamma_kernel (arith T U V) 8 1 pgb ggb (Some pgb)
                          (Some ggb) (d_part_grad_size d) (d_n1 d) (d_n2 d)
                          (Dim3 ((d_n2 d + 32 - 1) / 32) 1 1) jk
                          ltac:(lia) PQ g1) as (F & _ & K); split; assumption)
    end.
    destruct F2 as (F2 & K2).
    clearbody g1 g2.
    match goal with
    | |- context [launch_grid ?gd ?jk ?blk g2] =>
        destruct (grad_input_kernel (arith T U V) 4 1 gib (Some db) (Some xb)
                    (Some ib) (Some ib)
                    (Some gb) (d_n1 d) (d_n2 d)
                    (n_of_double (arith T U V) (d_eps d)) true
                    (Nat.min (d_n1 d) maxGridY) 1 jk ltac:(lia) G1 G2 G3 G3 G4
                    ltac:(lia) g2) as (F3 & _ & K3)
    end.
    split; [|split; [|split; [|split]]].
    + intros b H1 H2 H3. rewrite F3, F2, F1 by assumption. reflexivity.
    + discriminate.
    + intros j Hj. rewrite K3 by exact Hj.
      rewrite F2, F1 by (intro; subst; contradiction). reflexivity.
    + intros j Hj. rewrite F3 by exact QG. rewrite K2 by exact Hj.
      rewrite F1 by (intro; subst; contradiction). reflexivity.
    + intros j Hj. rewrite F3 by exact PG. rewrite F2 by exact PQ.
      apply K1. exact Hj.
  - unfold run_launch. cbv zeta.
    cbn [l_call l_grid l_block l_T l_U l_V dim_x dim_y].
    match goal with
    | |- context [launch_grid ?gd ?jk ?blk g] =>
        destruct (grad_input_kernel (arith T U V) 4 1 gib (Some db) (Some xb)
                    (Some ib) (Some ib)
                    None (d_n1 d) (d_n2 d)
                    (n_of_double (arith T U V) (d_eps d)) true
                    (Nat.min (d_n1 d) maxGridY) 1 jk ltac:(lia) G1 G2 G3 G3 I
                    ltac:(lia) g) as (F3 & _ & K3)
    end.
    split; [|split; [|split; [|split]]].
    + intros b H1 _ _. apply F3. exact H1.
    + intros _ b H1. apply F3. exact H1.
    + exact K3.
    + intros j _. rewrite F3 by exact QG. reflexivity.
    + intros j _. rewrite F3 by exact PG. reflexivity.
Qed.

End BackwardFootprint.

Lemma rms_backward_footprint_witness :
  let g : gmem := fun b i => Qc_of_nat (b + i) in
  let d := {| d_n1 := 3; d_n2 := 4; d_eps := Qc_of_nat 3; d_x_type := F16;
              d_w_type := F32; d_part_grad_size := 16 |} in
  let arithE := fun _ _ _ : ctype => exactQ rsqrt_on_squares in
  let g' := run_stream arithE (fun _ => 0) (fun _ _ _ _ => 0%Qc)
              (rms_backward_affine arithE 8 (fun i => Some i) d) g in
  (forall b, b <> 4 -> b <> 5 -> b <> 6 -> g' b = g b) /\
  (Some 3 = None -> forall b, b <> 4 -> g' b = g b) /\
  (forall j, 3 * 4 <= j -> g' 4 j = g 4 j) /\
  (forall j, 4 <= j -> g' 5 j = g 5 j) /\
  (forall j, 16 * 4 <= j -> g' 6 j = g 6 j).
Proof.
  cbv zeta.
  apply (rms_backward_footprint (fun _ _ _ : ctype => exactQ rsqrt_on_squares) 8
           (fun _ => 0) (fun _ _ _ _ => 0%Qc) (fun i => Some i)
           {| d_n1 := 3; d_n2 := 4; d_eps := Qc_of_nat 3; d_x_type := F16;
              d_w_type := F32; d_part_grad_size := 16 |}
           (fun b i => Qc_of_nat (b + i)) 0 1 2 4 5 6);
    cbn [d_n1 ptr_apart]; try reflexivity; lia.
Defined.

(** * cuApplyLayerNorm_ with rms_only = false *)

Section ForwardFull.
Context {num : Type} (N : Numerics num).
Variables (half : bool) (misaligned : nat -> bool) (bd : dim3).
Variables (ob mb ib xb : nat) (beta gamma : ptr).
Variables (n1 n2 : nat) (eps : num).
Hypothesis bd_x : 0 < dim_x bd.
Hypothesis bd_y : 0 < dim_y bd.
Hypothesis ob_mb : ob <> mb.
Hypothesis ob_ib : ob <> ib.
Hypothesis mb_ib : mb <> ib.
Hypothesis xb_ob : xb <> ob.
Hypothesis xb_mb : xb <> mb.
Hypothesis xb_ib : xb <> ib.
Hypothesis gamma_ob : ptr_apart gamma ob.
Hypothesis gamma_mb : ptr_apart gamma mb.
Hypothesis gamma_ib : ptr_apart gamma ib.
Hypothesis beta_ob : ptr_apart beta ob.
Hypothesis beta_mb : ptr_apart beta mb.
Hypothesis beta_ib : ptr_apart beta ib.

Local Notation "a +! b" := (n_add N a b) (at level 50, left associativity).
Local Notation "a -! b" := (n_sub N a b) (at level 50, left associativity).
Local Notation "a *! b" := (n_mul N a b) (at level 40, left associativity).
Local Notation "a /! b" := (n_div N a b) (at level 40, left associativity).

(** The value a thread stores at column [i] of row [i1] (lines 461-479 with
    rms_only = false): gamma is applied only when beta is there too. *)
Local Abbreviation full_val cinv mu0 s i1 i :=
  (if negb (is_null gamma) && negb (is_null beta)
   then n_vadd N
          (n_vmul N (load (n_zero N) s gamma i%nat)
             (n_U2V N (cinv *! (n_T2U N (s xb (i1 * n2 + i)%nat) -! mu0))))
          (load (n_zero N) s beta i%nat)
   else n_U2V N (cinv *! (n_T2U N (s xb (i1 * n2 + i)%nat) -! mu0))).

Lemma full_val_agree (s g : @gmem num) (cinv mu0 : num) (i1 i : nat) :
  (forall b, b <> ob -> b <> mb -> b <> ib -> s b = g b) ->
  full_val cinv mu0 s i1 i = full_val cinv mu0 g i1 i.
Proof.
  intros H. rewrite (H xb) by auto.
  destruct gamma as [gb|], beta as [bb|];
    cbn [is_null negb andb load ptr_apart] in *; try reflexivity.
  rewrite (H gb), (H bb) by auto. reflexivity.
Qed.

Lemma fwd_full_thread_spec (i1 : nat) (mu0 sigma2 : num) (tx ty : nat) (s : gmem) :
  let s' := cuApplyLayerNorm_thread N bd (Some ob) (Some mb) (Some ib) (Some xb)
              n2 eps gamma beta false i1 mu0 sigma2 tx ty s in
  let cinv := n_rsqrt N (sigma2 +! eps) in
  let cols := fst (loop_while n2 (fun i => i <? n2)
                     (fun i => i + dim_x bd * dim_y bd) (tx + ty * dim_x bd)) in
  (forall b, b <> ob -> b <> mb -> b <> ib -> s' b = s b) /\
  (forall j, s' ob j =
     if existsb (fun i => i1 * n2 + i =? j) cols
     then full_val cinv mu0 s i1 (j - i1 * n2)
     else s ob j) /\
  (forall j, s' mb j = if (tx =? 0) && (ty =? 0) && (j =? i1) then mu0 else s mb j) /\
  (forall j, s' ib j = if (tx =? 0) && (ty =? 0) && (j =? i1) then cinv else s ib j).
Proof.
  cbv zeta. unfold cuApplyLayerNorm_thread. cbv zeta. cbn [negb].
  set (cinv := n_rsqrt N (sigma2 +! eps)).
  set (cols := fst (loop_while n2 (fun i => i <? n2)
                      (fun i => i + dim_x bd * dim_y bd) (tx + ty * dim_x bd))).
  rewrite orb_false_r.
  assert (R : exists r : gmem,
     (if negb (is_null gamma) && negb (is_null beta)
      then fold_left (fun g i => store g (Some ob) (i1 * n2 + i)
             (n_vadd N
                (n_vmul N (load (n_zero N) g gamma i)
                   (n_U2V N (cinv *! (n_T2U N (load (n_zero N) g (Some xb) (i1 * n2 + i))
                                      -! mu0))))
                (load (n_zero N) g beta i)))
             cols s
      else fold_left (fun g i => store g (Some ob) (i1 * n2 + i)
             (n_U2V N (cinv *! (n_T2U N (load (n_zero N) g (Some xb) (i1 * n2 + i))
                                -! mu0))))
             cols s) = r /\
     (forall b, b <> ob -> r b = s b) /\
     (forall j, r ob j =
        if existsb (fun i => i1 * n2 + i =? j) cols
        then full_val cinv mu0 s i1 (j - i1 * n2)
        else s ob j)).
  { destruct (negb (is_null gamma) && negb (is_null beta)) eqn:C.
    - eexists. split; [reflexivity|].
      apply (fold_store_spec ob (i1 * n2)
               (fun g i => n_vadd N
                  (n_vmul N (load (n_zero N) g gamma i)
                     (n_U2V N (cinv *! (n_T2U N (load (n_zero N) g (Some xb) (i1 * n2 + i))
                                        -! mu0))))
                  (load (n_zero N) g beta i))
               (fun i => n_vadd N
                  (n_vmul N (load (n_zero N) s gamma i)
                     (n_U2V N (cinv *! (n_T2U N (s xb (i1 * n2 + i)) -! mu0))))
                  (load (n_zero N) s beta i))).
      intros g' i Hg. cbn [load]. rewrite (Hg xb) by auto.
      destruct gamma as [gb|], beta as [bb|];
        cbn [is_null negb andb load ptr_apart] in *; try discriminate.
      rewrite (Hg gb), (Hg bb) by auto. reflexivity.
    - eexists. split; [reflexivity|].
      apply (fold_store_spec ob (i1 * n2)
               (fun g i =>
                  n_U2V N (cinv *! (n_T2U N (load (n_zero N) g (Some xb) (i1 * n2 + i))
                                    -! mu0)))
               (fun i => n_U2V N (cinv *! (n_T2U N (s xb (i1 * n2 + i)) -! mu0)))).
      intros g' i Hg. cbn [load]. rewrite (Hg xb); auto. }
  destruct R as (r & -> & F & V).
  destruct ((tx =? 0) && (ty =? 0)); cbn [andb].
  - split; [|split; [|split]].
    + intros b Hb Hb' Hb''. rewrite !store_other_buffer by assumption. now apply F.
    + intros j. rewrite !store_other_buffer by assumption. apply V.
    + intros j. rewrite store_other_buffer by exact mb_ib.
      rewrite store_cell. rewrite F by auto. reflexivity.
    + intros j. rewrite store_cell. rewrite store_other_buffer by auto.
      rewrite F by auto. reflexivity.
  - split; [|split; [|split]].
    + intros b Hb _ _. now apply F.
    + apply V.
    + intros j. rewrite (F mb) by auto. reflexivity.
    + intros j. rewrite (F ib) by auto. reflexivity.
Qed.

(** One trip of the row loop with rms_only = false: the row [i1] of the
    output, mean[i1] and invvar[i1] are stored, nothing else changes,
    whatever the shared memory held. *)
Lemma fwd_full_row_spec (i1 : nat) (g : gmem) (buf : smem) :
  i1 < n1 ->
  let g' := fst (cuApplyLayerNorm_row N half misaligned bd (Some ob) (Some mb)
                   (Some ib) (Some xb) n1 n2 eps gamma beta false i1 (g, buf)) in
  let bm := block_moments N half (misaligned i1) bd (g xb) n2 i1 false in
  let cinv := n_rsqrt N (sigma2 bm /! n_of_int N n2 +! eps) in
  (forall b, b <> ob -> b <> mb -> b <> ib -> g' b = g b) /\
  (forall j, g' ob j =
     if (i1 * n2 <=? j) && (j <? i1 * n2 + n2)
     then full_val cinv (mu bm) g i1 (j - i1 * n2)
     else g ob j) /\
  (forall j, g' mb j = if j =? i1 then mu bm else g mb j) /\
  (forall j, g' ib j = if j =? i1 then cinv else g ib j).
Proof.
  intros Hi1. cbv zeta. unfold cuApplyLayerNorm_row. cbv zeta. cbn [fst snd].
  set (ws := cuWelfordMuSigma2 N half (misaligned i1) bd g (Some xb) n1 n2 i1 buf false).
  set (bm := block_moments N half (misaligned i1) bd (g xb) n2 i1 false).
  set (cinv := n_rsqrt N (sigma2 bm /! n_of_int N n2 +! eps)).
  assert (Hreg : forall tx ty, tx < dim_x bd -> ty < dim_y bd ->
            fst (fst ws tx ty) = mu bm /\
            n_rsqrt N (snd (fst ws tx ty) +! eps) = cinv).
  { intros tx ty Htx Hty. unfold ws.
    rewrite cuWelfordMuSigma2_registers by assumption. split; reflexivity. }
  set (P := fun s : gmem => forall b, b <> ob -> b <> mb -> b <> ib -> s b = g b).
  assert (HP : forall tx ty s, tx < dim_x bd -> ty < dim_y bd -> P s ->
     P (cuApplyLayerNorm_thread N bd (Some ob) (Some mb) (Some ib) (Some xb) n2 eps
          gamma beta false i1 (fst (fst ws tx ty)) (snd (fst ws tx ty)) tx ty s)).
  { intros tx ty s _ _ Ps b Hb Hb' Hb''.
    destruct (fwd_full_thread_spec i1 (fst (fst ws tx ty)) (snd (fst ws tx ty))
                tx ty s) as (F & _).
    rewrite F by assumption. now apply Ps. }
  assert (P0 : P g) by (intros b _ _ _; reflexivity).
  split; [|split; [|split]].
  - apply (foreach_thread_inv bd _ P); assumption.
  - intros j.
    destruct ((i1 * n2 <=? j) && (j <? i1 * n2 + n2)) eqn:Hj.
    + apply andb_true_iff in Hj. destruct Hj as [Hj1 Hj2].
      apply Nat.leb_le in Hj1. apply Nat.ltb_lt in Hj2.
      destruct (owner_thread bd (j - i1 * n2) bd_x bd_y) as (Hx0 & Hy0 & Ho).
      apply (foreach_thread_establish bd _ P
               (fun s : gmem => s ob j = full_val cinv (mu bm) g i1 (j - i1 * n2))
               _ _ g Hx0 Hy0 HP); [| |exact P0].
      * intros tx ty s Htx Hty Ps Qs.
        destruct (fwd_full_thread_spec i1 (fst (fst ws tx ty))
                    (snd (fst ws tx ty)) tx ty s) as (_ & V & _).
        rewrite V. cbv zeta.
        destruct (existsb _ _); [|exact Qs].
        destruct (Hreg tx ty Htx Hty) as (-> & ->).
        apply full_val_agree. exact Ps.
      * intros s Ps.
        match goal with
        | |- cuApplyLayerNorm_thread N bd _ _ _ _ _ _ _ _ _ _ ?m ?sg ?tx0 ?ty0 s ob j = _ =>
            destruct (fwd_full_thread_spec i1 m sg tx0 ty0 s) as (_ & V & _);
            pose proof (Hreg tx0 ty0 Hx0 Hy0) as Hc
        end.
        rewrite V. cbv zeta.
        match goal with
        | |- (if ?c then _ else _) = _ => assert (Hc' : c = true)
        end.
        { apply stride_loop_existsb; [nia|]. rewrite Ho.
          split; [lia|]. split; [lia|]. split.
          - apply Nat.Div0.mod_le.
          - apply sub_mod_mul. }
        rewrite Hc'. destruct Hc as (-> & ->).
        apply full_val_agree. exact Ps.
    + apply (foreach_thread_inv bd _ (fun s : gmem => s ob j = g ob j));
        [|reflexivity].
      intros tx ty s Htx Hty Qs.
      destruct (fwd_full_thread_spec i1 (fst (fst ws tx ty)) (snd (fst ws tx ty))
                  tx ty s) as (_ & V & _).
      rewrite V. cbv zeta.
      match goal with
      | |- (if ?c then _ else _) = _ => destruct c eqn:Hc
      end; [|exact Qs].
      apply stride_loop_existsb in Hc; [|nia]. exfalso.
      apply andb_false_iff in Hj. destruct Hj as [Hj|Hj].
      * apply Nat.leb_gt in Hj. lia.
      * apply Nat.ltb_ge in Hj. lia.
  - intros j. destruct (Nat.eqb_spec j i1) as [->|Hj].
    + apply (foreach_thread_establish bd _ (fun _ => True)
               (fun s : gmem => s mb i1 = mu bm) 0 0 g bd_x bd_y); auto.
      * intros tx ty s Htx Hty _ Qs.
        destruct (fwd_full_thread_spec i1 (fst (fst ws tx ty))
                    (snd (fst ws tx ty)) tx ty s) as (_ & _ & V & _).
        rewrite V. destruct (Hreg tx ty Htx Hty) as (-> & _). rewrite Qs.
        destruct ((tx =? 0) && (ty =? 0) && (i1 =? i1)); reflexivity.
      * intros s _.
        destruct (fwd_full_thread_spec i1 (fst (fst ws 0 0)) (snd (fst ws 0 0))
                    0 0 s) as (_ & _ & V & _).
        rewrite V. destruct (Hreg 0 0 bd_x bd_y) as (-> & _).
        rewrite !Nat.eqb_refl. reflexivity.
    + apply (foreach_thread_inv bd _ (fun s : gmem => s mb j = g mb j));
        [|reflexivity].
      intros tx ty s Htx Hty Qs.
      destruct (fwd_full_thread_spec i1 (fst (fst ws tx ty)) (snd (fst ws tx ty))
                  tx ty s) as (_ & _ & V & _).
      rewrite V. apply Nat.eqb_neq in Hj. rewrite Hj, andb_false_r. exact Qs.
  - intros j. destruct (Nat.eqb_spec j i1) as [->|Hj].
    + apply (foreach_thread_establish bd _ (fun _ => True)
               (fun s : gmem => s ib i1 = cinv) 0 0 g bd_x bd_y); auto.
      * intros tx ty s Htx Hty _ Qs.
        destruct (fwd_full_thread_spec i1 (fst (fst ws tx ty))
                    (snd (fst ws tx ty)) tx ty s) as (_ & _ & _ & V).
        rewrite V. cbv zeta. destruct (Hreg tx ty Htx Hty) as (_ & ->). rewrite Qs.
        destruct ((tx =? 0) && (ty =? 0) && (i1 =? i1)); reflexivity.
      * intros s _.
        destruct (fwd_full_thread_spec i1 (fst (fst ws 0 0)) (snd (fst ws 0 0))
                    0 0 s) as (_ & _ & _ & V).
        rewrite V. cbv zeta. destruct (Hreg 0 0 bd_x bd_y) as (_ & ->).
        rewrite !Nat.eqb_refl. reflexivity.
    + apply (foreach_thread_inv bd _ (fun s : gmem => s ib j = g ib j));
        [|reflexivity].
      intros tx ty s Htx Hty Qs.
      destruct (fwd_full_thread_spec i1 (fst (fst ws tx ty)) (snd (fst ws tx ty))
                  tx ty s) as (_ & _ & _ & V).
      rewrite V. apply Nat.eqb_neq in Hj. rewrite Hj, andb_false_r. exact Qs.
Qed.

End ForwardFull.

Section ForwardFullKernel.
Context {num : Type} (N : Numerics num).
Variables (half : bool) (misaligned : nat -> bool) (bd : dim3).
Variables (ob mb ib xb : nat) (beta gamma : ptr).
Variables (n1 n2 : nat) (eps : num).
Variables (G gz : nat) (junk : nat -> nat -> @smem num).
Hypothesis bd_x : 0 < dim_x bd.
Hypothesis bd_y : 0 < dim_y bd.
Hypothesis ob_mb : ob <> mb.
Hypothesis ob_ib : ob <> ib.
Hypothesis mb_ib : mb <> ib.
Hypothesis xb_ob : xb <> ob.
Hypothesis xb_mb : xb <> mb.
Hypothesis xb_ib : xb <> ib.
Hypothesis gamma_ob : ptr_apart gamma ob.
Hypothesis gamma_mb : ptr_apart gamma mb.
Hypothesis gamma_ib : ptr_apart gamma ib.
Hypothesis beta_ob : ptr_apart beta ob.
Hypothesis beta_mb : ptr_apart beta mb.
Hypothesis beta_ib : ptr_apart beta ib.
Hypothesis G_pos : 0 < G.

Local Notation "a +! b" := (n_add N a b) (at level 50, left associativity).
Local Notation "a -! b" := (n_sub N a b) (at level 50, left associativity).
Local Notation "a *! b" := (n_mul N a b) (at level 40, left associativity).
Local Notation "a /! b" := (n_div N a b) (at level 40, left associativity).

Local Abbreviation row_mu g i1 :=
  (mu (block_moments N half (misaligned i1) bd (g xb) n2 i1 false)).
Local Abbreviation row_cinv g i1 :=
  (n_rsqrt N
     (sigma2 (block_moments N half (misaligned i1) bd (g xb) n2 i1 false)
        /! n_of_int N n2 +! eps)).
Local Abbreviation out_full g i1 i :=
  (if negb (is_null gamma) && negb (is_null beta)
   then n_vadd N
          (n_vmul N (load (n_zero N) g gamma i%nat)
             (n_U2V N (row_cinv g i1 *! (n_T2U N (g xb (i1 * n2 + i)%nat)
                                         -! row_mu g i1))))
          (load (n_zero N) g beta i%nat)
   else n_U2V N (row_cinv g i1 *! (n_T2U N (g xb (i1 * n2 + i)%nat)
                                   -! row_mu g i1))).

(** cuApplyLayerNorm_ with rms_only = false, launched on a grid of G blocks:
    every row of the output, of mean and of invvar is stored; nothing else
    changes. *)
Lemma forward_full_kernel (g : @gmem num) :
  let g' := launch_grid (Dim3 1 G gz) junk
              (fun _ y => cuApplyLayerNorm_ N half misaligned bd (Dim3 1 G gz) y
                            (Some ob) (Some mb) (Some ib) (Some xb) n1 n2 eps
                            gamma beta false) g in
  (forall b, b <> ob -> b <> mb -> b <> ib -> g' b = g b) /\
  (forall i1 i, i1 < n1 -> i < n2 -> g' ob (i1 * n2 + i) = out_full g i1 i) /\
  (forall j, n1 * n2 <= j -> g' ob j = g ob j) /\
  (forall i1, i1 < n1 -> g' mb i1 = row_mu g i1) /\
  (forall j, n1 <= j -> g' mb j = g mb j) /\
  (forall i1, i1 < n1 -> g' ib i1 = row_cinv g i1) /\
  (forall j, n1 <= j -> g' ib j = g ib j).
Proof.
  cbv zeta.
  set (row := fun i1 st =>
         cuApplyLayerNorm_row N half misaligned bd (Some ob) (Some mb) (Some ib)
           (Some xb) n1 n2 eps gamma beta false i1 st).
  set (TB := fun b => b = ob \/ b = mb \/ b = ib).
  set (tgt := fun i1 b j =>
         if b =? ob then (i1 * n2 <=? j) && (j <? i1 * n2 + n2) else j =? i1).
  set (val := fun (g : @gmem num) b j =>
         if b =? ob then out_full g (j / n2) (j mod n2)
         else if b =? mb then row_mu g j else row_cinv g j).
  assert (Hmo : (mb =? ob) = false) by (apply Nat.eqb_neq; auto).
  assert (Hio : (ib =? ob) = false) by (apply Nat.eqb_neq; auto).
  assert (Him : (ib =? mb) = false) by (apply Nat.eqb_neq; auto).
  assert (RF : forall i1 g buf b, i1 < n1 -> ~ TB b -> fst (row i1 (g, buf)) b = g b).
  { intros i1 g0 buf b Hi Hb. unfold row.
    destruct (fwd_full_row_spec N half misaligned bd ob mb ib xb beta gamma n1 n2
                eps bd_x bd_y ob_mb ob_ib mb_ib xb_ob xb_mb xb_ib gamma_ob gamma_mb
                gamma_ib beta_ob beta_mb beta_ib i1 g0 buf Hi) as (F & _).
    apply F; intros ->; apply Hb; unfold TB; auto. }
  assert (RC : forall i1 g buf b j, i1 < n1 -> TB b ->
            fst (row i1 (g, buf)) b j = if tgt i1 b j then val g b j else g b j).
  { intros i1 g0 buf b j Hi Hb. unfold row, tgt, val.
    destruct (fwd_full_row_spec N half misaligned bd ob mb ib xb beta gamma n1 n2
                eps bd_x bd_y ob_mb ob_ib mb_ib xb_ob xb_mb xb_ib gamma_ob gamma_mb
                gamma_ib beta_ob beta_mb beta_ib i1 g0 buf Hi) as (_ & V1 & V2 & V3).
    destruct Hb as [->|[->| ->]].
    - rewrite Nat.eqb_refl, V1.
      destruct ((i1 * n2 <=? j) && (j <? i1 * n2 + n2)) eqn:C; [|reflexivity].
      apply andb_true_iff in C. destruct C as [C1 C2].
      apply Nat.leb_le in C1. apply Nat.ltb_lt in C2.
      destruct (row_cell_index i1 n2 j C1 C2) as [-> ->]. reflexivity.
    - rewrite Hmo, Nat.eqb_refl, V2.
      destruct (Nat.eqb_spec j i1) as [->|]; reflexivity.
    - rewrite Hio, Him, V3.
      destruct (Nat.eqb_spec j i1) as [->|]; reflexivity. }
  assert (VS : forall g g' : @gmem num, (forall b, ~ TB b -> g' b = g b) ->
            forall b j, val g' b j = val g b j).
  { intros g0 g' H b j. unfold val.
    assert (Hx : g' xb = g0 xb).
    { apply H. unfold TB. intros [E|[E|E]]; auto. }
    rewrite Hx.
    destruct gamma as [gb|], beta as [bb|];
      cbn [is_null negb andb load ptr_apart] in *; try reflexivity.
    assert (Hg : g' gb = g0 gb).
    { apply H. unfold TB. intros [E|[E|E]]; auto. }
    assert (Hb : g' bb = g0 bb).
    { apply H. unfold TB. intros [E|[E|E]]; auto. }
    rewrite Hg, Hb. reflexivity. }
  pose proof (kernel_frame row n1 TB RF G gz junk G_pos g) as KF.
  pose proof (kernel_cells row n1 TB tgt val RF RC VS G gz junk G_pos g) as KC.
  cbv zeta in KF, KC.
  change (launch_grid (Dim3 1 G gz) junk
            (fun _ y => cuApplyLayerNorm_ N half misaligned bd (Dim3 1 G gz) y
                          (Some ob) (Some mb) (Some ib) (Some xb) n1 n2 eps
                          gamma beta false) g)
    with (launch_grid (Dim3 1 G gz) junk
            (fun (_ y : nat) st =>
               fold_left (fun st i1 => row i1 st)
                 (fst (loop_while n1 (fun i1 => i1 <? n1) (fun i1 => i1 + G) y)) st) g).
  assert (TO : TB ob) by (unfold TB; auto).
  assert (TM : TB mb) by (unfold TB; auto).
  assert (TI : TB ib) by (unfold TB; auto).
  assert (ExT : forall b i1, b <> ob -> i1 < n1 ->
            existsb (fun i1' => tgt i1' b i1) (seq 0 n1) = true).
  { intros b i1 Hb Hi1. apply existsb_exists. exists i1.
    split; [apply in_seq; lia|]. unfold tgt.
    apply Nat.eqb_neq in Hb. rewrite Hb. apply Nat.eqb_refl. }
  assert (ExF : forall b j, b <> ob -> n1 <= j ->
            existsb (fun i1' => tgt i1' b j) (seq 0 n1) = false).
  { intros b j Hb Hj. apply not_true_is_false. intros Ex.
    apply existsb_exists in Ex. destruct Ex as (i1 & Hi & Ht).
    apply in_seq in Hi. unfold tgt in Ht. apply Nat.eqb_neq in Hb.
    rewrite Hb in Ht. apply Nat.eqb_eq in Ht. lia. }
  split; [|split; [|split; [|split; [|split; [|split]]]]].
  - intros b H1 H2 H3. apply KF. unfold TB. intros [E|[E|E]]; auto.
  - intros i1 i Hi1 Hi. rewrite KC by exact TO.
    assert (Ex : existsb (fun i1' => tgt i1' ob (i1 * n2 + i)) (seq 0 n1) = true).
    { apply existsb_exists. exists i1. split; [apply in_seq; lia|].
      unfold tgt. rewrite Nat.eqb_refl. apply andb_true_iff. split.
      - apply Nat.leb_le. lia.
      - apply Nat.ltb_lt. lia. }
    rewrite Ex. unfold val. rewrite Nat.eqb_refl.
    destruct (row_cell_index i1 n2 (i1 * n2 + i)) as [-> ->]; try lia.
    replace (i1 * n2 + i - i1 * n2) with i by lia. reflexivity.
  - intros j Hj. rewrite KC by exact TO.
    assert (Ex : existsb (fun i1' => tgt i1' ob j) (seq 0 n1) = false).
    { apply not_true_is_false. intros Ex. apply existsb_exists in Ex.
      destruct Ex as (i1 & Hi & Ht). apply in_seq in Hi. unfold tgt in Ht.
      rewrite Nat.eqb_refl in Ht. apply andb_true_iff in Ht.
      destruct Ht as [_ Ht]. apply Nat.ltb_lt in Ht.
      assert (i1 * n2 + n2 <= n1 * n2) by nia. lia. }
    rewrite Ex. reflexivity.
  - intros i1 Hi1. rewrite KC by exact TM.
    rewrite ExT by auto. unfold val. rewrite Hmo, Nat.eqb_refl. reflexivity.
  - intros j Hj. rewrite KC by exact TM. rewrite ExF by auto. reflexivity.
  - intros i1 Hi1. rewrite KC by exact TI.
    rewrite ExT by auto. unfold val. rewrite Hio, Him. reflexivity.
  - intros j Hj. rewrite KC by exact TI. rewrite ExF by auto. reflexivity.
Qed.

End ForwardFullKernel.

Section ForwardFullExact.
Variable rsqrt_fn : Qc -> Qc.
Local Abbreviation E := (exactQ rsqrt_fn).

Lemma block_moments_full_exact (half misaligned : bool) (k bz : nat)
  (x : nat -> Qc) (n2 i1 : nat) :
  1 <= n2 ->
  let xr := fun l => x (i1 * n2 + l) in
  let n := Qc_of_nat n2 in
  let mean := (sum_upto xr n2 / n)%Qc in
  let bm := block_moments E half misaligned (Dim3 32 (2 ^ k) bz) x n2 i1 false in
  mu bm = mean /\
  (sigma2 bm / n)%Qc
  = (sum_upto (fun l => (xr l - mean) * (xr l - mean)) n2 / n)%Qc.
Proof.
  intros Hn2. cbv zeta.
  assert (Pk : 0 < 2 ^ k) by (apply Nat.neq_0_lt_0, Nat.pow_nonzero; lia).
  pose proof (welford_registers_exact rsqrt_fn half misaligned k bz
                (fun _ => x) 0 (S i1) n2 i1 (fun _ => 0%Qc) false 0 0
                Hn2 ltac:(lia) ltac:(lia) Pk) as H.
  cbv zeta in H.
  rewrite cuWelfordMuSigma2_registers in H by (cbn [dim_x dim_y]; lia).
  cbn [negb n_div n_of_int E exactQ] in H.
  split; [exact (f_equal fst H)|exact (f_equal snd H)].
Qed.


End ForwardFullExact.


(** * The dynamic shared memory: what the kernels write, against what the
      host requests *)

Lemma sizeof_pos (U : ctype) : 0 < sizeof U.
Proof. destruct U; cbn [sizeof]; lia. Qed.

Lemma upd_ne {num : Type} (m : nat -> num) (i j : nat) (v : num) :
  j <> i -> upd m i v j = m j.
Proof. intros H. unfold upd. apply Nat.eqb_neq in H. now rewrite H. Qed.

Ltac skip_upd := repeat (rewrite upd_ne by nia).

Section SharedForward.
Context {num : Type} (N : Numerics num).

Lemma cuWelfordMuSigma2_shared (half misaligned : bool) (bd : dim3) (g : gmem)
  (vals : ptr) (n1 n2 i1 : nat) (buf : smem) (rms_only : bool) (j : nat) :
  (if 1 <? dim_y bd then dim_y bd + dim_y bd / 2 else 0) <= j ->
  snd (cuWelfordMuSigma2 N half misaligned bd g vals n1 n2 i1 buf rms_only) j
  = buf j.
Proof.
  intros Hj. unfold cuWelfordMuSigma2. cbv zeta.
  destruct (i1 <? n1); [|reflexivity].
  destruct (Nat.ltb_spec 1 (dim_y bd)) as [Hb|Hb]; [|reflexivity].
  cbn [snd].
  match goal with
  | |- context [fold_left ?F ?L (?r1, buf)] => set (st := fold_left F L (r1, buf))
  end.
  assert (Hst : snd st j = buf j).
  { unfold st.
    apply (fold_left_inv _ (fun st : (nat -> nat -> moments) * smem =>
                              snd st j = buf j)); [|reflexivity].
    intros s o Ho Hs. cbn [snd].
    apply loop_halving_range in Ho. destruct Ho as [H1 H2].
    pose proof (Nat.Div0.mul_div_le (dim_y bd) 2) as H3.
    apply (foreach_thread_inv bd _ (fun b : smem => b j = buf j)); [|exact Hs].
    intros tx ty b _ _ Hb'. unfold inter_warp_write.
    destruct ((tx =? 0) && (o <=? ty) && (ty <? 2 * o)) eqn:C; [|exact Hb'].
    apply andb_true_iff in C. destruct C as [C C2].
    apply andb_true_iff in C. destruct C as [_ C1].
    apply Nat.leb_le in C1. apply Nat.ltb_lt in C2.
    destruct half, rms_only; cbn [negb]; skip_upd; exact Hb'. }
  apply (foreach_thread_inv bd _ (fun b : smem => b j = buf j)); [|exact Hst].
  intros tx ty b _ _ Hb'.
  destruct ((tx =? 0) && (ty =? 0)); [|exact Hb'].
  destruct rms_only; cbn [negb]; skip_upd; exact Hb'.
Qed.

(** X17.  A block of cuApplyLayerNorm_ writes no cell of the dynamic shared
    memory at or beyond the nshared bytes that HostApplyRMSNorm requests
    (threads.y * sizeof(U) + (threads.y / 2) * sizeof(U), or 0 for one warp):
    every element of U at such an index holds on return what it held on
    entry, for any arithmetic, either mode and either version of
    cuWelfordMuSigma2. *)
Theorem cuApplyLayerNorm_shared_bound (U : ctype) (half : bool)
  (misaligned : nat -> bool) (bd gd : dim3) (y : nat)
  (output_vals mean invvar vals : ptr) (n1 n2 : nat) (eps : num)
  (gamma beta : ptr) (rms_only : bool) (g : gmem) (buf : smem) (j : nat) :
  (if 1 <? dim_y bd
   then dim_y bd * sizeof U + (dim_y bd / 2) * sizeof U else 0) <= j * sizeof U ->
  snd (cuApplyLayerNorm_ N half misaligned bd gd y output_vals mean invvar vals
         n1 n2 eps gamma beta rms_only (g, buf)) j = buf j.
Proof.
  intros Hj. pose proof (sizeof_pos U) as HU.
  assert (Hj' : (if 1 <? dim_y bd then dim_y bd + dim_y bd / 2 else 0) <= j).
  { destruct (1 <? dim_y bd); [nia|lia]. }
  unfold cuApplyLayerNorm_.
  apply (fold_left_inv _ (fun st : gmem * smem => snd st j = buf j));
    [|reflexivity].
  intros st i1 _ Hs. unfold cuApplyLayerNorm_row. cbv zeta. cbn [snd].
  rewrite cuWelfordMuSigma2_shared by exact Hj'. exact Hs.
Qed.

(** X18.  A block of cuComputeGradInput writes no cell of the dynamic shared
    memory at or beyond the nshared bytes that HostRMSNormGradient requests
    for it (threads1.y * threads1.x * sizeof(U), or 0 for one warp), for any
    arithmetic and either mode. *)
Theorem cuComputeGradInput_shared_bound (U : ctype) (bd gd : dim3) (y : nat)
  (dout input : ptr) (n1 n2 : nat) (mean invvar : ptr) (eps : num)
  (gamma grad_input : ptr) (rms_only : bool) (g : gmem) (buf : smem) (j : nat) :
  (if 1 <? dim_y bd then dim_y bd * dim_x bd * sizeof U else 0) <= j * sizeof U ->
  snd (cuComputeGradInput N bd gd y dout input n1 n2 mean invvar eps gamma
         grad_input rms_only (g, buf)) j = buf j.
Proof.
  intros Hj. pose proof (sizeof_pos U) as HU.
  unfold cuComputeGradInput.
  apply (fold_left_inv _ (fun st : gmem * smem => snd st j = buf j));
    [|reflexivity].
  intros st i1 _ Hs. unfold cuComputeGradInput_row. cbv zeta. cbn [snd].
  unfold cuComputeGradInput_sums. cbv zeta.
  destruct (Nat.ltb_spec 1 (dim_y bd)) as [Hb|Hb]; [|exact Hs].
  assert (Hj' : dim_y bd * dim_x bd <= j) by nia.
  cbn [snd].
  match goal with
  | |- context [fold_left ?F ?L (?r1, snd st)] =>
      set (st1 := fold_left F L (r1, snd st))
  end.
  assert (Hst : snd st1 j = buf j).
  { unfold st1.
    apply (fold_left_inv _ (fun s : (nat -> nat -> num * num) * smem =>
                              snd s j = buf j)); [|exact Hs].
    intros s o Ho Hs'. cbn [snd].
    apply loop_halving_range in Ho. destruct Ho as [H1 H2].
    pose proof (Nat.Div0.mul_div_le (dim_y bd) 2) as H3.
    apply (foreach_thread_inv bd _ (fun b : smem => b j = buf j)); [|exact Hs'].
    intros tx ty b Htx _ Hb'.
    destruct ((o <=? ty) && (ty <? 2 * o)) eqn:C; [|exact Hb'].
    apply andb_true_iff in C. destruct C as [C1 C2].
    apply Nat.leb_le in C1. apply Nat.ltb_lt in C2.
    assert (B : 2 * ((ty - o) * dim_x bd + tx) + 1 < dim_y bd * dim_x bd) by nia.
    destruct rms_only; cbn [negb]; skip_upd; exact Hb'. }
  apply (foreach_thread_inv bd _ (fun b : smem => b j = buf j)); [|exact Hst].
  intros tx ty b Htx _ Hb'.
  destruct (ty =? 0); [|exact Hb'].
  assert (B : 2 * tx + 1 < dim_y bd * dim_x bd) by nia.
  destruct rms_only; cbn [negb]; skip_upd; exact Hb'.
Qed.

End SharedForward.

Lemma cuApplyLayerNorm_shared_bound_witness :
  let buf : smem := fun i => Qc_of_nat i in
  snd (cuApplyLayerNorm_ (exactQ rsqrt_on_squares) false (fun _ => false)
         (Dim3 32 4 1) (Dim3 1 2 1) 0 (Some 2) None (Some 3) (Some 0) 3 5
         0%Qc (Some 1) None true (fun b i => Qc_of_nat (b + i), buf)) 6 = buf 6.
Proof.
  cbv zeta.
  apply (cuApplyLayerNorm_shared_bound (exactQ rsqrt_on_squares) c_float).
  vm_compute. lia.
Defined.

Lemma cuComputeGradInput_shared_bound_witness :
  let buf : smem := fun i => Qc_of_nat i in
  snd (cuComputeGradInput (exactQ rsqrt_on_squares) (Dim3 32 4 1) (Dim3 1 2 1) 0
         (Some 0) (Some 2) 3 5 (Some 1) (Some 1) 0%Qc (Some 3) (Some 4) true
         (fun b i => Qc_of_nat (b + i), buf)) 128 = buf 128.
Proof.
  cbv zeta.
  apply (cuComputeGradInput_shared_bound (exactQ rsqrt_on_squares) c_float).
  vm_compute. lia.
Defined.

Lemma tile_index_bound (bx bdy tx ty k : nat) :
  bx = 32 -> bdy = 4 -> tx < bx -> ty < bdy -> k < bdy ->
  ((tx * bdy) / bx + ty * bdy) * (bx + 1) + Nat.land (tx * bdy) (bx - 1) + k
  < bdy * bdy * (bx + 1).
Proof.
  intros -> -> Htx Hty Hk. change (32 - 1) with 31. rewrite land_31.
  zify; Z.to_euclidean_division_equations; lia.
Qed.

Lemma scaled_bound (a j s : nat) : 0 < s -> a * s <= j * s -> a <= j.
Proof. intros Hs H. apply (Nat.mul_le_mono_pos_r a j s Hs). exact H. Qed.

Section SharedParam.
Context {num : Type} (N : Numerics num).

Lemma cuLoadWriteStridedInputs_shared (bd : dim3)
  (i1_block ro co i2_off rs wb1 wb2 : nat) (g : gmem) (input dout : ptr)
  (i1_end n2 : nat) (mean invvar : ptr) (rms_only : bool) (buf : smem) (j : nat) :
  (forall k, k < dim_y bd ->
     j <> wb1 + (ro * rs + co + k) /\ j <> wb2 + (ro * rs + co + k)) ->
  cuLoadWriteStridedInputs N bd i1_block ro co i2_off rs wb1 wb2 g input dout
    i1_end n2 mean invvar rms_only buf j = buf j.
Proof.
  intros H. unfold cuLoadWriteStridedInputs. cbv zeta.
  destruct (i1_block + ro <? i1_end).
  - apply (fold_left_inv _ (fun b : smem => b j = buf j)); [|reflexivity].
    intros b k Hk Hb. apply in_seq in Hk. destruct (H k ltac:(lia)) as [H1 H2].
    destruct (i2_off + k <? n2), rms_only; cbn [negb];
      rewrite ?upd_ne by assumption; exact Hb.
  - apply (fold_left_inv _ (fun b : smem => b j = buf j)); [|reflexivity].
    intros b k Hk Hb. apply in_seq in Hk. destruct (H k ltac:(lia)) as [H1 H2].
    destruct rms_only; cbn [negb]; rewrite ?upd_ne by assumption; exact Hb.
Qed.

Lemma cuLoadAddStridedInputs_shared (bd : dim3)
  (i1_block ro co i2_off rs wb1 wb2 : nat) (g : gmem) (input dout : ptr)
  (i1_end n2 : nat) (mean invvar : ptr) (rms_only : bool) (buf : smem) (j : nat) :
  (forall k, k < dim_y bd ->
     j <> wb1 + (ro * rs + co + k) /\ j <> wb2 + (ro * rs + co + k)) ->
  cuLoadAddStridedInputs N bd i1_block ro co i2_off rs wb1 wb2 g input dout
    i1_end n2 mean invvar rms_only buf j = buf j.
Proof.
  intros H. unfold cuLoadAddStridedInputs. cbv zeta.
  destruct (i1_block + ro <? i1_end); [|reflexivity].
  apply (fold_left_inv _ (fun b : smem => b j = buf j)); [|reflexivity].
  intros b k Hk Hb. apply in_seq in Hk. destruct (H k ltac:(lia)) as [H1 H2].
  destruct (i2_off + k <? n2), rms_only; cbn [negb];
    rewrite ?upd_ne by assumption; exact Hb.
Qed.

Section Tiles.
Variable bd : dim3.
Hypothesis bd_x : dim_x bd = 32.
Hypothesis bd_y : dim_y bd = 4.
Variable j : nat.
Hypothesis beyond : 2 * (dim_y bd * dim_y bd * (dim_x bd + 1)) <= j.

Lemma cuComputePartGradGammaBeta_load_shared (x i1_beg i1_end : nat) (g : gmem)
  (dout input : ptr) (n1 n2 : nat) (mean invvar : ptr) (rms_only : bool)
  (tx ty : nat) (buf : smem) :
  tx < dim_x bd -> ty < dim_y bd ->
  cuComputePartGradGammaBeta_load N bd x i1_beg i1_end g dout input n1 n2 mean
    invvar rms_only tx ty buf j = buf j.
Proof.
  intros Htx Hty. unfold cuComputePartGradGammaBeta_load. cbv zeta.
  assert (K : forall k, k < dim_y bd ->
     j <> 0 + ((tx * dim_y bd / dim_x bd + ty * dim_y bd) * (dim_x bd + 1)
               + Nat.land (tx * dim_y bd) (dim_x bd - 1) + k) /\
     j <> 0 + dim_y bd * dim_y bd * (dim_x bd + 1)
          + ((tx * dim_y bd / dim_x bd + ty * dim_y bd) * (dim_x bd + 1)
             + Nat.land (tx * dim_y bd) (dim_x bd - 1) + k)).
  { intros k Hk.
    pose proof (tile_index_bound (dim_x bd) (dim_y bd) tx ty k bd_x bd_y Htx Hty Hk).
    lia. }
  apply (fold_left_inv _ (fun b : smem => b j = buf j)).
  - intros b i1b _ Hb. rewrite cuLoadAddStridedInputs_shared by exact K. exact Hb.
  - apply cuLoadWriteStridedInputs_shared. exact K.
Qed.

Lemma row_index_bound (tx ty : nat) :
  tx < dim_x bd -> ty < dim_y bd ->
  ty * (dim_x bd + 1) + tx < dim_y bd * dim_y bd * (dim_x bd + 1).
Proof. intros Htx Hty. rewrite bd_x, bd_y in *. lia. Qed.

Lemma cuComputePartGradGammaBeta_tiles_shared (gd : dim3) (x y : nat)
  (dout input : ptr) (n1 n2 : nat) (mean invvar : ptr) (rms_only : bool)
  (g : gmem) (buf : smem) :
  cuComputePartGradGammaBeta_tiles N bd gd x y dout input n1 n2 mean invvar
    rms_only g buf j = buf j.
Proof.
  unfold cuComputePartGradGammaBeta_tiles. cbv zeta.
  apply (fold_left_inv _ (fun b : smem => b j = buf j)).
  - intros b o _ Hb.
    apply (foreach_thread_inv bd _ (fun b : smem => b j = buf j)); [|exact Hb].
    intros tx ty b' Htx Hty Hb'. unfold cuComputePartGradGammaBeta_fold. cbv zeta.
    destruct (ty <? o); [|exact Hb'].
    pose proof (row_index_bound tx ty Htx Hty).
    destruct rms_only; cbn [negb]; rewrite ?upd_ne by lia; exact Hb'.
  - apply (foreach_thread_inv bd _ (fun b : smem => b j = buf j)).
    + intros tx ty b' Htx Hty Hb'. unfold cuComputePartGradGammaBeta_warp. cbv zeta.
      pose proof (row_index_bound tx ty Htx Hty).
      destruct rms_only; cbn [negb]; rewrite ?upd_ne by lia; exact Hb'.
    + apply (foreach_thread_inv bd _ (fun b : smem => b j = buf j)); [|reflexivity].
      intros tx ty b' Htx Hty Hb'.
      rewrite cuComputePartGradGammaBeta_load_shared by assumption. exact Hb'.
Qed.

End Tiles.

(** X19.  A block of cuComputePartGradGammaBeta of 32 x 4 threads writes no
    cell of the dynamic shared memory at or beyond the nshared2 bytes that
    HostRMSNormGradient requests for it (the larger of
    2 * sizeof(U) * threads2.y * threads2.y * (threads2.x + 1) and
    threads2.x * threads2.y * sizeof(U)), for any arithmetic and either
    mode. *)
Theorem cuComputePartGradGammaBeta_shared_bound (U : ctype) (bd gd : dim3)
  (x y : nat) (dout input : ptr) (n1 n2 : nat) (mean invvar : ptr) (eps : num)
  (part_grad_gamma part_grad_beta : ptr) (rms_only : bool) (g : gmem)
  (buf : smem) (j : nat) :
  dim_x bd = 32 -> dim_y bd = 4 ->
  (let nshared2_a := 2 * sizeof U * dim_y bd * dim_y bd * (dim_x bd + 1) in
   let nshared2_b := dim_x bd * dim_y bd * sizeof U in
   if nshared2_b <? nshared2_a then nshared2_a else nshared2_b) <= j * sizeof U ->
  snd (cuComputePartGradGammaBeta N bd gd x y dout input n1 n2 mean invvar eps
         part_grad_gamma part_grad_beta rms_only (g, buf)) j = buf j.
Proof.
  intros Hx Hy Hj. cbv zeta in Hj. pose proof (sizeof_pos U) as HU.
  assert (Hj' : 2 * (dim_y bd * dim_y bd * (dim_x bd + 1)) <= j).
  { apply (scaled_bound _ j (sizeof U) HU).
    destruct (Nat.ltb_spec (dim_x bd * dim_y bd * sizeof U)
                (2 * sizeof U * dim_y bd * dim_y bd * (dim_x bd + 1))) as [C|C];
      lia. }
  unfold cuComputePartGradGammaBeta. cbv zeta. cbn [snd fst].
  apply cuComputePartGradGammaBeta_tiles_shared; assumption.
Qed.

(** X20.  A block of cuComputeGradGammaBeta writes no cell of the dynamic
    shared memory at or beyond the nshared3 bytes that HostRMSNormGradient
    requests for it (threads3.x * threads3.y * sizeof(U)), for any
    arithmetic, any block size and either mode. *)
Theorem cuComputeGradGammaBeta_shared_bound (U : ctype) (bd : dim3) (x : nat)
  (part_grad_gamma part_grad_beta : ptr) (part_size n1 n2 : nat)
  (grad_gamma grad_beta : ptr) (rms_only : bool) (g : gmem) (buf : smem)
  (j : nat) :
  dim_x bd * dim_y bd * sizeof U <= j * sizeof U ->
  snd (cuComputeGradGammaBeta N bd x part_grad_gamma part_grad_beta part_size
         n1 n2 grad_gamma grad_beta rms_only (g, buf)) j = buf j.
Proof.
  intros Hj. pose proof (sizeof_pos U) as HU.
  apply (scaled_bound _ j (sizeof U) HU) in Hj.
  unfold cuComputeGradGammaBeta. cbv zeta. cbn [snd fst].
  apply (fold_left_inv _ (fun s : (nat -> nat -> num * num) * smem =>
                            snd s j = buf j)); [|reflexivity].
  intros s o Ho Hs. cbn [snd].
  rewrite (loop_while_ext _ (fun o => 0 <? o)) in Ho
    by (intros l; destruct l; reflexivity).
  apply loop_halving_range in Ho. destruct Ho as [H1 H2].
  pose proof (Nat.Div0.mul_div_le (dim_y bd) 2) as H3.
  assert (H4 : dim_y bd / 2 * dim_x bd <= dim_x bd * dim_y bd / 2).
  { apply Nat.div_le_lower_bound; [lia|]. nia. }
  pose proof (Nat.Div0.mul_div_le (dim_x bd * dim_y bd) 2) as H5.
  apply (foreach_thread_inv bd _ (fun b : smem => b j = buf j)); [|exact Hs].
  intros tx ty b Htx _ Hb'.
  destruct ((x * dim_x bd + tx <? n2) && (o <=? ty) && (ty <? 2 * o)) eqn:C;
    [|exact Hb'].
  apply andb_true_iff in C. destruct C as [C C2].
  apply andb_true_iff in C. destruct C as [_ C1].
  apply Nat.leb_le in C1. apply Nat.ltb_lt in C2.
  assert (B : (ty - o) * dim_x bd + tx < dim_y bd / 2 * dim_x bd) by nia.
  destruct rms_only; cbn [negb]; rewrite ?upd_ne by lia; exact Hb'.
Qed.

End SharedParam.

Lemma cuComputePartGradGammaBeta_shared_bound_witness :
  let buf : smem := fun i => Qc_of_nat i in
  snd (cuComputePartGradGammaBeta (exactQ rsqrt_on_squares) (Dim3 32 4 1)
         (Dim3 1 2 1) 0 1 (Some 0) (Some 2) 20 3 (Some 1) (Some 1) 0%Qc
         (Some 6) (Some 6) true (fun b i => Qc_of_nat (b + i), buf)) 1056
  = buf 1056.
Proof.
  cbv zeta.
  apply (cuComputePartGradGammaBeta_shared_bound (exactQ rsqrt_on_squares) c_float);
    [reflexivity|reflexivity|].
  vm_compute. lia.
Defined.

Lemma cuComputeGradGammaBeta_shared_bound_witness :
  let buf : smem := fun i => Qc_of_nat i in
  snd (cuComputeGradGammaBeta (exactQ rsqrt_on_squares) (Dim3 32 8 1) 0
         (Some 6) (Some 6) 16 5 3 (Some 5) (Some 5) true
         (fun b i => Qc_of_nat (b + i), buf)) 256
  = buf 256.
Proof.
  cbv zeta.
  apply (cuComputeGradGammaBeta_shared_bound (exactQ rsqrt_on_squares) c_float).
  vm_compute. lia.
Defined.

(** * The element types of the kernels the entry points enqueue *)

Section DispatchTypes.
Context {num : Type}.
Variable arith : ctype -> ctype -> ctype -> Numerics num.
Variable maxGridY : nat.

Lemma HostApplyRMSNorm_types (T U V : ctype) (output invvar input : ptr)
  (n1 n2 : nat) (eps : num) (gamma : ptr) (l : launch num) :
  In l (HostApplyRMSNorm arith maxGridY T U V output invvar input n1 n2 eps gamma) ->
  l_T l = T /\ l_U l = U /\ l_V l = V.
Proof.
  unfold HostApplyRMSNorm. cbv zeta. intros [<-|[]]. cbn [l_T l_U l_V]. auto.
Qed.

Lemma HostRMSNormGradient_types (T U V : ctype) (dout invvar input : ptr)
  (n1 n2 : nat) (gamma : ptr) (eps : num) (grad_input grad_gamma : ptr)
  (part_size : nat) (part_grad_gamma : ptr) (l : launch num) :
  In l (HostRMSNormGradient arith maxGridY T U V dout invvar input n1 n2 gamma eps
          grad_input grad_gamma part_size part_grad_gamma) ->
  l_T l = T /\ l_U l = U /\ l_V l = V.
Proof.
  unfold HostRMSNormGradient. cbv zeta. intros H. apply in_app_or in H.
  destruct H as [H|[<-|[]]]; [|cbn [l_T l_U l_V]; auto].
  destruct (negb (is_null gamma)); [|destruct H].
  destruct H as [<-|[<-|[]]]; cbn [l_T l_U l_V]; auto.
Qed.

(** X21.  Every kernel that either entry point enqueues is instantiated with
    T the C++ type of d.x_type and V the C++ type of d.w_type, and with the
    accumulation type U = double when d.x_type is F64 and U = float for F32,
    F16 and BF16, whatever d.w_type is. *)
Theorem entry_points_types (bufs : nat -> ptr) (d : RMSNormDescriptor num)
  (l : launch num) :
  In l (rms_forward_affine_mixed_dtypes arith maxGridY bufs d
        ++ rms_backward_affine arith maxGridY bufs d) ->
  Some (l_T l) = match d_x_type d with
                 | F64 => Some c_double | F32 => Some c_float
                 | F16 => Some c_half | BF16 => Some c_bfloat16
                 | ElementType_other _ => None
                 end /\
  Some (l_V l) = match d_w_type d with
                 | F64 => Some c_double | F32 => Some c_float
                 | F16 => Some c_half | BF16 => Some c_bfloat16
                 | ElementType_other _ => None
                 end /\
  l_U l = match d_x_type d with F64 => c_double | _ => c_float end.
Proof.
  unfold rms_forward_affine_mixed_dtypes, rms_backward_affine,
         DISPATCH_DOUBLE_FLOAT_HALF_AND_BFLOAT_INOUT_TYPES.
  intros H. apply in_app_or in H.
  destruct (d_x_type d), (d_w_type d);
    (destruct H as [H|H];
     [ first [ apply HostApplyRMSNorm_types in H; destruct H as (-> & -> & ->);
               auto
             | contradiction ]
     | first [ apply HostRMSNormGradient_types in H; destruct H as (-> & -> & ->);
               auto
             | contradiction ] ]).
Qed.

End DispatchTypes.

Lemma entry_points_types_witness :
  let d := {| d_n1 := 3; d_n2 := 4; d_eps := Qc_of_nat 3; d_x_type := F16;
              d_w_type := BF16; d_part_grad_size := 16 |} in
  let arithE := fun _ _ _ : ctype => exactQ rsqrt_on_squares in
  let l := {| l_T := c_half; l_U := c_float; l_V := c_bfloat16;
              l_grid := Dim3 1 (Nat.min 3 8) 1; l_block := Dim3 32 4 1;
              l_nshared := 4 * 32 * 4;
              l_call := call_cuComputeGradInput (Some 0) (Some 2) 3 4 (Some 1)
                          (Some 1) (Qc_of_nat 3) None (Some 4) true |} in
  Some (l_T l) = Some c_half /\ Some (l_V l) = Some c_bfloat16 /\
  l_U l = c_float.
Proof.
  cbv zeta.
  apply (entry_points_types (fun _ _ _ : ctype => exactQ rsqrt_on_squares) 8
           (fun i => match i with 3 => None | _ => Some i end)
           {| d_n1 := 3; d_n2 := 4; d_eps := Qc_of_nat 3; d_x_type := F16;
              d_w_type := BF16; d_part_grad_size := 16 |}).
  apply in_or_app. right.
  unfold rms_backward_affine, DISPATCH_DOUBLE_FLOAT_HALF_AND_BFLOAT_INOUT_TYPES,
         HostRMSNormGradient.
  cbn [d_x_type d_w_type d_n1 d_n2 d_eps d_part_grad_size is_null negb app In].
  left. reflexivity.
Defined.

(** * What the forward kernel reads *)

Lemma loop_while_in (fuel : nat) (c : nat -> bool) (next : nat -> nat)
  (l0 l : nat) :
  In l (fst (loop_while fuel c next l0)) -> c l = true.
Proof.
  revert l0. induction fuel as [|fuel IH]; intros l0; cbn [loop_while fst In];
    [tauto|].
  destruct (c l0) eqn:C; cbn [fst In]; [|tauto].
  intros [<-|Hin]; [exact C|]. apply (IH _ Hin).
Qed.

Lemma row_indices_lt (n2 numx thrx l : nat) :
  In l (row_indices n2 numx thrx) -> l < n2.
Proof.
  unfold row_indices. cbv zeta. intros H. apply in_app_or in H.
  destruct H as [H|H].
  - apply in_flat_map in H. destruct H as (l0 & H0 & H).
    apply loop_while_in in H0. apply Nat.ltb_lt in H0.
    apply in_map_iff in H. destruct H as (k & <- & Hk). apply in_seq in Hk. lia.
  - apply loop_while_in in H. apply Nat.ltb_lt in H. exact H.
Qed.

Lemma row_indices_half_lt (misaligned : bool) (n2 numx thrx l : nat) :
  1 <= n2 -> In l (row_indices_half misaligned n2 numx thrx) -> l < n2.
Proof.
  intros Hn2. unfold row_indices_half. cbv zeta. intros H.
  apply in_app_or in H. destruct H as [H|H].
  - destruct misaligned; [|destruct H].
    destruct (thrx =? 0); [|destruct H].
    destruct H as [<-|[]]. lia.
  - apply in_app_or in H. destruct H as [H|H].
    + apply in_flat_map in H. destruct H as (l0 & H0 & H).
      apply loop_while_in in H0. apply Nat.ltb_lt in H0.
      cbn [flat_map app In] in H.
      repeat (destruct H as [<-|H]; [lia|]). destruct H.
    + apply loop_while_in in H. apply Nat.ltb_lt in H. exact H.
Qed.

Lemma fold_pointwise {X R : Type} (step : X -> (nat -> nat -> R) -> nat -> nat -> R)
  (L : list X) :
  (forall o r r', (forall tx ty, r tx ty = r' tx ty) ->
                  forall tx ty, step o r tx ty = step o r' tx ty) ->
  forall r r', (forall tx ty, r tx ty = r' tx ty) ->
  forall tx ty, fold_left (fun r o => step o r) L r tx ty
                = fold_left (fun r o => step o r) L r' tx ty.
Proof.
  intros Hs. induction L as [|o L IH]; intros r r' H tx ty; cbn [fold_left].
  - apply H.
  - apply IH. apply Hs. exact H.
Qed.

Section ForwardReads.
Context {num : Type} (N : Numerics num).

Lemma thread_moments_ext (x x' : nat -> num) (i1 n2 : nat) (rms_only : bool)
  (idxs : list nat) :
  (forall l, In l idxs -> x (i1 * n2 + l) = x' (i1 * n2 + l)) ->
  thread_moments N (fun _ => x) (Some 0) i1 n2 rms_only idxs
  = thread_moments N (fun _ => x') (Some 0) i1 n2 rms_only idxs.
Proof.
  intros H. unfold thread_moments. apply fold_left_ext_in.
  intros a l Hl. cbn [load]. rewrite (H l Hl). reflexivity.
Qed.

Lemma intra_warp_step_ext (rms_only : bool) (l : nat)
  (r r' : nat -> nat -> moments (num:=num)) :
  (forall tx ty, r tx ty = r' tx ty) ->
  forall tx ty, intra_warp_step N rms_only l r tx ty
                = intra_warp_step N rms_only l r' tx ty.
Proof.
  intros H tx ty. unfold intra_warp_step, shfl_sync. cbv zeta.
  rewrite !H. reflexivity.
Qed.

(** The registers of cuWelfordMuSigma2 for row [i1] depend on the input
    through the cells of that row only. *)
Lemma block_moments_ext (half misaligned : bool) (bd : dim3) (x x' : nat -> num)
  (n2 i1 : nat) (rms_only : bool) :
  1 <= n2 ->
  (forall l, l < n2 -> x (i1 * n2 + l) = x' (i1 * n2 + l)) ->
  block_moments N half misaligned bd x n2 i1 rms_only
  = block_moments N half misaligned bd x' n2 i1 rms_only.
Proof.
  intros Hn2 H. unfold block_moments. cbv zeta.
  match goal with
  | |- (if _ then fold_left ?F2 ?L2 (fold_left ?F1 ?L1 ?r0) else _) 0 0
       = (if _ then fold_left _ _ (fold_left _ _ ?r0') else _) 0 0 =>
      assert (R0 : forall tx ty, r0 tx ty = r0' tx ty)
  end.
  { intros tx ty. cbv beta. apply thread_moments_ext. intros l Hl. apply H.
    destruct half.
    - apply (row_indices_half_lt _ _ _ _ _ Hn2 Hl).
    - apply (row_indices_lt _ _ _ _ Hl). }
  match goal with
  | |- (if _ then fold_left ?F2 ?L2 (fold_left ?F1 ?L1 ?r0) else _) 0 0
       = (if _ then fold_left _ _ (fold_left _ _ ?r0') else _) 0 0 =>
      assert (R1 : forall tx ty, fold_left F1 L1 r0 tx ty = fold_left F1 L1 r0' tx ty)
  end.
  { apply (fold_pointwise (fun l r => intra_warp_step N rms_only l r)).
    - intros o r r'. apply intra_warp_step_ext.
    - exact R0. }
  destruct (1 <? dim_y bd); [|apply R1].
  apply (fold_pointwise (fun o r => inter_warp_step N rms_only o r)).
  - intros o r r'. apply inter_warp_step_ext.
  - exact R1.
Qed.


End ForwardReads.


(** * What cuComputeGradInput reads *)

Section GradInputReads.
Context {num : Type} (N : Numerics num).
Variables (dout input mean invvar gamma : ptr) (n1 n2 : nat) (rms_only : bool).
Variables (g g2 : @gmem num).
Hypothesis dout_eq : forall j, j < n1 * n2 ->
  load (n_zero N) g dout j = load (n_zero N) g2 dout j.
Hypothesis input_eq : forall j, j < n1 * n2 ->
  load (n_zero N) g input j = load (n_zero N) g2 input j.
Hypothesis mean_eq : rms_only = false -> forall i1, i1 < n1 ->
  load (n_zero N) g mean i1 = load (n_zero N) g2 mean i1.
Hypothesis invvar_eq : forall i1, i1 < n1 ->
  load (n_zero N) g invvar i1 = load (n_zero N) g2 invvar i1.
Hypothesis gamma_eq : forall l, l < n2 ->
  load (n_zero N) g gamma l = load (n_zero N) g2 gamma l.

Lemma grad_partial_ext (bd : dim3) (i1 : nat) (cm ci : num) (tx ty : nat) :
  i1 < n1 ->
  cuComputeGradInput_partial N bd dout input n2 gamma rms_only i1 cm ci g tx ty
  = cuComputeGradInput_partial N bd dout input n2 gamma rms_only i1 cm ci g2 tx ty.
Proof.
  intros Hi1. unfold cuComputeGradInput_partial. cbv zeta.
  destruct (negb (is_null gamma)); apply fold_left_ext_in; intros s l Hl;
    apply row_indices_lt in Hl;
    rewrite (dout_eq (i1 * n2 + l)), (input_eq (i1 * n2 + l)) by nia;
    rewrite ?(gamma_eq l Hl); reflexivity.
Qed.

Lemma grad_sums_ext (bd : dim3) (i1 : nat) (cm ci : num) (tx : nat) :
  i1 < n1 ->
  grad_sums N bd dout input n2 gamma rms_only i1 cm ci g tx
  = grad_sums N bd dout input n2 gamma rms_only i1 cm ci g2 tx.
Proof.
  intros Hi1. unfold grad_sums. cbv zeta.
  assert (R1 : forall tx ty,
    cuComputeGradInput_warp N bd rms_only
      (cuComputeGradInput_partial N bd dout input n2 gamma rms_only i1 cm ci g) tx ty
    = cuComputeGradInput_warp N bd rms_only
        (cuComputeGradInput_partial N bd dout input n2 gamma rms_only i1 cm ci g2)
        tx ty).
  { unfold cuComputeGradInput_warp.
    apply (fold_pointwise
             (fun mask (r : nat -> nat -> num * num) tx ty =>
                ((if negb rms_only
                  then n_add N (fst (r tx ty))
                         (shfl_xor_sync (fun lane => fst (r lane ty)) tx mask)
                  else fst (r tx ty)),
                 n_add N (snd (r tx ty))
                   (shfl_xor_sync (fun lane => snd (r lane ty)) tx mask)))).
    - intros o r r' H tx' ty'. unfold shfl_xor_sync. rewrite !H. reflexivity.
    - intros tx' ty'. apply grad_partial_ext. exact Hi1. }
  destruct (1 <? dim_y bd); [|apply R1].
  apply (fold_pointwise (fun o r => grad_inter_warp_step N rms_only o r)).
  - intros o r r' H tx' ty'. unfold grad_inter_warp_step. rewrite !H. reflexivity.
  - exact R1.
Qed.

Lemma grad_input_cell_ext (bd : dim3) (i1 l : nat) :
  i1 < n1 -> l < n2 ->
  grad_input_cell N bd dout input mean invvar gamma rms_only n2 g i1 l
  = grad_input_cell N bd dout input mean invvar gamma rms_only n2 g2 i1 l.
Proof.
  intros Hi1 Hl. unfold grad_input_cell. cbv zeta.
  rewrite (invvar_eq i1 Hi1).
  assert (M : (if negb rms_only then load (n_zero N) g mean i1 else n_zero N)
              = (if negb rms_only then load (n_zero N) g2 mean i1 else n_zero N)).
  { destruct rms_only eqn:R; cbn [negb]; [reflexivity|].
    apply mean_eq; [reflexivity|exact Hi1]. }
  rewrite M. rewrite grad_sums_ext by exact Hi1.
  unfold grad_input_value. cbv zeta.
  rewrite (dout_eq (i1 * n2 + l)), (input_eq (i1 * n2 + l)) by nia.
  rewrite (gamma_eq l Hl). reflexivity.
Qed.

End GradInputReads.



(** * What cuComputeGradGammaBeta reads *)

Lemma fold_pointwise_below {X R : Type}
  (step : X -> (nat -> nat -> R) -> nat -> nat -> R) (L : list X) (B : nat) :
  (forall o, In o L -> forall r r',
     (forall tx ty, ty < B -> r tx ty = r' tx ty) ->
     forall tx ty, ty < B -> step o r tx ty = step o r' tx ty) ->
  forall r r', (forall tx ty, ty < B -> r tx ty = r' tx ty) ->
  forall tx ty, ty < B ->
    fold_left (fun r o => step o r) L r tx ty
    = fold_left (fun r o => step o r) L r' tx ty.
Proof.
  induction L as [|o L IH]; intros Hs r r' H tx ty Hty; cbn [fold_left].
  - apply H. exact Hty.
  - apply IH; [| |exact Hty].
    + intros o' Ho'. apply Hs. now right.
    + apply Hs; [now left|exact H].
Qed.

Section GradGammaReads.
Context {num : Type} (N : Numerics num).

Lemma grad_gamma_registers_ext (bdy bz x pb ps n2 : nat) (g g2 : gmem)
  (tx ty : nat) :
  (forall j, j < ps * n2 -> g pb j = g2 pb j) ->
  ty < bdy ->
  grad_gamma_registers N (Dim3 32 bdy bz) x (Some pb) ps n2 g tx ty
  = grad_gamma_registers N (Dim3 32 bdy bz) x (Some pb) ps n2 g2 tx ty.
Proof.
  intros H Hty. unfold grad_gamma_registers. cbv zeta. cbn [dim_x dim_y].
  destruct (Nat.ltb_spec (x * 32 + tx) n2) as [Hi|Hi]; [|reflexivity].
  apply fold_left_ext_in. intros s wo Hwo.
  apply loop_while_in in Hwo. apply Nat.ltb_lt in Hwo.
  cbn [load]. rewrite H; [reflexivity|].
  pose proof (Nat.Div0.mul_div_le ps bdy) as D.
  assert (B : ty * (ps / bdy) + wo + 1 <= bdy * (ps / bdy)) by nia.
  nia.
Qed.

Lemma grad_gamma_sum_ext (bdy bz x pb ps n2 : nat) (g g2 : gmem) (tx : nat) :
  0 < bdy ->
  (forall j, j < ps * n2 -> g pb j = g2 pb j) ->
  grad_gamma_sum N (Dim3 32 bdy bz) x (Some pb) ps n2 g tx
  = grad_gamma_sum N (Dim3 32 bdy bz) x (Some pb) ps n2 g2 tx.
Proof.
  intros Hb H. unfold grad_gamma_sum. cbn [dim_x dim_y]. f_equal.
  apply (fold_pointwise_below
           (fun o r => grad_gamma_step N n2 x 32 o r) _ bdy); [| |exact Hb].
  - intros o Ho r r' Hr tx' ty' Hty'.
    rewrite (loop_while_ext _ (fun o => 0 <? o)) in Ho
      by (intros l; destruct l; reflexivity).
    apply loop_halving_range in Ho. destruct Ho as [H1 H2].
    pose proof (Nat.Div0.mul_div_le bdy 2) as H3.
    unfold grad_gamma_step.
    destruct (x * 32 + tx' <? n2); cbn [andb]; [|apply Hr; exact Hty'].
    destruct (Nat.ltb_spec ty' o) as [C|C]; [|apply Hr; exact Hty'].
    rewrite (Hr tx' ty' Hty'), (Hr tx' (ty' + o)) by lia. reflexivity.
  - intros tx' ty' Hty'. apply grad_gamma_registers_ext; assumption.
Qed.

(** X24.  cuComputeGradGammaBeta in RMS-only mode reads part_grad_gamma only
    in its first part_size * n2 cells: two memories that agree there give
    the same grad_gamma, for any arithmetic and block height, and whatever
    else the memories and the shared memory hold. *)
Theorem cuComputeGradGammaBeta_reads_in_bounds (bdy bz pb gg : nat)
  (pgb gb : ptr) (ps n1 n2 : nat) (gd : dim3)
  (junk junk2 : nat -> nat -> smem) (g g2 : gmem) :
  0 < bdy -> pb <> gg -> 0 < dim_y gd ->
  (forall j, j < ps * n2 -> g pb j = g2 pb j) ->
  let run := fun junk g =>
    launch_grid gd junk
      (fun x _ => cuComputeGradGammaBeta N (Dim3 32 bdy bz) x (Some pb) pgb ps
                    n1 n2 (Some gg) gb true) g in
  forall i2, i2 < n2 -> i2 < dim_x gd * 32 ->
    run junk g gg i2 = run junk2 g2 gg i2.
Proof.
  intros Hb D HG H. cbv zeta. intros i2 Hi2 Hc.
  destruct (grad_gamma_kernel N bdy bz pb gg pgb gb ps n1 n2 gd junk Hb D g)
    as (_ & C1 & _).
  destruct (grad_gamma_kernel N bdy bz pb gg pgb gb ps n1 n2 gd junk2 Hb D g2)
    as (_ & C2 & _).
  rewrite (C1 i2 Hi2 Hc HG), (C2 i2 Hi2 Hc HG).
  rewrite (grad_gamma_sum_ext bdy bz (i2 / 32) pb ps n2 g g2 (i2 mod 32) Hb H).
  reflexivity.
Qed.

End GradGammaReads.

Lemma cuComputeGradGammaBeta_reads_in_bounds_witness :
  let g : gmem := fun b i => Qc_of_nat (b + i) in
  let g2 : gmem := fun b i => if 48 <=? i then 0%Qc else Qc_of_nat (b + i) in
  let run := fun (junk : nat -> nat -> smem) g =>
    launch_grid (Dim3 1 1 1) junk
      (fun x _ => cuComputeGradGammaBeta (exactQ rsqrt_on_squares) (Dim3 32 8 1) x
                    (Some 6) (Some 6) 16 5 3 (Some 5) (Some 5) true) g in
  run (fun _ _ _ => 0%Qc) g 5 1 = run (fun _ _ j => Qc_of_nat j) g2 5 1.
Proof.
  cbv zeta.
  apply (cuComputeGradGammaBeta_reads_in_bounds (exactQ rsqrt_on_squares) 8 1 6 5
           (Some 6) (Some 5) 16 5 3 (Dim3 1 1 1)
           (fun _ _ _ => 0%Qc) (fun _ _ j => Qc_of_nat j)
           (fun b i => Qc_of_nat (b + i))
           (fun b i => if 48 <=? i then 0%Qc else Qc_of_nat (b + i)));
    cbn [dim_x dim_y]; try lia.
  intros j Hj. destruct (Nat.leb_spec 48 j); [lia|reflexivity].
Defined.

(** * The final reduction with rms_only = false *)

Section GradGammaBetaGeneric.
Context {num : Type} (N : Numerics num).
Variables (bdy bz bxi n2 : nat).

Local Abbreviation bd := (Dim3 32 bdy bz).

(** "top half write to shared memory", thread (tx1, ty1). *)
Local Abbreviation top_write o r :=
  (fun (tx1 ty1 : nat) (buf0 : nat -> num) =>
     if (bxi * 32 + tx1 <? n2) && (o <=? ty1) && (ty1 <? 2 * o)
     then upd (upd buf0 ((ty1 - o) * 32 + tx1) (fst (r tx1 ty1)))
              ((ty1 - o) * 32 + tx1 + 32 * bdy / 2) (snd (r tx1 ty1))
     else buf0).

Lemma grad_gamma_beta_phase (o : nat) (r : nat -> nat -> num * num) (buf : smem)
  (tx ty : nat) :
  0 < o -> 2 * o <= bdy -> tx < 32 ->
  (if (bxi * 32 + tx <? n2) && (ty <? o)
   then
     (n_add N (fst (r tx ty)) (foreach_thread bd (top_write o r) buf (ty * 32 + tx)),
      n_add N (snd (r tx ty))
        (foreach_thread bd (top_write o r) buf (ty * 32 + tx + 32 * bdy / 2)))
   else r tx ty)
  = grad_gamma_beta_step N n2 bxi 32 o r tx ty.
Proof.
  intros Ho Hby Htx. unfold grad_gamma_beta_step.
  destruct (Nat.ltb_spec (bxi * 32 + tx) n2) as [Hi|Hi]; [|reflexivity].
  destruct (Nat.ltb_spec ty o) as [Hty|Hty]; [|reflexivity].
  cbn [andb].
  assert (H3 : o * 32 <= 32 * bdy / 2).
  { apply Nat.div_le_lower_bound; lia. }
  set (n3 := 32 * bdy / 2) in *.
  f_equal; f_equal.
  - apply (foreach_thread_cell bd _ _ _ tx (ty + o)); cbn [dim_x dim_y]; try lia.
    + intros tx' ty' b Hx' Hy' Hb. cell_solve.
    + intros b. cell_solve.
  - apply (foreach_thread_cell bd _ _ _ tx (ty + o)); cbn [dim_x dim_y]; try lia.
    + intros tx' ty' b Hx' Hy' Hb. cell_solve.
    + intros b. cell_solve.
Qed.

Lemma grad_gamma_beta_loop (L : list nat) :
  (forall o, In o L -> 0 < o /\ 2 * o <= bdy) ->
  forall (r r' : nat -> nat -> num * num) (buf : smem),
  (forall tx ty, tx < 32 -> r tx ty = r' tx ty) ->
  forall tx ty, tx < 32 ->
    fst (fold_left
      (fun (st : (nat -> nat -> num * num) * smem) (offset : nat) =>
         (fun tx0 ty0 : nat =>
            if (bxi * 32 + tx0 <? n2) && (ty0 <? offset)
            then
              (n_add N (fst (fst st tx0 ty0))
                 (foreach_thread bd (top_write offset (fst st)) (snd st)
                    (ty0 * 32 + tx0)),
               n_add N (snd (fst st tx0 ty0))
                 (foreach_thread bd (top_write offset (fst st)) (snd st)
                    (ty0 * 32 + tx0 + 32 * bdy / 2)))
            else fst st tx0 ty0,
          foreach_thread bd (top_write offset (fst st)) (snd st)))
      L (r, buf)) tx ty
    = fold_left (fun r offset => grad_gamma_beta_step N n2 bxi 32 offset r) L r' tx ty.
Proof.
  induction L as [|o L IH]; intros HL r r' buf Hr tx ty Htx.
  - simpl. now apply Hr.
  - cbn [fold_left]. cbn [fst snd]. apply IH; [| |exact Htx].
    + intros o' Ho'. apply HL. now right.
    + intros tx' ty' Htx'. destruct (HL o (or_introl eq_refl)) as [H1 H2].
      rewrite (grad_gamma_beta_phase o r buf tx' ty' H1 H2 Htx').
      unfold grad_gamma_beta_step. rewrite !Hr by exact Htx'. reflexivity.
Qed.

(** What block [bxi] of cuComputeGradGammaBeta (32 x bdy threads,
    rms_only = false) stores, whatever the shared memory held on entry. *)
Lemma grad_gamma_beta_block (pb pbb gg bb : nat) (ps n1 : nat)
  (g : gmem) (buf : smem) :
  0 < bdy -> gg <> bb ->
  let g' := fst (cuComputeGradGammaBeta N bd bxi (Some pb) (Some pbb) ps n1 n2
                   (Some gg) (Some bb) false (g, buf)) in
  let s := fun tx => grad_gamma_beta_sum N bd bxi (Some pb) (Some pbb) ps n2 g tx in
  (forall b, b <> gg -> b <> bb -> g' b = g b) /\
  (forall j, g' gg j =
     if (bxi * 32 <=? j) && (j <? bxi * 32 + 32) && (j <? n2)
     then n_U2V N (fst (s (j - bxi * 32)))
     else g gg j) /\
  (forall j, g' bb j =
     if (bxi * 32 <=? j) && (j <? bxi * 32 + 32) && (j <? n2)
     then n_U2V N (snd (s (j - bxi * 32)))
     else g bb j).
Proof.
  intros Hbdy Hgb. cbv zeta. unfold cuComputeGradGammaBeta. cbv zeta.
  cbn [negb dim_x dim_y fst snd].
  set (L := fst (loop_while bdy (fun o => 1 <=? o) (fun o => o / 2) (bdy / 2))).
  assert (HL : forall o, In o L -> 0 < o /\ 2 * o <= bdy).
  { intros o Ho. unfold L in Ho.
    rewrite (loop_while_ext _ (fun o => 0 <? o)) in Ho
      by (intros l; destruct l; reflexivity).
    apply loop_halving_range in Ho. destruct Ho as [H1 H2].
    split; [exact H1|].
    pose proof (Nat.Div0.mul_div_le bdy 2). lia. }
  match goal with
  | |- context [fold_left ?F L (?r0, buf)] =>
      set (st := fold_left F L (r0, buf)); set (R0 := r0) in *
  end.
  assert (E : forall tx, tx < 32 ->
            fst st tx 0 = grad_gamma_beta_sum N bd bxi (Some pb) (Some pbb) ps n2 g tx).
  { intros tx Htx. unfold grad_gamma_beta_sum. cbn [dim_x dim_y]. fold L.
    subst st.
    apply (grad_gamma_beta_loop L HL R0); [|exact Htx].
    intros tx' ty' _. reflexivity. }
  clearbody st. clear R0.
  assert (Hbg : bb <> gg) by (intros X; apply Hgb; symmetry; exact X).
  split; [|split].
  - intros b Hb Hb'.
    apply (foreach_thread_inv bd _ (fun s : gmem => s b = g b)); [|reflexivity].
    intros tx ty s _ _ Hs.
    destruct ((bxi * 32 + tx <? n2) && (ty =? 0)); [|exact Hs].
    rewrite !store_other_buffer by assumption. exact Hs.
  - intros j.
    destruct ((bxi * 32 <=? j) && (j <? bxi * 32 + 32) && (j <? n2)) eqn:Hj.
    + apply andb_true_iff in Hj. destruct Hj as [Hj Hj3].
      apply andb_true_iff in Hj. destruct Hj as [Hj1 Hj2].
      apply Nat.leb_le in Hj1. apply Nat.ltb_lt in Hj2. apply Nat.ltb_lt in Hj3.
      rewrite <- E by lia.
      apply (foreach_thread_establish bd _ (fun _ => True)
               (fun s : gmem => s gg j = n_U2V N (fst (fst st (j - bxi * 32) 0)))
               (j - bxi * 32) 0); cbn [dim_x dim_y]; try lia; auto.
      * intros tx ty s Htx Hty _ Hs.
        destruct (Nat.ltb_spec (bxi * 32 + tx) n2) as [H1|H1]; [|exact Hs].
        destruct (Nat.eqb_spec ty 0) as [->|H2]; [|exact Hs].
        cbn [andb]. rewrite store_other_buffer by exact Hgb. rewrite store_cell.
        destruct (Nat.eqb_spec j (bxi * 32 + tx)) as [->|Hne]; [|exact Hs].
        replace (bxi * 32 + tx - bxi * 32) with tx by lia. reflexivity.
      * intros s _.
        replace (bxi * 32 + (j - bxi * 32)) with j by lia.
        apply Nat.ltb_lt in Hj3. rewrite Hj3. cbn [Nat.eqb andb].
        rewrite store_other_buffer by exact Hgb. rewrite store_same. reflexivity.
    + apply (foreach_thread_inv bd _ (fun s : gmem => s gg j = g gg j));
        [|reflexivity].
      intros tx ty s Htx Hty Hs. cbn [dim_x] in Htx.
      destruct (Nat.ltb_spec (bxi * 32 + tx) n2) as [H1|H1]; [|exact Hs].
      destruct (Nat.eqb_spec ty 0) as [->|H2]; [|exact Hs].
      cbn [andb]. rewrite store_other_buffer by exact Hgb. rewrite store_cell.
      destruct (Nat.eqb_spec j (bxi * 32 + tx)) as [->|Hne]; [|exact Hs].
      exfalso. apply andb_false_iff in Hj. destruct Hj as [Hj|Hj].
      * apply andb_false_iff in Hj. destruct Hj as [Hj|Hj].
        -- apply Nat.leb_gt in Hj. lia.
        -- apply Nat.ltb_ge in Hj. lia.
      * apply Nat.ltb_ge in Hj. lia.
  - intros j.
    destruct ((bxi * 32 <=? j) && (j <? bxi * 32 + 32) && (j <? n2)) eqn:Hj.
    + apply andb_true_iff in Hj. destruct Hj as [Hj Hj3].
      apply andb_true_iff in Hj. destruct Hj as [Hj1 Hj2].
      apply Nat.leb_le in Hj1. apply Nat.ltb_lt in Hj2. apply Nat.ltb_lt in Hj3.
      rewrite <- E by lia.
      apply (foreach_thread_establish bd _ (fun _ => True)
               (fun s : gmem => s bb j = n_U2V N (snd (fst st (j - bxi * 32) 0)))
               (j - bxi * 32) 0); cbn [dim_x dim_y]; try lia; auto.
      * intros tx ty s Htx Hty _ Hs.
        destruct (Nat.ltb_spec (bxi * 32 + tx) n2) as [H1|H1]; [|exact Hs].
        destruct (Nat.eqb_spec ty 0) as [->|H2]; [|exact Hs].
        cbn [andb]. rewrite store_cell.
        destruct (Nat.eqb_spec j (bxi * 32 + tx)) as [->|Hne].
        -- replace (bxi * 32 + tx - bxi * 32) with tx by lia. reflexivity.
        -- rewrite store_other_buffer by exact Hbg. exact Hs.
      * intros s _.
        replace (bxi * 32 + (j - bxi * 32)) with j by lia.
        apply Nat.ltb_lt in Hj3. rewrite Hj3. cbn [Nat.eqb andb].
        rewrite store_same. reflexivity.
    + apply (foreach_thread_inv bd _ (fun s : gmem => s bb j = g bb j));
        [|reflexivity].
      intros tx ty s Htx Hty Hs. cbn [dim_x] in Htx.
      destruct (Nat.ltb_spec (bxi * 32 + tx) n2) as [H1|H1]; [|exact Hs].
      destruct (Nat.eqb_spec ty 0) as [->|H2]; [|exact Hs].
      cbn [andb]. rewrite store_cell.
      destruct (Nat.eqb_spec j (bxi * 32 + tx)) as [->|Hne].
      * exfalso. apply andb_false_iff in Hj. destruct Hj as [Hj|Hj].
        -- apply andb_false_iff in Hj. destruct Hj as [Hj|Hj].
           ++ apply Nat.leb_gt in Hj. lia.
           ++ apply Nat.ltb_ge in Hj. lia.
        -- apply Nat.ltb_ge in Hj. lia.
      * rewrite store_other_buffer by exact Hbg. exact Hs.
Qed.

End GradGammaBetaGeneric.

Section GradGammaBetaKernel.
Context {num : Type} (N : Numerics num).
Variables (bdy bz pb pbb gg bb : nat) (ps n1 n2 : nat).
Variables (gd : dim3) (junk : nat -> nat -> @smem num).
Hypothesis bd_y : 0 < bdy.
Hypothesis gg_bb : gg <> bb.
Hypothesis pb_gg : pb <> gg.
Hypothesis pb_bb : pb <> bb.
Hypothesis pbb_gg : pbb <> gg.
Hypothesis pbb_bb : pbb <> bb.

Local Abbreviation bd := (Dim3 32 bdy bz).

Lemma grad_gamma_beta_sum_agree (g g' : @gmem num) (x tx : nat) :
  (forall b, b <> gg -> b <> bb -> g' b = g b) ->
  grad_gamma_beta_sum N bd x (Some pb) (Some pbb) ps n2 g' tx
  = grad_gamma_beta_sum N bd x (Some pb) (Some pbb) ps n2 g tx.
Proof.
  intros H. unfold grad_gamma_beta_sum, grad_gamma_beta_registers. cbv zeta.
  cbn [load]. rewrite (H pb), (H pbb) by assumption. reflexivity.
Qed.

(** cuComputeGradGammaBeta with rms_only = false on a grid of blocks of
    32 x bdy threads: grad_gamma[i2] and grad_beta[i2] are stored for the
    columns the grid covers; nothing else changes. *)
Lemma grad_gamma_beta_kernel (g : @gmem num) :
  let g' := launch_grid gd junk
              (fun x _ => cuComputeGradGammaBeta N bd x (Some pb) (Some pbb) ps n1 n2
                            (Some gg) (Some bb) false) g in
  let s := fun i2 =>
    grad_gamma_beta_sum N bd (i2 / 32) (Some pb) (Some pbb) ps n2 g (i2 mod 32) in
  (forall b, b <> gg -> b <> bb -> g' b = g b) /\
  (forall i2, i2 < n2 -> i2 < dim_x gd * 32 -> 0 < dim_y gd ->
     g' gg i2 = n_U2V N (fst (s i2)) /\ g' bb i2 = n_U2V N (snd (s i2))) /\
  (forall j, n2 <= j -> g' gg j = g gg j /\ g' bb j = g bb j).
Proof.
  cbv zeta.
  set (blk := fun (x _ : nat) => cuComputeGradGammaBeta N bd x (Some pb) (Some pbb)
                                   ps n1 n2 (Some gg) (Some bb) false).
  set (TB := fun b => b = gg \/ b = bb).
  set (tgt := fun (x y b j : nat) =>
         (x * 32 <=? j) && (j <? x * 32 + 32) && (j <? n2)).
  set (val := fun (g : @gmem num) (b j : nat) =>
         if b =? gg
         then n_U2V N (fst (grad_gamma_beta_sum N bd (j / 32) (Some pb) (Some pbb)
                              ps n2 g (j mod 32)))
         else n_U2V N (snd (grad_gamma_beta_sum N bd (j / 32) (Some pb) (Some pbb)
                              ps n2 g (j mod 32)))).
  assert (Hbg : (bb =? gg) = false) by (apply Nat.eqb_neq; auto).
  assert (BF : forall x y g buf b, x < dim_x gd -> y < dim_y gd -> ~ TB b ->
            fst (blk x y (g, buf)) b = g b).
  { intros x y g0 buf b _ _ Hb. unfold blk.
    destruct (grad_gamma_beta_block N bdy bz x n2 pb pbb gg bb ps n1 g0 buf
                bd_y gg_bb) as (F & _).
    apply F; intros ->; apply Hb; unfold TB; auto. }
  assert (BC : forall x y g buf b j, x < dim_x gd -> y < dim_y gd -> TB b ->
            fst (blk x y (g, buf)) b j = if tgt x y b j then val g b j else g b j).
  { intros x y g0 buf b j _ _ Hb. unfold blk, tgt, val.
    destruct (grad_gamma_beta_block N bdy bz x n2 pb pbb gg bb ps n1 g0 buf
                bd_y gg_bb) as (_ & V1 & V2).
    cbv zeta in V1, V2.
    destruct Hb as [->| ->].
    - rewrite Nat.eqb_refl, V1.
      destruct ((x * 32 <=? j) && (j <? x * 32 + 32) && (j <? n2)) eqn:C;
        [|reflexivity].
      apply andb_true_iff in C. destruct C as [C C3].
      apply andb_true_iff in C. destruct C as [C1 C2].
      apply Nat.leb_le in C1. apply Nat.ltb_lt in C2.
      destruct (block_cell_index x j C1 C2) as [-> ->]. reflexivity.
    - rewrite Hbg, V2.
      destruct ((x * 32 <=? j) && (j <? x * 32 + 32) && (j <? n2)) eqn:C;
        [|reflexivity].
      apply andb_true_iff in C. destruct C as [C C3].
      apply andb_true_iff in C. destruct C as [C1 C2].
      apply Nat.leb_le in C1. apply Nat.ltb_lt in C2.
      destruct (block_cell_index x j C1 C2) as [-> ->]. reflexivity. }
  assert (VS : forall g g' : @gmem num, (forall b, ~ TB b -> g' b = g b) ->
            forall b j, val g' b j = val g b j).
  { intros g0 g' H b j. unfold val.
    rewrite (grad_gamma_beta_sum_agree g0 g'); [reflexivity|].
    intros b' H1 H2. apply H. unfold TB. intros [X|X]; auto. }
  assert (TG : TB gg) by (unfold TB; auto).
  assert (TBb : TB bb) by (unfold TB; auto).
  split; [|split].
  - intros b Hb Hb'. apply (grid_frame blk gd TB junk BF).
    unfold TB. intros [X|X]; auto.
  - intros i2 H1 H2 H3.
    assert (T : tgt (i2 / 32) 0 gg i2 = true).
    { unfold tgt. apply andb_true_iff. split; [apply andb_true_iff; split|].
      - apply Nat.leb_le. dlia.
      - apply Nat.ltb_lt. dlia.
      - apply Nat.ltb_lt. exact H1. }
    assert (X : i2 / 32 < dim_x gd) by dlia.
    split.
    + rewrite (grid_cell_hit blk gd TB tgt val junk BF BC VS g (i2 / 32) 0 gg i2
                 TG X H3 T).
      unfold val. rewrite Nat.eqb_refl. reflexivity.
    + rewrite (grid_cell_hit blk gd TB tgt val junk BF BC VS g (i2 / 32) 0 bb i2
                 TBb X H3 T).
      unfold val. rewrite Hbg. reflexivity.
  - intros j Hj.
    assert (M : forall x y, x < dim_x gd -> y < dim_y gd -> tgt x y gg j = false).
    { intros x y _ _. unfold tgt. apply andb_false_iff. right.
      apply Nat.ltb_ge. exact Hj. }
    split.
    + apply (grid_cell_miss blk gd TB tgt val junk BC g gg j TG M).
    + apply (grid_cell_miss blk gd TB tgt val junk BC g bb j TBb M).
Qed.

End GradGammaBetaKernel.

Section GradGammaBetaExact.
Variable rsqrt_fn : Qc -> Qc.
Local Abbreviation E := (exactQ rsqrt_fn).

Lemma grad_gamma_beta_registers_exact (bdy bz x pb pbb ps n2 : nat) (g : gmem)
  (tx ty : nat) :
  x * 32 + tx < n2 ->
  grad_gamma_beta_registers E (Dim3 32 bdy bz) x (Some pb) (Some pbb) ps n2 g tx ty
  = (sum_upto (fun w => g pb ((ty * (ps / bdy) + w) * n2 + (x * 32 + tx))%nat)
              (ps / bdy),
     sum_upto (fun w => g pbb ((ty * (ps / bdy) + w) * n2 + (x * 32 + tx))%nat)
              (ps / bdy)).
Proof.
  intros Hi. unfold grad_gamma_beta_registers. cbv zeta. cbn [dim_x dim_y].
  apply Nat.ltb_lt in Hi. rewrite Hi. rewrite count_loop.
  rewrite (fold_pair_sums _ true
             (fun w => g pb (ty * (ps / bdy) * n2 + (x * 32 + tx) + w * n2)%nat)
             (fun w => g pbb (ty * (ps / bdy) * n2 + (x * 32 + tx) + w * n2)%nat)).
  - cbn [fst snd n_zero exactQ]. rewrite !sum_over_seq, !Qcplus_0_l.
    f_equal; apply sum_upto_ext; intros w _; f_equal; lia.
  - intros s w. cbn [fst snd n_add n_zero load exactQ]. reflexivity.
Qed.

(** With 8 warps the tree adds the eight registers of a lane: the partial
    rows 0 .. 8 * (part_size / 8) - 1 of the column, in both buffers. *)
Lemma grad_gamma_beta_sum_exact (bz x pb pbb ps n2 : nat) (g : gmem) (tx : nat) :
  x * 32 + tx < n2 ->
  grad_gamma_beta_sum E (Dim3 32 8 bz) x (Some pb) (Some pbb) ps n2 g tx
  = (sum_upto (fun p => g pb (p * n2 + (x * 32 + tx))%nat) (8 * (ps / 8)),
     sum_upto (fun p => g pbb (p * n2 + (x * 32 + tx))%nat) (8 * (ps / 8))).
Proof.
  intros Hi. unfold grad_gamma_beta_sum. cbn [dim_x dim_y].
  change (fst (loop_while 8 (fun o => 1 <=? o) (fun o => o / 2) (8 / 2)))
    with [4; 2; 1].
  cbn [fold_left]. unfold grad_gamma_beta_step.
  pose proof Hi as Hi'. apply Nat.ltb_lt in Hi'. rewrite Hi'.
  cbn [andb Nat.ltb Nat.leb Nat.add fst snd n_add exactQ].
  rewrite !grad_gamma_beta_registers_exact by exact Hi.
  cbn [fst snd].
  rewrite <- (sum_upto_rows (fun p => g pb (p * n2 + (x * 32 + tx))%nat) (ps / 8) 8).
  rewrite <- (sum_upto_rows (fun p => g pbb (p * n2 + (x * 32 + tx))%nat) (ps / 8) 8).
  cbn [sum_upto]. f_equal; ring.
Qed.


End GradGammaBetaExact.


(** * The partial sums with rms_only = false, exact arithmetic *)

(** for (k = 0; k < n; ++k) { buf[A1 + k] = v1 k; buf[A2 + k] = v2 k; } *)
Lemma fold_upd_cells2 (A1 A2 D n : nat) (v1 v2 : nat -> Qc) (buf : nat -> Qc)
  (a : nat) :
  A1 + D <= A2 -> n <= D ->
  fold_left (fun b k => upd (upd b (A1 + k) (v1 k)) (A2 + k) (v2 k)) (seq 0 n) buf a
  = if (A1 <=? a) && (a <? A1 + n) then v1 (a - A1)
    else if (A2 <=? a) && (a <? A2 + n) then v2 (a - A2)
    else buf a.
Proof.
  intros HD. induction n as [|n IH]; intros Hn.
  - cbn [seq fold_left]. bool_cases; try reflexivity; lia.
  - rewrite seq_S, fold_left_app. cbn [fold_left Nat.add]. unfold upd at 1 2.
    rewrite IH by lia.
    destruct (Nat.eqb_spec a (A2 + n)) as [->|H2].
    + replace (A2 + n - A2) with n by lia. bool_cases; try reflexivity; lia.
    + destruct (Nat.eqb_spec a (A1 + n)) as [->|H1].
      * replace (A1 + n - A1) with n by lia. bool_cases; try reflexivity; lia.
      * bool_cases; try reflexivity; lia.
Qed.

(** for (k = 0; k < n; ++k) if (c k) { buf[A1 + k] += v1 k; buf[A2 + k] += v2 k; } *)
Lemma fold_add_cells2 (A1 A2 D n : nat) (c : nat -> bool) (v1 v2 : nat -> Qc)
  (buf : nat -> Qc) (a : nat) :
  A1 + D <= A2 -> n <= D ->
  fold_left
    (fun b k =>
       if c k
       then upd (upd b (A1 + k) (b (A1 + k)%nat + v1 k)%Qc) (A2 + k)
                (upd b (A1 + k) (b (A1 + k)%nat + v1 k)%Qc (A2 + k)%nat + v2 k)%Qc
       else b)
    (seq 0 n) buf a
  = if (A1 <=? a) && (a <? A1 + n)
    then (buf a + if c (a - A1)%nat then v1 (a - A1)%nat else 0)%Qc
    else if (A2 <=? a) && (a <? A2 + n)
    then (buf a + if c (a - A2)%nat then v2 (a - A2)%nat else 0)%Qc
    else buf a.
Proof.
  intros HD. revert a. induction n as [|n IH]; intros a Hn.
  - cbn [seq fold_left]. bool_cases; try reflexivity; lia.
  - rewrite seq_S, fold_left_app. cbn [fold_left Nat.add].
    set (b := fold_left _ (seq 0 n) buf) in *.
    assert (Hb1 : b (A1 + n) = buf (A1 + n)).
    { rewrite (IH (A1 + n)) by lia. bool_cases; try reflexivity; lia. }
    assert (Hb2 : b (A2 + n) = buf (A2 + n)).
    { rewrite (IH (A2 + n)) by lia. bool_cases; try reflexivity; lia. }
    destruct (c n) eqn:Cn.
    + unfold upd.
      assert (N12 : (A2 + n =? A1 + n) = false) by (apply Nat.eqb_neq; lia).
      rewrite N12, Hb1, Hb2.
      destruct (Nat.eqb_spec a (A2 + n)) as [->|H2].
      * replace (A2 + n - A2) with n by lia. rewrite Cn.
        bool_cases; try reflexivity; lia.
      * destruct (Nat.eqb_spec a (A1 + n)) as [->|H1].
        -- replace (A1 + n - A1) with n by lia. rewrite Cn.
           bool_cases; try reflexivity; lia.
        -- rewrite (IH a) by lia. bool_cases; try reflexivity; lia.
    + rewrite (IH a) by lia.
      destruct (Nat.eqb_spec a (A2 + n)) as [->|H2].
      * replace (A2 + n - A2) with n by lia. rewrite Cn.
        bool_cases; try lia; ring.
      * destruct (Nat.eqb_spec a (A1 + n)) as [->|H1].
        -- replace (A1 + n - A1) with n by lia. rewrite Cn.
           bool_cases; try lia; ring.
        -- bool_cases; try reflexivity; lia.
Qed.

Section StridedLoadsFull.
Variable rsqrt_fn : Qc -> Qc.
Local Abbreviation E := (exactQ rsqrt_fn).
Variable bd : dim3.
Hypothesis bd_y : dim_y bd = 4.
Variables (g : @gmem Qc) (db xb mb ib : nat) (i1_end n2 : nat).
Variables (ro co i2o : nat).

Local Abbreviation A1 := (0 + (ro * 33 + co)).
Local Abbreviation A2 := (528 + (ro * 33 + co)).
Local Abbreviation t1 := (grad_beta_term g db n2).
Local Abbreviation t2 := (grad_gamma_term_full g db xb mb ib n2).

Lemma cuLoadWriteStridedInputs_cell2 (i1b : nat) (buf : smem) (a : nat) :
  cuLoadWriteStridedInputs E bd i1b ro co i2o 33 0 528 g (Some xb) (Some db)
                           i1_end n2 (Some mb) (Some ib) false buf a
  = if (A1 <=? a) && (a <? A1 + 4)
    then tile_cell t1 i1_end n2 (i1b + ro) (i2o + (a - A1))
    else if (A2 <=? a) && (a <? A2 + 4)
    then tile_cell t2 i1_end n2 (i1b + ro) (i2o + (a - A2))
    else buf a.
Proof.
  unfold cuLoadWriteStridedInputs. cbv zeta. rewrite bd_y. cbn [negb].
  destruct (i1b + ro <? i1_end) eqn:Hi.
  - rewrite (fold_left_ext_in _
               (fun b k => upd (upd b (A1 + k)
                                  (tile_cell t1 i1_end n2 (i1b + ro) (i2o + k)))
                               (A2 + k)
                               (tile_cell t2 i1_end n2 (i1b + ro) (i2o + k)))).
    + rewrite (fold_upd_cells2 A1 A2 4 4) by lia. reflexivity.
    + intros s k _. unfold tile_cell, grad_beta_term, grad_gamma_term_full.
      rewrite Hi. cbn [andb].
      replace (0 + (ro * 33 + co + k)) with (A1 + k) by lia.
      replace (528 + (ro * 33 + co + k)) with (A2 + k) by lia.
      destruct (i2o + k <? n2); reflexivity.
  - rewrite (fold_left_ext_in _
               (fun b k => upd (upd b (A1 + k)
                                  (tile_cell t1 i1_end n2 (i1b + ro) (i2o + k)))
                               (A2 + k)
                               (tile_cell t2 i1_end n2 (i1b + ro) (i2o + k)))).
    + rewrite (fold_upd_cells2 A1 A2 4 4) by lia. reflexivity.
    + intros s k _. unfold tile_cell. rewrite Hi. cbn [andb].
      replace (0 + (ro * 33 + co + k)) with (A1 + k) by lia.
      replace (528 + (ro * 33 + co + k)) with (A2 + k) by lia. reflexivity.
Qed.

Lemma cuLoadAddStridedInputs_cell2 (i1b : nat) (buf : smem) (a : nat) :
  cuLoadAddStridedInputs E bd i1b ro co i2o 33 0 528 g (Some xb) (Some db)
                         i1_end n2 (Some mb) (Some ib) false buf a
  = if (A1 <=? a) && (a <? A1 + 4)
    then (buf a + tile_cell t1 i1_end n2 (i1b + ro) (i2o + (a - A1)))%Qc
    else if (A2 <=? a) && (a <? A2 + 4)
    then (buf a + tile_cell t2 i1_end n2 (i1b + ro) (i2o + (a - A2)))%Qc
    else buf a.
Proof.
  unfold cuLoadAddStridedInputs. cbv zeta. rewrite bd_y. cbn [negb].
  destruct (i1b + ro <? i1_end) eqn:Hi.
  - rewrite (fold_left_ext_in _
               (fun b k =>
                  if i2o + k <? n2
                  then upd (upd b (A1 + k) (b (A1 + k)%nat + t1 (i2o + k) (i1b + ro))%Qc)
                           (A2 + k)
                           (upd b (A1 + k) (b (A1 + k)%nat + t1 (i2o + k) (i1b + ro))%Qc
                                (A2 + k)%nat
                            + t2 (i2o + k) (i1b + ro))%Qc
                  else b)).
    + rewrite (fold_add_cells2 A1 A2 4 4 (fun k => i2o + k <? n2)
                 (fun k => t1 (i2o + k) (i1b + ro))
                 (fun k => t2 (i2o + k) (i1b + ro))) by lia.
      unfold tile_cell. rewrite Hi. cbn [andb]. reflexivity.
    + intros s k _. unfold grad_beta_term, grad_gamma_term_full.
      replace (0 + (ro * 33 + co + k)) with (A1 + k) by lia.
      replace (528 + (ro * 33 + co + k)) with (A2 + k) by lia. reflexivity.
  - unfold tile_cell. rewrite Hi. cbn [andb].
    destruct ((A1 <=? a) && (a <? A1 + 4)); [ring|].
    destruct ((A2 <=? a) && (a <? A2 + 4)); [ring|reflexivity].
Qed.

Lemma load_add_fold2 (L : list nat) :
  forall (buf : smem) (a : nat),
  fold_left
    (fun buf i1_block =>
       cuLoadAddStridedInputs E bd i1_block ro co i2o 33 0 528 g (Some xb) (Some db)
                              i1_end n2 (Some mb) (Some ib) false buf)
    L buf a
  = if (A1 <=? a) && (a <? A1 + 4)
    then (buf a
          + sum_over (fun blk => tile_cell t1 i1_end n2 (blk + ro)
                                           (i2o + (a - A1))) L)%Qc
    else if (A2 <=? a) && (a <? A2 + 4)
    then (buf a
          + sum_over (fun blk => tile_cell t2 i1_end n2 (blk + ro)
                                           (i2o + (a - A2))) L)%Qc
    else buf a.
Proof.
  induction L as [|blk L IH]; intros buf a; cbn [fold_left].
  - cbn [sum_over fold_right].
    destruct ((A1 <=? a) && (a <? A1 + 4)); [ring|].
    destruct ((A2 <=? a) && (a <? A2 + 4)); [ring|reflexivity].
  - rewrite IH, cuLoadAddStridedInputs_cell2.
    destruct ((A1 <=? a) && (a <? A1 + 4)); [rewrite sum_over_cons; ring|].
    destruct ((A2 <=? a) && (a <? A2 + 4)); [|reflexivity].
    rewrite sum_over_cons. ring.
Qed.

End StridedLoadsFull.

Section TilesFull.
Variable rsqrt_fn : Qc -> Qc.
Local Abbreviation E := (exactQ rsqrt_fn).
Variable bd : dim3.
Hypothesis bd_x : dim_x bd = 32.
Hypothesis bd_y : dim_y bd = 4.
Variables (g : @gmem Qc) (db xb mb ib : nat).
Variables (bxi i1_beg i1_end n1 n2 : nat).

Local Abbreviation t1 := (grad_beta_term g db n2).
Local Abbreviation t2 := (grad_gamma_term_full g db xb mb ib n2).

(** The tile blocks after the first: i1_beg + 16, i1_beg + 32, ... *)
Local Abbreviation blocks :=
  (fst (loop_while n1 (fun b => b <? i1_end) (fun b => b + 4 * 4) (i1_beg + 4 * 4))).

(** What the loads accumulate in the cell (r, c) of a tile. *)
Local Abbreviation tile_sum t r i2 :=
  (tile_cell t i1_end n2 (i1_beg + r) i2
   + sum_over (fun blk => tile_cell t i1_end n2 (blk + r) i2) blocks)%Qc.

Lemma load_thread_cell2 (tx ty : nat) (buf : smem) (a : nat) :
  cuComputePartGradGammaBeta_load E bd bxi i1_beg i1_end g (Some db) (Some xb)
    n1 n2 (Some mb) (Some ib) false tx ty buf a
  = if (0 + ((tx * 4 / 32 + ty * 4) * 33 + (tx * 4) mod 32) <=? a)
       && (a <? 0 + ((tx * 4 / 32 + ty * 4) * 33 + (tx * 4) mod 32) + 4)
    then tile_sum t1 (tx * 4 / 32 + ty * 4)
           (bxi * 32 + (tx * 4) mod 32
            + (a - (0 + ((tx * 4 / 32 + ty * 4) * 33 + (tx * 4) mod 32))))
    else if (528 + ((tx * 4 / 32 + ty * 4) * 33 + (tx * 4) mod 32) <=? a)
       && (a <? 528 + ((tx * 4 / 32 + ty * 4) * 33 + (tx * 4) mod 32) + 4)
    then tile_sum t2 (tx * 4 / 32 + ty * 4)
           (bxi * 32 + (tx * 4) mod 32
            + (a - (528 + ((tx * 4 / 32 + ty * 4) * 33 + (tx * 4) mod 32))))
    else buf a.
Proof.
  unfold cuComputePartGradGammaBeta_load. cbv zeta. rewrite !bd_x, !bd_y.
  change (32 + 1) with 33. change (32 - 1) with 31.
  change (0 + 4 * 4 * 33) with 528. rewrite land_31.
  rewrite (load_add_fold2 rsqrt_fn bd bd_y g db xb mb ib i1_end n2).
  rewrite !(cuLoadWriteStridedInputs_cell2 rsqrt_fn bd bd_y g db xb mb ib i1_end n2).
  destruct (_ && _); [reflexivity|].
  destruct (_ && _); reflexivity.
Qed.

(** After the loads of all threads, every cell of the two tiles holds its
    sum, whatever the shared memory held on entry. *)
Lemma load_phase_cell2 (buf : smem) (r c : nat) :
  r < 16 -> c < 32 ->
  foreach_thread bd
    (cuComputePartGradGammaBeta_load E bd bxi i1_beg i1_end g (Some db) (Some xb)
       n1 n2 (Some mb) (Some ib) false)
    buf (0 + (r * 33 + c))
  = tile_sum t1 r (bxi * 32 + c) /\
  foreach_thread bd
    (cuComputePartGradGammaBeta_load E bd bxi i1_beg i1_end g (Some db) (Some xb)
       n1 n2 (Some mb) (Some ib) false)
    buf (528 + (r * 33 + c))
  = tile_sum t2 r (bxi * 32 + c).
Proof.
  intros Hr Hc.
  assert (R0 : (8 * (r mod 4) + c / 4) * 4 / 32 + r / 4 * 4 = r) by dlia.
  assert (C0 : ((8 * (r mod 4) + c / 4) * 4) mod 32 <= c
               /\ c < ((8 * (r mod 4) + c / 4) * 4) mod 32 + 4) by dlia.
  split.
  - apply (foreach_thread_cell bd _ _ _ (8 * (r mod 4) + c / 4) (r / 4));
      rewrite ?bd_x, ?bd_y; try dlia.
    + intros tx ty b Hx Hy Hb. rewrite load_thread_cell2.
      match goal with |- (if ?c then _ else _) = _ => destruct c eqn:C end.
      * apply andb_true_iff in C. destruct C as [C1 C2].
        apply Nat.leb_le in C1. apply Nat.ltb_lt in C2.
        assert (R : tx * 4 / 32 + ty * 4 = r) by dlia.
        assert (Cc : (tx * 4) mod 32
                     + (0 + (r * 33 + c)
                        - (0 + ((tx * 4 / 32 + ty * 4) * 33 + (tx * 4) mod 32))) = c)
          by dlia.
        rewrite R in *. rewrite <- Nat.add_assoc, Cc. reflexivity.
      * match goal with |- (if ?c then _ else _) = _ => destruct c eqn:C' end;
          [|exact Hb].
        apply andb_true_iff in C'. destruct C' as [C1 C2].
        apply Nat.leb_le in C1. exfalso. dlia.
    + intros b. rewrite load_thread_cell2. rewrite R0.
      assert (C : (0 + (r * 33 + ((8 * (r mod 4) + c / 4) * 4) mod 32)
                   <=? 0 + (r * 33 + c))
                  && (0 + (r * 33 + c)
                      <? 0 + (r * 33 + ((8 * (r mod 4) + c / 4) * 4) mod 32) + 4)
                  = true).
      { apply andb_true_iff. split; [apply Nat.leb_le|apply Nat.ltb_lt]; lia. }
      rewrite C.
      assert (Cc : ((8 * (r mod 4) + c / 4) * 4) mod 32
                   + (0 + (r * 33 + c)
                      - (0 + (r * 33 + ((8 * (r mod 4) + c / 4) * 4) mod 32))) = c)
        by lia.
      rewrite <- Nat.add_assoc, Cc. reflexivity.
  - apply (foreach_thread_cell bd _ _ _ (8 * (r mod 4) + c / 4) (r / 4));
      rewrite ?bd_x, ?bd_y; try dlia.
    + intros tx ty b Hx Hy Hb. rewrite load_thread_cell2.
      match goal with |- (if ?c then _ else _) = _ => destruct c eqn:C end.
      * apply andb_true_iff in C. destruct C as [C1 C2].
        apply Nat.ltb_lt in C2. exfalso. dlia.
      * match goal with |- (if ?c then _ else _) = _ => destruct c eqn:C' end;
          [|exact Hb].
        apply andb_true_iff in C'. destruct C' as [C1 C2].
        apply Nat.leb_le in C1. apply Nat.ltb_lt in C2.
        assert (R : tx * 4 / 32 + ty * 4 = r) by dlia.
        assert (Cc : (tx * 4) mod 32
                     + (528 + (r * 33 + c)
                        - (528 + ((tx * 4 / 32 + ty * 4) * 33 + (tx * 4) mod 32))) = c)
          by dlia.
        rewrite R in *. rewrite <- Nat.add_assoc, Cc. reflexivity.
    + intros b. rewrite load_thread_cell2. rewrite R0.
      assert (C : (0 + (r * 33 + ((8 * (r mod 4) + c / 4) * 4) mod 32)
                   <=? 528 + (r * 33 + c))
                  && (528 + (r * 33 + c)
                      <? 0 + (r * 33 + ((8 * (r mod 4) + c / 4) * 4) mod 32) + 4)
                  = false).
      { apply andb_false_iff. right. apply Nat.ltb_ge. lia. }
      rewrite C.
      assert (C' : (528 + (r * 33 + ((8 * (r mod 4) + c / 4) * 4) mod 32)
                    <=? 528 + (r * 33 + c))
                   && (528 + (r * 33 + c)
                       <? 528 + (r * 33 + ((8 * (r mod 4) + c / 4) * 4) mod 32) + 4)
                   = true).
      { apply andb_true_iff. split; [apply Nat.leb_le|apply Nat.ltb_lt]; lia. }
      rewrite C'.
      assert (Cc : ((8 * (r mod 4) + c / 4) * 4) mod 32
                   + (528 + (r * 33 + c)
                      - (528 + (r * 33 + ((8 * (r mod 4) + c / 4) * 4) mod 32))) = c)
        by lia.
      rewrite <- Nat.add_assoc, Cc. reflexivity.
Qed.

End TilesFull.

Section ReductionsFull.
Variable rsqrt_fn : Qc -> Qc.
Local Abbreviation E := (exactQ rsqrt_fn).
Variable bd : dim3.
Hypothesis bd_x : dim_x bd = 32.
Hypothesis bd_y : dim_y bd = 4.

(** The sum of the rows ty, ty + 4, ty + 8, ty + 12 of the tile at [W]. *)
Local Abbreviation rows4 s W tx ty :=
  (s (W + (ty * 33 + tx))%nat + s (W + ((ty + 4) * 33 + tx))%nat
   + s (W + ((ty + 8) * 33 + tx))%nat + s (W + ((ty + 12) * 33 + tx))%nat)%Qc.

Lemma warp_thread2 (tx ty : nat) (s : smem) :
  cuComputePartGradGammaBeta_warp E bd false tx ty s
  = upd (upd s (0 + (ty * 33 + tx)) (rows4 s 0 tx ty))
        (528 + (ty * 33 + tx)) (rows4 s 528 tx ty).
Proof.
  unfold cuComputePartGradGammaBeta_warp. cbv zeta. rewrite !bd_x, !bd_y.
  change (32 + 1) with 33. change (0 + 4 * 4 * 33) with 528.
  cbn [negb seq fold_left fst snd n_zero n_add exactQ].
  change (0 * 4) with 0. change (1 * 4) with 4. change (2 * 4) with 8.
  change (3 * 4) with 12. rewrite Nat.add_0_r.
  f_equal; [f_equal|]; ring.
Qed.

Lemma fold_thread2 (o tx ty : nat) (s : smem) :
  cuComputePartGradGammaBeta_fold E bd false o tx ty s
  = if ty <? o
    then upd (upd s (0 + (ty * 33 + tx))
                (s (0 + (ty * 33 + tx))%nat + s (0 + ((ty + o) * 33 + tx))%nat)%Qc)
             (528 + (ty * 33 + tx))
             (s (528 + (ty * 33 + tx))%nat + s (528 + ((ty + o) * 33 + tx))%nat)%Qc
    else s.
Proof.
  unfold cuComputePartGradGammaBeta_fold. cbv zeta. rewrite !bd_x, !bd_y.
  change (32 + 1) with 33. change (0 + 4 * 4 * 33) with 528.
  cbn [negb n_add exactQ].
  destruct (ty <? o); [|reflexivity].
  f_equal. unfold upd.
  assert (N1 : (528 + (ty * 33 + tx) =? 0 + (ty * 33 + tx)) = false)
    by (apply Nat.eqb_neq; lia).
  assert (N2 : (528 + ((ty + o) * 33 + tx) =? 0 + (ty * 33 + tx)) = false)
    by (apply Nat.eqb_neq; lia).
  rewrite N1, N2. reflexivity.
Qed.

(** "sum within each warp": row ty of each tile receives the sum of its
    rows ty, ty + 4, ty + 8, ty + 12. *)
Lemma warp_phase_cell2 (s : smem) (W tx ty : nat) :
  W = 0 \/ W = 528 -> tx < 32 -> ty < 4 ->
  foreach_thread bd (cuComputePartGradGammaBeta_warp E bd false) s
    (W + (ty * 33 + tx))
  = rows4 s W tx ty.
Proof.
  intros HW Hx Hy.
  rewrite (foreach_thread_owner bd _
             (fun c => c = W + (ty * 33 + tx) \/ c = W + ((ty + 4) * 33 + tx)
                       \/ c = W + ((ty + 8) * 33 + tx)
                       \/ c = W + ((ty + 12) * 33 + tx)) tx ty);
    rewrite ?bd_x, ?bd_y; try assumption.
  - rewrite warp_thread2. unfold upd.
    destruct HW as [-> | ->]; bool_cases; try lia; reflexivity.
  - intros tx' ty' s' c Hx' Hy' Hne Oc. rewrite warp_thread2. unfold upd.
    destruct (Nat.eqb_spec c (528 + (ty' * 33 + tx'))) as [->|].
    + exfalso. apply Hne. assert (tx' = tx /\ ty' = ty) as [-> ->] by lia.
      reflexivity.
    + destruct (Nat.eqb_spec c (0 + (ty' * 33 + tx'))) as [->|]; [|reflexivity].
      exfalso. apply Hne. assert (tx' = tx /\ ty' = ty) as [-> ->] by lia.
      reflexivity.
  - intros s1 s2 H c Oc. rewrite !warp_thread2. unfold upd.
    destruct (Nat.eqb_spec c (528 + (ty * 33 + tx))) as [->|].
    + destruct HW as [-> | ->]; [exfalso; lia|]. rewrite !H by tauto. reflexivity.
    + destruct (Nat.eqb_spec c (0 + (ty * 33 + tx))) as [->|]; [|now apply H].
      destruct HW as [-> | ->]; [|exfalso; lia]. rewrite !H by tauto. reflexivity.
  - left. reflexivity.
Qed.

(** One trip of "sum all warps": row ty < offset of each tile receives its
    row ty + offset. *)
Lemma fold_phase_cell2 (o : nat) (s : smem) (W tx ty : nat) :
  W = 0 \/ W = 528 -> tx < 32 -> ty < o -> 2 * o <= 4 ->
  foreach_thread bd (cuComputePartGradGammaBeta_fold E bd false o) s
    (W + (ty * 33 + tx))
  = (s (W + (ty * 33 + tx))%nat + s (W + ((ty + o) * 33 + tx))%nat)%Qc.
Proof.
  intros HW Hx Hy Ho.
  rewrite (foreach_thread_owner bd _
             (fun c => c = W + (ty * 33 + tx) \/ c = W + ((ty + o) * 33 + tx))
             tx ty);
    rewrite ?bd_x, ?bd_y; try assumption; try lia.
  - rewrite fold_thread2. apply Nat.ltb_lt in Hy. rewrite Hy.
    unfold upd. destruct HW as [-> | ->]; bool_cases; try lia; reflexivity.
  - intros tx' ty' s' c Hx' Hy' Hne Oc. rewrite fold_thread2.
    destruct (Nat.ltb_spec ty' o) as [Hlt|]; [|reflexivity]. unfold upd.
    destruct (Nat.eqb_spec c (528 + (ty' * 33 + tx'))) as [->|].
    + exfalso. apply Hne. assert (tx' = tx /\ ty' = ty) as [-> ->] by lia.
      reflexivity.
    + destruct (Nat.eqb_spec c (0 + (ty' * 33 + tx'))) as [->|]; [|reflexivity].
      exfalso. apply Hne. assert (tx' = tx /\ ty' = ty) as [-> ->] by lia.
      reflexivity.
  - intros s1 s2 H c Oc. rewrite !fold_thread2.
    apply Nat.ltb_lt in Hy. rewrite Hy. unfold upd.
    destruct (Nat.eqb_spec c (528 + (ty * 33 + tx))) as [->|].
    + destruct HW as [-> | ->]; [exfalso; lia|]. rewrite !H by tauto. reflexivity.
    + destruct (Nat.eqb_spec c (0 + (ty * 33 + tx))) as [->|]; [|now apply H].
      destruct HW as [-> | ->]; [|exfalso; lia]. rewrite !H by tauto. reflexivity.
Qed.

End ReductionsFull.

(** The 16 rows of a tile, each with its loads from every tile block, hold
    the terms of the rows i1_beg <= i1 < i1_end. *)
Lemma tile_cell_rows_sum (t : nat -> nat -> Qc) (i1_beg i1_end n1 n2 i2 : nat) :
  i2 < n2 -> i1_end <= n1 ->
  sum_upto
    (fun r =>
       Qcplus (tile_cell t i1_end n2 (i1_beg + r) i2)
         (sum_over (fun blk => tile_cell t i1_end n2 (blk + r) i2)
            (fst (loop_while n1 (fun b => b <? i1_end) (fun b => b + 4 * 4)
                             (i1_beg + 4 * 4))))) 16
  = sum_over (t i2) (seq i1_beg (i1_end - i1_beg)).
Proof.
  intros Hi2 Hend.
  assert (H : exists k,
    loop_while n1 (fun b => b <? i1_end) (fun b => b + 4 * 4) (i1_beg + 4 * 4) =
      (map (fun j => i1_beg + 4 * 4 + j * 16) (seq 0 k), i1_beg + 4 * 4 + k * 16) /\
    (forall j, j < k -> i1_beg + 4 * 4 + j * 16 + 0 < i1_end) /\
    i1_end <= i1_beg + 4 * 4 + k * 16 + 0).
  { apply loop_up; try lia; intros l; rewrite ?Nat.add_0_r; reflexivity. }
  destruct H as (k & EL & _ & Hex). rewrite EL. cbn [fst].
  set (W := fun i => tile_cell t i1_end n2 (i1_beg + i) i2).
  transitivity (sum_upto (fun r => sum_upto (fun j => W (j * 16 + r)%nat)
                                            (Datatypes.S k)) 16).
  { apply sum_upto_ext. intros r _.
    rewrite sum_upto_first, sum_over_map, sum_over_seq. unfold W. f_equal.
    apply sum_upto_ext. intros j _. f_equal. lia. }
  rewrite sum_upto_cols.
  rewrite (sum_upto_zero_tail W (i1_end - i1_beg)).
  - rewrite sum_over_interval. apply sum_upto_ext. intros i Hi.
    unfold W, tile_cell.
    assert (C : (i1_beg + i <? i1_end) && (i2 <? n2) = true).
    { apply andb_true_iff. split; apply Nat.ltb_lt; lia. }
    rewrite C. reflexivity.
  - lia.
  - intros i Hi. unfold W, tile_cell.
    assert (C : (i1_beg + i <? i1_end) = false) by (apply Nat.ltb_ge; lia).
    rewrite C. reflexivity.
Qed.

Section TileSumsFull.
Variable rsqrt_fn : Qc -> Qc.
Local Abbreviation E := (exactQ rsqrt_fn).
Variable bd : dim3.
Hypothesis bd_x : dim_x bd = 32.
Hypothesis bd_y : dim_y bd = 4.

(** The partial sums that thread (tx, 0) of block (bxi, byi) stores with
    rms_only = false: in each tile the two cells that the reductions leave in
    rows 0 and 1 add up to the terms of the rows of the block, whatever the
    shared memory held. *)
Lemma tiles_column_sum2 (gd : dim3) (bxi byi db xb mb ib : nat)
  (n1 n2 : nat) (g : gmem) (buf : smem) (tx : nat) :
  tx < 32 -> bxi * 32 + tx < n2 ->
  let buf3 := cuComputePartGradGammaBeta_tiles E bd gd bxi byi (Some db)
                (Some xb) n1 n2 (Some mb) (Some ib) false g buf in
  (buf3 (0 + (0 * 33 + tx))%nat + buf3 (0 + ((0 + 1) * 33 + tx))%nat)%Qc
  = sum_over (grad_beta_term g db n2 (bxi * 32 + tx))
             (part_rows 4 (dim_y gd) n1 byi) /\
  (buf3 (528 + (0 * 33 + tx))%nat + buf3 (528 + ((0 + 1) * 33 + tx))%nat)%Qc
  = sum_over (grad_gamma_term_full g db xb mb ib n2 (bxi * 32 + tx))
             (part_rows 4 (dim_y gd) n1 byi).
Proof.
  intros Htx Hi2. cbv zeta. unfold cuComputePartGradGammaBeta_tiles, part_rows.
  cbv zeta. rewrite !bd_y.
  change (fst (loop_while 4 (fun o => 1 <? o) (fun o => o / 2) (4 / 2)))
    with [2].
  cbn [fold_left].
  set (i1_beg := byi * (((n1 + 4 * 4 - 1) / (4 * 4) + dim_y gd - 1) / dim_y gd)
                 * 4 * 4).
  set (i1_bpo := (byi + 1) * (((n1 + 4 * 4 - 1) / (4 * 4) + dim_y gd - 1) / dim_y gd)
                 * 4 * 4).
  set (i1_end := if i1_bpo <? n1 then i1_bpo else n1).
  assert (Hend : i1_end <= n1).
  { unfold i1_end. destruct (Nat.ltb_spec i1_bpo n1); lia. }
  rewrite <- (tile_cell_rows_sum (grad_beta_term g db n2) i1_beg i1_end n1 n2
                (bxi * 32 + tx) Hi2 Hend).
  rewrite <- (tile_cell_rows_sum (grad_gamma_term_full g db xb mb ib n2)
                i1_beg i1_end n1 n2 (bxi * 32 + tx) Hi2 Hend).
  rewrite !(fold_phase_cell2 rsqrt_fn bd bd_x bd_y) by (auto; lia).
  rewrite !(warp_phase_cell2 rsqrt_fn bd bd_x bd_y) by (auto; lia).
  set (ld := foreach_thread bd _ buf).
  set (blocks := fst (loop_while n1 (fun b => b <? i1_end) (fun b => b + 4 * 4)
                                  (i1_beg + 4 * 4))) in *.
  assert (L : forall r, r < 16 ->
     ld (0 + (r * 33 + tx))
     = Qcplus
         (tile_cell (grad_beta_term g db n2) i1_end n2 (i1_beg + r) (bxi * 32 + tx))
         (sum_over (fun blk => tile_cell (grad_beta_term g db n2) i1_end n2
                                 (blk + r) (bxi * 32 + tx)) blocks) /\
     ld (528 + (r * 33 + tx))
     = Qcplus
         (tile_cell (grad_gamma_term_full g db xb mb ib n2) i1_end n2 (i1_beg + r)
            (bxi * 32 + tx))
         (sum_over (fun blk => tile_cell (grad_gamma_term_full g db xb mb ib n2)
                                 i1_end n2 (blk + r) (bxi * 32 + tx)) blocks)).
  { intros r Hr. unfold ld.
    apply (load_phase_cell2 rsqrt_fn bd bd_x bd_y g db xb mb ib bxi i1_beg i1_end
             n1 n2 buf r tx Hr Htx). }
  clearbody ld.
  cbn [Nat.add] in *.
  pose proof (L 0 ltac:(lia)) as [A0 B0]. pose proof (L 1 ltac:(lia)) as [A1 B1].
  pose proof (L 2 ltac:(lia)) as [A2 B2]. pose proof (L 3 ltac:(lia)) as [A3 B3].
  pose proof (L 4 ltac:(lia)) as [A4 B4]. pose proof (L 5 ltac:(lia)) as [A5 B5].
  pose proof (L 6 ltac:(lia)) as [A6 B6]. pose proof (L 7 ltac:(lia)) as [A7 B7].
  pose proof (L 8 ltac:(lia)) as [A8 B8]. pose proof (L 9 ltac:(lia)) as [A9 B9].
  pose proof (L 10 ltac:(lia)) as [A10 B10].
  pose proof (L 11 ltac:(lia)) as [A11 B11].
  pose proof (L 12 ltac:(lia)) as [A12 B12].
  pose proof (L 13 ltac:(lia)) as [A13 B13].
  pose proof (L 14 ltac:(lia)) as [A14 B14].
  pose proof (L 15 ltac:(lia)) as [A15 B15].
  clear L.
  cbn [Nat.add Nat.mul] in *.
  rewrite ?A0, ?A1, ?A2, ?A3, ?A4, ?A5, ?A6, ?A7, ?A8, ?A9, ?A10, ?A11, ?A12,
          ?A13, ?A14, ?A15.
  rewrite ?B0, ?B1, ?B2, ?B3, ?B4, ?B5, ?B6, ?B7, ?B8, ?B9, ?B10, ?B11, ?B12,
          ?B13, ?B14, ?B15.
  cbn [sum_upto Nat.add]. rewrite ?Nat.add_0_r. split; ring.
Qed.

End TileSumsFull.

Section PartGradKernelFull.
Variable rsqrt_fn : Qc -> Qc.
Local Abbreviation E := (exactQ rsqrt_fn).
Variable bd : dim3.
Hypothesis bd_x : dim_x bd = 32.
Hypothesis bd_y : dim_y bd = 4.
Variables (gd : dim3) (db xb mb ib pb pbb : nat) (eps : Qc).
Variables (n1 n2 : nat).
Hypothesis pb_pbb : pb <> pbb.

(** What block (bxi, byi) of cuComputePartGradGammaBeta stores with
    rms_only = false, whatever the shared memory held on entry. *)
Lemma part_grad_block2 (bxi byi : nat) (g : gmem) (buf : smem) :
  let g' := fst (cuComputePartGradGammaBeta E bd gd bxi byi (Some db) (Some xb)
                   n1 n2 (Some mb) (Some ib) eps (Some pb) (Some pbb) false
                   (g, buf)) in
  (forall b, b <> pb -> b <> pbb -> g' b = g b) /\
  (forall j, g' pb j =
     if (byi * n2 + bxi * 32 <=? j) && (j <? byi * n2 + bxi * 32 + 32)
        && (j - byi * n2 <? n2)
     then sum_over (grad_gamma_term_full g db xb mb ib n2 (j - byi * n2))
                   (part_rows 4 (dim_y gd) n1 byi)
     else g pb j) /\
  (forall j, g' pbb j =
     if (byi * n2 + bxi * 32 <=? j) && (j <? byi * n2 + bxi * 32 + 32)
        && (j - byi * n2 <? n2)
     then sum_over (grad_beta_term g db n2 (j - byi * n2))
                   (part_rows 4 (dim_y gd) n1 byi)
     else g pbb j).
Proof.
  cbv zeta. unfold cuComputePartGradGammaBeta. cbv zeta.
  rewrite !bd_x, !bd_y. cbn [negb fst snd].
  change (32 + 1) with 33. change (0 + 4 * 4 * 33) with 528.
  set (buf3 := cuComputePartGradGammaBeta_tiles E bd gd bxi byi (Some db)
                 (Some xb) n1 n2 (Some mb) (Some ib) false g buf).
  assert (V : forall tx, tx < 32 -> bxi * 32 + tx < n2 ->
            (buf3 (0 + (0 * 33 + tx))%nat + buf3 (0 + ((0 + 1) * 33 + tx))%nat)%Qc
            = sum_over (grad_beta_term g db n2 (bxi * 32 + tx))
                       (part_rows 4 (dim_y gd) n1 byi) /\
            (buf3 (528 + (0 * 33 + tx))%nat
             + buf3 (528 + ((0 + 1) * 33 + tx))%nat)%Qc
            = sum_over (grad_gamma_term_full g db xb mb ib n2 (bxi * 32 + tx))
                       (part_rows 4 (dim_y gd) n1 byi)).
  { intros tx H1 H2.
    apply (tiles_column_sum2 rsqrt_fn bd bd_x bd_y gd bxi byi db xb mb ib n1 n2
             g buf tx H1 H2). }
  clearbody buf3.
  assert (pbb_pb : pbb <> pb) by (intros X; apply pb_pbb; symmetry; exact X).
  split; [|split].
  - intros b Hb Hb'.
    apply (foreach_thread_inv bd _ (fun s : gmem => s b = g b)); [|reflexivity].
    intros tx ty s _ _ Hs.
    destruct ((ty =? 0) && (bxi * 32 + tx <? n2)); [|exact Hs].
    rewrite !store_other_buffer by assumption. exact Hs.
  - intros j.
    destruct ((byi * n2 + bxi * 32 <=? j) && (j <? byi * n2 + bxi * 32 + 32)
              && (j - byi * n2 <? n2)) eqn:Hj.
    + apply andb_true_iff in Hj. destruct Hj as [Hj Hj3].
      apply andb_true_iff in Hj. destruct Hj as [Hj1 Hj2].
      apply Nat.leb_le in Hj1. apply Nat.ltb_lt in Hj2. apply Nat.ltb_lt in Hj3.
      assert (Ej : j - byi * n2 = bxi * 32 + (j - byi * n2 - bxi * 32)) by lia.
      rewrite Ej at 1.
      destruct (V (j - byi * n2 - bxi * 32) ltac:(lia) ltac:(lia)) as [_ <-].
      apply (foreach_thread_establish bd _ (fun _ => True)
               (fun s : gmem => s pb j =
                  (buf3 (528 + (0 * 33 + (j - byi * n2 - bxi * 32)))%nat
                   + buf3 (528 + ((0 + 1) * 33 + (j - byi * n2 - bxi * 32)))%nat)%Qc)
               (j - byi * n2 - bxi * 32) 0);
        rewrite ?bd_x, ?bd_y; try lia; auto.
      * intros tx ty s Htx Hty _ Hs.
        destruct (Nat.eqb_spec ty 0) as [->|H2]; [|exact Hs].
        destruct (Nat.ltb_spec (bxi * 32 + tx) n2) as [H1|H1]; [|exact Hs].
        cbn [andb]. rewrite store_cell.
        destruct (Nat.eqb_spec j (byi * n2 + (bxi * 32 + tx))) as [->|Hne].
        -- replace (byi * n2 + (bxi * 32 + tx) - byi * n2 - bxi * 32) with tx by lia.
           reflexivity.
        -- rewrite store_other_buffer by exact pb_pbb. exact Hs.
      * intros s _. cbn [Nat.eqb andb].
        assert (C : (bxi * 32 + (j - byi * n2 - bxi * 32) <? n2) = true)
          by (apply Nat.ltb_lt; lia).
        rewrite C.
        replace (byi * n2 + (bxi * 32 + (j - byi * n2 - bxi * 32))) with j by lia.
        rewrite store_same. reflexivity.
    + apply (foreach_thread_inv bd _ (fun s : gmem => s pb j = g pb j));
        [|reflexivity].
      intros tx ty s Htx Hty Hs. rewrite bd_x in Htx.
      destruct (Nat.eqb_spec ty 0) as [->|H2]; [|exact Hs].
      destruct (Nat.ltb_spec (bxi * 32 + tx) n2) as [H1|H1]; [|exact Hs].
      cbn [andb]. rewrite store_cell.
      destruct (Nat.eqb_spec j (byi * n2 + (bxi * 32 + tx))) as [->|Hne].
      * exfalso. apply andb_false_iff in Hj. destruct Hj as [Hj|Hj].
        -- apply andb_false_iff in Hj. destruct Hj as [Hj|Hj].
           ++ apply Nat.leb_gt in Hj. lia.
           ++ apply Nat.ltb_ge in Hj. lia.
        -- apply Nat.ltb_ge in Hj. lia.
      * rewrite store_other_buffer by exact pb_pbb. exact Hs.
  - intros j.
    destruct ((byi * n2 + bxi * 32 <=? j) && (j <? byi * n2 + bxi * 32 + 32)
              && (j - byi * n2 <? n2)) eqn:Hj.
    + apply andb_true_iff in Hj. destruct Hj as [Hj Hj3].
      apply andb_true_iff in Hj. destruct Hj as [Hj1 Hj2].
      apply Nat.leb_le in Hj1. apply Nat.ltb_lt in Hj2. apply Nat.ltb_lt in Hj3.
      assert (Ej : j - byi * n2 = bxi * 32 + (j - byi * n2 - bxi * 32)) by lia.
      rewrite Ej at 1.
      destruct (V (j - byi * n2 - bxi * 32) ltac:(lia) ltac:(lia)) as [<- _].
      apply (foreach_thread_establish bd _ (fun _ => True)
               (fun s : gmem => s pbb j =
                  (buf3 (0 + (0 * 33 + (j - byi * n2 - bxi * 32)))%nat
                   + buf3 (0 + ((0 + 1) * 33 + (j - byi * n2 - bxi * 32)))%nat)%Qc)
               (j - byi * n2 - bxi * 32) 0);
        rewrite ?bd_x, ?bd_y; try lia; auto.
      * intros tx ty s Htx Hty _ Hs.
        destruct (Nat.eqb_spec ty 0) as [->|H2]; [|exact Hs].
        destruct (Nat.ltb_spec (bxi * 32 + tx) n2) as [H1|H1]; [|exact Hs].
        cbn [andb]. rewrite store_other_buffer by exact pbb_pb. rewrite store_cell.
        destruct (Nat.eqb_spec j (byi * n2 + (bxi * 32 + tx))) as [->|Hne];
          [|exact Hs].
        replace (byi * n2 + (bxi * 32 + tx) - byi * n2 - bxi * 32) with tx by lia.
        reflexivity.
      * intros s _. cbn [Nat.eqb andb].
        assert (C : (bxi * 32 + (j - byi * n2 - bxi * 32) <? n2) = true)
          by (apply Nat.ltb_lt; lia).
        rewrite C.
        replace (byi * n2 + (bxi * 32 + (j - byi * n2 - bxi * 32))) with j by lia.
        rewrite store_other_buffer by exact pbb_pb. rewrite store_same. reflexivity.
    + apply (foreach_thread_inv bd _ (fun s : gmem => s pbb j = g pbb j));
        [|reflexivity].
      intros tx ty s Htx Hty Hs. rewrite bd_x in Htx.
      destruct (Nat.eqb_spec ty 0) as [->|H2]; [|exact Hs].
      destruct (Nat.ltb_spec (bxi * 32 + tx) n2) as [H1|H1]; [|exact Hs].
      cbn [andb]. rewrite store_other_buffer by exact pbb_pb. rewrite store_cell.
      destruct (Nat.eqb_spec j (byi * n2 + (bxi * 32 + tx))) as [->|Hne];
        [|exact Hs].
      exfalso. apply andb_false_iff in Hj. destruct Hj as [Hj|Hj].
      * apply andb_false_iff in Hj. destruct Hj as [Hj|Hj].
        -- apply Nat.leb_gt in Hj. lia.
        -- apply Nat.ltb_ge in Hj. lia.
      * apply Nat.ltb_ge in Hj. lia.
Qed.

End PartGradKernelFull.

Section PartGradGridFull.
Variable rsqrt_fn : Qc -> Qc.
Local Abbreviation E := (exactQ rsqrt_fn).
Variable bd : dim3.
Hypothesis bd_x : dim_x bd = 32.
Hypothesis bd_y : dim_y bd = 4.
Variables (gd : dim3) (db xb mb ib pb pbb : nat) (eps : Qc).
Variables (n1 n2 : nat).
Hypothesis pb_pbb : pb <> pbb.
Hypothesis db_pb : db <> pb.
Hypothesis xb_pb : xb <> pb.
Hypothesis mb_pb : mb <> pb.
Hypothesis ib_pb : ib <> pb.
Hypothesis db_pbb : db <> pbb.
Hypothesis xb_pbb : xb <> pbb.
Hypothesis mb_pbb : mb <> pbb.
Hypothesis ib_pbb : ib <> pbb.

(** cuComputePartGradGammaBeta with rms_only = false on the grid [gd] of
    blocks of 32 x 4 threads: part_grad_gamma[p, i2] and part_grad_beta[p, i2]
    receive the terms of the rows of block row p; nothing else changes. *)
Lemma part_grad_kernel2 (junk : nat -> nat -> smem) (g : gmem) :
  let g' := launch_grid gd junk
              (fun x y => cuComputePartGradGammaBeta E bd gd x y (Some db)
                            (Some xb) n1 n2 (Some mb) (Some ib) eps (Some pb)
                            (Some pbb) false)
              g in
  (forall b, b <> pb -> b <> pbb -> g' b = g b) /\
  (forall p i2, p < dim_y gd -> i2 < n2 -> i2 < dim_x gd * 32 ->
     g' pb (p * n2 + i2) =
     sum_over (grad_gamma_term_full g db xb mb ib n2 i2)
              (part_rows 4 (dim_y gd) n1 p) /\
     g' pbb (p * n2 + i2) =
     sum_over (grad_beta_term g db n2 i2) (part_rows 4 (dim_y gd) n1 p)).
Proof.
  cbv zeta.
  set (blk := fun (x y : nat) => cuComputePartGradGammaBeta E bd gd x y (Some db)
                                   (Some xb) n1 n2 (Some mb) (Some ib) eps (Some pb)
                                   (Some pbb) false).
  set (TB := fun b => b = pb \/ b = pbb).
  set (tgt := fun (x y b j : nat) =>
         (y * n2 + x * 32 <=? j) && (j <? y * n2 + x * 32 + 32)
         && (j - y * n2 <? n2)).
  set (val := fun (g : @gmem Qc) (b j : nat) =>
         if b =? pb
         then sum_over (grad_gamma_term_full g db xb mb ib n2 (j mod n2))
                       (part_rows 4 (dim_y gd) n1 (j / n2))
         else sum_over (grad_beta_term g db n2 (j mod n2))
                       (part_rows 4 (dim_y gd) n1 (j / n2))).
  assert (Hne : (pbb =? pb) = false) by (apply Nat.eqb_neq; auto).
  assert (BF : forall x y g buf b, x < dim_x gd -> y < dim_y gd -> ~ TB b ->
            fst (blk x y (g, buf)) b = g b).
  { intros x y g0 buf b _ _ Hb. unfold blk.
    destruct (part_grad_block2 rsqrt_fn bd bd_x bd_y gd db xb mb ib pb pbb eps
                n1 n2 pb_pbb x y g0 buf) as (F & _).
    apply F; intros ->; apply Hb; unfold TB; auto. }
  assert (BC : forall x y g buf b j, x < dim_x gd -> y < dim_y gd -> TB b ->
            fst (blk x y (g, buf)) b j = if tgt x y b j then val g b j else g b j).
  { intros x y g0 buf b j _ _ Hb. unfold blk, tgt, val.
    destruct (part_grad_block2 rsqrt_fn bd bd_x bd_y gd db xb mb ib pb pbb eps
                n1 n2 pb_pbb x y g0 buf) as (_ & V1 & V2).
    cbv zeta in V1, V2.
    destruct Hb as [->| ->].
    - rewrite Nat.eqb_refl, V1.
      destruct ((y * n2 + x * 32 <=? j) && (j <? y * n2 + x * 32 + 32)
                && (j - y * n2 <? n2)) eqn:C; [|reflexivity].
      apply andb_true_iff in C. destruct C as [C C3].
      apply andb_true_iff in C. destruct C as [C1 C2].
      apply Nat.leb_le in C1. apply Nat.ltb_lt in C2. apply Nat.ltb_lt in C3.
      destruct (row_cell_index y n2 j) as [-> ->]; try lia. reflexivity.
    - rewrite Hne, V2.
      destruct ((y * n2 + x * 32 <=? j) && (j <? y * n2 + x * 32 + 32)
                && (j - y * n2 <? n2)) eqn:C; [|reflexivity].
      apply andb_true_iff in C. destruct C as [C C3].
      apply andb_true_iff in C. destruct C as [C1 C2].
      apply Nat.leb_le in C1. apply Nat.ltb_lt in C2. apply Nat.ltb_lt in C3.
      destruct (row_cell_index y n2 j) as [-> ->]; try lia. reflexivity. }
  assert (VS : forall g g' : @gmem Qc, (forall b, ~ TB b -> g' b = g b) ->
            forall b j, val g' b j = val g b j).
  { intros g0 g' H b j. unfold val.
    assert (Hd : g' db = g0 db) by (apply H; unfold TB; intros [X|X]; auto).
    assert (Hx : g' xb = g0 xb) by (apply H; unfold TB; intros [X|X]; auto).
    assert (Hm : g' mb = g0 mb) by (apply H; unfold TB; intros [X|X]; auto).
    assert (Hi : g' ib = g0 ib) by (apply H; unfold TB; intros [X|X]; auto).
    destruct (b =? pb); apply sum_over_ext; intros i1 _;
      unfold grad_gamma_term_full, grad_beta_term; rewrite ?Hd, ?Hx, ?Hm, ?Hi;
      reflexivity. }
  assert (T1 : TB pb) by (unfold TB; auto).
  assert (T2 : TB pbb) by (unfold TB; auto).
  split.
  - intros b Hb Hb'. apply (grid_frame blk gd TB junk BF).
    unfold TB. intros [X|X]; auto.
  - intros p i2 Hp Hi2 Hx.
    assert (X : i2 / 32 < dim_x gd) by dlia.
    assert (T : tgt (i2 / 32) p pb (p * n2 + i2) = true).
    { unfold tgt. apply andb_true_iff. split; [apply andb_true_iff; split|].
      - apply Nat.leb_le. dlia.
      - apply Nat.ltb_lt. dlia.
      - apply Nat.ltb_lt. lia. }
    destruct (row_cell_index p n2 (p * n2 + i2)) as [Ep Ei]; try lia.
    replace (p * n2 + i2 - p * n2) with i2 in Ei by lia.
    split.
    + rewrite (grid_cell_hit blk gd TB tgt val junk BF BC VS g (i2 / 32) p pb
                 (p * n2 + i2) T1 X Hp T).
      unfold val. rewrite Nat.eqb_refl, Ep, Ei. reflexivity.
    + rewrite (grid_cell_hit blk gd TB tgt val junk BF BC VS g (i2 / 32) p pbb
                 (p * n2 + i2) T2 X Hp T).
      unfold val. rewrite Hne, Ep, Ei. reflexivity.
Qed.

End PartGradGridFull.

Section PartGradFullExact.
Variable rsqrt_fn : Qc -> Qc.
Local Abbreviation E := (exactQ rsqrt_fn).


End PartGradFullExact.


